(** * test-runner-core: a shallow embedding of the runner and of the classes
    it is built from.

    The development follows the source files:
    - [StateMachine]    fsm-base, as bundled in dist/tests.js;
    - [Emitter]         obso, the bundle of dist/tests.js (for-of iteration);
    - [LegacyEmitter]   obso, the older bundle kept in the UMD build (forEach);
    - [TestUnit]        raceTimeout and the Test class of the UMD build;
    - [Queue]           lib/queue.mjs, whose source is missing;
    - [TestRunnerCore]  index.mjs, the orchestrator.

    An object that is mutated in place is passed explicitly from call to
    call, and a call that throws returns the object as the error left it.
    Asynchronous code is embedded with logical time.  For a test unit a
    promise is the instant at which it settles together with its outcome,
    and a timer fires after the delay [setTimeout] makes of the one it is
    given.  For the runner, what happens next in the traversal of the
    tree -- the callback of a timer runs, the run of a test settles, the
    handler of a rejection runs, a job of a queue settles -- is decided by
    a policy that the theorems leave arbitrary, so that the instants of
    the jobs in flight come in any order the queues allow. *)

From Stdlib Require Import List String Ascii ZArith Bool Lia Arith PeanoNat.
From Stdlib Require Import DecimalString DecimalN Permutation.
Import ListNotations.
Open Scope string_scope.
Open Scope list_scope.

Set Implicit Arguments.

(** ** JavaScript values that travel through the runner *)

(** A state of a state machine is a JS string, or [undefined] before the
    first move ([None]). *)
Definition State := option string.

Definition State_eqb (a b : State) : bool :=
  match a, b with
  | None, None => true
  | Some x, Some y => String.eqb x y
  | _, _ => false
  end.

(** Template-literal conversion of a state: [`${state}`]. *)
Definition show_state (s : State) : string :=
  match s with
  | Some x => x
  | None => "undefined"
  end.

(** [new Error(msg)] with its [name] property. *)
Record Error := mkError { err_name : string; message : string }.

(** ** lib/stats.mjs, whose source is missing *)
Module Stats.

(** Modelled from the spec: the Stats aggregator of lib/stats.mjs, which
    is missing.  It owns the counters pass, fail, skip, ignore and total,
    and the timestamps start and end. *)
Record t := mk {
  pass : nat;
  fail : nat;
  skip : nat;
  ignore : nat;
  total : nat;
  start : Z;
  end_ : Z
}.

(** Modelled from the spec: [new Stats()] of lib/stats.mjs, which is
    missing; the counters only increase, from nothing counted. *)
Definition new_ : t := mk 0 0 0 0 0 0 0.

Definition incr_pass (s : t) : t :=
  mk (S (pass s)) (fail s) (skip s) (ignore s) (total s) (start s) (end_ s).
Definition incr_fail (s : t) : t :=
  mk (pass s) (S (fail s)) (skip s) (ignore s) (total s) (start s) (end_ s).
Definition incr_skip (s : t) : t :=
  mk (pass s) (fail s) (S (skip s)) (ignore s) (total s) (start s) (end_ s).
Definition incr_ignore (s : t) : t :=
  mk (pass s) (fail s) (skip s) (S (ignore s)) (total s) (start s) (end_ s).
Definition set_total (n : nat) (s : t) : t :=
  mk (pass s) (fail s) (skip s) (ignore s) n (start s) (end_ s).
Definition set_start (z : Z) (s : t) : t :=
  mk (pass s) (fail s) (skip s) (ignore s) (total s) z (end_ s).
Definition set_end (z : Z) (s : t) : t :=
  mk (pass s) (fail s) (skip s) (ignore s) (total s) (start s) z.

End Stats.

Inductive Value :=
| VUndefined
| VNum (n : Z)
| VStr (s : string)
| VErr (e : Error)
| VTest (name : string)
| VStats (s : Stats.t).

Definition value_of_state (s : State) : Value :=
  match s with
  | Some x => VStr x
  | None => VUndefined
  end.

(** One call of [emit(eventName, ...args)]. *)
Record Event := mkEvent { ev_name : State; ev_args : list Value }.

(** What a call leaves behind: it returns, or it throws with the object in
    the state it had when the error left the call. *)
Inductive Completion (A : Type) :=
| Normal (a : A)
| Throw (e : Error) (a : A).

Arguments Normal {A} a.
Arguments Throw {A} e a.

(** How a promise settles, and a promise in logical time: the instant, in
    milliseconds after the call that made it, at which it settles, or
    [None] for a promise that never does. *)
Inductive Outcome :=
| Fulfilled (v : Value)
| Rejected (reason : Value).

Definition Promise := option (N * Outcome).

(** [Array.prototype.indexOf], with -1 for an absent element. *)
Fixpoint indexOf_from (A : Type) (eqb : A -> A -> bool) (x : A) (l : list A) (i : Z) : Z :=
  match l with
  | [] => (-1)%Z
  | y :: l' => if eqb y x then i else indexOf_from eqb x l' (i + 1)%Z
  end.

Definition indexOf (A : Type) (eqb : A -> A -> bool) (x : A) (l : list A) : Z :=
  indexOf_from eqb x l 0%Z.

(** ** fsm-base: [class StateMachine extends Emitter] *)
Module StateMachine.

(** A declared move, after the constructor has wrapped a lone [from] or
    [to] into an array. *)
Record Move := mkMove { from : list State; to : list State }.

(** The instance: the [_state] weak-map entry, [_validMoves], and the
    calls made to [this.emit], oldest first.  [commits] counts the calls
    of [_state.set]. *)
Record t := mk {
  state : State;
  _validMoves : list Move;
  emitted : list Event;
  commits : nat
}.

(** Modelled from the spec: the constructor of the fsm-base that
    index.mjs imports, which is missing: a machine is constructed with an
    initial state and a list of legal moves.  The constructor of the
    bundle of dist/tests.js takes [validMoves] alone and starts from
    [undefined]; that is [new_ None validMoves]. *)
Definition new_ (initialState : State) (validMoves : list Move) : t :=
  mk initialState validMoves [] 0.

Definition emit (eventName : State) (args : list Value) (m : t) : t :=
  mk (state m) (_validMoves m) (emitted m ++ [mkEvent eventName args]) (commits m).

Definition _state_set (s : State) (m : t) : t :=
  mk s (_validMoves m) (emitted m) (S (commits m)).

Definition has (s : State) (l : list State) : bool :=
  (indexOf State_eqb s l >? -1)%Z.

(** The body of [this._validMoves.forEach(move => ...)] in [setState]:
    [this.state] is read again at every move. *)
Definition visit_move (newState : State) (args : list Value) (prevState : State)
           (acc : t * bool) (move : Move) : t * bool :=
  let (m, moved) := acc in
  if has (state m) (from move) && has newState (to move) then
    (emit newState args
       (emit (Some "state") [value_of_state newState; value_of_state prevState]
          (_state_set newState m)), true)
  else (m, moved).

Definition quote (s : State) : string := ("'" ++ show_state s ++ "'")%string.

(** [.reduce(flatten)] without an initial value: a TypeError on the
    empty array. *)
Definition reduce_flatten (ls : list (list string)) : option (list string) :=
  match ls with
  | [] => None
  | l :: rest => Some (fold_left (fun prev curr => prev ++ curr) rest l)
  end.

(** The legal sources of [newState]: the quoted [from] of every move that
    has [newState] among its destinations. *)
Definition froms (newState : State) (moves : list Move) : option (list string) :=
  reduce_flatten
    (map (fun move => map quote (from move))
         (filter (fun move => has newState (to move)) moves)).

(** [froms.join(' or ') || '<unspecified>'] *)
Definition join_or (l : list string) : string :=
  let s := String.concat " or " l in
  if String.eqb s "" then "<unspecified>" else s.

Definition invalid_state_error (newState : State) : Error :=
  mkError "INVALID_MOVE" ("Invalid state: " ++ show_state newState)%string.

Definition invalid_move_error (newState prevState : State) (fs : list string) : Error :=
  mkError "INVALID_MOVE"
    ("Can only move to '" ++ show_state newState ++ "' from " ++ join_or fs
       ++ " (not '" ++ show_state prevState ++ "')")%string.

Definition type_error : Error :=
  mkError "TypeError" "Reduce of empty array with no initial value".

(** [setState (state, ...args)] *)
Definition setState (newState : State) (args : list Value) (m : t) : Completion t :=
  if State_eqb (state m) newState then Normal m
  else
    let validTo := existsb (fun move => has newState (to move)) (_validMoves m) in
    if negb validTo then Throw (invalid_state_error newState) m
    else
      let prevState := state m in
      let (m', moved) :=
        fold_left (visit_move newState args prevState) (_validMoves m) (m, false) in
      if negb moved then
        match froms newState (_validMoves m) with
        | Some fs => Throw (invalid_move_error newState prevState fs) m'
        | None => Throw type_error m'
        end
      else Normal m'.

(** The setter [set state (state)]. *)
Definition set_state (newState : State) (m : t) : Completion t :=
  setState newState [] m.

(** A declared move permits [a -> b]. *)
Definition permits (a b : State) (move : Move) : bool :=
  has a (from move) && has b (to move).

(** The quoted sources of the moves that lead to [newState]: the legal
    source states of that destination. *)
Definition legal_sources (newState : State) (moves : list Move) : list string :=
  flat_map (fun move => map quote (from move))
           (filter (fun move => has newState (to move)) moves).

(** The error of a refused call: the destination is declared nowhere, or
    it is and the error carries its legal sources. *)
Definition refusal (newState : State) (m : t) : Error :=
  if existsb (fun move => has newState (to move)) (_validMoves m)
  then invalid_move_error newState (state m) (legal_sources newState (_validMoves m))
  else invalid_state_error newState.

(** The machine after one commit and its pair of events. *)
Definition committed (newState : State) (args : list Value) (prevState : State)
           (m : t) : t :=
  emit newState args
    (emit (Some "state") [value_of_state newState; value_of_state prevState]
       (_state_set newState m)).

End StateMachine.

(** ** obso: [class Emitter]

    A handler is a JS function; the embedding names it by a number (two
    handlers are the same function exactly when their numbers agree) and
    gives its body as the calls it makes on [this] emitter.  A listener
    record is an object: [lid] is its identity, which is what
    [Array.prototype.indexOf] compares.  The emitters below have no
    [parent]; an absent [_listeners] array and an empty one behave alike in
    every method and are both the empty list. *)
Module Emitter.

Inductive Cmd :=
| CallOn (eventName : string) (handler : nat) (once : bool)
| CallRemoveEventListener (eventName : string) (handler : nat).

Record Listener := mkListener {
  lid : nat;
  eventName : string;
  handler : nat;
  once : bool
}.

(** One invocation of a handler: the listener record it came from, the
    function, and the arguments it saw. *)
Record Call := mkCall { call_lid : nat; call_handler : nat; call_args : list Value }.

Record t := mk {
  _listeners : list Listener;
  next_lid : nat;
  calls : list Call
}.

Definition new_ : t := mk [] 0 [].

(** The bodies of the handler functions of the program. *)
Definition Handlers := nat -> list Cmd.

(** The name under which a listener on every event is stored. *)
Definition ALL : string := "__ALL__".

(** [on (eventName, handler, options)] *)

Definition on (eventName : string) (handler : nat) (once : bool) (e : t) : t :=
  mk (_listeners e ++ [mkListener (next_lid e) eventName handler once])
     (S (next_lid e)) (calls e).

(** [on (handler)]: a listener on every event. *)
Definition on_any (handler : nat) (e : t) : t := on ALL handler false e.

(** [once (eventName, handler)] *)
Definition once_ (eventName : string) (handler : nat) (e : t) : t :=
  on eventName handler true e.

(** [Array.prototype.findIndex], as a position or [None] for -1. *)
Fixpoint findIndex (A : Type) (p : A -> bool) (l : list A) : option nat :=
  match l with
  | [] => None
  | x :: l' => if p x then Some 0 else option_map S (findIndex p l')
  end.

(** [array.splice(i, 1)] for [0 <= i]. *)
Fixpoint remove_at (A : Type) (i : nat) (l : list A) : list A :=
  match l, i with
  | [], _ => []
  | _ :: l', 0 => l'
  | x :: l', S i' => x :: remove_at i' l'
  end.

(** [array.splice(array.indexOf(x), 1)]: when [x] is absent, [indexOf] is
    -1 and [splice(-1, 1)] removes the last element. *)
Definition splice_indexOf (x : Listener) (l : list Listener) : list Listener :=
  match findIndex (fun y => Nat.eqb (lid y) (lid x)) l with
  | Some i => remove_at i l
  | None => removelast l
  end.

Definition removeEventListener (eventName0 : string) (handler0 : nat) (e : t) : t :=
  match findIndex (fun l => String.eqb (eventName l) eventName0
                            && Nat.eqb (handler l) handler0) (_listeners e) with
  | Some i => mk (remove_at i (_listeners e)) (next_lid e) (calls e)
  | None => e
  end.

Definition exec (c : Cmd) (e : t) : t :=
  match c with
  | CallOn n h o => on n h o e
  | CallRemoveEventListener n h => removeEventListener n h e
  end.

(** [listener.handler.call(this, ...handlerArgs)] *)
Definition invoke (H : Handlers) (l : Listener) (args : list Value) (e : t) : t :=
  fold_left (fun e c => exec c e) (H (handler l))
    (mk (_listeners e) (next_lid e) (calls e ++ [mkCall (lid l) (handler l) args])).

Definition matches (eventName0 : string) (l : Listener) : bool :=
  String.eqb (eventName l) ALL || String.eqb (eventName l) eventName0.

Definition handlerArgs (eventName0 : string) (args : list Value) (l : Listener) : list Value :=
  if String.eqb (eventName l) ALL then VStr eventName0 :: args else args.

(** [for (const listener of this._listeners)]: the array iterator reads
    the live array, one index after the other, until the index reaches the
    current length.  [None] when [fuel] steps were not enough. *)
Fixpoint for_of (H : Handlers) (fuel : nat) (eventName0 : string) (args : list Value)
         (i : nat) (toRemove : list Listener) (e : t) : option (t * list Listener) :=
  match nth_error (_listeners e) i with
  | None => Some (e, toRemove)
  | Some listener =>
      match fuel with
      | 0 => None
      | S fuel' =>
          if matches eventName0 listener then
            let e' := invoke H listener (handlerArgs eventName0 args listener) e in
            for_of H fuel' eventName0 args (S i)
                   (if once listener then toRemove ++ [listener] else toRemove) e'
          else for_of H fuel' eventName0 args (S i) toRemove e
      end
  end.

Definition remove_all (toRemove : list Listener) (e : t) : t :=
  mk (fold_left (fun ls l => splice_indexOf l ls) toRemove (_listeners e))
     (next_lid e) (calls e).

(** [emit (eventName, ...args)] *)
Definition emit (H : Handlers) (fuel : nat) (eventName0 : string) (args : list Value)
           (e : t) : option t :=
  match for_of H fuel eventName0 args 0 [] e with
  | Some (e', toRemove) => Some (remove_all toRemove e')
  | None => None
  end.

(** The listeners a call of [emit] finds registered for its event. *)
Definition matching (eventName0 : string) (e : t) : list Listener :=
  filter (matches eventName0) (_listeners e).

(** The listener records invoked since [e0]. *)
Definition invoked_since (e0 e1 : t) : list nat :=
  map call_lid (skipn (List.length (calls e0)) (calls e1)).

(** The records of an emitter are distinct objects: their identities are
    distinct, and below the next one to be given. *)
Definition distinct_records (e : t) : Prop :=
  NoDup (map lid (_listeners e)) /\
  forall l, In l (_listeners e) -> lid l < next_lid e.

(** The call a matching listener receives in [emit (eventName, ...args)]. *)
Definition call_of (eventName0 : string) (args : list Value) (l : Listener) : Call :=
  mkCall (lid l) (handler l) (handlerArgs eventName0 args l).

(** A listener registered under [name0] is invoked for [eventName0]. *)
Definition named_for (eventName0 name0 : string) : bool :=
  String.eqb name0 ALL || String.eqb name0 eventName0.

(** How many listeners the commands register. *)
Definition adds (cs : list Cmd) : nat :=
  List.length (filter (fun c => match c with
                                | CallOn _ _ _ => true
                                | CallRemoveEventListener _ _ => false
                                end) cs).

(** The listeners the commands register, the first with the identity
    [n]. *)
Fixpoint pushed (n : nat) (cs : list Cmd) : list Listener :=
  match cs with
  | [] => []
  | CallOn name0 handler0 once0 :: cs' =>
      mkListener n name0 handler0 once0 :: pushed (S n) cs'
  | CallRemoveEventListener _ _ :: cs' => pushed n cs'
  end.

(** The commands remove no listener, [R] telling the pairs of a name and
    a handler that listeners are registered with: the commands register
    such pairs, and call [removeEventListener] with other pairs only. *)
Definition removes_nothing (R : string -> nat -> bool) (cs : list Cmd) : bool :=
  forallb (fun c => match c with
                    | CallOn name0 handler0 _ => R name0 handler0
                    | CallRemoveEventListener name0 handler0 => negb (R name0 handler0)
                    end) cs.

End Emitter.

(** ** obso, as bundled in the UMD build: [emit] iterates with [forEach]
    and collects the [once] listeners outside the test on the name. *)
Module LegacyEmitter.

Import Emitter.

(** [this._listeners.forEach(listener => ...)]: the indices below the
    length the array had at the start, each read from the live array and
    skipped once it is past the end. *)
Fixpoint forEach (H : Handlers) (eventName0 : string) (args : list Value)
         (count i : nat) (toRemove : list Listener) (e : t) : t * list Listener :=
  match count with
  | 0 => (e, toRemove)
  | S count' =>
      match nth_error (_listeners e) i with
      | None => forEach H eventName0 args count' (S i) toRemove e
      | Some listener =>
          let e' :=
            if String.eqb (eventName listener) eventName0 then
              invoke H listener args e
            else if String.eqb (eventName listener) ALL then
              invoke H listener (VStr eventName0 :: args) e
            else e in
          forEach H eventName0 args count' (S i)
                  (if once listener then toRemove ++ [listener] else toRemove) e'
      end
  end.

Definition emit (H : Handlers) (eventName0 : string) (args : list Value) (e : t) : t :=
  let (e', toRemove) :=
    forEach H eventName0 args (List.length (_listeners e)) 0 [] e in
  remove_all toRemove e'.

End LegacyEmitter.

(** ** The Test class of the UMD build and [raceTimeout] *)
Module TestUnit.

(** [`${ms}`] for a number of milliseconds. *)
Definition show_ms (ms : N) : string := NilEmpty.string_of_uint (N.to_uint ms).

Definition timeout_message (ms : N) : string :=
  ("Timeout expired [" ++ show_ms ms ++ "]")%string.

(** [msg || `Timeout expired [${ms}]`]: an absent or empty message is
    falsy. *)
Definition or_default (msg : option string) (ms : N) : string :=
  match msg with
  | Some m => if String.eqb m "" then timeout_message ms else m
  | None => timeout_message ms
  end.


(** The delay after which the callback of [setTimeout(callback, ms)]
    runs: a delay that is less than 1 or larger than 2147483647 is set
    to 1. *)
Definition timer_delay (ms : N) : N :=
  if (ms <? 1)%N || (2147483647 <? ms)%N then 1%N else ms.

(** [raceTimeout (ms, msg)]: a promise that the timer rejects when its
    callback runs and that nothing resolves; the message is made of [ms]
    as it was given. *)
Definition raceTimeout (ms : N) (msg : option string) : Promise :=
  Some (timer_delay ms, Rejected (VErr (mkError "Error" (or_default msg ms)))).

(** [Promise.race([p, q])] settles as the first of the two to settle; of
    two that settle at the same instant the reaction registered first
    runs first, and that is [p]'s. *)
Definition race (p q : Promise) : Promise :=
  match p, q with
  | Some (tp, _), Some (tq, _) => if (tp <=? tq)%N then p else q
  | Some _, None => p
  | None, _ => q
  end.

(** When a thenable that is no promise passes a value to the callback
    its [then] was given: before [then] returns, [ms] milliseconds after,
    or never. *)
Inductive Resolution :=
| Within (v : Value)
| After (ms : N) (v : Value)
| Never.

(** What the test function does when it is called: it returns a value
    that is falsy or has no [then]; it throws; it returns a promise, or a
    thenable whose [then] returns a promise, [p] telling how
    [result.then(resolve).catch(reject)] settles [testFnResult]; or it
    returns a thenable on which [result.then(resolve).catch(reject)]
    throws [err]: its [then] returns nothing that has a [catch], and
    [err] is the TypeError of the engine. *)
Inductive Work :=
| Returns (v : Value)
| Throws (reason : Value)
| ReturnsThenable (p : Promise)
| ReturnsBare (how : Resolution) (err : Value).


Inductive TestState := pending | passed | failed.

(** [writes] counts the assignments to [this.state] after construction. *)
Record t := mk {
  name : string;
  testFn : Work;
  index : nat;
  timeout : N;
  state : TestState;
  writes : nat
}.

(** [new Test(name, testFn, options)]; [options.timeout] defaults to
    10000. *)
Definition new_ (name0 : string) (testFn0 : Work) (timeout0 : option N) : t :=
  mk name0 testFn0 1
     (match timeout0 with Some ms => ms | None => 10000%N end) pending 0.

Definition set_state (s : TestState) (u : t) : t :=
  mk (name u) (testFn u) (index u) (timeout u) s (S (writes u)).

(** [run ()]: the executor of [testFnResult] runs at once, then the race
    with the timer is set up.  When [result.then(resolve).catch(reject)]
    throws, the state has been set to 'passed' and the [catch] block sets
    it to 'failed'; its [reject(err)] settles [testFnResult] unless
    [then] has resolved it already. *)
Definition run (u : t) : t * Promise :=
  let (u', testFnResult) :=
    match testFn u with
    | Returns v => (set_state passed u, Some (0%N, Fulfilled v))
    | ReturnsThenable p => (set_state passed u, p)
    | ReturnsBare how err =>
        (set_state failed (set_state passed u),
         match how with
         | Within v => Some (0%N, Fulfilled v)
         | After _ _ | Never => Some (0%N, Rejected err)
         end)
    | Throws err => (set_state failed u, Some (0%N, Rejected err))
    end in
  (u', race testFnResult (raceTimeout (timeout u) None)).

End TestUnit.

(** ** lib/queue.mjs, whose source is missing *)
Module Queue.

(** The concurrency ceiling: a number, or infinity for no bound. *)
Inductive Ceiling := Finite (n : nat) | Unbounded.

Definition below (k : nat) (c : Ceiling) : bool :=
  match c with
  | Finite n => (k <? n)%nat
  | Unbounded => true
  end.

(** The smaller of the ceiling and [m]. *)
Definition cmin (c : Ceiling) (m : nat) : nat :=
  match c with
  | Finite n => Nat.min n m
  | Unbounded => m
  end.

Section WithJobs.

(** A job thunk. *)
Variable J : Type.

(** Modelled from the spec: the Queue of lib/queue.mjs, which is missing.
    It owns the ordered pending job thunks and the concurrency limit, and
    maintains the jobs in flight.  A thunk is known by its position in the
    array the queue was constructed with; [invoked] records every
    invocation of a thunk, oldest first. *)
Record t := mk {
  jobs : list (nat * J);
  maxConcurrency : Ceiling;
  active : list (nat * J);
  invoked : list nat
}.

(** Modelled from the spec: [new Queue(jobs, maxConcurrency)] of
    lib/queue.mjs, which is missing: every job pending, none in flight. *)
Definition new_ (thunks : list J) (limit : Ceiling) : t :=
  mk (combine (seq 0 (List.length thunks)) thunks) limit [] [].

(** Modelled from the spec: the scheduling loop of lib/queue.mjs, which
    is missing: while in-flight < N and pending jobs remain, pop the next
    pending job (FIFO) and start it, incrementing in-flight.  This is one
    turn of that loop. *)
Definition start_next (q : t) : option t :=
  if below (List.length (active q)) (maxConcurrency q) then
    match jobs q with
    | j :: rest =>
        Some (mk rest (maxConcurrency q) (active q ++ [j]) (invoked q ++ [fst j]))
    | [] => None
    end
  else None.

(** Modelled from the spec: the settlement of a job in lib/queue.mjs,
    which is missing: on a job's settlement, success or failure, in-flight
    is decremented. *)
Definition settle (i : nat) (q : t) : t :=
  mk (jobs q) (maxConcurrency q)
     (filter (fun j => negb (Nat.eqb (fst j) i)) (active q)) (invoked q).

(** The instants of [process()]: a job is started when the ceiling allows
    it, and any job in flight may be the next to settle. *)
Inductive step : t -> t -> Prop :=
| step_start (q q' : t) : start_next q = Some q' -> step q q'
| step_settle (q : t) (j : nat * J) : In j (active q) -> step q (settle (fst j) q).

Inductive reachable (q0 : t) : t -> Prop :=
| reach_here : reachable q0 q0
| reach_step (q q' : t) : reachable q0 q -> step q q' -> reachable q0 q'.

(** Modelled from the spec: the scheduling loop of lib/queue.mjs, which
    is missing, run until the ceiling or exhaustion is reached. *)
Fixpoint fill (fuel : nat) (q : t) : t :=
  match fuel with
  | 0 => q
  | S fuel' =>
      match start_next q with
      | Some q' => fill fuel' q'
      | None => q
      end
  end.

Definition fill_all (q : t) : t := fill (List.length (jobs q)) q.

(** What holds at every instant of a queue made of [M] thunks: the thunks
    invoked so far and those still pending are the [M] thunks in order,
    the jobs in flight and pending are no more than [M], and the jobs in
    flight are within a finite ceiling. *)
Definition inv (M : nat) (q : t) : Prop :=
  invoked q ++ map fst (jobs q) = seq 0 M /\
  List.length (active q) + List.length (jobs q) <= M /\
  forall n, maxConcurrency q = Finite n -> List.length (active q) <= n.

End WithJobs.

Section Process.

(** The state the jobs act on. *)
Variable S_ : Type.

(** A job as the caller of the queue sees it: what it has done to the
    shared state once it has settled, or [None] when it never settles.
    Its own failure is captured inside the thunk. *)
Definition Job := S_ -> option S_.

(** Which of the jobs in flight settles first is not the queue's to say.
    A policy tells it: given the thunks in flight, oldest first, the
    position of the one that settles next. *)
Definition Policy := list nat -> nat.

Definition oldest_first : Policy := fun _ => 0.

(** The job in flight that settles next; a position past the end falls
    back on the oldest. *)
Definition choose (pick : Policy) (inflight : list (nat * Job)) : option (nat * Job) :=
  match nth_error inflight (pick (map fst inflight)) with
  | Some j => Some j
  | None => hd_error inflight
  end.

(** Modelled from the spec: [process()] of lib/queue.mjs, which is
    missing.  Its future settles once every job has settled; after each
    settlement the queue starts more jobs.  [None] when the future never
    settles: a job in flight never does, or nothing is in flight and the
    ceiling lets no pending job start. *)
Fixpoint drain (pick : Policy) (fuel : nat) (q : t Job) (s : S_) : option S_ :=
  let q1 := fill_all q in
  match choose pick (active q1) with
  | None =>
      match jobs q1 with
      | [] => Some s
      | _ :: _ => None
      end
  | Some (i, job) =>
      match fuel with
      | 0 => None
      | S fuel' =>
          match job s with
          | Some s' => drain pick fuel' (settle i q1) s'
          | None => None
          end
      end
  end.

(** Modelled from the spec: [process()] of lib/queue.mjs, which is
    missing, from the first turn to the settlement of the last job, for
    jobs that act on the shared state at their settlement.  The jobs of
    [TestRunnerCore.runTomNode] act at several instants; its traversal
    follows the queue turn by turn, with [fill_all] and [settle]. *)
Definition process (pick : Policy) (q : t Job) (s : S_) : option S_ :=
  drain pick (List.length (jobs q) + List.length (active q)) q s.

(** The jobs one after the other, each from the state the one before it
    has left. *)
Definition run_in_order (thunks : list Job) (s : S_) : option S_ :=
  fold_left (fun acc job => match acc with Some s' => job s' | None => None end)
            thunks (Some s).

End Process.

End Queue.

(** ** index.mjs: [class TestRunnerCore extends StateMachine] *)
Module TestRunnerCore.

(** The events of the test object model the runner subscribes to. *)
Inductive Signal := tom_start | tom_pass | tom_fail | tom_skipped | tom_ignored.

(** What the collaborator's [run()] does on a node, as the runner sees it:
    the events that reach the listeners on the root, in order with their
    arguments, how the returned future settles, and how many of the events
    are emitted before [run()] returns; the others are emitted when the
    future settles. *)
Record TomRun := mkRun {
  signals : list (Signal * list Value);
  outcome : Outcome;
  sync : nat
}.

(** A node of the test object model: the fields the runner reads.
    [testFn] is whether the node carries a test function. *)
#[local] Unset Elimination Schemes.
Inductive Tom :=
| TomNode (name : string) (testFn : bool) (run : TomRun)
          (maxConcurrency : nat) (children : list Tom).
#[local] Set Elimination Schemes.

Definition name (t : Tom) : string := let (n, _, _, _, _) := t in n.
Definition testFn (t : Tom) : bool := let (_, f, _, _, _) := t in f.
Definition run_of (t : Tom) : TomRun := let (_, _, r, _, _) := t in r.
Definition maxConcurrency (t : Tom) : nat := let (_, _, _, m, _) := t in m.
Definition children (t : Tom) : list Tom := let (_, _, _, _, c) := t in c.

(** [Array.from(tom)]: the node, then its descendants. *)
Fixpoint iterate (t : Tom) : list Tom :=
  match t with
  | TomNode _ _ _ _ cs => t :: flat_map iterate cs
  end.

(** Modelled from the spec: [TOM.validate(tom)] of the collaborator, which
    accepts a tree every node of which declares a concurrency ceiling that
    is an integer of at least 1. *)
Definition validate (t : Tom) : bool :=
  forallb (fun n => 1 <=? maxConcurrency n)%nat (iterate t).

Definition invalid_tree_error : Error := mkError "Error" "InvalidTree".

(** The hooks a view defines. *)
Record View := mkView {
  init : bool;
  start_ : bool;
  end_ : bool;
  testStart : bool;
  testPass : bool;
  testFail : bool;
  testSkip : bool;
  testIgnore : bool
}.

Record Options := mkOptions { view : option View; debug : bool }.

(** The instance.  [sm] is the part inherited from StateMachine;
    [view_calls] and [console] record the calls of view hooks and of
    [console.error], oldest first. *)
Record t := mk {
  sm : StateMachine.t;
  options : Options;
  tom : Tom;
  ended : bool;
  stats : Stats.t;
  view_calls : list (string * list Value);
  console : list Value
}.

Definition state (r : t) : State := StateMachine.state (sm r).
Definition emitted (r : t) : list Event := StateMachine.emitted (sm r).

Definition validMoves : list StateMachine.Move :=
  [ StateMachine.mkMove [Some "pending"] [Some "in-progress"];
    StateMachine.mkMove [Some "in-progress"] [Some "pass"];
    StateMachine.mkMove [Some "in-progress"] [Some "fail"] ].

(** The instance the constructor builds once the tree is accepted: the
    machine in 'pending' with the three moves, fresh counters, not
    ended. *)
Definition fresh (tom0 : Tom) (options0 : Options) : t :=
  mk (StateMachine.new_ (Some "pending") validMoves)
     options0 tom0 false Stats.new_ [] [].

(** [new TestRunnerCore(tom, options)] *)
Definition new_ (tom0 : Tom) (options0 : Options) : Error + t :=
  if validate tom0 then inr (fresh tom0 options0)
  else inl invalid_tree_error.

Definition with_sm (m : StateMachine.t) (r : t) : t :=
  mk m (options r) (tom r) (ended r) (stats r) (view_calls r) (console r).

Definition with_stats (s : Stats.t) (r : t) : t :=
  mk (sm r) (options r) (tom r) (ended r) s (view_calls r) (console r).

Definition with_ended (b : bool) (r : t) : t :=
  mk (sm r) (options r) (tom r) b (stats r) (view_calls r) (console r).

Definition console_error (v : Value) (r : t) : t :=
  mk (sm r) (options r) (tom r) (ended r) (stats r) (view_calls r) (console r ++ [v]).

(** [if (this.view && this.view.hook) this.view.hook(...args)] *)
Definition view_call (has : View -> bool) (hook : string) (args : list Value) (r : t) : t :=
  match view (options r) with
  | Some v =>
      if has v then
        mk (sm r) (options r) (tom r) (ended r) (stats r)
           (view_calls r ++ [(hook, args)]) (console r)
      else r
  | None => r
  end.

(** [this.emit(eventName, ...args)] with the two listeners the
    constructor registers on the runner itself. *)
Definition emit (eventName : string) (args : list Value) (r : t) : t :=
  let r1 := with_sm (StateMachine.emit (Some eventName) args (sm r)) r in
  if String.eqb eventName "start" then view_call start_ "start" args r1
  else if String.eqb eventName "end" then view_call end_ "end" args r1
  else r1.

(** The listeners the constructor registers on the test object model. *)
Definition on_signal (r : t) (s : Signal * list Value) : t :=
  let (sig, args) := s in
  match sig with
  | tom_start =>
      view_call testStart "testStart" args (emit "test-start" args r)
  | tom_pass =>
      view_call testPass "testPass" args
        (emit "test-pass" args (with_stats (Stats.incr_pass (stats r)) r))
  | tom_fail =>
      view_call testFail "testFail" args
        (emit "test-fail" args (with_stats (Stats.incr_fail (stats r)) r))
  | tom_skipped =>
      view_call testSkip "testSkip" args
        (emit "test-skip" args (with_stats (Stats.incr_skip (stats r)) r))
  | tom_ignored =>
      view_call testIgnore "testIgnore" args
        (emit "test-ignore" args (with_stats (Stats.incr_ignore (stats r)) r))
  end.

(** [this.setState(state, ...args)], inherited. *)
Definition setState (newState : State) (args : list Value) (r : t) : Completion t :=
  match StateMachine.setState newState args (sm r) with
  | Normal m => Normal (with_sm m r)
  | Throw e m => Throw e (with_sm m r)
  end.

(** ['-----------------------\nDEBUG']: the rule, a line feed, the
    word. *)
Definition debug_header : string :=
  ("-----------------------" ++ String (Ascii.ascii_of_nat 10) "DEBUG")%string.

(** The handler of [.catch] in [runTomNode] and in [run]:
    [this.state = 'fail'], then the diagnostic lines in debug mode. *)
Definition on_rejection (err : Value) (r : t) : Completion t :=
  match setState (Some "fail") [] r with
  | Throw e r' => Throw e r'
  | Normal r' =>
      Normal
        (if debug (options r') then
           console_error (VStr "-----------------------")
             (console_error err
                (console_error (VStr "-----------------------")
                   (console_error (VStr debug_header) r')))
         else r')
  end.

(** [test.run().catch(...)]: the events of the run reach the runner, then
    a rejection reaches the handler. *)
Definition run_catch (test : Tom) (r : t) : Completion t :=
  let r1 := fold_left on_signal (signals (run_of test)) r in
  match outcome (run_of test) with
  | Fulfilled _ => Normal r1
  | Rejected err => on_rejection err r1
  end.

(** The instants of the run of a child in a job of [runTomNode]:
    [test.run()] is called when the thunk is started, and the events the
    run emits before it returns reach the runner then; the future of the
    run settles later, and the remaining events have reached the runner by
    then; the handler of [.catch] runs later still, when the future was
    rejected.  The instants of other jobs may come in between. *)
Inductive Action :=
| Call (n : Tom)
| Settle (n : Tom)
| Catch (n : Tom).

Definition at_call (n : Tom) : list (Signal * list Value) :=
  firstn (sync (run_of n)) (signals (run_of n)).

Definition at_settlement (n : Tom) : list (Signal * list Value) :=
  skipn (sync (run_of n)) (signals (run_of n)).

(** What an instant does to the runner.  A handler of [.catch] that
    throws makes its job reject, which the queue swallows. *)
Definition act (r : t) (a : Action) : t :=
  match a with
  | Call n => fold_left on_signal (at_call n) r
  | Settle n => fold_left on_signal (at_settlement n) r
  | Catch n =>
      match outcome (run_of n) with
      | Rejected err =>
          match on_rejection err r with
          | Normal r' => r'
          | Throw _ r' => r'
          end
      | Fulfilled _ => r
      end
  end.

(** The future of the node's [run()] rejects. *)
Definition rejects (test : Tom) : bool :=
  match outcome (run_of test) with
  | Rejected _ => true
  | Fulfilled _ => false
  end.

(** How far the run of a child has come: called, rejected with the
    handler of [.catch] still to run, or over with its handler. *)
Inductive Phase := Called | Failing | Over.

(** [runTomNode (tom)] at work.  The traversal under a node is
    [Scheduled] from the call of [runTomNode] until the callback of
    [setTimeout] runs; from then on it is the queue over the children of
    the node with the jobs in flight.  A job in flight,
    [Promise.all([promise, this.runTomNode(test)])], is the position of
    its thunk in the queue, the child with a number that tells the nodes
    of the tree apart, how far [promise] has come, and the traversal under
    the child. *)
Inductive Trav :=
| Scheduled (id : nat) (n : Tom)
| Processing (q : Queue.t (nat * Tom)) (flights : Flights)
with Flights :=
| FNil
| FCons (pos : nat) (id : nat) (n : Tom) (phase : Phase) (sub : Trav) (rest : Flights).

Scheme Trav_mut := Induction for Trav Sort Prop
  with Flights_mut := Induction for Flights Sort Prop.

Fixpoint fapp (a b : Flights) : Flights :=
  match a with
  | FNil => b
  | FCons pos id n ph sub rest => FCons pos id n ph sub (fapp rest b)
  end.

(** The children of a node with their numbers: the node numbered [i - 1]
    and its descendants are numbered as [Array.from(tom)] lists them. *)
Fixpoint number (i : nat) (cs : list Tom) : list (nat * Tom) :=
  match cs with
  | [] => []
  | c :: cs' => (i, c) :: number (i + List.length (iterate c)) cs'
  end.

(** The thunks the queue has just started: each has called [test.run()]
    and [this.runTomNode(test)]. *)
Fixpoint launch (started : list (nat * (nat * Tom))) : Flights :=
  match started with
  | [] => FNil
  | (pos, (id, n)) :: started' =>
      FCons pos id n Called (Scheduled id n) (launch started')
  end.

Definition calls (started : list (nat * (nat * Tom))) : list Action :=
  map (fun j => Call (snd (snd j))) started.

(** The callback of [setTimeout] in [runTomNode]: the queue is made of
    the thunks of the children and [process()] starts as many jobs as the
    ceiling of the node allows. *)
Definition begin (id : nat) (n : Tom) : list Action * Trav :=
  let q := Queue.fill_all
             (Queue.new_ (number (S id) (children n))
                         (Queue.Finite (maxConcurrency n))) in
  (calls (Queue.active q), Processing q (launch (Queue.active q))).

(** The job at [pos] has settled: the queue counts it out and starts the
    next pending jobs; [others] are the other jobs in flight. *)
Definition refill (pos : nat) (q : Queue.t (nat * Tom)) (others : Flights)
  : list Action * Trav :=
  let q0 := Queue.settle pos q in
  let q1 := Queue.fill_all q0 in
  let started := skipn (List.length (Queue.active q0)) (Queue.active q1) in
  (calls started, Processing q1 (fapp others (launch started))).

(** The future of [runTomNode] has resolved: the queue has neither a job
    in flight nor a pending one. *)
Definition finished (p : Trav) : bool :=
  match p with
  | Processing q FNil =>
      match Queue.jobs q with
      | [] => true
      | _ :: _ => false
      end
  | _ => false
  end.

(** What can happen next in a traversal, each possibility with a number
    for the policy, the instants it brings to the runner and the
    traversal after it: the callback of a scheduled traversal runs; the
    run of a job in flight settles; the handler of its [.catch] runs; the
    job settles, its run and the traversal under it being over, and the
    queue starts the next jobs; or something happens in the traversal
    under a job in flight. *)
Fixpoint steps (p : Trav) : list (nat * (list Action * Trav)) :=
  match p with
  | Scheduled id n => [(4 * id, begin id n)]
  | Processing q fs => steps_of q FNil fs
  end
with steps_of (q : Queue.t (nat * Tom)) (before fs : Flights) {struct fs}
  : list (nat * (list Action * Trav)) :=
  match fs with
  | FNil => []
  | FCons pos id n ph sub rest =>
      let here ph' sub' := Processing q (fapp before (FCons pos id n ph' sub' rest)) in
      match ph with
      | Called =>
          [(4 * id + 1, ([Settle n], here (if rejects n then Failing else Over) sub))]
      | Failing => [(4 * id + 2, ([Catch n], here Over sub))]
      | Over =>
          if finished sub then [(4 * id + 3, refill pos q (fapp before rest))] else []
      end ++
      map (fun s => (fst s, (fst (snd s), here ph (snd (snd s))))) (steps sub) ++
      steps_of q (fapp before (FCons pos id n ph sub FNil)) rest
  end.

(** What happens next; a position past the end falls back on the first
    possibility. *)
Definition next_step (pick : Queue.Policy) (l : list (nat * (list Action * Trav)))
  : option (list Action * Trav) :=
  match nth_error l (pick (map fst l)) with
  | Some s => Some (snd s)
  | None => option_map snd (hd_error l)
  end.

(** A traversal from where it is to the resolution of its future, one
    turn for each unit of [fuel]; [None] when the future never resolves,
    or has not resolved when the fuel is spent. *)
Fixpoint traverse (pick : Queue.Policy) (fuel : nat) (p : Trav) (r : t) : option t :=
  match next_step pick (steps p) with
  | None => if finished p then Some r else None
  | Some (acts, p') =>
      match fuel with
      | 0 => None
      | S fuel' => traverse pick fuel' p' (fold_left act acts r)
      end
  end.

(** [runTomNode (tom)] called on the root; [pick] tells what happens next
    at each turn.  A node takes four turns at most. *)
Definition runTomNode (pick : Queue.Policy) (tom0 : Tom) (r : t) : option t :=
  traverse pick (4 * List.length (iterate tom0)) (Scheduled 0 tom0) r.

(** The instants still to come in a run that is [ph] far. *)
Definition run_actions (ph : Phase) (n : Tom) : list Action :=
  match ph with
  | Called => Settle n :: (if rejects n then [Catch n] else [])
  | Failing => [Catch n]
  | Over => []
  end.

(** The instants of a node and of its descendants. *)
Fixpoint all_actions (n : Tom) : list Action :=
  match n with
  | TomNode _ _ _ _ cs => Call n :: run_actions Called n ++ flat_map all_actions cs
  end.

(** The instants still to come in a traversal. *)
Fixpoint todo (p : Trav) : list Action :=
  match p with
  | Scheduled _ n => flat_map all_actions (children n)
  | Processing q fs =>
      todo_in fs ++ flat_map (fun j => all_actions (snd (snd j))) (Queue.jobs q)
  end
with todo_in (fs : Flights) : list Action :=
  match fs with
  | FNil => []
  | FCons _ _ n ph sub rest => run_actions ph n ++ todo sub ++ todo_in rest
  end.

(** A bound on the turns still to come in a traversal. *)
Definition cost (ns : list Tom) : nat := 4 * List.length (flat_map iterate ns).

Fixpoint weight (p : Trav) : nat :=
  match p with
  | Scheduled _ n => 1 + cost (children n)
  | Processing q fs => weight_in fs + cost (map (fun j => snd (snd j)) (Queue.jobs q))
  end
with weight_in (fs : Flights) : nat :=
  match fs with
  | FNil => 0
  | FCons _ _ _ ph sub rest =>
      match ph with Called => 2 | Failing => 1 | Over => 0 end + 1 +
      weight sub + weight_in rest
  end.

(** The positions in the queue of the jobs in flight. *)
Fixpoint positions (fs : Flights) : list nat :=
  match fs with
  | FNil => []
  | FCons pos _ _ _ _ rest => pos :: positions rest
  end.

(** A traversal of a valid tree at any of its turns: the queue has room
    for a job, has started all the jobs it could, and its jobs in flight
    are the ones at work; the nodes still to come are valid. *)
Fixpoint sound (p : Trav) : Prop :=
  match p with
  | Scheduled _ n => validate n = true
  | Processing q fs =>
      (exists limit, Queue.maxConcurrency q = Queue.Finite limit /\ 1 <= limit) /\
      Queue.start_next q = None /\
      map fst (Queue.active q) = positions fs /\
      NoDup (map fst (Queue.active q ++ Queue.jobs q)) /\
      Forall (fun j => validate (snd (snd j)) = true) (Queue.jobs q) /\
      sound_in fs
  end
with sound_in (fs : Flights) : Prop :=
  match fs with
  | FNil => True
  | FCons _ _ _ _ sub rest => sound sub /\ sound_in rest
  end.

(** What a run leaves on the runner once its [.catch] has been through. *)
Definition visit (r : t) (test : Tom) : t :=
  match run_catch test r with
  | Normal r' => r'
  | Throw _ r' => r'
  end.

(** The event the runner republishes a signal as. *)
Definition event_of_signal (s : Signal * list Value) : Event :=
  let (sig, args) := s in
  mkEvent
    (Some match sig with
          | tom_start => "test-start"
          | tom_pass => "test-pass"
          | tom_fail => "test-fail"
          | tom_skipped => "test-skip"
          | tom_ignored => "test-ignore"
          end)
    args.

(** The counters after a sequence of signals. *)
Definition tally (s : Stats.t) (sigs : list (Signal * list Value)) : Stats.t :=
  fold_left
    (fun s sg =>
       match fst sg with
       | tom_start => s
       | tom_pass => Stats.incr_pass s
       | tom_fail => Stats.incr_fail s
       | tom_skipped => Stats.incr_skip s
       | tom_ignored => Stats.incr_ignore s
       end)
    sigs s.

Definition Signal_eqb (a b : Signal) : bool :=
  match a, b with
  | tom_start, tom_start | tom_pass, tom_pass | tom_fail, tom_fail
  | tom_skipped, tom_skipped | tom_ignored, tom_ignored => true
  | _, _ => false
  end.

(** How many of the signals are [sig]. *)
Definition count_signal (sig : Signal) (sigs : list (Signal * list Value)) : nat :=
  List.length (filter (fun sg => Signal_eqb (fst sg) sig) sigs).

(** The signals of every run of the tree, in the order of [iterate]. *)
Definition all_signals (t0 : Tom) : list (Signal * list Value) :=
  flat_map (fun n => signals (run_of n)) (iterate t0).

(** A runner in the middle of a run: the moves are the declared ones and
    the state is 'in-progress', or 'fail' once a run has been rejected. *)
Definition in_run (r : t) : Prop :=
  StateMachine._validMoves (sm r) = validMoves /\
  (state r = Some "in-progress" \/ state r = Some "fail").

(** What a step of the traversal leaves untouched. *)
Definition same_frame (r r' : t) : Prop :=
  options r' = options r /\ tom r' = tom r /\ ended r' = ended r.

(** The events of the move to 'fail'. *)
Definition fail_events : list Event :=
  [ mkEvent (Some "state") [VStr "fail"; VStr "in-progress"];
    mkEvent (Some "fail") [] ].

(** The events a run puts on the runner: its signals republished, then
    the move to 'fail' if the run is the first to be rejected. *)
Definition visit_events (failed : bool) (n : Tom) : list Event :=
  map event_of_signal (signals (run_of n)) ++
  (if rejects n && negb failed then fail_events else []).

(** The signals an instant brings to the runner. *)
Definition action_signals (a : Action) : list (Signal * list Value) :=
  match a with
  | Call n => at_call n
  | Settle n => at_settlement n
  | Catch _ => []
  end.

(** The instant is the handler of a rejection. *)
Definition catches (a : Action) : bool :=
  match a with
  | Catch n => rejects n
  | _ => false
  end.

(** The events an instant puts on the runner: its signals republished,
    or the move to 'fail' if the handler is the first to run. *)
Definition action_events (failed : bool) (a : Action) : list Event :=
  map event_of_signal (action_signals a) ++
  (if catches a && negb failed then fail_events else []).

Fixpoint trace_events (failed : bool) (trace : list Action) : list Event :=
  match trace with
  | [] => []
  | a :: trace' => action_events failed a ++ trace_events (failed || catches a) trace'
  end.

(** The instants of the run of a node, one after the other. *)
Definition own_actions (n : Tom) : list Action := Call n :: run_actions Called n.

Definition failed (r : t) : bool := State_eqb (state r) (Some "fail").

(** How the future of an async method ends. *)
Inductive Settlement :=
| Fulfils (r : t)
| Rejects (e : Error) (r : t)
| NeverSettles.

(** [Array.from(tom).filter(t => t.testFn).length]: the nodes of the tree
    that carry a test function. *)
Definition testCount (t0 : Tom) : nat := List.length (filter testFn (iterate t0)).

(** [start ()]; [now0] and [now1] are the two readings of [Date.now()]. *)
Definition start (pick : Queue.Policy) (now0 now1 : Z) (r : t) : Settlement :=
  let r := view_call init "init" [] r in
  let r := with_stats (Stats.set_start now0 (stats r)) r in
  let count := testCount (tom r) in
  let r := with_stats (Stats.set_total count (stats r)) r in
  match setState (Some "in-progress") [VNum (Z.of_nat count)] r with
  | Throw e r => Rejects e r
  | Normal r =>
      let r := emit "start" [VNum (Z.of_nat count)] r in
      match run_catch (tom r) r with
      | Throw e r => Rejects e r
      | Normal r =>
          match runTomNode pick (tom r) r with
          | None => NeverSettles
          | Some r =>
              let r := with_ended true r in
              match
                (if State_eqb (state r) (Some "fail") then Normal r
                 else setState (Some "pass") [] r)
              with
              | Throw e r => Rejects e r
              | Normal r =>
                  let r := with_stats (Stats.set_end now1 (stats r)) r in
                  Fulfils (emit "end" [VStats (stats r)] r)
              end
          end
      end
  end.

(** The events of the move to 'in-progress' and of the public start. *)
Definition start_events (count : nat) : list Event :=
  [ mkEvent (Some "state") [VStr "in-progress"; VStr "pending"];
    mkEvent (Some "in-progress") [VNum (Z.of_nat count)];
    mkEvent (Some "start") [VNum (Z.of_nat count)] ].

(** The events of the move to 'pass'. *)
Definition pass_events : list Event :=
  [ mkEvent (Some "state") [VStr "pass"; VStr "in-progress"];
    mkEvent (Some "pass") [] ].

(** The counters at the end of a run over [t0] that began with [s]. *)
Definition final_stats (now0 now1 : Z) (t0 : Tom) (s : Stats.t) : Stats.t :=
  Stats.set_end now1
    (tally (Stats.set_total (testCount t0) (Stats.set_start now0 s)) (all_signals t0)).

(** The state a run over [t0] ends in. *)
Definition final_state (t0 : Tom) : State :=
  if existsb rejects (iterate t0) then Some "fail" else Some "pass".

(** The events of a whole run that counts [count] tests and goes through
    the instants [trace] in that order, its counters ending as [s]. *)
Definition run_trace (count : nat) (trace : list Action) (s : Stats.t) : list Event :=
  start_events count ++
  trace_events false trace ++
  (if existsb catches trace then [] else pass_events) ++
  [mkEvent (Some "end") [VStats s]].

(** Runs as the collaborator reports them: a test whose function returns
    a result, a test whose function throws, a node without a test
    function, all three over before [run()] returns; a test whose function
    returns a future that fulfils later, and one whose future is rejected
    later. *)
Definition passing (n : string) (result : Value) : TomRun :=
  mkRun [(tom_start, [VTest n]); (tom_pass, [VTest n; result])] (Fulfilled result) 2.

Definition failing (n : string) (err : Value) : TomRun :=
  mkRun [(tom_start, [VTest n]); (tom_fail, [VTest n; err])] (Rejected err) 2.

Definition idle (n : string) : TomRun :=
  mkRun [(tom_ignored, [VTest n])] (Fulfilled VUndefined) 1.

Definition resolving (n : string) (result : Value) : TomRun :=
  mkRun [(tom_start, [VTest n]); (tom_pass, [VTest n; result])] (Fulfilled result) 1.

Definition rejecting (n : string) (err : Value) : TomRun :=
  mkRun [(tom_start, [VTest n]); (tom_fail, [VTest n; err])] (Rejected err) 1.

(** A root with two leaf tests: 'one' throws, 'two' returns a value. *)
Definition two_leaf_tree : Tom :=
  TomNode "tom" false (idle "tom") 10
    [ TomNode "one" true (failing "one" (VErr (mkError "Error" "broken"))) 10 [];
      TomNode "two" true (passing "two" (VNum 2)) 10 [] ].

(** A root with two leaf tests whose functions return futures: the one
    of 'one' is rejected, the one of 'two' fulfils. *)
Definition two_async_leaves : Tom :=
  TomNode "tom" false (idle "tom") 10
    [ TomNode "one" true (rejecting "one" (VErr (mkError "Error" "broken"))) 10 [];
      TomNode "two" true (resolving "two" (VNum 2)) 10 [] ].

(** A root with nothing under it. *)
Definition empty_tree : Tom := TomNode "tom" false (idle "tom") 10 [].

Definition no_options : Options := mkOptions None false.

End TestRunnerCore.

(** ** array-back: [arrayify] *)
Module Arrayify.

(** The inputs [arrayify] tells apart: [undefined], an array, an
    array-like object (an object with a numeric [length], such as
    [arguments]), and any other value, which is singular; [null] is one
    of those. *)
Inductive Input (A : Type) :=
| Undefined
| Array (items : list A)
| ArrayLike (items : list A)
| Singular (a : A).

Arguments Undefined {A}.
Arguments Array {A} items.
Arguments ArrayLike {A} items.
Arguments Singular {A} a.

(** [arrayify (input)]: the array itself, an empty array for undefined,
    [Array.prototype.slice.call(input)] for an array-like, and otherwise
    an array of the one value. *)
Definition arrayify (A : Type) (input : Input A) : list A :=
  match input with
  | Array items => items
  | Undefined => []
  | ArrayLike items => items
  | Singular a => [a]
  end.

End Arrayify.

(** ** fsm-base: the constructor of the bundle of dist/tests.js, and
    machines driven by sequences of calls *)
Module FsmBase.

(** [move.from] or [move.to] as the caller declares it: one state, or an
    array of states. *)
Inductive Ends :=
| Lone (s : State)
| Listed (l : list State).

Record RawMove := mkRaw { raw_from : Ends; raw_to : Ends }.

(** [if (!Array.isArray(x)) x = [ x ]] *)
Definition wrap (e : Ends) : list State :=
  match e with
  | Lone s => [s]
  | Listed l => l
  end.

Definition normalise (move : RawMove) : StateMachine.Move :=
  StateMachine.mkMove (wrap (raw_from move)) (wrap (raw_to move)).

(** [constructor (validMoves)]: the moves are [arrayify]-ed and their
    ends wrapped; the [_state] weak map has no entry yet, so the state
    reads [undefined]. *)
Definition construct (validMoves : Arrayify.Input RawMove) : StateMachine.t :=
  StateMachine.new_ None (map normalise (Arrayify.arrayify validMoves)).

(** The declaration names [s]. *)
Definition declares (e : Ends) (s : State) : Prop :=
  match e with
  | Lone x => x = s
  | Listed l => In s l
  end.

(** A call of [setState] whose error, if any, the caller catches: the
    machine is as the call left it. *)
Definition call (m : StateMachine.t) (c : State * list Value) : StateMachine.t :=
  match StateMachine.setState (fst c) (snd c) m with
  | Normal m' => m'
  | Throw _ m' => m'
  end.

Definition calls (cs : list (State * list Value)) (m : StateMachine.t) : StateMachine.t :=
  fold_left call cs m.

(** [s] is among the destinations of some declared move. *)
Definition destination (moves : list StateMachine.Move) (s : State) : bool :=
  existsb (fun move => StateMachine.has s (StateMachine.to move)) moves.

(** The two events of one commit. *)
Definition pair_of (newState prevState : State) (args : list Value) : list Event :=
  [ mkEvent (Some "state") [value_of_state newState; value_of_state prevState];
    mkEvent newState args ].

(** How many moves fire in a pass over [moves] that begins in the state
    [s]: a move that permits the transition from the state the machine is
    in fires, and the moves after it find the machine in [newState]. *)
Fixpoint firing (newState s : State) (moves : list StateMachine.Move) : nat :=
  match moves with
  | [] => 0
  | move :: moves' =>
      if StateMachine.permits s newState move
      then S (firing newState newState moves')
      else firing newState s moves'
  end.

End FsmBase.

(** ** obso: bubbling, [emitTarget] of the bundle of dist/tests.js *)
Module Bubbling.

Import Emitter.

(** [listener.handler.call(target, ...handlerArgs)] for a listener of the
    emitter [p]: the body of the handler runs on [target]; the call is
    recorded with the emitter that holds the listener. *)
Definition invoke_target (H : Handlers) (l : Listener) (args : list Value)
           (target p : t) : t * t :=
  (fold_left (fun e c => exec c e) (H (handler l)) target,
   mk (_listeners p) (next_lid p) (calls p ++ [mkCall (lid l) (handler l) args])).

(** The loop of [emitTarget] over [this._listeners], where [this] is
    [p]. *)
Fixpoint for_of_target (H : Handlers) (fuel : nat) (eventName0 : string)
         (args : list Value) (i : nat) (toRemove : list Listener)
         (target p : t) : option (t * t * list Listener) :=
  match nth_error (_listeners p) i with
  | None => Some (target, p, toRemove)
  | Some listener =>
      match fuel with
      | 0 => None
      | S fuel' =>
          if matches eventName0 listener then
            let (target', p') :=
              invoke_target H listener (handlerArgs eventName0 args listener) target p in
            for_of_target H fuel' eventName0 args (S i)
                          (if once listener then toRemove ++ [listener] else toRemove)
                          target' p'
          else for_of_target H fuel' eventName0 args (S i) toRemove target p
      end
  end.

(** [emitTarget (eventName, target, ...args)] on the emitter [p], whose
    ancestors are [ancestors], the parent first: the listeners of [p],
    the deferred removal, then the same on the parent. *)
Fixpoint emitTarget (H : Handlers) (fuel : nat) (eventName0 : string)
         (args : list Value) (target p : t) (ancestors : list t)
  : option (t * t * list t) :=
  match for_of_target H fuel eventName0 args 0 [] target p with
  | None => None
  | Some (target', p', toRemove) =>
      let p'' := remove_all toRemove p' in
      match ancestors with
      | [] => Some (target', p'', [])
      | parent :: rest =>
          match emitTarget H fuel eventName0 args target' parent rest with
          | Some (target'', parent', rest') => Some (target'', p'', parent' :: rest')
          | None => None
          end
      end
  end.

(** [emit (eventName, ...args)] on an emitter with ancestors: the local
    listeners, then [this.parent.emitTarget(eventName, this, ...args)]. *)
Definition emit (H : Handlers) (fuel : nat) (eventName0 : string)
           (args : list Value) (e : t) (ancestors : list t) : option (t * list t) :=
  match Emitter.emit H fuel eventName0 args e with
  | None => None
  | Some e' =>
      match ancestors with
      | [] => Some (e', [])
      | parent :: rest =>
          match emitTarget H fuel eventName0 args e' parent rest with
          | Some (e'', parent', rest') => Some (e'', parent' :: rest')
          | None => None
          end
      end
  end.

End Bubbling.

(** ** What the emitters are expected to do, for the statements below *)
Module Expected.

Import Emitter.

(** The record is a registration of [handler0] under [eventName0]: the
    test of [removeEventListener]. *)
Definition registered (eventName0 : string) (handler0 : nat) (l : Listener) : bool :=
  String.eqb (eventName l) eventName0 && Nat.eqb (handler l) handler0.

(** An emitter after an emission that called its matching listeners and
    then dropped those registered with [once]. *)
Definition bubbled (eventName0 : string) (args : list Value) (e : t) : t :=
  mk (filter (fun l => negb (matches eventName0 l && once l)) (_listeners e))
     (next_lid e)
     (calls e ++ map (call_of eventName0 args) (matching eventName0 e)).

(** The calls that the handlers of the matching listeners of the
    emitters make, in the order of the emitters and of the
    registrations. *)
Definition bodies (H : Handlers) (eventName0 : string) (es : list t) : list Cmd :=
  flat_map (fun e => flat_map (fun l => H (handler l)) (matching eventName0 e)) es.

(** The listeners the emitter of the UMD build invokes, and the call
    each receives. *)
Definition legacy_matches (eventName0 : string) (l : Listener) : bool :=
  String.eqb (eventName l) eventName0 || String.eqb (eventName l) ALL.

Definition legacy_call (eventName0 : string) (args : list Value) (l : Listener) : Call :=
  mkCall (lid l) (handler l)
         (if String.eqb (eventName l) eventName0 then args else VStr eventName0 :: args).

End Expected.

(** ** The views of the UMD build: [class ViewBase] *)
Module ViewBase.

Import Emitter.

(** [this._callback]: the five methods of the view, each bound by the
    constructor and so a function of its own. *)
Record Callbacks := mkCallbacks {
  cb_start : nat;
  cb_end : nat;
  cb_testPass : nat;
  cb_testFail : nat;
  cb_testSkip : nat
}.

(** A view; [attachedTo] is the runner it is attached to, known by its
    identity, and [None] when the field is undefined or null. *)
Record t := mk { _callback : Callbacks; attachedTo : option nat }.

Definition new_ (c : Callbacks) : t := mk c None.

(** The runners of the program, each an emitter, by identity. *)
Definition Runners := nat -> Emitter.t.

Definition update (runner : nat) (e : Emitter.t) (rs : Runners) : Runners :=
  fun k => if Nat.eqb k runner then e else rs k.

(** [this.attachedTo !== runner] *)
Definition attached_elsewhere (v : t) (runner : nat) : bool :=
  match attachedTo v with
  | Some r => negb (Nat.eqb r runner)
  | None => true
  end.

(** [attach (runner)] *)
Definition attach (runner : nat) (v : t) (rs : Runners) : t * Runners :=
  if attached_elsewhere v runner then
    let e := rs runner in
    let e := on "start" (cb_start (_callback v)) false e in
    let e := on "end" (cb_end (_callback v)) false e in
    let e := on "test-pass" (cb_testPass (_callback v)) false e in
    let e := on "test-fail" (cb_testFail (_callback v)) false e in
    let e := on "test-skip" (cb_testSkip (_callback v)) false e in
    (mk (_callback v) (Some runner), update runner e rs)
  else (v, rs).

(** [detach ()] *)
Definition detach (v : t) (rs : Runners) : t * Runners :=
  match attachedTo v with
  | Some runner =>
      let e := rs runner in
      let e := removeEventListener "start" (cb_start (_callback v)) e in
      let e := removeEventListener "end" (cb_end (_callback v)) e in
      let e := removeEventListener "test-pass" (cb_testPass (_callback v)) e in
      let e := removeEventListener "test-fail" (cb_testFail (_callback v)) e in
      let e := removeEventListener "test-skip" (cb_testSkip (_callback v)) e in
      (mk (_callback v) None, update runner e rs)
  | None => (v, rs)
  end.

(** The registrations a view makes: the name and the callback of each. *)
Definition registrations (c : Callbacks) : list (string * nat) :=
  [ ("start", cb_start c); ("end", cb_end c); ("test-pass", cb_testPass c);
    ("test-fail", cb_testFail c); ("test-skip", cb_testSkip c) ].

(** The record is one of the registrations of a view with the callbacks
    [c]. *)
Definition holds (c : Callbacks) (l : Listener) : bool :=
  existsb (fun p => String.eqb (eventName l) (fst p) && Nat.eqb (handler l) (snd p))
          (registrations c).

(** The five records [attach] appends when the next identity is [n]. *)
Definition attached_records (c : Callbacks) (n : nat) : list Listener :=
  [ mkListener n "start" (cb_start c) false;
    mkListener (1 + n) "end" (cb_end c) false;
    mkListener (2 + n) "test-pass" (cb_testPass c) false;
    mkListener (3 + n) "test-fail" (cb_testFail c) false;
    mkListener (4 + n) "test-skip" (cb_testSkip c) false ].

End ViewBase.

(** ** The runner of the UMD build: [removeAll] *)
Module RemoveAll.

Import Emitter.

(** [while (l = this._listeners.find(l => l.eventName === eventName))
    this._listeners.splice(this._listeners.indexOf(l), 1)]; [None] when
    [fuel] turns were not enough. *)
Fixpoint remove_while (fuel : nat) (eventName0 : string) (ls : list Listener)
  : option (list Listener) :=
  match find (fun l => String.eqb (eventName l) eventName0) ls with
  | None => Some ls
  | Some l =>
      match fuel with
      | 0 => None
      | S fuel' => remove_while fuel' eventName0 (splice_indexOf l ls)
      end
  end.

(** [removeAll (eventNames)] *)
Definition removeAll (fuel : nat) (eventNames : list string) (e : t) : option t :=
  match _listeners e with
  | [] => Some e
  | _ :: _ =>
      match
        fold_left
          (fun acc eventName0 =>
             match acc with
             | Some ls => remove_while fuel eventName0 ls
             | None => None
             end)
          eventNames (Some (_listeners e))
      with
      | Some ls => Some (mk ls (next_lid e) (calls e))
      | None => None
      end
  end.

(** The listener is registered under one of the names. *)
Definition named (eventNames : list string) (l : Listener) : bool :=
  existsb (String.eqb (eventName l)) eventNames.

End RemoveAll.

(** ** The runner of the UMD build: [class TestRunner extends Emitter] *)
Module UmdRunner.

(** A registered test: the Test object, known by its identity, with the
    [skip] and [only] properties the runner writes on it. *)
Record Entry := mkEntry {
  tid : nat;
  unit_ : TestUnit.t;
  test_skip : bool;
  test_only : bool
}.

(** The fields of the runner that registration and [start] read and
    write.  [emitter] is the part inherited from Emitter; [emitted]
    records the calls of [this.emit], oldest first; [_only] holds the
    tests registered with [only], by identity; [exitCode] is
    [process.exitCode].  The handlers of the listeners register and
    remove listeners and return. *)
Record t := mk {
  emitter : Emitter.t;
  emitted : list Event;
  sequential : bool;
  state : nat;
  tests : list Entry;
  _only : list nat;
  next_tid : nat;
  exitCode : option nat
}.

Definition with_emitter (e : Emitter.t) (r : t) : t :=
  mk e (emitted r) (sequential r) (state r) (tests r) (_only r) (next_tid r) (exitCode r).

Definition with_state (s : nat) (r : t) : t :=
  mk (emitter r) (emitted r) (sequential r) s (tests r) (_only r) (next_tid r) (exitCode r).

Definition with_tests (ts : list Entry) (r : t) : t :=
  mk (emitter r) (emitted r) (sequential r) (state r) ts (_only r) (next_tid r) (exitCode r).

Definition with_exitCode (c : option nat) (r : t) : t :=
  mk (emitter r) (emitted r) (sequential r) (state r) (tests r) (_only r) (next_tid r) c.

(** [new TestRunner(options)] with a view that is attached to nothing,
    in a process whose exit code is not set: [this.view = ...] attaches
    the view, which registers its callbacks on the runner. *)
Definition new_ (view : ViewBase.Callbacks) (sequential0 : bool) : t :=
  mk (snd (ViewBase.attach 0 (ViewBase.new_ view) (fun _ => Emitter.new_)) 0)
     [] sequential0 0 [] [] 0 None.

(** [test.index = n] *)
Definition set_index (n : nat) (u : TestUnit.t) : TestUnit.t :=
  TestUnit.mk (TestUnit.name u) (TestUnit.testFn u) n (TestUnit.timeout u)
              (TestUnit.state u) (TestUnit.writes u).

(** [test (name, testFn, options)]: the test is pushed, then its index
    is the length of the array. *)
Definition test (name0 : string) (testFn0 : TestUnit.Work) (timeout0 : option N)
           (r : t) : t :=
  mk (emitter r) (emitted r) (sequential r) (state r)
     (tests r ++
      [mkEntry (next_tid r)
               (set_index (S (List.length (tests r))) (TestUnit.new_ name0 testFn0 timeout0))
               false false])
     (_only r) (S (next_tid r)) (exitCode r).

(** [skip (name, testFn, options)]: [test], then [test.skip = true]. *)
Definition skip (name0 : string) (testFn0 : TestUnit.Work) (timeout0 : option N)
           (r : t) : t :=
  mk (emitter r) (emitted r) (sequential r) (state r)
     (tests r ++
      [mkEntry (next_tid r)
               (set_index (S (List.length (tests r))) (TestUnit.new_ name0 testFn0 timeout0))
               true false])
     (_only r) (S (next_tid r)) (exitCode r).

(** [only (name, testFn, options)]: [test], then [test.only = true] and
    the test is pushed on [_only]. *)
Definition only (name0 : string) (testFn0 : TestUnit.Work) (timeout0 : option N)
           (r : t) : t :=
  mk (emitter r) (emitted r) (sequential r) (state r)
     (tests r ++
      [mkEntry (next_tid r)
               (set_index (S (List.length (tests r))) (TestUnit.new_ name0 testFn0 timeout0))
               false true])
     (_only r ++ [next_tid r]) (S (next_tid r)) (exitCode r).

(** [clear ()] *)
Definition clear (r : t) : t :=
  mk (emitter r) (emitted r) (sequential r) (state r) [] [] (next_tid r) (exitCode r).

(** [this.emit(eventName, ...args)], inherited; the runner has no
    parent. *)
Definition emit (H : Emitter.Handlers) (eventName0 : string) (args : list Value)
           (r : t) : t :=
  mk (LegacyEmitter.emit H eventName0 args (emitter r))
     (emitted r ++ [mkEvent (Some eventName0) args])
     (sequential r) (state r) (tests r) (_only r) (next_tid r) (exitCode r).

(** The test as an argument of an event. *)
Definition arg (e : Entry) : Value := VTest (TestUnit.name (unit_ e)).

Definition emitPass (H : Emitter.Handlers) (e : Entry) (result : Value) (r : t) : t :=
  emit H "test-end" [arg e; result] (emit H "test-pass" [arg e; result] r).

(** [emitFail (test, err)], where [process] is defined. *)
Definition emitFail (H : Emitter.Handlers) (e : Entry) (err : Value) (r : t) : t :=
  emit H "test-end" [arg e; err]
       (emit H "test-fail" [arg e; err] (with_exitCode (Some 1) r)).

(** [if (this._only.length) for (const test of this.tests)
    if (this._only.indexOf(test) === -1) test.skip = true] *)
Definition mark_only (r : t) : t :=
  match _only r with
  | [] => r
  | _ :: _ =>
      with_tests
        (map (fun e =>
                if existsb (Nat.eqb (tid e)) (_only r) then e
                else mkEntry (tid e) (unit_ e) true (test_only e))
             (tests r))
        r
  end.

(** How the future of [start ()] settles. *)
Inductive Settled :=
| FulfilsWith (results : list Value)
| FulfilsUndefined
| RejectsWith (reason : Value).

(** The TypeError of a property read on [undefined], in the wording of
    V8. *)
Definition undefined_read (property : string) : Error :=
  mkError "TypeError"
          ("Cannot read properties of undefined (reading '" ++ property ++ "')")%string.

(** The function [run] of the sequential branch.  [todo] is the array
    [tests], which is [this.tests]; [tests.shift()] takes its head.  The
    handlers of [.then] and [.catch] run when the future of [test.run()]
    has settled; [None] when it never does. *)
Fixpoint run (H : Emitter.Handlers) (todo : list Entry) (r : t) : option (t * Settled) :=
  match todo with
  | [] => Some (r, RejectsWith (VErr (undefined_read "skip")))
  | e :: rest =>
      let r := with_tests rest r in
      let next (r' : t) : option (t * Settled) :=
        match rest with
        | [] => Some (r', FulfilsUndefined)
        | _ :: _ => run H rest r'
        end in
      if test_skip e then next (emit H "test-skip" [arg e] r)
      else
        match snd (TestUnit.run (unit_ e)) with
        | Some (_, Fulfilled result) => next (emitPass H e result r)
        | Some (_, Rejected err) => next (emitFail H e err r)
        | None => None
        end
  end.

(** An element of the array [tests.map] returns, with the test as the
    callback left it: nothing for a skipped test, the future of
    [test.run()] otherwise. *)
Definition Slot : Type := Entry * option Promise.

(** The callback of [tests.map], up to the call of [test.run()]. *)
Definition launch_one (H : Emitter.Handlers) (e : Entry) (r : t) : t * Slot :=
  if test_skip e then (emit H "test-skip" [arg e] r, (e, None))
  else
    let r1 := emit H "test-start" [arg e] r in
    let (u, p) := TestUnit.run (unit_ e) in
    (r1, (mkEntry (tid e) u (test_skip e) (test_only e), Some p)).

Fixpoint launch (H : Emitter.Handlers) (todo : list Entry) (r : t) : t * list Slot :=
  match todo with
  | [] => (r, [])
  | e :: rest =>
      let (r1, slot) := launch_one H e r in
      let (r2, slots) := launch H rest r1 in
      (r2, slot :: slots)
  end.

(** The handlers of [.then] and [.catch] on the future of a run, as a
    job on the runner: what they do once the future has settled. *)
Definition continuation (H : Emitter.Handlers) (slot : Slot) : Queue.Job t :=
  fun r =>
    match snd slot with
    | Some (Some (_, Fulfilled result)) => Some (emitPass H (fst slot) result r)
    | Some (Some (_, Rejected err)) => Some (emitFail H (fst slot) err r)
    | Some None => None
    | None => Some r
    end.

Definition running (slot : Slot) : bool :=
  match snd slot with
  | Some _ => true
  | None => false
  end.

(** The runs in flight after [tests.map], each with its position in the
    array. *)
Definition inflight (H : Emitter.Handlers) (slots : list Slot) : list (nat * Queue.Job t) :=
  map (fun s => (fst s, continuation H (snd s)))
      (filter (fun s => running (snd s)) (combine (seq 0 (List.length slots)) slots)).

(** The value [Promise.all] holds for an element of the array: the result
    of a run that fulfils, and [undefined] for a skipped test and for a
    run that rejects, whose [.catch] returns nothing. *)
Definition result_of (slot : Slot) : Value :=
  match snd slot with
  | Some (Some (_, Fulfilled result)) => result
  | _ => VUndefined
  end.

(** The runs in flight settle one after the other, in an order the runner
    does not decide: [pick] tells which is next.  [None] when one never
    settles, or when [fuel] settlements were not enough. *)
Fixpoint settle_all (pick : Queue.Policy) (fuel : nat)
         (flights : list (nat * Queue.Job t)) (r : t) {struct fuel} : option t :=
  match Queue.choose pick flights with
  | None => Some r
  | Some (i, job) =>
      match fuel with
      | 0 => None
      | S fuel' =>
          match job r with
          | Some r' =>
              settle_all pick fuel'
                         (filter (fun j => negb (Nat.eqb (fst j) i)) flights) r'
          | None => None
          end
      end
  end.

(** [start ()]; [None] when its future never settles. *)
Definition start (H : Emitter.Handlers) (pick : Queue.Policy) (r : t)
  : option (t * Settled) :=
  if negb (Nat.eqb (state r) 0) then Some (r, FulfilsUndefined)
  else
    let r := with_state 1 r in
    let r := mark_only r in
    let r := emit H "start" [VNum (Z.of_nat (List.length (tests r)))] r in
    if sequential r then run H (tests r) r
    else
      let (r1, slots) := launch H (tests r) r in
      let r2 := with_tests (map fst slots) r1 in
      match settle_all pick (List.length slots) (inflight H slots) r2 with
      | Some r3 => Some (emit H "end" [] (with_state 2 r3), FulfilsWith (map result_of slots))
      | None => None
      end.

(** A call of one of the three registration methods. *)
Inductive Kind := as_test | as_skip | as_only.

Record Registration := mkRegistration {
  kind : Kind;
  reg_name : string;
  reg_testFn : TestUnit.Work;
  reg_timeout : option N
}.

Definition register (r : t) (c : Registration) : t :=
  match kind c with
  | as_test => test (reg_name c) (reg_testFn c) (reg_timeout c) r
  | as_skip => skip (reg_name c) (reg_testFn c) (reg_timeout c) r
  | as_only => only (reg_name c) (reg_testFn c) (reg_timeout c) r
  end.

Definition registrations (cs : list Registration) (r : t) : t := fold_left register cs r.

Definition is_only (c : Registration) : bool :=
  match kind c with
  | as_only => true
  | _ => false
  end.

Definition is_skip (c : Registration) : bool :=
  match kind c with
  | as_skip => true
  | _ => false
  end.

(** The tests a sequence of registrations is expected to push, the first
    with the identity [tid0] and the index [index0]. *)
Fixpoint entries (tid0 index0 : nat) (cs : list Registration) : list Entry :=
  match cs with
  | [] => []
  | c :: cs' =>
      mkEntry tid0
              (set_index index0
                 (TestUnit.new_ (reg_name c) (reg_testFn c) (reg_timeout c)))
              (is_skip c) (is_only c)
      :: entries (S tid0) (S index0) cs'
  end.

(** The event the callback of [tests.map] is expected to emit for a
    registration when some test is registered with [only]. *)
Definition only_event (c : Registration) : Event :=
  mkEvent (Some (if is_only c then "test-start" else "test-skip")) [VTest (reg_name c)].

(** The name of a test, its index, and its [skip] and [only]
    properties. *)
Definition summary (e : Entry) : string * nat * bool * bool :=
  (TestUnit.name (unit_ e), TestUnit.index (unit_ e), test_skip e, test_only e).

(** The tests as [start] sees them once those outside [_only] are
    marked. *)
Definition marked (r : t) : list Entry := tests (mark_only r).

(** How the run of a test that is not skipped settles. *)
Definition outcome_of (e : Entry) : Promise := snd (TestUnit.run (unit_ e)).

(** The test after [tests.map]: run unless skipped. *)
Definition ran (e : Entry) : Entry :=
  if test_skip e then e
  else mkEntry (tid e) (fst (TestUnit.run (unit_ e))) (test_skip e) (test_only e).

(** The element of the mapped array for a test. *)
Definition slot_of (e : Entry) : Slot :=
  (ran e, if test_skip e then None else Some (outcome_of e)).

(** The event the callback of [tests.map] emits for a test. *)
Definition launch_event (e : Entry) : Event :=
  mkEvent (Some (if test_skip e then "test-skip" else "test-start")) [arg e].

(** The events of the settlement of a run. *)
Definition settle_events (e : Entry) : list Event :=
  match outcome_of e with
  | Some (_, Fulfilled result) =>
      [ mkEvent (Some "test-pass") [arg e; result];
        mkEvent (Some "test-end") [arg e; result] ]
  | Some (_, Rejected err) =>
      [ mkEvent (Some "test-fail") [arg e; err];
        mkEvent (Some "test-end") [arg e; err] ]
  | None => []
  end.

(** The events of a test in the sequential branch. *)
Definition sequential_events (e : Entry) : list Event :=
  if test_skip e then [mkEvent (Some "test-skip") [arg e]] else settle_events e.

(** The element of the results for a test. *)
Definition result (e : Entry) : Value :=
  if test_skip e then VUndefined
  else match outcome_of e with
       | Some (_, Fulfilled v) => v
       | _ => VUndefined
       end.

(** The test is run and its run rejects. *)
Definition fails (e : Entry) : bool :=
  negb (test_skip e) &&
  match outcome_of e with
  | Some (_, Rejected _) => true
  | _ => false
  end.

(** Three registrations: a test that returns 1, a test that throws, and
    a test registered with [only]. *)
Definition three_registrations : list Registration :=
  [ mkRegistration as_test "one" (TestUnit.Returns (VNum 1)) None;
    mkRegistration as_test "two"
                   (TestUnit.Throws (VErr (mkError "Error" "broken"))) None;
    mkRegistration as_only "three" (TestUnit.Returns VUndefined) None ].

(** A runner with a test that returns 1, a test that throws and a
    skipped test. *)
Definition three_tests (sequential0 : bool) : t :=
  registrations
    [ mkRegistration as_test "one" (TestUnit.Returns (VNum 1)) None;
      mkRegistration as_test "two"
                     (TestUnit.Throws (VErr (mkError "Error" "broken"))) None;
      mkRegistration as_skip "three" (TestUnit.Returns VUndefined) None ]
    (new_ (ViewBase.mkCallbacks 1 2 3 4 5) sequential0).

End UmdRunner.

(** ** The runner of the bundle of dist/tests.js:
    [class TestRunner extends StateMachine] *)
Module TomRunner.

(** The instance: the part inherited from StateMachine and the test
    object model.  [ran] records the calls of [test.run()], by the name
    of the node, oldest first.  The listeners of the runner, the
    callbacks of its view among them, are taken to return. *)
Record t := mk { sm : StateMachine.t; tom : TestRunnerCore.Tom; ran : list string }.

Definition state (r : t) : State := StateMachine.state (sm r).
Definition emitted (r : t) : list Event := StateMachine.emitted (sm r).

(** The moves the constructor declares, as it writes them. *)
Definition validMoves : Arrayify.Input FsmBase.RawMove :=
  Arrayify.Array
    [ FsmBase.mkRaw (FsmBase.Lone None) (FsmBase.Lone (Some "pending"));
      FsmBase.mkRaw (FsmBase.Lone (Some "pending")) (FsmBase.Lone (Some "start"));
      FsmBase.mkRaw (FsmBase.Lone (Some "start")) (FsmBase.Lone (Some "end")) ].

(** [new TestRunner({ tom })]: the machine is constructed, then
    [this.state = 'pending']. *)
Definition new_ (tom0 : TestRunnerCore.Tom) : Completion t :=
  match StateMachine.set_state (Some "pending") (FsmBase.construct validMoves) with
  | Normal m => Normal (mk m tom0 [])
  | Throw e m => Throw e (mk m tom0 [])
  end.

(** [test.run().catch(err => {})]: the value the future fulfils with. *)
Definition caught (test : TestRunnerCore.Tom) : Value :=
  match TestRunnerCore.outcome (TestRunnerCore.run_of test) with
  | Fulfilled v => v
  | Rejected _ => VUndefined
  end.

(** [runInParallel (tom)]: every node is run at once; the values are
    those [Promise.all] fulfils with. *)
Definition runInParallel (r : t) : t * list Value :=
  (mk (sm r) (tom r) (ran r ++ map TestRunnerCore.name (TestRunnerCore.iterate (tom r))),
   map caught (TestRunnerCore.iterate (tom r))).

(** The call of [start ()], up to the future it returns: the move to
    'start', which may throw, then the runs. *)
Definition start_call (r : t) : Completion (t * list Value) :=
  let count := List.length (TestRunnerCore.iterate (tom r)) in
  match StateMachine.setState (Some "start") [VNum (Z.of_nat count)] (sm r) with
  | Throw e m => Throw e (mk m (tom r) (ran r), [])
  | Normal m => Normal (runInParallel (mk m (tom r) (ran r)))
  end.

(** The handler of [.then] in [start ()], which runs when every run has
    settled: [this.state = 'end']. *)
Definition start_then (r : t) : Completion t :=
  match StateMachine.set_state (Some "end") (sm r) with
  | Throw e m => Throw e (mk m (tom r) (ran r))
  | Normal m => Normal (mk m (tom r) (ran r))
  end.

(** What a call of [start ()] comes to: it throws, or it returns a
    future that fulfils with the results or rejects. *)
Inductive Started :=
| Throws (e : Error) (r : t)
| Fulfils (results : list Value) (r : t)
| Rejects (e : Error) (r : t).

(** [start ()], when nothing else happens before its future settles. *)
Definition start (r : t) : Started :=
  match start_call r with
  | Throw e (r', _) => Throws e r'
  | Normal (r', results) =>
      match start_then r' with
      | Throw e r'' => Rejects e r''
      | Normal r'' => Fulfils results r''
      end
  end.

End TomRunner.

(** ** The steps of a run of TestRunnerCore, for the statements below *)
Module RunSteps.

Import TestRunnerCore.

(** [start ()] on a runner in 'pending', up to the traversal: the move to
    'in-progress' is made. *)
Definition opening (now0 : Z) (r : t) : t :=
  let r := view_call init "init" [] r in
  let r := with_stats (Stats.set_start now0 (stats r)) r in
  let count := testCount (tom r) in
  let r := with_stats (Stats.set_total count (stats r)) r in
  emit "start" [VNum (Z.of_nat count)]
       (with_sm (StateMachine.committed (Some "in-progress") [VNum (Z.of_nat count)]
                                        (Some "pending") (sm r)) r).

(** [start ()] after the traversal, on a runner in 'in-progress' or in
    'fail'. *)
Definition closing (now1 : Z) (r : t) : t :=
  let r := with_ended true r in
  let r := if failed r then r
           else with_sm (StateMachine.committed (Some "pass") [] (Some "in-progress")
                                                (sm r)) r in
  let r := with_stats (Stats.set_end now1 (stats r)) r in
  emit "end" [VStats (stats r)] r.

(** The call of a hook, made when there is a view and it defines the
    hook. *)
Definition hook_call (o : Options) (has : View -> bool) (hook : string)
           (args : list Value) : list (string * list Value) :=
  match view o with
  | Some v => if has v then [(hook, args)] else []
  | None => []
  end.

(** The hook a signal of the test object model leads to. *)
Definition signal_hook (o : Options) (s : Signal * list Value)
  : list (string * list Value) :=
  match fst s with
  | tom_start => hook_call o testStart "testStart" (snd s)
  | tom_pass => hook_call o testPass "testPass" (snd s)
  | tom_fail => hook_call o testFail "testFail" (snd s)
  | tom_skipped => hook_call o testSkip "testSkip" (snd s)
  | tom_ignored => hook_call o testIgnore "testIgnore" (snd s)
  end.

(** The lines of the debug mode for a rejected run. *)
Definition debug_lines (n : Tom) : list Value :=
  match outcome (run_of n) with
  | Rejected err =>
      [ VStr debug_header;
        VStr "-----------------------";
        err;
        VStr "-----------------------" ]
  | Fulfilled _ => []
  end.

(** The lines an instant writes in debug mode. *)
Definition action_lines (a : Action) : list Value :=
  match a with
  | Catch n => debug_lines n
  | _ => []
  end.

(** The events of a given name. *)
Definition named (eventName : string) (evs : list Event) : list Event :=
  filter (fun ev => State_eqb (ev_name ev) (Some eventName)) evs.

(** A view that defines the hooks of the start, of the end and of the
    failures, in debug mode. *)
Definition debug_options : Options :=
  mkOptions (Some (mkView false true true false false true false false)) true.

End RunSteps.

(** ** The accessor [set view (view)] of the runners *)
Module ViewSetter.

(** The runners and the views of the program, by identity: the listeners
    of each runner, each view, and the field [_view] of each runner. *)
Record World := mkWorld {
  emitters : ViewBase.Runners;
  views : nat -> ViewBase.t;
  _view : nat -> option nat
}.

Definition set_views (v : nat) (x : ViewBase.t) (w : World) : World :=
  mkWorld (emitters w) (fun k => if Nat.eqb k v then x else views w k) (_view w).

Definition set__view (runner : nat) (x : option nat) (w : World) : World :=
  mkWorld (emitters w) (views w) (fun k => if Nat.eqb k runner then x else _view w k).

(** [view.detach()] on the view [v]. *)
Definition detach (v : nat) (w : World) : World :=
  let (x, rs) := ViewBase.detach (views w v) (emitters w) in
  set_views v x (mkWorld rs (views w) (_view w)).

(** [view.attach(runner)] on the view [v]. *)
Definition attach (v runner : nat) (w : World) : World :=
  let (x, rs) := ViewBase.attach runner (views w v) (emitters w) in
  set_views v x (mkWorld rs (views w) (_view w)).

(** [if (this._view) this._view.detach()] *)
Definition detach_current (runner : nat) (w : World) : World :=
  match _view w runner with
  | Some old => detach old w
  | None => w
  end.

(** [runner.view = view], where [None] stands for a falsy value. *)
Definition set_view (view : option nat) (runner : nat) (w : World) : World :=
  match view with
  | Some v => attach v runner (set__view runner (Some v) (detach_current runner w))
  | None => set__view runner None (detach_current runner w)
  end.

(** Runners without listeners and without view, and views attached to
    nothing, each with callbacks of its own. *)
Definition blank : World :=
  mkWorld (fun _ => Emitter.new_)
          (fun k => ViewBase.new_
                      (ViewBase.mkCallbacks (5 * k) (5 * k + 1) (5 * k + 2) (5 * k + 3)
                                            (5 * k + 4)))
          (fun _ => None).

End ViewSetter.

(** ** The runner of the second bundle of dist/tests.js:
    [class TestRunner extends Emitter], which the web runner extends *)
Module WebRunner.

Import UmdRunner.

(** The instance is held in the record of the runner of the UMD build,
    of which [sequential] is not read: this runner has one branch.  A
    test is an entry whose unit holds the name, the function and the
    timeout; its [id] is the index of the unit. *)

(** The handlers of [.then] and [.catch] on the future of a run: both
    emit; the first passes the result on and the second throws the
    reason again, so that the future the callback of [tests.map] returns
    rejects with it. *)
Definition handlers (H : Emitter.Handlers) (e : Entry) (o : Outcome) (r : t)
  : t * option Value :=
  match o with
  | Fulfilled result =>
      (emit H "test-end" [arg e; result] (emit H "test-pass" [arg e; result] r), None)
  | Rejected err =>
      (emit H "test-end" [arg e; err] (emit H "test-fail" [arg e; err] r), Some err)
  end.

(** The handler of [.then] on [Promise.all]. *)
Definition on_fulfilled (H : Emitter.Handlers) (r : t) : t :=
  emit H "end" [] (with_state 2 r).

(** The handler of [.catch] on [Promise.all]. *)
Definition on_rejected (H : Emitter.Handlers) (r : t) : t :=
  emit H "end" [] (with_state 2 (with_exitCode (Some 1) r)).

(** A run in flight: its position in the array, the test, and how its
    future settles. *)
Definition Flight : Type := nat * (Entry * Outcome).

(** The runs in flight after [tests.map]; [None] when the future of one
    of them never settles. *)
Fixpoint flights_from (i : nat) (slots : list Slot) : option (list Flight) :=
  match slots with
  | [] => Some []
  | (e, slot) :: rest =>
      match slot, flights_from (S i) rest with
      | _, None => None
      | None, Some fs => Some fs
      | Some None, Some _ => None
      | Some (Some (_, o)), Some fs => Some ((i, (e, o)) :: fs)
      end
  end.

(** What may happen next: a run in flight settles, or, once
    [Promise.all] has rejected and its handler has not run yet, that
    handler runs; it is known by the number [n], which is no position. *)
Definition candidates (n : nat) (flights : list Flight) (rejected : option Value)
           (finished : option Settled) : list nat :=
  map fst flights ++
  match rejected, finished with
  | Some _, None => [n]
  | _, _ => []
  end.

(** The one the policy picks; a position past the end falls back on the
    first. *)
Definition next (pick : Queue.Policy) (ids : list nat) : option nat :=
  match nth_error ids (pick ids) with
  | Some i => Some i
  | None => hd_error ids
  end.

(** What happens after [tests.map], in an order the runner does not
    decide.  [rejected] is the reason [Promise.all] has rejected with,
    that of the first future to reject; [finished] is how the future of
    [start ()] has settled, once the handler on [Promise.all] has run.
    [None] when [fuel] turns were not enough. *)
Fixpoint settle (H : Emitter.Handlers) (pick : Queue.Policy) (n fuel : nat)
         (results : list Value) (flights : list Flight) (rejected : option Value)
         (finished : option Settled) (r : t) {struct fuel} : option (t * Settled) :=
  match next pick (candidates n flights rejected finished) with
  | None =>
      match finished with
      | Some s => Some (r, s)
      | None => Some (on_fulfilled H r, FulfilsWith results)
      end
  | Some i =>
      match fuel with
      | 0 => None
      | S fuel' =>
          match find (fun f => Nat.eqb (fst f) i) flights, rejected with
          | Some (_, (e, o)), _ =>
              let (r', rejection) := handlers H e o r in
              settle H pick n fuel' results
                     (filter (fun f => negb (Nat.eqb (fst f) i)) flights)
                     (match rejected with
                      | Some reason => Some reason
                      | None => rejection
                      end)
                     finished r'
          | None, Some reason =>
              settle H pick n fuel' results flights rejected
                     (Some (RejectsWith reason)) (on_rejected H r)
          | None, None => None
          end
      end
  end.

(** [start ()]; it returns nothing when the state is not 0.  [None] when
    a run never settles. *)
Definition start (H : Emitter.Handlers) (pick : Queue.Policy) (r : t)
  : option (t * option Settled) :=
  if negb (Nat.eqb (state r) 0) then Some (r, None)
  else
    let r := with_state 1 r in
    let r := mark_only r in
    let r := emit H "start" [VNum (Z.of_nat (List.length (tests r)))] r in
    let (r1, slots) := launch H (tests r) r in
    match flights_from 0 slots with
    | None => None
    | Some flights =>
        match
          settle H pick (List.length slots) (S (List.length slots))
                 (map result_of slots) flights None None r1
        with
        | Some (r2, s) => Some (r2, Some s)
        | None => None
        end
    end.

(** The reason the run of a test rejects with. *)
Definition reason (e : Entry) : Value :=
  match outcome_of e with
  | Some (_, Rejected err) => err
  | _ => VUndefined
  end.

(** The events of the settlement of a run in flight, whether its future
    rejects, and the reason. *)
Definition flight_events (f : Flight) : list Event :=
  match snd (snd f) with
  | Fulfilled result =>
      [ mkEvent (Some "test-pass") [arg (fst (snd f)); result];
        mkEvent (Some "test-end") [arg (fst (snd f)); result] ]
  | Rejected err =>
      [ mkEvent (Some "test-fail") [arg (fst (snd f)); err];
        mkEvent (Some "test-end") [arg (fst (snd f)); err] ]
  end.

Definition flight_fails (f : Flight) : bool :=
  match snd (snd f) with
  | Rejected _ => true
  | Fulfilled _ => false
  end.

Definition flight_reason (f : Flight) : Value :=
  match snd (snd f) with
  | Rejected err => err
  | Fulfilled _ => VUndefined
  end.

(** The run in flight the callback of [tests.map] leaves for a test that
    is not skipped, at the position [i]. *)
Definition flight_of (ie : nat * Entry) : Flight :=
  (fst ie,
   (ran (snd ie),
    match outcome_of (snd ie) with
    | Some (_, o) => o
    | None => Fulfilled VUndefined
    end)).

End WebRunner.

(** ** Handlers that register listeners, for the statements below *)
Module Registering.

Import Emitter.

(** The command is a call of [on]. *)
Definition registration (c : Cmd) : bool :=
  match c with
  | CallOn _ _ _ => true
  | CallRemoveEventListener _ _ => false
  end.

(** The records the calls of [on] among the commands push, the first
    with the identity [n]. *)
Fixpoint records (n : nat) (cs : list Cmd) : list Listener :=
  match cs with
  | [] => []
  | CallOn name0 handler0 once0 :: cs' =>
      mkListener n name0 handler0 once0 :: records (S n) cs'
  | CallRemoveEventListener _ _ :: cs' => records n cs'
  end.

(** The commands of the handlers of the listeners the emitter of the UMD
    build invokes, in the order of the invocations. *)
Definition commands (H : Handlers) (eventName0 : string) (ls : list Listener) : list Cmd :=
  flat_map (fun l => H (handler l)) (filter (Expected.legacy_matches eventName0) ls).

End Registering.

(** * Properties *)

(** ** Equality of states and [indexOf] *)

Lemma State_eqb_spec (a b : State) : reflect (a = b) (State_eqb a b).
Proof.
  destruct a as [x|], b as [y|]; simpl; try (constructor; congruence).
  destruct (String.eqb_spec x y); constructor; congruence.
Qed.

Lemma State_eqb_refl (a : State) : State_eqb a a = true.
Proof. destruct (State_eqb_spec a a); congruence. Qed.

Lemma State_eqb_neq (a b : State) : a <> b -> State_eqb a b = false.
Proof. destruct (State_eqb_spec a b); congruence. Qed.

Lemma indexOf_from_found (A : Type) (eqb : A -> A -> bool) (x : A) (l : list A) (i : Z) :
  (0 <= i)%Z ->
  ((indexOf_from eqb x l i >? -1)%Z = existsb (fun y => eqb y x) l).
Proof.
  revert i; induction l as [|y l IH]; intros i Hi; simpl.
  - reflexivity.
  - destruct (eqb y x); simpl.
    + apply Z.gtb_lt; lia.
    + apply IH; lia.
Qed.

Lemma indexOf_found (A : Type) (eqb : A -> A -> bool) (x : A) (l : list A) :
  ((indexOf eqb x l >? -1)%Z = existsb (fun y => eqb y x) l).
Proof. apply indexOf_from_found; lia. Qed.

(** ** The state machine *)
Section StateMachineFacts.

Import StateMachine.

Variables (newState : State) (args : list Value).

(** [has] is membership. *)
Lemma has_In (s : State) (l : list State) : has s l = true <-> In s l.
Proof.
  unfold has; rewrite indexOf_found, existsb_exists; split.
  - intros (y & Hy & E). destruct (State_eqb_spec y s); [now subst | discriminate].
  - intros Hin; exists s; split; [assumption | apply State_eqb_refl].
Qed.

(** A pass over moves none of which permits the move from the state the
    machine is in changes nothing. *)
Lemma visit_moves_none (prevState : State) (moves : list Move) (m : t) (moved : bool) :
  (forall move, In move moves -> permits (state m) newState move = false) ->
  fold_left (visit_move newState args prevState) moves (m, moved) = (m, moved).
Proof.
  induction moves as [|move moves IH]; intros Hno; simpl; [reflexivity|].
  unfold permits in Hno.
  rewrite (Hno move (or_introl eq_refl)).
  apply IH; intros mv Hin; apply Hno; now right.
Qed.

(** [reduce(flatten)] on a non-empty array is the concatenation. *)
Lemma reduce_flatten_concat (l : list string) (ls : list (list string)) :
  reduce_flatten (l :: ls) = Some (List.concat (l :: ls)).
Proof.
  simpl; f_equal; revert l; induction ls as [|x ls IH]; intros l; simpl.
  - now rewrite app_nil_r.
  - rewrite IH. now rewrite app_assoc.
Qed.

Lemma froms_legal_sources (moves : list Move) :
  existsb (fun move => has newState (to move)) moves = true ->
  froms newState moves = Some (legal_sources newState moves).
Proof.
  intros Hex; unfold froms, legal_sources.
  rewrite flat_map_concat_map.
  destruct (filter (fun move => has newState (to move)) moves) as [|mv rest] eqn:E.
  - exfalso. apply existsb_exists in Hex as (mv & Hin & Hto).
    assert (Hf : In mv (filter (fun move => has newState (to move)) moves))
      by (apply filter_In; now split).
    rewrite E in Hf; destruct Hf.
  - simpl map. apply reduce_flatten_concat.
Qed.

Lemma refusal_name (m : t) : err_name (refusal newState m) = "INVALID_MOVE".
Proof. unfold refusal; now destruct (existsb _ _). Qed.

Lemma setState_no_permit (m : t) :
  newState <> state m ->
  (forall move, In move (_validMoves m) -> permits (state m) newState move = false) ->
  setState newState args m = Throw (refusal newState m) m.
Proof.
  intros Hneq Hno; unfold setState, refusal.
  rewrite State_eqb_neq by congruence.
  destruct (existsb _ (_validMoves m)) eqn:Hex; simpl; [|reflexivity].
  rewrite visit_moves_none by assumption; simpl.
  now rewrite froms_legal_sources.
Qed.

(** C3. A call [setState(newState, ...)] with [newState] other than the
    current state, when no declared move has [newState] among its
    destinations or no declared move permits the move from the current
    state, throws an error named INVALID_MOVE and leaves the machine as it
    was; in the first case the error names the state, in the second it
    carries the legal sources of the destination. *)
Theorem setState_invalid_transition (m : t) :
  newState <> state m ->
  (forall move, In move (_validMoves m) -> has newState (to move) = false) \/
  (forall move, In move (_validMoves m) -> permits (state m) newState move = false) ->
  exists e : Error,
    setState newState args m = Throw e m /\
    err_name e = "INVALID_MOVE" /\
    ((forall move, In move (_validMoves m) -> has newState (to move) = false) ->
     e = invalid_state_error newState) /\
    ((exists move, In move (_validMoves m) /\ has newState (to move) = true) ->
     e = invalid_move_error newState (state m) (legal_sources newState (_validMoves m))).
Proof.
  intros Hneq Hor.
  assert (Hno : forall move, In move (_validMoves m) ->
                             permits (state m) newState move = false).
  { destruct Hor as [Hto|Hp]; [|exact Hp].
    intros move Hin; unfold permits; rewrite (Hto move Hin); apply andb_false_r. }
  exists (refusal newState m); repeat split.
  - now apply setState_no_permit.
  - apply refusal_name.
  - intros Hto; unfold refusal.
    destruct (existsb _ (_validMoves m)) eqn:Hex; [|reflexivity].
    apply existsb_exists in Hex as (mv & Hin & Hmv).
    rewrite (Hto mv Hin) in Hmv; discriminate.
  - intros (mv & Hin & Hmv); unfold refusal.
    replace (existsb _ (_validMoves m)) with true; [reflexivity|].
    symmetry; apply existsb_exists; now exists mv.
Qed.

End StateMachineFacts.

(** The concrete machine of the witness: the runner's moves, after a run
    that passed. *)
Lemma setState_invalid_transition_witness :
  exists e : Error,
    StateMachine.setState (Some "in-progress") [VNum 2]
      (StateMachine.new_ (Some "pass") TestRunnerCore.validMoves)
    = Throw e (StateMachine.new_ (Some "pass") TestRunnerCore.validMoves) /\
    err_name e = "INVALID_MOVE".
Proof.
  destruct (@setState_invalid_transition (Some "in-progress") [VNum 2]
              (StateMachine.new_ (Some "pass") TestRunnerCore.validMoves))
    as (e & He & Hname & _).
  - discriminate.
  - right; intros move [<-|[<-|[<-|[]]]]; reflexivity.
  - exists e; split; assumption.
Defined.

Section StateMachineCommit.

Import StateMachine.

Variables (newState : State) (args : list Value).

Lemma setState_same (m : t) :
  state m = newState -> setState newState args m = Normal m.
Proof. intros <-; unfold setState; now rewrite State_eqb_refl. Qed.

(** The pass over the moves commits at the first move that permits the
    transition; when no move loops on [newState], it commits nowhere
    else. *)
Lemma visit_moves_first (prevState : State) (moves : list Move) (m : t) (moved : bool) :
  (forall move, In move moves -> permits newState newState move = false) ->
  fold_left (visit_move newState args prevState) moves (m, moved) =
  if existsb (permits (state m) newState) moves
  then (committed newState args prevState m, true) else (m, moved).
Proof.
  revert m moved; induction moves as [|move moves IH]; intros m moved Hloop; simpl.
  - reflexivity.
  - unfold permits at 1.
    destruct (has (state m) (from move) && has newState (to move)) eqn:E; simpl.
    + apply visit_moves_none; intros mv Hin; simpl; apply Hloop; now right.
    + apply IH; intros mv Hin; apply Hloop; now right.
Qed.

(** Away from moves that loop on [newState], a permitted call commits
    once and emits the "state" event, then the event named after the new
    state. *)
Lemma setState_commits_once (m : t) :
  newState <> state m ->
  (exists move, In move (_validMoves m) /\ permits (state m) newState move = true) ->
  (forall move, In move (_validMoves m) -> permits newState newState move = false) ->
  setState newState args m = Normal (committed newState args (state m) m).
Proof.
  intros Hneq (mv & Hin & Hp) Hloop; unfold setState.
  rewrite State_eqb_neq by congruence.
  assert (Hto : existsb (fun move => has newState (to move)) (_validMoves m) = true).
  { apply existsb_exists; exists mv; split; [assumption|].
    unfold permits in Hp; now apply andb_true_iff in Hp. }
  rewrite Hto; simpl.
  rewrite visit_moves_first by assumption.
  replace (existsb (permits (state m) newState) (_validMoves m)) with true.
  - reflexivity.
  - symmetry; apply existsb_exists; now exists mv.
Qed.

End StateMachineCommit.

(** C4. The machine [new StateMachine([{ from: undefined, to: 'ready' },
    { from: [undefined, 'ready'], to: 'ready' }])] of the bundle, asked
    for [setState('ready', 1)]: both declared moves permit the transition.
    The call succeeds, and since the loop over the moves reads the state
    it has just written, the second move fires as well: two commits, and
    the pair of events twice. *)
Theorem setState_commits_twice :
  exists m : StateMachine.t,
    StateMachine.setState (Some "ready") [VNum 1]
      (StateMachine.new_ None
         [ StateMachine.mkMove [None] [Some "ready"];
           StateMachine.mkMove [None; Some "ready"] [Some "ready"] ])
    = Normal m /\
    StateMachine.state m = Some "ready" /\
    StateMachine.commits m = 2 /\
    StateMachine.emitted m =
      [ mkEvent (Some "state") [VStr "ready"; VUndefined];
        mkEvent (Some "ready") [VNum 1];
        mkEvent (Some "state") [VStr "ready"; VUndefined];
        mkEvent (Some "ready") [VNum 1] ].
Proof. eexists; repeat split. Qed.

(** Two moves that permit the transition and do not loop on the new
    state commit once. *)
Lemma setState_two_permitting_moves :
  StateMachine.setState (Some "ready") [VNum 1]
    (StateMachine.new_ None
       [ StateMachine.mkMove [None] [Some "ready"];
         StateMachine.mkMove [None; Some "set"] [Some "ready"] ])
  = Normal
      (StateMachine.mk (Some "ready")
         [ StateMachine.mkMove [None] [Some "ready"];
           StateMachine.mkMove [None; Some "set"] [Some "ready"] ]
         [ mkEvent (Some "state") [VStr "ready"; VUndefined];
           mkEvent (Some "ready") [VNum 1] ]
         1).
Proof. reflexivity. Qed.

(** ** The emitters *)
Section EmitterFacts.

Import Emitter.

Variable H : Handlers.
Variables (eventName0 : string) (args : list Value).

Lemma nth_error_middle (A : Type) (pre post : list A) (x : A) :
  nth_error (pre ++ x :: post) (List.length pre) = Some x.
Proof. induction pre as [|y pre IH]; simpl; [reflexivity | exact IH]. Qed.

Lemma nth_error_end (A : Type) (pre : list A) :
  nth_error (pre ++ []) (List.length pre) = None.
Proof. rewrite app_nil_r; apply nth_error_None; lia. Qed.

(** When the handlers of the matching listeners leave the array alone,
    the iteration calls every matching listener from the current index
    on, in order, and collects those registered with [once]. *)
Lemma for_of_static (post pre : list Listener) (fuel : nat)
      (toRemove : list Listener) (n : nat) (cs : list Call) :
  List.length post <= fuel ->
  (forall l, In l post -> matches eventName0 l = true -> H (handler l) = []) ->
  for_of H fuel eventName0 args (List.length pre) toRemove (mk (pre ++ post) n cs) =
  Some (mk (pre ++ post) n (cs ++ map (call_of eventName0 args) (filter (matches eventName0) post)),
        toRemove ++ filter once (filter (matches eventName0) post)).
Proof.
  revert pre fuel toRemove cs;
    induction post as [|x post IH]; intros pre fuel toRemove cs Hfuel Hstatic.
  - destruct fuel; simpl; rewrite nth_error_end, !app_nil_r; reflexivity.
  - destruct fuel as [|fuel]; [simpl in Hfuel; lia|].
    simpl for_of; simpl _listeners; rewrite nth_error_middle.
    assert (Hshift : pre ++ x :: post = (pre ++ [x]) ++ post)
      by (now rewrite <- app_assoc).
    assert (Hlen : S (List.length pre) = List.length (pre ++ [x]))
      by (rewrite length_app; simpl; lia).
    simpl filter.
    destruct (matches eventName0 x) eqn:Hm.
    + unfold invoke; rewrite (Hstatic x (or_introl eq_refl) Hm); simpl.
      rewrite Hshift, Hlen, IH.
      * rewrite <- !app_assoc; simpl.
        destruct (once x); simpl; rewrite <- ?app_assoc; reflexivity.
      * simpl in Hfuel; lia.
      * intros l Hin; apply Hstatic; now right.
    + rewrite Hshift, Hlen, IH.
      * reflexivity.
      * simpl in Hfuel; lia.
      * intros l Hin; apply Hstatic; now right.
Qed.

Lemma findIndex_none (A : Type) (p : A -> bool) (l : list A) :
  (forall x, In x l -> p x = false) -> findIndex p l = None.
Proof.
  induction l as [|x l IH]; intros Hp; simpl; [reflexivity|].
  rewrite (Hp x (or_introl eq_refl)), IH; [reflexivity|].
  intros y Hy; apply Hp; now right.
Qed.

Lemma filter_other_lids (x : Listener) (l : list Listener) :
  ~ In (lid x) (map lid l) ->
  filter (fun y => negb (Nat.eqb (lid y) (lid x))) l = l.
Proof.
  induction l as [|y l IH]; intros Hni; simpl; [reflexivity|].
  destruct (Nat.eqb_spec (lid y) (lid x)) as [E|E]; simpl.
  - exfalso; apply Hni; left; exact E.
  - f_equal; apply IH; intros Hi; apply Hni; now right.
Qed.

(** Among records with distinct identities, [splice(indexOf(x), 1)]
    takes [x] out and nothing else. *)
Lemma splice_indexOf_filter (x : Listener) (l : list Listener) :
  NoDup (map lid l) -> In x l ->
  splice_indexOf x l = filter (fun y => negb (Nat.eqb (lid y) (lid x))) l.
Proof.
  unfold splice_indexOf; induction l as [|y l IH]; intros Hnd Hin; [destruct Hin|].
  simpl in Hnd; apply NoDup_cons_iff in Hnd as [Hy Hnd]; simpl.
  destruct (Nat.eqb_spec (lid y) (lid x)) as [E|E]; simpl.
  - rewrite filter_other_lids; [reflexivity | now rewrite <- E].
  - destruct Hin as [->|Hin]; [congruence|].
    specialize (IH Hnd Hin).
    destruct (findIndex (fun y0 => Nat.eqb (lid y0) (lid x)) l) as [i|] eqn:Hfind; simpl.
    + now rewrite IH.
    + exfalso.
      assert (Hx : Nat.eqb (lid x) (lid x) = false).
      { clear - Hfind Hin; induction l as [|z l IHl]; [destruct Hin|].
        simpl in Hfind.
        destruct (Nat.eqb (lid z) (lid x)) eqn:Ez; [discriminate|].
        destruct Hin as [->|Hin]; [exact Ez|].
        apply IHl; [|exact Hin].
        destruct (findIndex _ l); [discriminate | reflexivity]. }
      rewrite Nat.eqb_refl in Hx; discriminate.
Qed.

Lemma NoDup_lid_filter (p : Listener -> bool) (l : list Listener) :
  NoDup (map lid l) -> NoDup (map lid (filter p l)).
Proof.
  induction l as [|x l IH]; intros Hnd; simpl; [constructor|].
  simpl in Hnd; apply NoDup_cons_iff in Hnd as [Hx Hnd].
  destruct (p x); simpl; [|now apply IH].
  constructor; [|now apply IH].
  intros Hin; apply Hx; apply in_map_iff in Hin as (y & <- & Hy).
  apply in_map, (proj1 (filter_In p y l)), Hy.
Qed.

Lemma lid_inj (l : list Listener) (x y : Listener) :
  NoDup (map lid l) -> In x l -> In y l -> lid x = lid y -> x = y.
Proof.
  induction l as [|z l IH]; intros Hnd Hx Hy E; [destruct Hx|].
  simpl in Hnd; apply NoDup_cons_iff in Hnd as [Hz Hnd].
  destruct Hx as [->|Hx], Hy as [->|Hy].
  - reflexivity.
  - exfalso; apply Hz; rewrite E; now apply in_map.
  - exfalso; apply Hz; rewrite <- E; now apply in_map.
  - now apply IH.
Qed.

(** The deferred removal takes out the listeners collected, and only
    them. *)
Lemma remove_collected (toRemove cur : list Listener) :
  NoDup (map lid cur) -> NoDup (map lid toRemove) -> incl toRemove cur ->
  fold_left (fun ls l => splice_indexOf l ls) toRemove cur =
  filter (fun y => negb (existsb (fun x => Nat.eqb (lid y) (lid x)) toRemove)) cur.
Proof.
  revert cur; induction toRemove as [|x toRemove IH]; intros cur Hcur Hrem Hincl; simpl.
  - symmetry; clear; induction cur as [|y cur IHc]; simpl; [reflexivity | now f_equal].
  - simpl in Hrem; apply NoDup_cons_iff in Hrem as [Hx Hrem].
    rewrite splice_indexOf_filter by (try assumption; apply Hincl; now left).
    rewrite IH.
    + clear; induction cur as [|y cur IHc]; simpl; [reflexivity|].
      destruct (Nat.eqb (lid y) (lid x)); simpl; [exact IHc|].
      destruct (existsb _ toRemove); simpl; [exact IHc | now f_equal].
    + now apply NoDup_lid_filter.
    + assumption.
    + intros z Hz; apply filter_In; split; [apply Hincl; now right|].
      destruct (Nat.eqb_spec (lid z) (lid x)) as [E|E]; [|reflexivity].
      exfalso; apply Hx; rewrite <- E; now apply in_map.
Qed.

(** After the emission the listeners that were invoked and registered
    with [once] are gone, and the others are all there. *)
Lemma remove_once_matching (ls : list Listener) :
  NoDup (map lid ls) ->
  fold_left (fun cur l => splice_indexOf l cur)
            (filter once (filter (matches eventName0) ls)) ls =
  filter (fun l => negb (matches eventName0 l && once l)) ls.
Proof.
  intros Hnd; rewrite remove_collected.
  - apply filter_ext_in; intros y Hy; f_equal.
    destruct (matches eventName0 y && once y) eqn:E.
    + apply existsb_exists; exists y; split; [|apply Nat.eqb_refl].
      apply andb_true_iff in E as [Em Eo].
      apply filter_In; split; [apply filter_In; now split | exact Eo].
    + destruct (existsb _ _) eqn:Ex; [|reflexivity].
      apply existsb_exists in Ex as (x & Hx & Exy).
      apply filter_In in Hx as [Hx Ho]; apply filter_In in Hx as [Hx Hm].
      apply Nat.eqb_eq in Exy.
      rewrite (@lid_inj ls y x Hnd Hy Hx Exy), Hm, Ho in E; discriminate.
  - assumption.
  - now do 2 apply NoDup_lid_filter.
  - intros x Hx; apply filter_In in Hx as [Hx _]; now apply filter_In in Hx as [Hx _].
Qed.

(** Emitters made by [new Emitter()] and [on] hold distinct records, and
    [removeEventListener] keeps them so. *)
Lemma new_distinct : distinct_records new_.
Proof. split; [constructor | intros l []]. Qed.

Lemma on_distinct (name0 : string) (h : nat) (o : bool) (e : t) :
  distinct_records e -> distinct_records (on name0 h o e).
Proof.
  intros [Hnd Hlt]; split; simpl.
  - rewrite map_app; simpl; apply NoDup_app; [assumption | repeat constructor; intros [] |].
    intros i Hi [<-|[]]; apply in_map_iff in Hi as (l & E & Hl).
    specialize (Hlt l Hl); lia.
  - intros l Hl; apply in_app_or in Hl as [Hl|[<-|[]]]; simpl; [|lia].
    specialize (Hlt l Hl); lia.
Qed.

Lemma remove_at_incl (A : Type) (i : nat) (l : list A) : incl (remove_at i l) l.
Proof.
  revert i; induction l as [|x l IH]; intros i y Hy; simpl in *; [destruct i; exact Hy|].
  destruct i as [|i]; [now right|].
  destruct Hy as [->|Hy]; [now left | right; exact (IH i y Hy)].
Qed.

Lemma remove_at_NoDup (i : nat) (l : list Listener) :
  NoDup (map lid l) -> NoDup (map lid (remove_at i l)).
Proof.
  revert i; induction l as [|x l IH]; intros i Hnd; simpl; [destruct i; constructor|].
  simpl in Hnd; apply NoDup_cons_iff in Hnd as [Hx Hnd].
  destruct i as [|i]; [assumption|]; simpl; constructor; [|now apply IH].
  intros Hin; apply Hx; apply in_map_iff in Hin as (y & <- & Hy).
  apply in_map; exact (@remove_at_incl _ i l y Hy).
Qed.

Lemma removeEventListener_distinct (name0 : string) (h : nat) (e : t) :
  distinct_records e -> distinct_records (removeEventListener name0 h e).
Proof.
  intros [Hnd Hlt]; unfold removeEventListener.
  destruct (findIndex _ (_listeners e)) as [i|]; [|now split].
  split; simpl; [now apply remove_at_NoDup|].
  intros l Hl; apply Hlt; exact (@remove_at_incl _ i (_listeners e) l Hl).
Qed.

Lemma adds_app (a b : list Cmd) : adds (a ++ b) = adds a + adds b.
Proof. unfold adds; now rewrite filter_app, length_app. Qed.

Lemma pushed_length (n : nat) (body : list Cmd) :
  List.length (pushed n body) = adds body.
Proof.
  revert n; induction body as [|[name0 h o|name0 h] body IH]; intros n; simpl.
  - reflexivity.
  - unfold adds in *; simpl; now rewrite IH.
  - unfold adds in *; simpl; apply IH.
Qed.

Lemma pushed_lids (n : nat) (body : list Cmd) :
  map lid (pushed n body) = seq n (adds body).
Proof.
  revert n; induction body as [|[name0 h o|name0 h] body IH]; intros n; simpl.
  - reflexivity.
  - unfold adds in *; simpl; now rewrite IH.
  - unfold adds in *; simpl; apply IH.
Qed.

Lemma pushed_in (n : nat) (body : list Cmd) (l : Listener) :
  In l (pushed n body) -> In (CallOn (eventName l) (handler l) (once l)) body.
Proof.
  revert n; induction body as [|[name0 h o|name0 h] body IH]; intros n; simpl.
  - intros [].
  - intros [<- | Hin]; [now left | right; exact (IH _ Hin)].
  - intros Hin; right; exact (IH _ Hin).
Qed.

Lemma adds_none (body : list Cmd) (name0 : string) (h : nat) (o : bool) :
  adds body = 0 -> ~ In (CallOn name0 h o) body.
Proof.
  unfold adds; intros Hnone Hin.
  assert (Hf : In (CallOn name0 h o)
                  (filter (fun c => match c with
                                    | CallOn _ _ _ => true
                                    | CallRemoveEventListener _ _ => false
                                    end) body))
    by (apply filter_In; now split).
  destruct (filter _ body); [destruct Hf | discriminate].
Qed.

(** A handler that removes no listener leaves the listeners where they
    are and pushes those it registers after them. *)
Lemma exec_removes_nothing (R : string -> nat -> bool) (body : list Cmd)
      (arr : list Listener) (n : nat) (cs : list Call) :
  (forall l, In l arr -> R (eventName l) (handler l) = true) ->
  removes_nothing R body = true ->
  fold_left (fun e c => exec c e) body (mk arr n cs) =
    mk (arr ++ pushed n body) (n + adds body) cs /\
  forall l, In l (pushed n body) -> R (eventName l) (handler l) = true.
Proof.
  revert arr n; induction body as [|[name0 h o|name0 h] body IH];
    intros arr n Harr Hbody; simpl in *.
  - rewrite app_nil_r, Nat.add_0_r; split; [reflexivity | intros l []].
  - apply andb_true_iff in Hbody as [Hr Hbody].
    destruct (IH (arr ++ [mkListener n name0 h o]) (S n)) as (Hrun & Hin); [|exact Hbody|].
    { intros l Hl; apply in_app_or in Hl as [Hl|[<-|[]]]; [now apply Harr | exact Hr]. }
    unfold on; simpl; rewrite Hrun, <- app_assoc; simpl.
    unfold adds; simpl; rewrite Nat.add_succ_r; split; [reflexivity|].
    intros l [<- | Hl]; [exact Hr | now apply Hin].
  - apply andb_true_iff in Hbody as [Hr Hbody].
    unfold removeEventListener at 1; simpl.
    rewrite findIndex_none; [now apply IH|].
    intros l Hl; specialize (Harr l Hl).
    destruct (String.eqb_spec (eventName l) name0) as [E|E]; [|reflexivity].
    destruct (Nat.eqb_spec (handler l) h) as [E'|E']; [|reflexivity].
    rewrite E, E' in Harr; rewrite Harr in Hr; discriminate.
Qed.

Lemma skipn_nth (A : Type) (l : list A) (i : nat) (x : A) :
  nth_error l i = Some x -> skipn i l = x :: skipn (S i) l.
Proof.
  revert i; induction l as [|y l IH]; intros [|i] Hnth; simpl in *; try discriminate.
  - now injection Hnth as ->.
  - now apply IH.
Qed.

(** The iteration, when the handlers it invokes remove no listener: it
    has called every matching listener from the current index on, those
    registered meanwhile included, in the order of the array. *)
Lemma for_of_adding (R : string -> nat -> bool) (fuel : nat) :
  (forall name0 h, R name0 h = true -> named_for eventName0 name0 = true ->
                   removes_nothing R (H h) = true) ->
  forall (i : nat) (toRemove arr : list Listener) (n : nat) (cs : list Call)
         (e' : t) (rem : list Listener),
    (forall l, In l arr -> R (eventName l) (handler l) = true) ->
    for_of H fuel eventName0 args i toRemove (mk arr n cs) = Some (e', rem) ->
    exists added : list Listener,
      e' = mk (arr ++ added) (n + List.length added)
              (cs ++ map (call_of eventName0 args)
                         (filter (matches eventName0) (skipn i (arr ++ added)))) /\
      rem = toRemove ++
            filter once (filter (matches eventName0) (skipn i (arr ++ added))) /\
      map lid added = seq n (List.length added) /\
      forall l, In l added -> R (eventName l) (handler l) = true.
Proof.
  intros Hclosed.
  assert (Hend : forall i toRemove arr n cs,
             nth_error arr i = None ->
             exists added : list Listener,
               mk arr n cs =
                 mk (arr ++ added) (n + List.length added)
                    (cs ++ map (call_of eventName0 args)
                               (filter (matches eventName0) (skipn i (arr ++ added)))) /\
               toRemove = toRemove ++
                 filter once (filter (matches eventName0) (skipn i (arr ++ added))) /\
               map lid added = seq n (List.length added) /\
               forall l, In l added -> R (eventName l) (handler l) = true).
  { intros i toRemove arr n cs Hnone; exists []; simpl.
    apply nth_error_None in Hnone.
    rewrite !app_nil_r, Nat.add_0_r, skipn_all2 by assumption; simpl.
    rewrite !app_nil_r; repeat split; intros l []. }
  induction fuel as [|fuel IH]; intros i toRemove arr n cs e' rem Harr Hrun;
    simpl in Hrun; destruct (nth_error arr i) as [x|] eqn:Hnth;
    try discriminate;
    try (injection Hrun as <- <-; now apply Hend).
  assert (Hx : In x arr) by (eapply nth_error_In; eassumption).
  assert (Hskip : forall added,
             skipn i (arr ++ added) = x :: skipn (S i) (arr ++ added)).
  { intros added; apply skipn_nth; rewrite nth_error_app1; [exact Hnth|].
    apply nth_error_Some; congruence. }
  destruct (matches eventName0 x) eqn:Hm.
  - unfold invoke in Hrun; simpl in Hrun.
    destruct (@exec_removes_nothing R (H (handler x)) arr n
                (cs ++ [mkCall (lid x) (handler x) (handlerArgs eventName0 args x)]) Harr)
      as (Hbody & Hpushed); [apply (Hclosed (eventName x)); [now apply Harr | exact Hm]|].
    rewrite Hbody in Hrun.
    apply IH in Hrun as (added & -> & -> & Hlids & Hadded).
    + exists (pushed n (H (handler x)) ++ added).
      rewrite (Hskip (pushed n (H (handler x)) ++ added)), (app_assoc arr).
      cbn [filter map]; rewrite Hm; cbn [filter map].
      rewrite length_app, pushed_length, Nat.add_assoc.
      split; [f_equal; rewrite <- app_assoc; reflexivity|]. split.
      * destruct (once x); cbn [filter]; rewrite <- ?app_assoc; reflexivity.
      * split.
        -- rewrite map_app, pushed_lids, Hlids, seq_app; reflexivity.
        -- intros l Hl; apply in_app_or in Hl as [Hl|Hl]; auto.
    + intros l Hl; apply in_app_or in Hl as [Hl|Hl]; auto.
  - apply IH in Hrun as (added & -> & -> & Hlids & Hadded); [|exact Harr].
    exists added; rewrite Hskip; simpl; rewrite Hm; repeat split; assumption.
Qed.

(** The iteration returns when the listeners registered meanwhile and
    invoked register none themselves. *)
Lemma for_of_returns (R : string -> nat -> bool) (fuel : nat) :
  (forall name0 h, R name0 h = true -> named_for eventName0 name0 = true ->
                   removes_nothing R (H h) = true) ->
  forall (i : nat) (toRemove arr : list Listener) (n : nat) (cs : list Call),
    (forall l, In l arr -> R (eventName l) (handler l) = true) ->
    (forall l name0 h o,
        In l (filter (matches eventName0) (skipn i arr)) ->
        In (CallOn name0 h o) (H (handler l)) ->
        named_for eventName0 name0 = true -> adds (H h) = 0) ->
    (List.length arr - i) +
    adds (flat_map (fun l => H (handler l)) (filter (matches eventName0) (skipn i arr)))
    <= fuel ->
    exists res, for_of H fuel eventName0 args i toRemove (mk arr n cs) = Some res.
Proof.
  intros Hclosed; induction fuel as [|fuel IH];
    intros i toRemove arr n cs Harr Hgen Hfuel; simpl;
    destruct (nth_error arr i) as [x|] eqn:Hnth; try (eexists; reflexivity).
  - assert (i < List.length arr) by (apply nth_error_Some; congruence); lia.
  - assert (Hi : i < List.length arr) by (apply nth_error_Some; congruence).
    assert (Hx : In x arr) by (eapply nth_error_In; eassumption).
    rewrite (skipn_nth _ _ Hnth) in Hgen, Hfuel; cbn [filter] in Hgen, Hfuel.
    destruct (matches eventName0 x) eqn:Hm; rewrite ?Hm in Hgen, Hfuel.
    + cbn [flat_map] in Hfuel; unfold invoke; simpl.
      destruct (@exec_removes_nothing R (H (handler x)) arr n
                  (cs ++ [mkCall (lid x) (handler x) (handlerArgs eventName0 args x)]) Harr)
        as (Hbody & Hpushed); [apply (Hclosed (eventName x)); [now apply Harr | exact Hm]|].
      rewrite Hbody.
      assert (Hsk : skipn (S i) (arr ++ pushed n (H (handler x))) =
                    skipn (S i) arr ++ pushed n (H (handler x))).
      { rewrite skipn_app.
        replace (S i - List.length arr) with 0 by lia; reflexivity. }
      assert (Hquiet : forall l, In l (filter (matches eventName0) (pushed n (H (handler x)))) ->
                                 adds (H (handler l)) = 0).
      { intros l Hl; apply filter_In in Hl as [Hl Hml].
        apply pushed_in in Hl.
        apply (Hgen x (eventName l) (handler l) (once l)); [now left | exact Hl | exact Hml]. }
      apply IH.
      * intros l Hl; apply in_app_or in Hl as [Hl|Hl]; auto.
      * rewrite Hsk, filter_app; intros l name0 h o Hl Hcmd Hname.
        apply in_app_or in Hl as [Hl|Hl].
        -- apply (Hgen l name0 h o); [now right | exact Hcmd | exact Hname].
        -- exfalso; exact (@adds_none _ _ _ _ (Hquiet l Hl) Hcmd).
      * rewrite Hsk, filter_app, flat_map_app, adds_app, length_app, pushed_length.
        rewrite adds_app in Hfuel.
        assert (Hzero : adds (flat_map (fun l => H (handler l))
                                (filter (matches eventName0) (pushed n (H (handler x))))) = 0).
        { clear - Hquiet.
          induction (filter (matches eventName0) (pushed n (H (handler x)))) as [|l ls IHl];
            [reflexivity|].
          simpl; rewrite adds_app, (Hquiet l (or_introl eq_refl)); apply IHl.
          intros l' Hl'; apply Hquiet; now right. }
        rewrite Hzero; lia.
    + apply IH; [exact Harr | exact Hgen | lia].
Qed.

Lemma count_lid (p : Listener -> bool) (ls : list Listener) (x : Listener) :
  NoDup (map lid ls) -> In x ls ->
  count_occ Nat.eq_dec (map lid (filter p ls)) (lid x) = (if p x then 1 else 0).
Proof.
  induction ls as [|y ls IH]; intros Hnd Hin; [destruct Hin|].
  simpl in Hnd; apply NoDup_cons_iff in Hnd as [Hy Hnd].
  assert (Hsub : forall z, In z (map lid (filter p ls)) -> In z (map lid ls)).
  { intros z Hz; apply in_map_iff in Hz as (w & <- & Hw).
    apply filter_In in Hw as [Hw _]; now apply in_map. }
  destruct Hin as [-> | Hin]; simpl.
  - destruct (p x); simpl.
    + destruct (Nat.eq_dec (lid x) (lid x)) as [_|Hne]; [|congruence].
      f_equal; apply count_occ_not_In; intros Hz; apply Hy, Hsub, Hz.
    + apply count_occ_not_In; intros Hz; apply Hy, Hsub, Hz.
  - assert (Hne : lid y <> lid x).
    { intros E; apply Hy; rewrite E; now apply in_map. }
    destruct (p y); simpl; [|now apply IH].
    destruct (Nat.eq_dec (lid y) (lid x)) as [E|_]; [congruence | now apply IH].
Qed.

(** C8, as amended.  In an emission during which the handlers invoked
    remove no listener -- they may register listeners, and may call
    [removeEventListener] with a name and a handler no listener is
    registered with -- the listeners invoked are, when [emit] returns,
    the matching listeners registered before the emit, in registration
    order, then matching listeners registered during the emission; a
    listener registered before the emit is invoked once if it matches and
    is not invoked otherwise, each with the arguments of the emit (after
    the event name for a listener on every event).  The removal of the
    [once] listeners invoked comes after.  And [emit] does return when the
    listeners registered during the emission and invoked register none
    themselves.  [R] tells the pairs of a name and a handler that
    listeners are registered with. *)
Theorem emit_invokes_each_matching_once
        (R : string -> nat -> bool) (e : t) (fuel : nat) :
  (forall l, In l (_listeners e) -> R (eventName l) (handler l) = true) ->
  (forall name0 h, R name0 h = true -> named_for eventName0 name0 = true ->
                   removes_nothing R (H h) = true) ->
  (forall e' : t,
      emit H fuel eventName0 args e = Some e' ->
      exists added : list Listener,
        invoked_since e e' =
          map lid (matching eventName0 e) ++
          map lid (filter (matches eventName0) added) /\
        calls e' =
          calls e ++ map (call_of eventName0 args) (matching eventName0 e) ++
          map (call_of eventName0 args) (filter (matches eventName0) added) /\
        (forall l, In l added -> next_lid e <= lid l) /\
        (distinct_records e ->
         (forall l, In l (_listeners e) ->
                    count_occ Nat.eq_dec (invoked_since e e') (lid l) =
                    (if matches eventName0 l then 1 else 0)) /\
         _listeners e' =
           filter (fun l => negb (matches eventName0 l && once l))
                  (_listeners e ++ added))) /\
  ((forall l name0 h o,
       In l (matching eventName0 e) -> In (CallOn name0 h o) (H (handler l)) ->
       named_for eventName0 name0 = true -> adds (H h) = 0) ->
   List.length (_listeners e) +
   adds (flat_map (fun l => H (handler l)) (matching eventName0 e)) <= fuel ->
   exists e' : t, emit H fuel eventName0 args e = Some e').
Proof.
  intros Hreg Hclosed; destruct e as [ls n cs]; simpl in *; split.
  - intros e' Hemit; unfold emit in Hemit.
    destruct (for_of H fuel eventName0 args 0 [] (mk ls n cs)) as [[e1 rem]|] eqn:Hrun;
      [|discriminate].
    injection Hemit as <-.
    apply (@for_of_adding R fuel Hclosed 0 [] ls n cs e1 rem Hreg) in Hrun
      as (added & -> & -> & Hlids & _).
    exists added; simpl skipn; rewrite filter_app, map_app.
    assert (Hnew : forall l, In l added -> n <= lid l).
    { intros l Hl; apply (in_map lid) in Hl; rewrite Hlids in Hl.
      apply in_seq in Hl; lia. }
    assert (Hinv : invoked_since (mk ls n cs)
                     (remove_all ([] ++ filter once (filter (matches eventName0) ls ++
                                                     filter (matches eventName0) added))
                        (mk (ls ++ added) (n + List.length added)
                            (cs ++ map (call_of eventName0 args) (filter (matches eventName0) ls) ++
                             map (call_of eventName0 args) (filter (matches eventName0) added)))) =
                   map lid (filter (matches eventName0) ls) ++
                   map lid (filter (matches eventName0) added)).
    { unfold invoked_since, remove_all; simpl.
      rewrite skipn_app, skipn_all, Nat.sub_diag; simpl.
      rewrite map_app, !map_map; reflexivity. }
    unfold matching; simpl _listeners.
    split; [exact Hinv|]. split; [reflexivity|]. split; [exact Hnew|].
    intros [Hnd Hlt]; simpl in Hnd, Hlt; split.
    + intros l Hl; rewrite Hinv, count_occ_app, count_lid by assumption.
      assert (Hzero : count_occ Nat.eq_dec
                        (map lid (filter (matches eventName0) added)) (lid l) = 0).
      { apply count_occ_not_In; intros Hin; apply in_map_iff in Hin as (y & E & Hy).
        apply filter_In in Hy as [Hy _].
        specialize (Hnew y Hy); specialize (Hlt l Hl); lia. }
      rewrite Hzero, Nat.add_0_r; reflexivity.
    + unfold remove_all; simpl; rewrite <- filter_app.
      apply remove_once_matching.
      rewrite map_app, Hlids; apply NoDup_app; [assumption | apply seq_NoDup |].
      intros i Hi Hseq; apply in_seq in Hseq.
      apply in_map_iff in Hi as (l & <- & Hl); specialize (Hlt l Hl); lia.
  - intros Hgen Hfuel; unfold emit.
    destruct (@for_of_returns R fuel Hclosed 0 [] ls n cs Hreg) as ([e1 rem] & ->).
    + simpl skipn; exact Hgen.
    + simpl skipn; rewrite Nat.sub_0_r; exact Hfuel.
    + eexists; reflexivity.
Qed.

(** An emission that no listener matches invokes nothing and removes
    nothing: a [once] listener for another event stays registered. *)
Lemma emit_other_event_keeps (e : t) :
  (forall l, In l (_listeners e) -> matches eventName0 l = false) ->
  emit H (List.length (_listeners e)) eventName0 args e = Some e.
Proof.
  intros Hnone; destruct e as [ls n cs]; simpl in *.
  unfold emit.
  assert (Hstatic : forall l, In l ls -> matches eventName0 l = true -> H (handler l) = []).
  { intros l Hin Hm; rewrite (Hnone l Hin) in Hm; discriminate. }
  pose proof (@for_of_static ls [] (List.length ls) [] n cs (le_n _) Hstatic) as Hrun.
  simpl in Hrun; rewrite Hrun.
  assert (Hf : filter (matches eventName0) ls = []).
  { clear Hrun Hstatic; induction ls as [|x ls IH]; simpl; [reflexivity|].
    rewrite (Hnone x (or_introl eq_refl)); apply IH; intros l Hin; apply Hnone; now right. }
  rewrite Hf; simpl; rewrite app_nil_r; reflexivity.
Qed.

End EmitterFacts.

(** A listener on every event and a [once] listener on "e"; the handler
    of the first registers a listener on "e" whose handler makes no call
    on the emitter. *)
Lemma emit_invokes_each_matching_once_witness :
  exists (e' : Emitter.t) (added : list Emitter.Listener),
    Emitter.emit
      (fun h => match h with
                | 0 => [Emitter.CallOn "e" 5 false]
                | _ => []
                end)
      3 "e" [VNum 7]
      (Emitter.once_ "e" 1 (Emitter.on_any 0 Emitter.new_)) = Some e' /\
    Emitter.invoked_since (Emitter.once_ "e" 1 (Emitter.on_any 0 Emitter.new_)) e' =
      map Emitter.lid
          (Emitter.matching "e" (Emitter.once_ "e" 1 (Emitter.on_any 0 Emitter.new_))) ++
      map Emitter.lid (filter (Emitter.matches "e") added) /\
    (forall l, In l added ->
               Emitter.next_lid (Emitter.once_ "e" 1 (Emitter.on_any 0 Emitter.new_)) <=
               Emitter.lid l) /\
    Emitter.invoked_since (Emitter.once_ "e" 1 (Emitter.on_any 0 Emitter.new_)) e' =
      [0; 1; 2].
Proof.
  destruct (@emit_invokes_each_matching_once
              (fun h => match h with
                        | 0 => [Emitter.CallOn "e" 5 false]
                        | _ => []
                        end)
              "e" [VNum 7] (fun _ _ => true)
              (Emitter.once_ "e" 1 (Emitter.on_any 0 Emitter.new_)) 3)
    as [Hsafe Hreturns].
  - intros l _; reflexivity.
  - intros name0 [|h] _ _; reflexivity.
  - destruct Hreturns as (e' & Hemit).
    + intros l name0 h o [<- | [<- | []]] Hcmd _; simpl in Hcmd.
      * destruct Hcmd as [[= <- <- <-] | []]; reflexivity.
      * destruct Hcmd.
    + vm_compute; lia.
    + destruct (Hsafe e' Hemit) as (added & Hinv & _ & Hnew & _).
      exists e', added; split; [exact Hemit|].
      split; [exact Hinv|]. split; [exact Hnew|].
      vm_compute in Hemit; injection Hemit as <-; reflexivity.
Defined.

(** C8, refuted as stated.  Three listeners are registered on "e"; the
    handler of the first removes its own listener.  The emit then invokes
    the first and the third: the second, registered before the emit and
    matching, is skipped, because the iteration reads the array the
    handler has just shortened. *)
Lemma emit_skips_listener_after_removal :
  exists e' : Emitter.t,
    Emitter.emit
      (fun h => match h with
                | 0 => [Emitter.CallRemoveEventListener "e" 0]
                | _ => []
                end)
      3 "e" []
      (Emitter.on "e" 2 false (Emitter.on "e" 1 false (Emitter.on "e" 0 false Emitter.new_)))
    = Some e' /\
    map Emitter.lid
      (Emitter.matching "e"
         (Emitter.on "e" 2 false
            (Emitter.on "e" 1 false (Emitter.on "e" 0 false Emitter.new_))))
    = [0; 1; 2] /\
    Emitter.invoked_since
      (Emitter.on "e" 2 false (Emitter.on "e" 1 false (Emitter.on "e" 0 false Emitter.new_)))
      e'
    = [0; 2].
Proof. eexists; repeat split. Qed.

(** C7.  With the emitter of the UMD build, a listener registered with
    [once] for "a" is there when "b" is emitted: it is not invoked, and
    it is removed all the same, so that the "a" emitted next finds no
    listener.  The handler is never called. *)
Theorem legacy_emit_removes_uninvoked_once_listener (H : Emitter.Handlers) :
  Emitter._listeners (Emitter.once_ "a" 0 Emitter.new_) =
    [Emitter.mkListener 0 "a" 0 true] /\
  LegacyEmitter.emit H "b" [] (Emitter.once_ "a" 0 Emitter.new_) =
    Emitter.mk [] 1 [] /\
  LegacyEmitter.emit H "a" []
    (LegacyEmitter.emit H "b" [] (Emitter.once_ "a" 0 Emitter.new_)) =
    Emitter.mk [] 1 [].
Proof. repeat split. Qed.

(** The emitter of dist/tests.js on the same input: the listener stays
    until the "a" that invokes it. *)
Lemma emit_keeps_once_listener_for_its_event (H : Emitter.Handlers) :
  H 0 = [] ->
  Emitter.emit H 1 "b" [] (Emitter.once_ "a" 0 Emitter.new_) =
    Some (Emitter.once_ "a" 0 Emitter.new_) /\
  Emitter.emit H 1 "a" [] (Emitter.once_ "a" 0 Emitter.new_) =
    Some (Emitter.mk [] 1 [Emitter.mkCall 0 0 []]).
Proof.
  intros H0; split.
  - reflexivity.
  - unfold Emitter.emit; simpl. unfold Emitter.invoke; simpl. rewrite H0. reflexivity.
Qed.

(** A [once] listener whose handler removes its own listener: when the
    deferred removal comes, [indexOf] no longer finds the record, and
    [splice(-1, 1)] takes the last listener of the array instead, here a
    listener on "x" that the emission did not concern. *)
Lemma emit_deferred_removal_takes_last :
  Emitter.emit
    (fun h => match h with
              | 0 => [Emitter.CallRemoveEventListener "e" 0]
              | _ => []
              end)
    2 "e" []
    (Emitter.on "x" 1 false (Emitter.once_ "e" 0 Emitter.new_))
  = Some (Emitter.mk [] 2 [Emitter.mkCall 0 0 []]).
Proof. reflexivity. Qed.

(** ** The test unit *)
Section TestUnitFacts.

Import TestUnit.



Lemma race_first (tp tq : N) (op oq : Outcome) :
  (tp <= tq)%N -> race (Some (tp, op)) (Some (tq, oq)) = Some (tp, op).
Proof. intros Hle; simpl; now apply N.leb_le in Hle as ->. Qed.

Lemma race_second (tp tq : N) (op oq : Outcome) :
  (tq < tp)%N -> race (Some (tp, op)) (Some (tq, oq)) = Some (tq, oq).
Proof. intros Hlt; simpl; now apply N.leb_gt in Hlt as ->. Qed.






(** Work that returns a plain value resolves at once, whatever the
    timeout. *)
Lemma run_plain_value (u : t) (v : Value) :
  testFn u = Returns v -> run u = (set_state passed u, Some (0%N, Fulfilled v)).
Proof.
  intros Hwork; unfold run; rewrite Hwork; unfold raceTimeout.
  rewrite race_first by lia; reflexivity.
Qed.

(** Work that throws fails the run at once and marks the test failed. *)
Lemma run_throws (u : t) (err : Value) :
  testFn u = Throws err -> run u = (set_state failed u, Some (0%N, Rejected err)).
Proof.
  intros Hwork; unfold run; rewrite Hwork; unfold raceTimeout.
  rewrite race_first by lia; reflexivity.
Qed.

(** A run assigns the state once, and twice when
    [result.then(resolve).catch(reject)] throws. *)
Lemma run_writes (u : t) :
  writes (fst (run u)) =
  match testFn u with
  | ReturnsBare _ _ => S (S (writes u))
  | _ => S (writes u)
  end.
Proof. unfold run; destruct (testFn u); reflexivity. Qed.

(** The state after a run is decided when the test function returns: a
    returned promise marks the test passed, however it settles. *)
Lemma run_thenable_passed (u : t) (p : Promise) :
  testFn u = ReturnsThenable p -> state (fst (run u)) = passed.
Proof. intros Hwork; unfold run; rewrite Hwork; reflexivity. Qed.

(** A thenable on which [.catch] cannot be called marks the test failed,
    also when the run fulfils with the value the thenable has passed. *)
Lemma run_bare_thenable (u : t) (v err : Value) :
  testFn u = ReturnsBare (Within v) err ->
  run u = (set_state failed (set_state passed u), Some (0%N, Fulfilled v)).
Proof.
  intros Hwork; unfold run; rewrite Hwork; unfold raceTimeout.
  rewrite race_first by lia; reflexivity.
Qed.

(** C6. The test 'failing async test: rejected' of the bundle, whose
    function returns [Promise.reject(new Error('failed'))]: the future of
    [run()] rejects with that error, and the state of the test, written
    once, is 'passed'.  So is it for work that outlives the timeout. *)
Theorem run_marks_rejected_test_passed :
  run (new_ "failing async test: rejected"
         (ReturnsThenable (Some (0%N, Rejected (VErr (mkError "Error" "failed"))))) None)
  = (mk "failing async test: rejected"
        (ReturnsThenable (Some (0%N, Rejected (VErr (mkError "Error" "failed")))))
        1 10000%N passed 1,
     Some (0%N, Rejected (VErr (mkError "Error" "failed")))) /\
  run (new_ "failing async test: timeout"
         (ReturnsThenable (Some (300%N, Fulfilled VUndefined))) (Some 150%N))
  = (mk "failing async test: timeout"
        (ReturnsThenable (Some (300%N, Fulfilled VUndefined)))
        1 150%N passed 1,
     Some (150%N, Rejected (VErr (mkError "Error" "Timeout expired [150]")))).
Proof. split; reflexivity. Qed.

End TestUnitFacts.

(** ** The queue *)
Section QueueFacts.

Import Queue.

Variable J : Type.

Lemma combine_seq_fst (thunks : list J) (k : nat) :
  map fst (combine (seq k (List.length thunks)) thunks) = seq k (List.length thunks).
Proof.
  revert k; induction thunks as [|x thunks IH]; intros k; simpl; [reflexivity|].
  now rewrite IH.
Qed.

Lemma inv_new (thunks : list J) (limit : Ceiling) :
  inv (List.length thunks) (new_ thunks limit).
Proof.
  unfold inv, new_; simpl; repeat split.
  - apply combine_seq_fst.
  - rewrite length_combine, length_seq; lia.
  - intros; lia.
Qed.

Lemma inv_step (M : nat) (q q' : t J) : inv M q -> step q q' -> inv M q'.
Proof.
  intros (Hseq & Hlen & Hceil) Hstep; destruct Hstep as [q q' Hstart | q j Hin].
  - unfold start_next in Hstart.
    destruct (below (List.length (active q)) (maxConcurrency q)) eqn:Hbelow;
      [|discriminate].
    destruct (jobs q) as [|j rest] eqn:Hjobs; [discriminate|].
    injection Hstart as <-; unfold inv; simpl in *; repeat split.
    + now rewrite <- app_assoc.
    + rewrite length_app; simpl; lia.
    + intros n Hn; rewrite Hn in Hbelow; simpl in Hbelow.
      apply Nat.ltb_lt in Hbelow; rewrite length_app; simpl; lia.
  - unfold inv, settle; simpl; repeat split.
    + assumption.
    + pose proof (filter_length_le (fun j0 => negb (Nat.eqb (fst j0) (fst j))) (active q)); lia.
    + intros n Hn; specialize (Hceil n Hn).
      pose proof (filter_length_le (fun j0 => negb (Nat.eqb (fst j0) (fst j))) (active q)); lia.
Qed.

Lemma inv_reachable (M : nat) (q0 q : t J) : inv M q0 -> reachable q0 q -> inv M q.
Proof. intros H0 Hr; induction Hr; [assumption | eauto using inv_step]. Qed.

Lemma inv_bound (M : nat) (q : t J) :
  inv M q -> List.length (active q) <= cmin (maxConcurrency q) M.
Proof.
  intros (_ & Hlen & Hceil); destruct (maxConcurrency q) as [n|] eqn:Hc; simpl.
  - specialize (Hceil n eq_refl); lia.
  - lia.
Qed.

Lemma inv_invoked_once (M : nat) (q : t J) : inv M q -> NoDup (invoked q).
Proof.
  intros (Hseq & _); eapply NoDup_app_remove_r; rewrite Hseq; apply seq_NoDup.
Qed.

Lemma step_ceiling (q q' : t J) : step q q' -> maxConcurrency q' = maxConcurrency q.
Proof.
  intros [q1 q2 Hstart | q1 j Hin]; [|reflexivity].
  unfold start_next in Hstart.
  destruct (below _ _); [|discriminate].
  destruct (jobs q1); [discriminate|]; now injection Hstart as <-.
Qed.

Lemma reachable_ceiling (q0 q : t J) :
  reachable q0 q -> maxConcurrency q = maxConcurrency q0.
Proof.
  intros Hr; induction Hr; [reflexivity|].
  erewrite step_ceiling by eassumption; assumption.
Qed.

(** C2. At every instant of a queue constructed with ceiling [limit] and
    M job thunks, the jobs started and not yet settled are at most
    min(limit, M), and no thunk has been invoked twice. *)
Theorem queue_in_flight_bounded (thunks : list J) (limit : Ceiling) (q : t J) :
  reachable (new_ thunks limit) q ->
  List.length (active q) <= cmin limit (List.length thunks) /\
  NoDup (invoked q) /\
  forall i, count_occ Nat.eq_dec (invoked q) i <= 1.
Proof.
  intros Hr.
  pose proof (inv_reachable (inv_new thunks limit) Hr) as Hinv.
  pose proof (reachable_ceiling Hr) as Hc; simpl in Hc.
  repeat split.
  - rewrite <- Hc; now apply inv_bound.
  - eapply inv_invoked_once; eassumption.
  - intros i; apply (NoDup_count_occ Nat.eq_dec); eapply inv_invoked_once; eassumption.
Qed.

(** Starting jobs until the ceiling is a run of steps. *)
Lemma fill_reachable (fuel : nat) (q0 q : t J) :
  reachable q0 q -> reachable q0 (fill fuel q).
Proof.
  revert q; induction fuel as [|fuel IH]; intros q Hr; simpl; [assumption|].
  destruct (start_next q) as [q'|] eqn:Hstart; [|assumption].
  apply IH; eapply reach_step; [eassumption | now apply step_start].
Qed.

(** A turn of [process()]: the queue starts what it can, then a job in
    flight settles. *)
Lemma turn_reachable (q0 q : t J) (j : nat * J) :
  reachable q0 q -> In j (active (fill_all q)) ->
  reachable q0 (settle (fst j) (fill_all q)).
Proof.
  intros Hr Hin; eapply reach_step; [apply fill_reachable; exact Hr|].
  now apply step_settle.
Qed.

End QueueFacts.

(** Three thunks under a ceiling of 2: two are started, the first
    settles, the third is started. *)
Lemma queue_in_flight_bounded_witness :
  List.length
    (Queue.active
       (Queue.fill_all
          (Queue.settle 0 (Queue.fill_all (Queue.new_ [tt; tt; tt] (Queue.Finite 2))))))
  <= Queue.cmin (Queue.Finite 2) (List.length [tt; tt; tt]) /\
  NoDup
    (Queue.invoked
       (Queue.fill_all
          (Queue.settle 0 (Queue.fill_all (Queue.new_ [tt; tt; tt] (Queue.Finite 2)))))) /\
  forall i,
    count_occ Nat.eq_dec
      (Queue.invoked
         (Queue.fill_all
            (Queue.settle 0 (Queue.fill_all (Queue.new_ [tt; tt; tt] (Queue.Finite 2))))))
      i <= 1.
Proof.
  apply (@queue_in_flight_bounded unit [tt; tt; tt] (Queue.Finite 2)).
  apply fill_reachable.
  apply (@Queue.reach_step unit _
           (Queue.fill_all (Queue.new_ [tt; tt; tt] (Queue.Finite 2)))).
  - apply fill_reachable; apply Queue.reach_here.
  - apply (@Queue.step_settle unit
             (Queue.fill_all (Queue.new_ [tt; tt; tt] (Queue.Finite 2))) (0, tt)).
    simpl; now left.
Defined.

(** ** [process()] settles, and in which state *)
Section ProcessFacts.

Import Queue.

Variable S_ : Type.

Lemma fill_items (fuel : nat) (q : t (Job S_)) :
  active (fill fuel q) ++ jobs (fill fuel q) = active q ++ jobs q.
Proof.
  revert q; induction fuel as [|fuel IH]; intros q; simpl; [reflexivity|].
  destruct (start_next q) as [q'|] eqn:Hstart; [|reflexivity].
  rewrite IH; unfold start_next in Hstart.
  destruct (below _ _); [|discriminate].
  destruct (jobs q) as [|j rest]; [discriminate|].
  injection Hstart as <-; simpl; now rewrite <- app_assoc.
Qed.

Lemma fill_ceiling (fuel : nat) (q : t (Job S_)) :
  maxConcurrency (fill fuel q) = maxConcurrency q.
Proof.
  revert q; induction fuel as [|fuel IH]; intros q; simpl; [reflexivity|].
  destruct (start_next q) as [q'|] eqn:Hstart; [|reflexivity].
  rewrite IH; unfold start_next in Hstart.
  destruct (below _ _); [|discriminate].
  destruct (jobs q); [discriminate|]; now injection Hstart as <-.
Qed.

(** After [fill_all] nothing more can start. *)
Lemma fill_saturated (fuel : nat) (q : t (Job S_)) :
  List.length (jobs q) <= fuel -> start_next (fill fuel q) = None.
Proof.
  revert q; induction fuel as [|fuel IH]; intros q Hlen; simpl.
  - unfold start_next; destruct (below _ _); [|reflexivity].
    destruct (jobs q); [reflexivity | simpl in Hlen; lia].
  - destruct (start_next q) as [q'|] eqn:Hstart; [|assumption].
    apply IH; unfold start_next in Hstart.
    destruct (below _ _); [|discriminate].
    destruct (jobs q) as [|j rest]; [discriminate|].
    injection Hstart as <-; simpl in *; lia.
Qed.

Lemma run_in_order_cons (job : Job S_) (thunks : list (Job S_)) (s : S_) :
  run_in_order (job :: thunks) s =
  match job s with
  | Some s' => run_in_order thunks s'
  | None => None
  end.
Proof.
  unfold run_in_order; simpl; destruct (job s) as [s'|]; [reflexivity|].
  induction thunks as [|j thunks IH]; simpl; [reflexivity | exact IH].
Qed.

Variable pick : Policy.

Lemma choose_in (l : list (nat * Job S_)) (j : nat * Job S_) :
  choose pick l = Some j -> In j l.
Proof.
  unfold choose; destruct (nth_error l (pick (map fst l))) as [x|] eqn:E.
  - intros [= <-]; eapply nth_error_In; eassumption.
  - destruct l as [|x l]; [discriminate|]; intros [= <-]; now left.
Qed.

Lemma choose_nil : choose pick (@nil (nat * Job S_)) = None.
Proof. unfold choose; simpl; now destruct (pick []). Qed.

Lemma choose_none (l : list (nat * Job S_)) : choose pick l = None -> l = [].
Proof.
  unfold choose; destruct (nth_error l (pick (map fst l))); [discriminate|].
  destruct l; [reflexivity | discriminate].
Qed.

Lemma filter_other_ids (i : nat) (l : list (nat * Job S_)) :
  ~ In i (map fst l) -> filter (fun j => negb (Nat.eqb (fst j) i)) l = l.
Proof.
  induction l as [|[k b] l IH]; intros Hni; simpl; [reflexivity|].
  destruct (Nat.eqb_spec k i) as [->|Hk]; simpl.
  - exfalso; apply Hni; now left.
  - f_equal; apply IH; intros Hi; apply Hni; now right.
Qed.

(** Taking a job out of a list of jobs with distinct positions. *)
Lemma filter_out_perm (i : nat) (job : Job S_) (l : list (nat * Job S_)) :
  NoDup (map fst l) -> In (i, job) l ->
  Permutation ((i, job) :: filter (fun j => negb (Nat.eqb (fst j) i)) l) l.
Proof.
  induction l as [|[k b] l IH]; intros Hnd Hin; [destruct Hin|].
  simpl in Hnd; apply NoDup_cons_iff in Hnd as [Hk Hnd].
  destruct Hin as [[= -> ->] | Hin]; simpl.
  - rewrite Nat.eqb_refl; simpl; now rewrite filter_other_ids.
  - destruct (Nat.eqb_spec k i) as [->|Hki]; simpl.
    + exfalso; apply Hk; change i with (fst (i, job)); now apply in_map.
    + etransitivity; [apply perm_swap|]; apply perm_skip; now apply IH.
Qed.

Lemma NoDup_fst_filter (p : nat * Job S_ -> bool) (l : list (nat * Job S_)) :
  NoDup (map fst l) -> NoDup (map fst (filter p l)).
Proof.
  induction l as [|x l IH]; intros Hnd; simpl; [constructor|].
  simpl in Hnd; apply NoDup_cons_iff in Hnd as [Hx Hnd].
  destruct (p x); simpl; [|now apply IH].
  constructor; [|now apply IH].
  intros Hin; apply Hx; apply in_map_iff in Hin as (y & <- & Hy).
  apply in_map, (proj1 (filter_In p y l)), Hy.
Qed.

(** With room for one job at least, the queue drains: every job is run,
    once, in an order the policy decides. *)
Lemma drain_order (fuel : nat) (q : t (Job S_)) :
  below 0 (maxConcurrency q) = true ->
  NoDup (map fst (active q ++ jobs q)) ->
  List.length (active q ++ jobs q) <= fuel ->
  exists order : list (nat * Job S_),
    Permutation order (active q ++ jobs q) /\
    forall s, drain pick fuel q s = run_in_order (map snd order) s.
Proof.
  revert q; induction fuel as [|fuel IH]; intros q Hroom Hnodup Hfuel.
  - destruct (active q ++ jobs q) as [|x l] eqn:E; [|simpl in Hfuel; lia].
    apply app_eq_nil in E as [Ha Hj].
    exists []; split; [constructor|]; intros s.
    simpl; unfold fill_all; rewrite Hj; simpl; rewrite Ha, Hj, choose_nil; reflexivity.
  - pose proof (fill_items (List.length (jobs q)) q) as Hitems.
    pose proof (fill_ceiling (List.length (jobs q)) q) as Hceil.
    pose proof (@fill_saturated (List.length (jobs q)) q (le_n _)) as Hsat.
    fold (fill_all q) in Hitems, Hceil, Hsat.
    rewrite <- Hitems in Hnodup, Hfuel |- *.
    destruct (choose pick (active (fill_all q))) as [[i job]|] eqn:Hpick.
    + apply choose_in in Hpick as Hin.
      assert (HinL : In (i, job) (active (fill_all q) ++ jobs (fill_all q)))
        by (apply in_or_app; now left).
      pose proof (@filter_out_perm i job _ Hnodup HinL) as Hperm.
      assert (Hsettle :
                active (settle i (fill_all q)) ++ jobs (settle i (fill_all q)) =
                filter (fun j => negb (Nat.eqb (fst j) i))
                       (active (fill_all q) ++ jobs (fill_all q))).
      { simpl; rewrite filter_app; f_equal; symmetry; apply filter_other_ids.
        rewrite map_app in Hnodup; intros Hi.
        apply in_split in Hin as (a1 & a2 & Ha); rewrite Ha, map_app in Hnodup.
        simpl in Hnodup; rewrite <- app_assoc in Hnodup; simpl in Hnodup.
        apply NoDup_remove_2 in Hnodup; apply Hnodup.
        apply in_or_app; right; apply in_or_app; now right. }
      destruct (IH (settle i (fill_all q))) as (order & Horder & Hdrain).
      * simpl; now rewrite Hceil.
      * rewrite Hsettle; now apply NoDup_fst_filter.
      * rewrite Hsettle; apply Permutation_length in Hperm; simpl in Hperm; lia.
      * exists ((i, job) :: order); split.
        -- etransitivity; [|exact Hperm]; apply perm_skip; now rewrite <- Hsettle.
        -- intros s; simpl drain; rewrite Hpick; simpl map.
           rewrite run_in_order_cons; destruct (job s) as [s'|]; [apply Hdrain | reflexivity].
    + apply choose_none in Hpick.
      unfold start_next in Hsat; rewrite Hpick, Hceil in Hsat; simpl in Hsat.
      rewrite Hroom in Hsat.
      destruct (jobs (fill_all q)) eqn:Hj; [|discriminate].
      exists []; split; [rewrite Hpick; simpl; constructor|]; intros s.
      simpl drain; rewrite Hpick, choose_nil, Hj; reflexivity.
Qed.

Lemma combine_seq_snd (thunks : list (Job S_)) (k : nat) :
  map snd (combine (seq k (List.length thunks)) thunks) = thunks.
Proof.
  revert k; induction thunks as [|x thunks IH]; intros k; simpl; [reflexivity|].
  now rewrite IH.
Qed.

(** [process()] of a queue that lets a job start settles, every job
    having run once, in the order of the settlements. *)
Lemma process_order (thunks : list (Job S_)) (limit : Ceiling) :
  below 0 limit = true ->
  exists order : list (Job S_),
    Permutation order thunks /\
    forall s, process pick (new_ thunks limit) s = run_in_order order s.
Proof.
  intros Hroom; unfold process.
  destruct (@drain_order
              (List.length (jobs (new_ thunks limit)) +
               List.length (active (new_ thunks limit)))
              (new_ thunks limit)) as (order & Hperm & Hdrain).
  - assumption.
  - simpl; rewrite combine_seq_fst; apply seq_NoDup.
  - simpl; rewrite length_combine, length_seq; lia.
  - exists (map snd order); split; [|exact Hdrain].
    apply (Permutation_map snd) in Hperm; simpl in Hperm.
    now rewrite combine_seq_snd in Hperm.
Qed.

(** Under the policy that settles the oldest job first, the order is
    that of the array. *)
Lemma choose_oldest (l : list (nat * Job S_)) : choose oldest_first l = hd_error l.
Proof. unfold choose, oldest_first; now destruct l. Qed.

End ProcessFacts.

(** ** The runner *)
Section TestRunnerCoreFacts.

Import TestRunnerCore.

Variable pick : Queue.Policy.

(** Induction on a tree, with the property known of every child. *)
Lemma Tom_nested_ind (P : Tom -> Prop) :
  (forall name0 testFn0 run0 limit tests,
      Forall P tests -> P (TomNode name0 testFn0 run0 limit tests)) ->
  forall t0, P t0.
Proof.
  intros Hnode; fix IH 1; intros [name0 testFn0 run0 limit tests].
  apply Hnode; induction tests as [|c tests IHtests]; constructor.
  - apply IH.
  - exact IHtests.
Qed.

Lemma iterate_eq (t0 : Tom) : iterate t0 = t0 :: flat_map iterate (children t0).
Proof. destruct t0; reflexivity. Qed.

Lemma validate_node (t0 : Tom) :
  validate t0 = true ->
  1 <= maxConcurrency t0 /\ Forall (fun c => validate c = true) (children t0).
Proof.
  unfold validate; rewrite iterate_eq; simpl; intros Hv.
  apply andb_true_iff in Hv as [Hm Hcs]; split.
  - now apply Nat.leb_le.
  - apply Forall_forall; intros c Hc.
    rewrite forallb_forall in Hcs |- *; intros n Hn.
    apply Hcs, in_flat_map; now exists c.
Qed.

(** *** The queue, whatever its thunks are *)

Lemma fill_split (J : Type) (fuel : nat) (q : Queue.t J) :
  exists started,
    Queue.active (Queue.fill fuel q) = Queue.active q ++ started /\
    Queue.jobs q = started ++ Queue.jobs (Queue.fill fuel q).
Proof.
  revert q; induction fuel as [|fuel IH]; intros q; simpl.
  - exists []; now rewrite app_nil_r.
  - destruct (Queue.start_next q) as [q'|] eqn:Hstart.
    + destruct (IH q') as (started & Hact & Hjobs).
      unfold Queue.start_next in Hstart.
      destruct (Queue.below _ _); [|discriminate].
      destruct (Queue.jobs q) as [|j rest]; [discriminate|].
      injection Hstart as <-; simpl in *.
      exists (j :: started); rewrite Hact, <- app_assoc; split; [reflexivity|].
      simpl; f_equal; exact Hjobs.
    + exists []; now rewrite app_nil_r.
Qed.

Lemma fill_limit (J : Type) (fuel : nat) (q : Queue.t J) :
  Queue.maxConcurrency (Queue.fill fuel q) = Queue.maxConcurrency q.
Proof.
  revert q; induction fuel as [|fuel IH]; intros q; simpl; [reflexivity|].
  destruct (Queue.start_next q) as [q'|] eqn:Hstart; [|reflexivity].
  rewrite IH; unfold Queue.start_next in Hstart.
  destruct (Queue.below _ _); [|discriminate].
  destruct (Queue.jobs q); [discriminate|]; now injection Hstart as <-.
Qed.

Lemma fill_all_full (J : Type) (q : Queue.t J) :
  Queue.start_next (Queue.fill_all q) = None.
Proof.
  unfold Queue.fill_all.
  assert (Hgen : forall fuel (q0 : Queue.t J),
             List.length (Queue.jobs q0) <= fuel ->
             Queue.start_next (Queue.fill fuel q0) = None); [|now apply Hgen].
  induction fuel as [|fuel IH]; intros q0 Hlen; simpl.
  - unfold Queue.start_next; destruct (Queue.below _ _); [|reflexivity].
    destruct (Queue.jobs q0); [reflexivity | simpl in Hlen; lia].
  - destruct (Queue.start_next q0) as [q'|] eqn:Hstart; [|assumption].
    apply IH; unfold Queue.start_next in Hstart.
    destruct (Queue.below _ _); [|discriminate].
    destruct (Queue.jobs q0) as [|j rest]; [discriminate|].
    injection Hstart as <-; simpl in *; lia.
Qed.

(** Counting a job out of a queue whose positions are distinct. *)
Lemma settle_positions (J : Type) (pos : nat) (q : Queue.t J) (a b : list nat) :
  NoDup (map fst (Queue.active q)) ->
  map fst (Queue.active q) = a ++ pos :: b ->
  map fst (Queue.active (Queue.settle pos q)) = a ++ b.
Proof.
  unfold Queue.settle; simpl; generalize (Queue.active q); intros l Hnd Hl.
  assert (Hmap : map fst (filter (fun j : nat * J => negb (Nat.eqb (fst j) pos)) l) =
                 filter (fun i => negb (Nat.eqb i pos)) (map fst l)).
  { clear; induction l as [|x l IH]; simpl; [reflexivity|].
    destruct (negb (Nat.eqb (fst x) pos)); simpl; now rewrite IH. }
  rewrite Hmap, Hl; rewrite Hl in Hnd; clear Hmap Hl.
  apply NoDup_remove_2 in Hnd.
  rewrite filter_app; simpl; rewrite Nat.eqb_refl; simpl.
  assert (Hkeep : forall m, ~ In pos m -> filter (fun i => negb (Nat.eqb i pos)) m = m).
  { induction m as [|i m IH]; intros Hni; simpl; [reflexivity|].
    destruct (Nat.eqb_spec i pos) as [->|Hne]; simpl.
    - exfalso; apply Hni; now left.
    - f_equal; apply IH; intros Hin; apply Hni; now right. }
  rewrite !Hkeep; [reflexivity | |]; intros Hin; apply Hnd, in_or_app; auto.
Qed.

Lemma settle_distinct (J : Type) (pos : nat) (q : Queue.t J) :
  NoDup (map fst (Queue.active q ++ Queue.jobs q)) ->
  NoDup (map fst (Queue.active (Queue.settle pos q) ++ Queue.jobs q)).
Proof.
  unfold Queue.settle; simpl; generalize (Queue.active q) (Queue.jobs q).
  intros l m; induction l as [|x l IH]; simpl; intros Hnd; [exact Hnd|].
  apply NoDup_cons_iff in Hnd as [Hx Hnd].
  destruct (negb (Nat.eqb (fst x) pos)); simpl; [|now apply IH].
  constructor; [|now apply IH].
  intros Hin; apply Hx; rewrite map_app in *.
  apply in_app_or in Hin as [Hin|Hin]; apply in_or_app; [left|now right].
  apply in_map_iff in Hin as (y & <- & Hy).
  apply filter_In in Hy as [Hy _]; now apply in_map.
Qed.

(** *** The traversal *)

Lemma fapp_assoc (a b c : Flights) : fapp (fapp a b) c = fapp a (fapp b c).
Proof. induction a as [|pos id n ph sub a IH]; simpl; [reflexivity | now rewrite IH]. Qed.

Lemma positions_fapp (a b : Flights) :
  positions (fapp a b) = positions a ++ positions b.
Proof. induction a as [|pos id n ph sub a IH]; simpl; [reflexivity | now rewrite IH]. Qed.

Lemma todo_in_fapp (a b : Flights) : todo_in (fapp a b) = todo_in a ++ todo_in b.
Proof.
  induction a as [|pos id n ph sub a IH]; simpl; [reflexivity|].
  now rewrite IH, <- !app_assoc.
Qed.

Lemma weight_in_fapp (a b : Flights) :
  weight_in (fapp a b) = weight_in a + weight_in b.
Proof. induction a as [|pos id n ph sub a IH]; simpl; [reflexivity | rewrite IH; lia]. Qed.

Lemma sound_in_fapp (a b : Flights) :
  sound_in (fapp a b) <-> sound_in a /\ sound_in b.
Proof.
  induction a as [|pos id n ph sub a IH]; simpl; [tauto|].
  rewrite IH; tauto.
Qed.

Lemma all_actions_eq (n : Tom) :
  all_actions n = Call n :: run_actions Called n ++ flat_map all_actions (children n).
Proof. destruct n; reflexivity. Qed.

Lemma cost_app (a b : list Tom) : cost (a ++ b) = cost a + cost b.
Proof. unfold cost; rewrite flat_map_app, length_app; lia. Qed.

Lemma cost_cons (n : Tom) (ns : list Tom) :
  cost (n :: ns) = 4 + cost (children n) + cost ns.
Proof.
  unfold cost; simpl flat_map; rewrite iterate_eq, length_app; simpl; lia.
Qed.

Lemma positions_launch (l : list (nat * (nat * Tom))) :
  positions (launch l) = map fst l.
Proof. induction l as [|[pos [id n]] l IH]; simpl; [reflexivity | now rewrite IH]. Qed.

Lemma perm_insert (X : Type) (A R C T : list X) :
  Permutation R (C ++ T) -> Permutation (A ++ R) (C ++ A ++ T).
Proof.
  intros Hperm; etransitivity; [apply Permutation_app_head, Hperm|].
  apply Permutation_app_swap_app.
Qed.

(** The jobs the queue starts bring the calls of their runs at once and
    leave the rest for later. *)
Lemma todo_launch (l : list (nat * (nat * Tom))) :
  Permutation (flat_map (fun j => all_actions (snd (snd j))) l)
              (calls l ++ todo_in (launch l)).
Proof.
  induction l as [|[pos [id n]] l IH]; [constructor|].
  cbn [flat_map calls map launch todo_in todo snd fst].
  rewrite all_actions_eq; cbn [app]; apply perm_skip.
  rewrite (app_assoc (run_actions Called n)).
  apply perm_insert, IH.
Qed.

Lemma weight_launch (l : list (nat * (nat * Tom))) :
  weight_in (launch l) = cost (map (fun j => snd (snd j)) l).
Proof.
  induction l as [|[pos [id n]] l IH]; simpl; [reflexivity|].
  rewrite IH, cost_cons; lia.
Qed.

Lemma sound_launch (l : list (nat * (nat * Tom))) :
  Forall (fun j => validate (snd (snd j)) = true) l -> sound_in (launch l).
Proof.
  induction l as [|[pos [id n]] l IH]; intros Hall; simpl; [exact I|].
  inversion Hall; subst; split; [assumption | now apply IH].
Qed.

Lemma number_nodes (i : nat) (cs : list Tom) : map snd (number i cs) = cs.
Proof. revert i; induction cs as [|c cs IH]; intros i; simpl; [reflexivity | now rewrite IH]. Qed.

Lemma combine_seq (A : Type) (l : list A) (k : nat) :
  map fst (combine (seq k (List.length l)) l) = seq k (List.length l) /\
  map snd (combine (seq k (List.length l)) l) = l.
Proof.
  revert k; induction l as [|x l IH]; intros k; simpl; [split; reflexivity|].
  destruct (IH (S k)) as (-> & ->); split; reflexivity.
Qed.

Lemma finished_done (p : Trav) :
  finished p = true -> todo p = [] /\ weight p = 0.
Proof.
  destruct p as [id n|q [|pos id n ph sub rest]]; simpl; try discriminate.
  destruct (Queue.jobs q); [split; reflexivity | discriminate].
Qed.

(** The callback of a scheduled traversal. *)
Lemma begin_ok (id : nat) (n : Tom) :
  validate n = true ->
  sound (snd (begin id n)) /\
  Permutation (todo (Scheduled id n)) (fst (begin id n) ++ todo (snd (begin id n))) /\
  weight (snd (begin id n)) < weight (Scheduled id n).
Proof.
  intros Hv; apply validate_node in Hv as [Hlimit Hcs].
  unfold begin; cbn [fst snd].
  set (q0 := Queue.new_ (number (S id) (children n)) (Queue.Finite (maxConcurrency n))).
  destruct (fill_split (List.length (Queue.jobs q0)) q0) as (started & Hact & Hjobs).
  fold (Queue.fill_all q0) in Hact, Hjobs.
  set (q := Queue.fill_all q0) in *.
  simpl in Hact; rewrite Hact.
  destruct (combine_seq (number (S id) (children n)) 0) as (Hfst & Hsnd).
  assert (Hnodes : map (fun j : nat * (nat * Tom) => snd (snd j)) (Queue.jobs q0) =
                   children n).
  { unfold q0; simpl.
    rewrite <- (map_map snd snd), Hsnd; apply number_nodes. }
  assert (Hvalid : Forall (fun j : nat * (nat * Tom) => validate (snd (snd j)) = true)
                          (Queue.jobs q0)).
  { rewrite <- Hnodes in Hcs; rewrite Forall_map in Hcs; exact Hcs. }
  rewrite Hjobs in Hvalid; apply Forall_app in Hvalid as [Hv1 Hv2].
  split; [|split].
  - simpl; rewrite Hact; simpl.
    split; [exists (maxConcurrency n); split; [apply fill_limit | exact Hlimit]|].
    split; [apply fill_all_full|].
    split; [now rewrite positions_launch|].
    split; [rewrite <- Hjobs; unfold q0; simpl; rewrite Hfst; apply seq_NoDup|].
    split; [exact Hv2 | now apply sound_launch].
  - simpl.
    rewrite <- Hnodes, flat_map_concat_map, map_map, <- flat_map_concat_map.
    rewrite Hjobs, flat_map_app, app_assoc.
    apply Permutation_app_tail, todo_launch.
  - simpl; rewrite weight_launch, <- cost_app, <- map_app, <- Hjobs, Hnodes; lia.
Qed.

(** A job settles and the queue starts the next ones. *)
Lemma refill_ok (q : Queue.t (nat * Tom)) (before rest : Flights)
      (pos id : nat) (n : Tom) (sub : Trav) :
  sound (Processing q (fapp before (FCons pos id n Over sub rest))) ->
  finished sub = true ->
  sound (snd (refill pos q (fapp before rest))) /\
  Permutation (todo (Processing q (fapp before (FCons pos id n Over sub rest))))
              (fst (refill pos q (fapp before rest)) ++
               todo (snd (refill pos q (fapp before rest)))) /\
  weight (snd (refill pos q (fapp before rest))) <
  weight (Processing q (fapp before (FCons pos id n Over sub rest))).
Proof.
  intros ((limit & Hceil & Hlimit) & Hfull & Hpos & Hnd & Hvalid & Hin) Hfin.
  apply finished_done in Hfin as [Htodo Hweight].
  apply sound_in_fapp in Hin as [Hbefore [_ Hrest]].
  rewrite positions_fapp in Hpos; simpl in Hpos.
  unfold refill; cbn [fst snd].
  set (q0 := Queue.settle pos q).
  destruct (fill_split (List.length (Queue.jobs q0)) q0) as (started & Hact & Hjobs).
  fold (Queue.fill_all q0) in Hact, Hjobs.
  set (q1 := Queue.fill_all q0) in *.
  assert (Hnd0 : NoDup (map fst (Queue.active q))).
  { rewrite map_app in Hnd; now apply NoDup_app_remove_r in Hnd. }
  assert (Hpos0 : map fst (Queue.active q0) = positions before ++ positions rest)
    by (now apply settle_positions).
  assert (Hskip : skipn (List.length (Queue.active q0)) (Queue.active q1) = started).
  { rewrite Hact, skipn_app, skipn_all, Nat.sub_diag; reflexivity. }
  rewrite Hskip.
  change (Queue.jobs q0) with (Queue.jobs q) in Hjobs.
  rewrite Hjobs in Hvalid; apply Forall_app in Hvalid as [Hv1 Hv2].
  split; [|split].
  - simpl.
    split; [exists limit; split; [unfold q1, Queue.fill_all; rewrite fill_limit; exact Hceil
                                 | exact Hlimit]|].
    split; [apply fill_all_full|].
    split; [rewrite Hact, map_app, Hpos0, !positions_fapp, positions_launch; reflexivity|].
    split.
    { rewrite Hact, <- app_assoc.
      replace (started ++ Queue.jobs q1) with (Queue.jobs q) by exact Hjobs.
      now apply settle_distinct. }
    split; [exact Hv2|].
    apply sound_in_fapp; split; [apply sound_in_fapp; now split | now apply sound_launch].
  - simpl; rewrite !todo_in_fapp; simpl; rewrite Htodo; simpl.
    rewrite Hjobs, flat_map_app, <- !app_assoc.
    do 2 apply perm_insert.
    rewrite app_assoc; apply Permutation_app_tail, todo_launch.
  - simpl; rewrite !weight_in_fapp; simpl; rewrite Hweight, weight_launch.
    rewrite Hjobs, map_app, cost_app; lia.
Qed.

(** Something happens to a job in flight, which stays in flight. *)
Lemma flight_ok (q : Queue.t (nat * Tom)) (before rest : Flights)
      (pos id : nat) (n : Tom) (ph ph' : Phase) (sub sub' : Trav) (acts : list Action) :
  sound (Processing q (fapp before (FCons pos id n ph sub rest))) ->
  sound sub' ->
  Permutation (run_actions ph n ++ todo sub) (acts ++ run_actions ph' n ++ todo sub') ->
  weight_in (FCons pos id n ph' sub' FNil) < weight_in (FCons pos id n ph sub FNil) ->
  sound (Processing q (fapp before (FCons pos id n ph' sub' rest))) /\
  Permutation (todo (Processing q (fapp before (FCons pos id n ph sub rest))))
              (acts ++ todo (Processing q (fapp before (FCons pos id n ph' sub' rest)))) /\
  weight (Processing q (fapp before (FCons pos id n ph' sub' rest))) <
  weight (Processing q (fapp before (FCons pos id n ph sub rest))).
Proof.
  intros (Hceil & Hfull & Hpos & Hnd & Hvalid & Hin) Hsub Hperm Hless.
  apply sound_in_fapp in Hin as [Hbefore [_ Hrest]].
  split; [|split].
  - simpl; repeat (split; [assumption|]).
    split; [rewrite Hpos, !positions_fapp; reflexivity|].
    repeat (split; [assumption|]).
    apply sound_in_fapp; split; [assumption | now split].
  - simpl; rewrite !todo_in_fapp; simpl.
    rewrite !app_assoc; do 2 apply Permutation_app_tail.
    rewrite <- !app_assoc.
    etransitivity; [apply Permutation_app_head, Hperm|].
    rewrite !app_assoc; apply Permutation_app_tail, Permutation_app_tail.
    apply Permutation_app_comm.
  - simpl in *; rewrite !weight_in_fapp; simpl; lia.
Qed.

(** Whatever happens next in a traversal, the instants it brings are
    among those still to come, the others are still to come, and the
    traversal is nearer its end. *)
Lemma steps_ok (p : Trav) :
  sound p ->
  forall s, In s (steps p) ->
    sound (snd (snd s)) /\
    Permutation (todo p) (fst (snd s) ++ todo (snd (snd s))) /\
    weight (snd (snd s)) < weight p.
Proof.
  induction p as [id n|q fs IHfs| |pos id n ph sub IHsub rest IHrest]
    using Trav_mut
    with (P0 := fun fs =>
                  forall q before,
                    sound (Processing q (fapp before fs)) ->
                    forall s, In s (steps_of q before fs) ->
                      sound (snd (snd s)) /\
                      Permutation (todo (Processing q (fapp before fs)))
                                  (fst (snd s) ++ todo (snd (snd s))) /\
                      weight (snd (snd s)) < weight (Processing q (fapp before fs))).
  - intros Hv s [<- | []]; cbn [fst snd]; now apply begin_ok.
  - intros Hsound s Hs; apply (IHfs q FNil Hsound s Hs).
  - intros q before _ s [].
  - intros q before Hsound s Hs.
    assert (Hsub : sound sub).
    { destruct Hsound as (_ & _ & _ & _ & _ & Hin).
      apply sound_in_fapp in Hin as [_ [Hsub _]]; exact Hsub. }
    cbn [steps_of] in Hs.
    apply in_app_or in Hs as [Hs | Hs]; [|apply in_app_or in Hs as [Hs | Hs]].
    + destruct ph.
      * destruct Hs as [<- | []]; cbn [fst snd].
        apply flight_ok; try assumption.
        -- simpl; destruct (rejects n); simpl; reflexivity.
        -- simpl; destruct (rejects n); lia.
      * destruct Hs as [<- | []]; cbn [fst snd].
        apply flight_ok; try assumption; [reflexivity | simpl; lia].
      * destruct (finished sub) eqn:Hfin; [|destruct Hs].
        destruct Hs as [<- | []]; cbn [fst snd].
        now apply refill_ok.
    + apply in_map_iff in Hs as ([i [acts sub']] & <- & Hs'); cbn [fst snd].
      destruct (IHsub Hsub _ Hs') as (Hsound' & Hperm' & Hless'); cbn [fst snd] in *.
      apply flight_ok; try assumption.
      * rewrite !app_assoc.
        etransitivity; [apply Permutation_app_head, Hperm'|].
        rewrite !app_assoc; apply Permutation_app_tail, Permutation_app_comm.
      * simpl; lia.
    + specialize (IHrest q (fapp before (FCons pos id n ph sub FNil))).
      rewrite fapp_assoc in IHrest; simpl in IHrest.
      apply IHrest; assumption.
Qed.

(** A traversal in which nothing can happen has resolved. *)
Lemma steps_none (p : Trav) : sound p -> steps p = [] -> finished p = true.
Proof.
  induction p as [id n|q fs IHfs| |pos id n ph sub IHsub rest IHrest]
    using Trav_mut
    with (P0 := fun fs =>
                  sound_in fs -> forall q before, steps_of q before fs = [] -> fs = FNil).
  - discriminate.
  - intros ((limit & Hceil & Hlimit) & Hfull & Hpos & _ & _ & Hin) Hnone.
    simpl in Hnone; rewrite (IHfs Hin q FNil Hnone) in *; simpl in *.
    apply map_eq_nil in Hpos.
    unfold Queue.start_next in Hfull; rewrite Hpos, Hceil in Hfull; simpl in Hfull.
    destruct limit; [lia|]; simpl in Hfull.
    destruct (Queue.jobs q); [reflexivity | discriminate].
  - reflexivity.
  - intros [Hsub Hrest] q before Hnone; exfalso.
    cbn [steps_of] in Hnone.
    apply app_eq_nil in Hnone as [Hown Hnone].
    apply app_eq_nil in Hnone as [Hsubs _].
    apply map_eq_nil in Hsubs.
    rewrite (IHsub Hsub Hsubs) in Hown.
    destruct ph; discriminate.
Qed.

Lemma next_step_in (l : list (nat * (list Action * Trav))) (x : list Action * Trav) :
  next_step pick l = Some x -> exists i, In (i, x) l.
Proof.
  unfold next_step; destruct (nth_error l (pick (map fst l))) as [[i y]|] eqn:E.
  - intros [= <-]; exists i; eapply nth_error_In; eassumption.
  - destruct l as [|[i y] l]; [discriminate|]; intros [= <-]; exists i; now left.
Qed.

Lemma next_step_none (l : list (nat * (list Action * Trav))) :
  next_step pick l = None -> l = [].
Proof.
  unfold next_step; destruct (nth_error l (pick (map fst l))); [discriminate|].
  destruct l; [reflexivity | discriminate].
Qed.

(** A traversal of a valid tree resolves whatever happens first at each
    turn; the instants still to come have then all come, once each, in an
    order the turns decide. *)
Lemma traverse_spec (fuel : nat) (p : Trav) :
  sound p -> weight p <= fuel ->
  exists trace,
    Permutation trace (todo p) /\
    forall r, traverse pick fuel p r = Some (fold_left act trace r).
Proof.
  revert p; induction fuel as [|fuel IH]; intros p Hsound Hfuel.
  - destruct (next_step pick (steps p)) as [[acts p']|] eqn:Hnext.
    + apply next_step_in in Hnext as (i & Hin).
      destruct (steps_ok p Hsound _ Hin) as (_ & _ & Hless); simpl in Hless; lia.
    + apply next_step_none in Hnext.
      pose proof (steps_none p Hsound Hnext) as Hfin.
      destruct (finished_done p Hfin) as [Htodo _].
      exists []; split; [rewrite Htodo; constructor|].
      intros r; simpl; rewrite Hnext; simpl.
      unfold next_step; simpl; destruct (pick []); simpl; now rewrite Hfin.
  - destruct (next_step pick (steps p)) as [[acts p']|] eqn:Hnext.
    + apply next_step_in in Hnext as Hin; destruct Hin as (i & Hin).
      destruct (steps_ok p Hsound _ Hin) as (Hsound' & Hperm & Hless);
        cbn [fst snd] in *.
      destruct (IH p' Hsound') as (trace & Hp & Hrun); [lia|].
      exists (acts ++ trace); split.
      * etransitivity; [apply Permutation_app_head, Hp | now apply Permutation_sym].
      * intros r; simpl; rewrite Hnext, fold_left_app; apply Hrun.
    + apply next_step_none in Hnext as Hnil.
      pose proof (steps_none p Hsound Hnil) as Hfin.
      destruct (finished_done p Hfin) as [Htodo _].
      exists []; split; [rewrite Htodo; constructor|].
      intros r; simpl; rewrite Hnext, Hfin; reflexivity.
Qed.

(** The traversal of a valid tree settles; every instant of every
    descendant has then come, once, in an order the turns decide. *)
Lemma runTomNode_acts (t0 : Tom) :
  validate t0 = true ->
  exists trace,
    Permutation trace (flat_map all_actions (children t0)) /\
    forall r, runTomNode pick t0 r = Some (fold_left act trace r).
Proof.
  intros Hv; unfold runTomNode.
  apply (@traverse_spec _ (Scheduled 0 t0) Hv).
  simpl; unfold cost; rewrite (iterate_eq t0); simpl; lia.
Qed.


Lemma same_frame_refl (r : t) : same_frame r r.
Proof. now repeat split. Qed.

Lemma same_frame_trans (r1 r2 r3 : t) :
  same_frame r1 r2 -> same_frame r2 r3 -> same_frame r1 r3.
Proof. unfold same_frame; intros (-> & -> & ->) (-> & -> & ->); now repeat split. Qed.

Lemma tally_app (s : Stats.t) (a b : list (Signal * list Value)) :
  tally s (a ++ b) = tally (tally s a) b.
Proof. apply fold_left_app. Qed.

(** A listener of the test object model republishes the signal, counts
    it, and leaves the state machine where it is. *)
Lemma on_signal_spec (r : t) (s : Signal * list Value) :
  sm (on_signal r s) = StateMachine.emit (ev_name (event_of_signal s))
                         (ev_args (event_of_signal s)) (sm r) /\
  stats (on_signal r s) = tally (stats r) [s] /\
  console (on_signal r s) = console r /\
  same_frame r (on_signal r s).
Proof.
  destruct r as [m o tm en st vc co], s as [sig args], sig;
    unfold on_signal, view_call, emit, same_frame; simpl;
    (destruct (view o) as [v|]; 
     [ match goal with |- context [if ?b then _ else _] => destruct b end | ]);
    simpl; repeat split.
Qed.

Lemma fold_on_signal_spec (sigs : list (Signal * list Value)) (r : t) :
  StateMachine.state (sm (fold_left on_signal sigs r)) = state r /\
  StateMachine._validMoves (sm (fold_left on_signal sigs r)) =
    StateMachine._validMoves (sm r) /\
  StateMachine.commits (sm (fold_left on_signal sigs r)) = StateMachine.commits (sm r) /\
  emitted (fold_left on_signal sigs r) = emitted r ++ map event_of_signal sigs /\
  stats (fold_left on_signal sigs r) = tally (stats r) sigs /\
  console (fold_left on_signal sigs r) = console r /\
  same_frame r (fold_left on_signal sigs r).
Proof.
  revert r; induction sigs as [|s sigs IH]; intros r; simpl fold_left.
  - rewrite app_nil_r; repeat split.
  - destruct (IH (on_signal r s)) as (Hst & Hmv & Hcm & Hev & Hstats & Hco & Hfr).
    destruct (on_signal_spec r s) as (Hsm & Hs1 & Hc1 & Hf1).
    unfold state, emitted in *; rewrite Hst, Hmv, Hcm, Hev, Hstats, Hco, Hsm, Hs1, Hc1.
    simpl; rewrite <- app_assoc; repeat split;
      try (destruct s as [sig args]; reflexivity).
    + eapply same_frame_trans; eassumption.
    + eapply same_frame_trans; eassumption.
    + eapply same_frame_trans; eassumption.
Qed.



(** In a run, the handler of a rejection moves the runner to 'fail' (or
    finds it there) and does not throw. *)
Lemma on_rejection_in_run (err : Value) (r : t) :
  in_run r ->
  exists r' : t,
    on_rejection err r = Normal r' /\
    in_run r' /\ state r' = Some "fail" /\
    stats r' = stats r /\ same_frame r r' /\
    emitted r' = emitted r ++ (if failed r then [] else fail_events).
Proof.
  intros [Hmoves Hstate].
  destruct r as [[st moves ev cm] o tm en sts vc co];
    unfold in_run, state, emitted, same_frame, failed in *; simpl in *; subst moves.
  unfold on_rejection, setState; cbn -[validMoves].
  destruct Hstate as [-> | ->]; cbn; destruct (debug o); cbn;
    eexists; (split; [reflexivity|]); cbn.
  all: repeat split.
  all: try (now right).
  all: first [ now rewrite app_nil_r | now rewrite <- app_assoc ].
Qed.

(** A visit in a run: the [.catch] does not throw, the runner stays in
    the run, in 'fail' if the visited run was rejected and where it was
    otherwise, and the counters have taken the signals of the run. *)
Lemma visit_spec (n : Tom) (r : t) :
  in_run r ->
  run_catch n r = Normal (visit r n) /\
  in_run (visit r n) /\
  failed (visit r n) = (failed r || rejects n) /\
  stats (visit r n) = tally (stats r) (signals (run_of n)) /\
  same_frame r (visit r n) /\
  emitted (visit r n) = emitted r ++ visit_events (failed r) n.
Proof.
  intros Hrun; unfold visit, run_catch, rejects, visit_events.
  destruct (fold_on_signal_spec (signals (run_of n)) r)
    as (Hst & Hmv & _ & Hev & Hstats & _ & Hfr).
  assert (Hrun1 : in_run (fold_left on_signal (signals (run_of n)) r)).
  { destruct Hrun as [Hm Hs]; split; [congruence|].
    unfold state in *; rewrite Hst; exact Hs. }
  assert (Hf1 : failed (fold_left on_signal (signals (run_of n)) r) = failed r).
  { unfold failed, state in *; now rewrite Hst. }
  unfold rejects; destruct (outcome (run_of n)) as [v|err].
  - split; [reflexivity|]. split; [assumption|].
    split; [now rewrite Hf1, orb_false_r|].
    split; [assumption|]. split; [assumption|].
    simpl; now rewrite app_nil_r.
  - destruct (on_rejection_in_run err Hrun1)
      as (r' & -> & Hrun' & Hfail & Hstats' & Hfr' & Hev').
    split; [reflexivity|]. split; [assumption|].
    split; [unfold failed at 1; rewrite Hfail; simpl; now rewrite orb_true_r|].
    split; [congruence|]. split; [apply (same_frame_trans Hfr Hfr')|].
    rewrite Hev', Hev, Hf1, <- app_assoc; simpl.
    now destruct (failed r).
Qed.

(** The signals of an instant reach the runner in a run. *)
Lemma signals_in_run (sigs : list (Signal * list Value)) (r : t) :
  in_run r ->
  in_run (fold_left on_signal sigs r) /\
  failed (fold_left on_signal sigs r) = failed r /\
  stats (fold_left on_signal sigs r) = tally (stats r) sigs /\
  same_frame r (fold_left on_signal sigs r) /\
  emitted (fold_left on_signal sigs r) = emitted r ++ map event_of_signal sigs.
Proof.
  intros Hrun.
  destruct (fold_on_signal_spec sigs r) as (Hst & Hmv & _ & Hev & Hstats & _ & Hfr).
  split; [|split; [|split; [exact Hstats | split; [exact Hfr | exact Hev]]]].
  - destruct Hrun as [Hm Hs]; split; [congruence|].
    unfold state in *; rewrite Hst; exact Hs.
  - unfold failed, state in *; now rewrite Hst.
Qed.

(** An instant in a run: the handler of [.catch] does not throw, the
    runner stays in the run, in 'fail' once a handler has run, and the
    counters have taken the signals of the instant. *)
Lemma act_spec (a : Action) (r : t) :
  in_run r ->
  in_run (act r a) /\
  failed (act r a) = (failed r || catches a) /\
  stats (act r a) = tally (stats r) (action_signals a) /\
  same_frame r (act r a) /\
  emitted (act r a) = emitted r ++ action_events (failed r) a.
Proof.
  intros Hrun; unfold action_events.
  destruct a as [n|n|n]; cbn [act action_signals catches andb map app].
  - destruct (signals_in_run (at_call n) Hrun) as (H1 & H2 & H3 & H4 & H5).
    rewrite orb_false_r, app_nil_r.
    split; [exact H1|]. split; [exact H2|]. split; [exact H3|]. split; assumption.
  - destruct (signals_in_run (at_settlement n) Hrun) as (H1 & H2 & H3 & H4 & H5).
    rewrite orb_false_r, app_nil_r.
    split; [exact H1|]. split; [exact H2|]. split; [exact H3|]. split; assumption.
  - unfold rejects; destruct (outcome (run_of n)) as [v|err].
    + rewrite orb_false_r, app_nil_r.
      split; [exact Hrun|]. split; [reflexivity|]. split; [reflexivity|].
      split; [apply same_frame_refl | reflexivity].
    + destruct (on_rejection_in_run err Hrun)
        as (r' & -> & Hrun' & Hfail & Hstats' & Hfr' & Hev').
      split; [assumption|].
      split; [unfold failed at 1; rewrite Hfail; simpl; now rewrite orb_true_r|].
      split; [assumption|]. split; [assumption|].
      rewrite Hev'; simpl; now destruct (failed r).
Qed.

(** The instants of a run, one after the other. *)
Lemma fold_act_spec (trace : list Action) (r : t) :
  in_run r ->
  in_run (fold_left act trace r) /\
  failed (fold_left act trace r) = (failed r || existsb catches trace) /\
  stats (fold_left act trace r) =
    tally (stats r) (flat_map action_signals trace) /\
  same_frame r (fold_left act trace r) /\
  emitted (fold_left act trace r) = emitted r ++ trace_events (failed r) trace.
Proof.
  revert r; induction trace as [|a trace IH]; intros r Hrun; simpl.
  - split; [assumption|]. split; [now rewrite orb_false_r|]. split; [reflexivity|].
    split; [apply same_frame_refl|]. now rewrite app_nil_r.
  - destruct (act_spec a Hrun) as (Hrun1 & Hst1 & Hstats1 & Hfr1 & Hev1).
    destruct (IH _ Hrun1) as (Hrun2 & Hst2 & Hstats2 & Hfr2 & Hev2).
    split; [assumption|]. split; [|split; [|split]].
    + rewrite Hst2, Hst1, orb_assoc; reflexivity.
    + rewrite Hstats2, Hstats1, tally_app; reflexivity.
    + apply (same_frame_trans Hfr1 Hfr2).
    + rewrite Hev2, Hev1, Hst1, app_assoc; reflexivity.
Qed.

(** The run of the root, which [start()] awaits, is its instants in a
    row. *)
Lemma visit_acts (n : Tom) (r : t) : visit r n = fold_left act (own_actions n) r.
Proof.
  assert (Hsig : fold_left on_signal (signals (run_of n)) r =
                 fold_left on_signal (at_settlement n) (fold_left on_signal (at_call n) r)).
  { unfold at_call, at_settlement; rewrite <- fold_left_app, firstn_skipn; reflexivity. }
  unfold visit, run_catch, own_actions, run_actions, rejects; rewrite Hsig.
  destruct (outcome (run_of n)) as [v|err] eqn:Hout; simpl; rewrite ?Hout; reflexivity.
Qed.

Lemma flat_map_nested (A B : Type) (f : Tom -> list A) (g : Tom -> list B)
      (h : list A -> list B) (cs : list Tom) :
  (forall a b, h (a ++ b) = h a ++ h b) -> h [] = [] ->
  Forall (fun c => h (f c) = g c) cs ->
  h (flat_map f cs) = flat_map g cs.
Proof.
  intros Happ Hnil; induction 1 as [|c cs Hc _ IH]; simpl; [exact Hnil|].
  now rewrite Happ, Hc, IH.
Qed.

(** The signals of the instants of a tree are those of its runs. *)
Lemma actions_signals (n : Tom) :
  flat_map action_signals (all_actions n) = all_signals n.
Proof.
  unfold all_signals.
  induction n as [name0 testFn0 run0 limit tests IH] using Tom_nested_ind.
  set (n := TomNode name0 testFn0 run0 limit tests).
  change (all_actions n) with (Call n :: run_actions Called n ++ flat_map all_actions tests).
  change (iterate n) with (n :: flat_map iterate tests).
  cbn [flat_map action_signals run_actions app].
  rewrite flat_map_app.
  replace (flat_map action_signals (if rejects n then [Catch n] else [])) with
    (@nil (Signal * list Value)) by (now destruct (rejects n)).
  cbn [app]; rewrite app_assoc; unfold at_call, at_settlement; rewrite firstn_skipn.
  f_equal.
  rewrite (@flat_map_nested _ _ all_actions
             (fun c => flat_map (fun m => signals (run_of m)) (iterate c))
             (flat_map action_signals) tests);
    [|apply flat_map_app | reflexivity | exact IH].
  clear; induction tests as [|c tests IHt]; simpl; [reflexivity|].
  now rewrite flat_map_app, IHt.
Qed.

Lemma existsb_flat_map (A B : Type) (p : B -> bool) (f : A -> list B) (l : list A) :
  existsb p (flat_map f l) = existsb (fun x => existsb p (f x)) l.
Proof.
  induction l as [|x l IH]; simpl; [reflexivity|].
  now rewrite existsb_app, IH.
Qed.

(** A handler runs in a tree when a run of the tree is rejected. *)
Lemma actions_catches (n : Tom) :
  existsb catches (all_actions n) = existsb rejects (iterate n).
Proof.
  induction n as [name0 testFn0 run0 limit tests IH] using Tom_nested_ind.
  set (n := TomNode name0 testFn0 run0 limit tests).
  change (all_actions n) with (Call n :: run_actions Called n ++ flat_map all_actions tests).
  change (iterate n) with (n :: flat_map iterate tests).
  cbn [existsb run_actions catches app orb]; rewrite existsb_app.
  replace (existsb catches (if rejects n then [Catch n] else [])) with (rejects n)
    by (destruct (rejects n) eqn:E; simpl; now rewrite ?E).
  f_equal; rewrite !existsb_flat_map.
  clear n; induction IH as [|c tests Hc _ IHt]; simpl; [reflexivity|].
  now rewrite Hc, IHt.
Qed.

Lemma view_call_spec (has : View -> bool) (hook : string) (args : list Value) (r : t) :
  sm (view_call has hook args r) = sm r /\
  stats (view_call has hook args r) = stats r /\
  same_frame r (view_call has hook args r).
Proof.
  unfold view_call, same_frame; destruct (view (options r)) as [v|];
    [destruct (has v)|]; simpl; repeat split.
Qed.

Lemma emit_spec (eventName : string) (args : list Value) (r : t) :
  sm (emit eventName args r) = StateMachine.emit (Some eventName) args (sm r) /\
  stats (emit eventName args r) = stats r /\
  same_frame r (emit eventName args r).
Proof.
  unfold emit.
  destruct (String.eqb eventName "start");
    [|destruct (String.eqb eventName "end")];
    try (destruct (view_call_spec start_ "start" args
                    (with_sm (StateMachine.emit (Some eventName) args (sm r)) r))
          as (-> & -> & Hfr));
    try (destruct (view_call_spec end_ "end" args
                    (with_sm (StateMachine.emit (Some eventName) args (sm r)) r))
          as (-> & -> & Hfr));
    simpl; repeat split; apply Hfr.
Qed.

(** The two moves of a run that is not rejected. *)
Lemma setState_in_progress (args : list Value) (r : t) :
  state r = Some "pending" ->
  StateMachine._validMoves (sm r) = validMoves ->
  setState (Some "in-progress") args r =
  Normal (with_sm (StateMachine.committed (Some "in-progress") args (Some "pending") (sm r)) r).
Proof.
  destruct r as [[st moves ev cm] o tm en sts vc co]; unfold state; simpl.
  intros -> ->; reflexivity.
Qed.

Lemma setState_pass (r : t) :
  state r = Some "in-progress" ->
  StateMachine._validMoves (sm r) = validMoves ->
  setState (Some "pass") [] r =
  Normal (with_sm (StateMachine.committed (Some "pass") [] (Some "in-progress") (sm r)) r).
Proof.
  destruct r as [[st moves ev cm] o tm en sts vc co]; unfold state; simpl.
  intros -> ->; reflexivity.
Qed.

(** The counters are the numbers of the signals of each kind. *)
Lemma tally_counts (sigs : list (Signal * list Value)) (s : Stats.t) :
  tally s sigs =
  Stats.mk (Stats.pass s + count_signal tom_pass sigs)
           (Stats.fail s + count_signal tom_fail sigs)
           (Stats.skip s + count_signal tom_skipped sigs)
           (Stats.ignore s + count_signal tom_ignored sigs)
           (Stats.total s) (Stats.start s) (Stats.end_ s).
Proof.
  revert s; induction sigs as [|[sig args] sigs IH]; intros s.
  - destruct s; unfold tally, count_signal; simpl; f_equal; lia.
  - unfold tally in *; simpl fold_left; rewrite IH.
    unfold count_signal; destruct sig, s; simpl; f_equal; lia.
Qed.

Lemma final_stats_counts (now0 now1 : Z) (t0 : Tom) :
  final_stats now0 now1 t0 Stats.new_ =
  Stats.mk (count_signal tom_pass (all_signals t0))
           (count_signal tom_fail (all_signals t0))
           (count_signal tom_skipped (all_signals t0))
           (count_signal tom_ignored (all_signals t0))
           (testCount t0) now0 now1.
Proof. unfold final_stats; rewrite tally_counts; reflexivity. Qed.

Lemma existsb_perm (A : Type) (f : A -> bool) (l l' : list A) :
  Permutation l l' -> existsb f l = existsb f l'.
Proof.
  induction 1 as [|x l l' _ IH|x y l|l l' l'' _ IH1 _ IH2]; simpl.
  - reflexivity.
  - now rewrite IH.
  - now rewrite !orb_assoc, (orb_comm (f y)).
  - congruence.
Qed.

(** The counters do not depend on the order of the signals. *)
Lemma tally_perm (a b : list (Signal * list Value)) :
  Permutation a b -> forall s, tally s a = tally s b.
Proof.
  unfold tally;
    induction 1 as [|x l l' _ IH|x y l|l l' l'' _ IH1 _ IH2]; intros s; simpl.
  - reflexivity.
  - apply IH.
  - f_equal; destruct x as [[] ?], y as [[] ?]; reflexivity.
  - now rewrite IH1.
Qed.

(** A run from 'pending' over a valid tree: the run of the root comes
    first, then the instants of its descendants in the order the turns
    decide. *)
Lemma start_from_pending (now0 now1 : Z) (r0 : t) :
  state r0 = Some "pending" ->
  StateMachine._validMoves (sm r0) = validMoves ->
  validate (tom r0) = true ->
  exists (rest : list Action) (r : t),
    Permutation rest (flat_map all_actions (children (tom r0))) /\
    start pick now0 now1 r0 = Fulfils r /\
    ended r = true /\
    state r = final_state (tom r0) /\
    stats r = final_stats now0 now1 (tom r0) (stats r0) /\
    emitted r =
      emitted r0 ++
      run_trace (testCount (tom r0)) (own_actions (tom r0) ++ rest) (stats r) /\
    tom r = tom r0 /\ options r = options r0 /\
    StateMachine._validMoves (sm r) = validMoves.
Proof.
  intros Hpending Hmoves Hvalid; unfold start.
  destruct (view_call_spec init "init" [] r0) as (Hsm1 & Hst1 & Hop1 & Htom1 & Hen1).
  set (r1 := view_call init "init" [] r0) in *.
  cbn [with_stats tom stats sm options ended view_calls console].
  rewrite Htom1, Hst1.
  fold (testCount (tom r0)).
  set (count := [VNum (Z.of_nat (testCount (tom r0)))]).
  set (rA := with_stats (Stats.set_total (testCount (tom r0))
                           (Stats.set_start now0 (stats r0)))
               (with_stats (Stats.set_start now0 (stats r0)) r1)).
  assert (HsmA : sm rA = sm r0) by exact Hsm1.
  rewrite (@setState_in_progress count rA)
    by (unfold state; rewrite HsmA; assumption).
  rewrite HsmA.
  set (mB := StateMachine.committed (Some "in-progress") count (Some "pending") (sm r0)).
  destruct (emit_spec "start" count (with_sm mB rA)) as (HsmB & HstB & HopB & HtomB & HenB).
  set (rB := emit "start" count (with_sm mB rA)) in *.
  cbn [with_sm with_stats tom stats sm options ended] in HsmB, HstB, HopB, HtomB, HenB.
  assert (HtomB0 : tom rB = tom r0) by (rewrite HtomB; exact Htom1).
  assert (HopB0 : options rB = options r0) by (rewrite HopB; exact Hop1).
  assert (HstB0 : stats rB = Stats.set_total (testCount (tom r0))
                               (Stats.set_start now0 (stats r0)))
    by (rewrite HstB; reflexivity).
  clear HtomB HopB HstB HenB.
  assert (HrunB : in_run rB).
  { split; unfold state; rewrite HsmB; [exact Hmoves | now left]. }
  assert (HfailedB : failed rB = false)
    by (unfold failed, state; rewrite HsmB; reflexivity).
  assert (HevB : emitted rB = emitted r0 ++ start_events (testCount (tom r0))).
  { unfold emitted; rewrite HsmB; unfold mB; simpl.
    rewrite <- !app_assoc; reflexivity. }
  destruct (visit_spec (tom rB) HrunB) as (-> & HrunV & _ & _ & (_ & HtomV & _) & _).
  rewrite HtomV, HtomB0.
  destruct (@runTomNode_acts (tom r0) Hvalid) as (rest & Hperm & Htraverse).
  rewrite Htraverse, visit_acts, <- fold_left_app.
  set (trace := own_actions (tom r0) ++ rest).
  assert (Hall : Permutation trace (all_actions (tom r0))).
  { unfold trace, own_actions; rewrite (all_actions_eq (tom r0)).
    cbn [app]; apply perm_skip, Permutation_app_head, Hperm. }
  destruct (fold_act_spec trace HrunB)
    as (HrunC & HfailedC & HstC & (HopC & HtomC & HenC) & HevC).
  set (rC := fold_left act trace rB) in *.
  rewrite HfailedB in HfailedC, HevC; rewrite orb_false_l in HfailedC.
  change (State_eqb (state (with_ended true rC)) (Some "fail")) with (failed rC).
  rewrite HfailedC.
  assert (HstatsC : stats rC =
                    tally (Stats.set_total (testCount (tom r0))
                             (Stats.set_start now0 (stats r0))) (all_signals (tom r0))).
  { rewrite HstC, HstB0, <- actions_signals; apply tally_perm.
    now apply Permutation_flat_map. }
  exists rest; unfold final_state, run_trace; fold trace.
  rewrite <- actions_catches, <- (existsb_perm catches Hall).
  destruct (existsb catches trace) eqn:Hrej.
  - destruct (emit_spec "end" [VStats (Stats.set_end now1 (stats (with_ended true rC)))]
                (with_stats (Stats.set_end now1 (stats (with_ended true rC)))
                   (with_ended true rC)))
      as (HsmE & HstE & HopE & HtomE & HenE).
    eexists; split; [exact Hperm|]. split; [reflexivity|].
    cbn [with_sm with_stats with_ended tom stats sm options ended] in *.
    split; [assumption|].
    split.
    { unfold state; rewrite HsmE; simpl.
      unfold failed in HfailedC.
      destruct (State_eqb_spec (state rC) (Some "fail")); [assumption | discriminate]. }
    split; [rewrite HstE, HstatsC; reflexivity|].
    split.
    { unfold emitted in *; rewrite HsmE, HstE; simpl StateMachine.emitted.
      rewrite HevC, HevB, <- !app_assoc; reflexivity. }
    split; [congruence|]. split; [congruence|].
    rewrite HsmE; simpl; apply HrunC.
  - assert (HstateC : state rC = Some "in-progress").
    { destruct HrunC as [_ [Hs|Hs]]; [assumption|].
      unfold failed in HfailedC; rewrite Hs in HfailedC; discriminate. }
    rewrite (@setState_pass (with_ended true rC)) by (try exact HstateC; apply HrunC).
    set (mD := StateMachine.committed (Some "pass") [] (Some "in-progress")
                 (sm (with_ended true rC))).
    destruct (emit_spec "end"
                [VStats (Stats.set_end now1 (stats (with_sm mD (with_ended true rC))))]
                (with_stats (Stats.set_end now1 (stats (with_sm mD (with_ended true rC))))
                   (with_sm mD (with_ended true rC))))
      as (HsmE & HstE & HopE & HtomE & HenE).
    eexists; split; [exact Hperm|]. split; [reflexivity|].
    cbn [with_sm with_stats with_ended tom stats sm options ended] in *.
    split; [assumption|].
    split; [unfold state; rewrite HsmE; reflexivity|].
    split; [rewrite HstE, HstatsC; reflexivity|].
    split.
    { unfold emitted in *; rewrite HsmE, HstE; unfold mD; simpl StateMachine.emitted.
      rewrite HevC, HevB, <- !app_assoc; reflexivity. }
    split; [congruence|]. split; [congruence|].
    rewrite HsmE; unfold mD; simpl; apply HrunC.
Qed.

Lemma new_fresh (tom0 : Tom) (options0 : Options) (r0 : t) :
  new_ tom0 options0 = inr r0 ->
  validate tom0 = true /\ r0 = fresh tom0 options0.
Proof.
  unfold new_; destruct (validate tom0); [|discriminate].
  intros [= <-]; split; reflexivity.
Qed.

Lemma tally_total (sigs : list (Signal * list Value)) (s : Stats.t) :
  Stats.total (tally s sigs) = Stats.total s.
Proof.
  revert s; induction sigs as [|[sig args] sigs IH]; intros s; [reflexivity|].
  unfold tally in *; simpl; rewrite IH; now destruct sig.
Qed.

(** A run of a freshly constructed runner. *)
Lemma start_fresh (tom0 : Tom) (options0 : Options) (r0 : t) (now0 now1 : Z) :
  new_ tom0 options0 = inr r0 ->
  exists (rest : list Action) (r : t),
    Permutation rest (flat_map all_actions (children tom0)) /\
    start pick now0 now1 r0 = Fulfils r /\
    ended r = true /\
    state r = final_state tom0 /\
    stats r = final_stats now0 now1 tom0 Stats.new_ /\
    emitted r = run_trace (testCount tom0) (own_actions tom0 ++ rest) (stats r) /\
    StateMachine._validMoves (sm r) = validMoves.
Proof.
  intros Hnew; apply new_fresh in Hnew as [Hvalid ->].
  destruct (@start_from_pending now0 now1 (fresh tom0 options0))
    as (rest & r & Hperm & Hstart & Hended & Hstate & Hstats & Hev & _ & _ & Hmoves);
    try reflexivity; [exact Hvalid|].
  exists rest, r; repeat split; assumption.
Qed.

Lemma own_events (failed0 : bool) (n : Tom) :
  trace_events failed0 (own_actions n) = visit_events failed0 n.
Proof.
  assert (Hs : map event_of_signal (signals (run_of n)) =
               map event_of_signal (at_call n) ++ map event_of_signal (at_settlement n)).
  { rewrite <- map_app; unfold at_call, at_settlement; now rewrite firstn_skipn. }
  unfold own_actions, run_actions, visit_events; rewrite Hs.
  destruct (rejects n) eqn:E, failed0;
    cbn [trace_events action_events action_signals catches andb negb orb app map];
    rewrite ?E; cbn [andb negb orb app]; rewrite ?app_nil_r, <- ?app_assoc; reflexivity.
Qed.

Lemma own_catches (n : Tom) : existsb catches (own_actions n) = rejects n.
Proof.
  unfold own_actions, run_actions; destruct (rejects n) eqn:E; simpl; now rewrite ?E.
Qed.

(** C1. A runner constructed over a tree, started, whatever happens first
    at each turn of the traversal: whatever runs of the tree are rejected,
    the future of [start()] fulfils; the runner has ended, in state 'fail'
    as soon as one run was rejected and in 'pass' otherwise; the counters
    have taken every signal of the tree; the events are those of the run
    of the root and then of the instants of the runs of the descendants
    (the call, the settlement, the handler of a rejection), each instant
    once, in an order in which the instants of several jobs may alternate;
    and the last of them is 'end' with the counters. *)
Theorem start_captures_unit_failures
        (tom0 : Tom) (options0 : Options) (r0 : t) (now0 now1 : Z) :
  new_ tom0 options0 = inr r0 ->
  exists r : t,
    start pick now0 now1 r0 = Fulfils r /\
    ended r = true /\
    ((exists n, In n (iterate tom0) /\ rejects n = true) -> state r = Some "fail") /\
    state r = final_state tom0 /\
    stats r =
      Stats.mk (count_signal tom_pass (all_signals tom0))
               (count_signal tom_fail (all_signals tom0))
               (count_signal tom_skipped (all_signals tom0))
               (count_signal tom_ignored (all_signals tom0))
               (testCount tom0) now0 now1 /\
    (exists rest,
        Permutation rest (flat_map all_actions (children tom0)) /\
        emitted r = run_trace (testCount tom0) (own_actions tom0 ++ rest) (stats r)) /\
    last (emitted r) (mkEvent None []) = mkEvent (Some "end") [VStats (stats r)].
Proof.
  intros Hnew.
  destruct (@start_fresh tom0 options0 r0 now0 now1 Hnew)
    as (ns & r & Hperm & Hstart & Hended & Hstate & Hstats & Hev & _).
  rewrite final_stats_counts in Hstats.
  exists r; split; [exact Hstart|]. split; [exact Hended|].
  split; [|split; [exact Hstate|split; [exact Hstats|split]]].
  - intros (n & Hin & Hrej); rewrite Hstate; unfold final_state.
    replace (existsb rejects (iterate tom0)) with true; [reflexivity|].
    symmetry; apply existsb_exists; now exists n.
  - exists ns; split; assumption.
  - rewrite Hev; unfold run_trace; rewrite !app_assoc; apply last_last.
Qed.

(** C9. A runner over a tree with no children and no test function, the
    root's own run fulfilling: [start()] fulfils; the runner went from
    'pending' to 'in-progress' to 'pass'; it emitted 'start' with 0 and,
    last, 'end' with counters whose total is 0. *)
Theorem start_on_empty_tree
        (name0 : string) (run0 : TomRun) (limit : nat) (v : Value)
        (options0 : Options) (r0 : t) (now0 now1 : Z) :
  outcome run0 = Fulfilled v ->
  new_ (TomNode name0 false run0 limit []) options0 = inr r0 ->
  exists r : t,
    start pick now0 now1 r0 = Fulfils r /\
    state r0 = Some "pending" /\
    state r = Some "pass" /\
    emitted r =
      [ mkEvent (Some "state") [VStr "in-progress"; VStr "pending"];
        mkEvent (Some "in-progress") [VNum 0];
        mkEvent (Some "start") [VNum 0] ] ++
      map event_of_signal (signals run0) ++
      [ mkEvent (Some "state") [VStr "pass"; VStr "in-progress"];
        mkEvent (Some "pass") [];
        mkEvent (Some "end") [VStats (stats r)] ] /\
    Stats.total (stats r) = 0.
Proof.
  intros Hrun Hnew.
  destruct (@start_fresh _ options0 r0 now0 now1 Hnew)
    as (ns & r & Hperm & Hstart & _ & Hstate & Hstats & Hev & _).
  apply new_fresh in Hnew as [_ ->].
  simpl in Hperm; apply Permutation_sym, Permutation_nil in Hperm; subst ns.
  assert (Hrej : rejects (TomNode name0 false run0 limit []) = false)
    by (unfold rejects; simpl; now rewrite Hrun).
  exists r; split; [exact Hstart|]. split; [reflexivity|].
  split; [|split].
  - rewrite Hstate; unfold final_state; simpl iterate; simpl existsb.
    now rewrite Hrej.
  - rewrite Hev, app_nil_r; unfold run_trace, testCount.
    rewrite own_events, own_catches, Hrej; simpl iterate.
    unfold visit_events; rewrite Hrej; simpl.
    rewrite !app_nil_r; reflexivity.
  - rewrite Hstats; unfold final_stats; simpl; now rewrite tally_total.
Qed.

(** A runner whose run is over refuses the move to 'in-progress'. *)
Lemma start_after_run (now0 now1 : Z) (r : t) :
  StateMachine._validMoves (sm r) = validMoves ->
  state r = Some "pass" \/ state r = Some "fail" ->
  exists r' : t,
    start pick now0 now1 r =
      Rejects (StateMachine.invalid_move_error (Some "in-progress") (state r) ["'pending'"])
              r' /\
    state r' = state r.
Proof.
  intros Hmoves Hstate; unfold start.
  destruct (view_call_spec init "init" [] r) as (Hsm1 & _).
  set (r1 := view_call init "init" [] r) in *.
  cbn [with_stats tom stats sm options ended view_calls console].
  unfold setState; cbn [with_stats tom stats sm options ended view_calls console].
  rewrite Hsm1; unfold state in *.
  destruct (sm r) as [st moves ev cm]; simpl in Hmoves, Hstate; subst moves.
  destruct Hstate as [-> | ->]; eexists; split; reflexivity.
Qed.

(** C10. A runner whose run has completed, started again: the future of
    [start()] rejects with the INVALID_MOVE error of the move to
    'in-progress', which names 'pending' as the only legal source, and
    the runner stays in the state the run ended in. *)
Theorem second_start_is_refused
        (tom0 : Tom) (options0 : Options) (r0 r1 : t) (now0 now1 now2 now3 : Z) :
  new_ tom0 options0 = inr r0 ->
  start pick now0 now1 r0 = Fulfils r1 ->
  (state r1 = Some "pass" \/ state r1 = Some "fail") /\
  exists (e : Error) (r2 : t),
    start pick now2 now3 r1 = Rejects e r2 /\
    err_name e = "INVALID_MOVE" /\
    message e =
      ("Can only move to 'in-progress' from 'pending' (not '"
         ++ show_state (state r1) ++ "')")%string /\
    state r2 = state r1.
Proof.
  intros Hnew Hfirst.
  destruct (@start_fresh tom0 options0 r0 now0 now1 Hnew)
    as (ns & r & _ & Hstart & _ & Hstate & _ & _ & Hmoves).
  rewrite Hfirst in Hstart; injection Hstart as <-.
  assert (Hdone : state r1 = Some "pass" \/ state r1 = Some "fail").
  { rewrite Hstate; unfold final_state; destruct (existsb _ _); [now right | now left]. }
  split; [exact Hdone|].
  destruct (@start_after_run now2 now3 r1 Hmoves Hdone) as (r2 & Hsecond & Hsame).
  eexists; exists r2; split; [exact Hsecond|].
  split; [reflexivity|]. split; [|exact Hsame].
  destruct Hdone as [-> | ->]; reflexivity.
Qed.

End TestRunnerCoreFacts.

(** The tree with two leaf tests, one of which throws, under the policy
    that settles the oldest job first. *)
Lemma start_captures_unit_failures_witness :
  exists r : TestRunnerCore.t,
    TestRunnerCore.start Queue.oldest_first 100 250
      (TestRunnerCore.fresh TestRunnerCore.two_leaf_tree TestRunnerCore.no_options)
    = TestRunnerCore.Fulfils r /\
    TestRunnerCore.ended r = true /\
    ((exists n, In n (TestRunnerCore.iterate TestRunnerCore.two_leaf_tree) /\
                TestRunnerCore.rejects n = true) ->
     TestRunnerCore.state r = Some "fail") /\
    TestRunnerCore.state r = TestRunnerCore.final_state TestRunnerCore.two_leaf_tree /\
    TestRunnerCore.stats r =
      Stats.mk
        (TestRunnerCore.count_signal TestRunnerCore.tom_pass
           (TestRunnerCore.all_signals TestRunnerCore.two_leaf_tree))
        (TestRunnerCore.count_signal TestRunnerCore.tom_fail
           (TestRunnerCore.all_signals TestRunnerCore.two_leaf_tree))
        (TestRunnerCore.count_signal TestRunnerCore.tom_skipped
           (TestRunnerCore.all_signals TestRunnerCore.two_leaf_tree))
        (TestRunnerCore.count_signal TestRunnerCore.tom_ignored
           (TestRunnerCore.all_signals TestRunnerCore.two_leaf_tree))
        (TestRunnerCore.testCount TestRunnerCore.two_leaf_tree) 100 250 /\
    (exists rest,
        Permutation rest
          (flat_map TestRunnerCore.all_actions
             (TestRunnerCore.children TestRunnerCore.two_leaf_tree)) /\
        TestRunnerCore.emitted r =
          TestRunnerCore.run_trace
            (TestRunnerCore.testCount TestRunnerCore.two_leaf_tree)
            (TestRunnerCore.own_actions TestRunnerCore.two_leaf_tree ++ rest)
            (TestRunnerCore.stats r)) /\
    last (TestRunnerCore.emitted r) (mkEvent None []) =
      mkEvent (Some "end") [VStats (TestRunnerCore.stats r)].
Proof.
  apply (@start_captures_unit_failures Queue.oldest_first
           TestRunnerCore.two_leaf_tree TestRunnerCore.no_options
           (TestRunnerCore.fresh TestRunnerCore.two_leaf_tree TestRunnerCore.no_options)
           100 250 eq_refl).
Defined.

(** The end-to-end figures of the two-leaf tree: one pass, one fail, no
    skip, and the runner in 'fail'. *)
Lemma start_two_leaf_tree :
  exists r : TestRunnerCore.t,
    TestRunnerCore.start Queue.oldest_first 100 250
      (TestRunnerCore.fresh TestRunnerCore.two_leaf_tree TestRunnerCore.no_options)
    = TestRunnerCore.Fulfils r /\
    TestRunnerCore.state r = Some "fail" /\
    TestRunnerCore.stats r = Stats.mk 1 1 0 1 2 100 250.
Proof.
  eexists; split; [vm_compute; reflexivity|].
  split; vm_compute; reflexivity.
Qed.

(** The jobs of the two leaves are started in one turn: both tests start
    before either run settles, and the move to 'fail' comes when the
    handler of the rejection runs. *)
Lemma start_alternates_siblings :
  exists r : TestRunnerCore.t,
    TestRunnerCore.start Queue.oldest_first 100 250
      (TestRunnerCore.fresh TestRunnerCore.two_async_leaves TestRunnerCore.no_options)
    = TestRunnerCore.Fulfils r /\
    map ev_name (TestRunnerCore.emitted r) =
      [ Some "state"; Some "in-progress"; Some "start"; Some "test-ignore";
        Some "test-start"; Some "test-start"; Some "test-fail";
        Some "state"; Some "fail"; Some "test-pass"; Some "end" ].
Proof. eexists; split; vm_compute; reflexivity. Qed.

Lemma start_on_empty_tree_witness :
  exists r : TestRunnerCore.t,
    TestRunnerCore.start Queue.oldest_first 100 250
      (TestRunnerCore.fresh TestRunnerCore.empty_tree TestRunnerCore.no_options)
    = TestRunnerCore.Fulfils r /\
    TestRunnerCore.state
      (TestRunnerCore.fresh TestRunnerCore.empty_tree TestRunnerCore.no_options)
    = Some "pending" /\
    TestRunnerCore.state r = Some "pass" /\
    TestRunnerCore.emitted r =
      [ mkEvent (Some "state") [VStr "in-progress"; VStr "pending"];
        mkEvent (Some "in-progress") [VNum 0];
        mkEvent (Some "start") [VNum 0] ] ++
      map TestRunnerCore.event_of_signal
        (TestRunnerCore.signals (TestRunnerCore.idle "tom")) ++
      [ mkEvent (Some "state") [VStr "pass"; VStr "in-progress"];
        mkEvent (Some "pass") [];
        mkEvent (Some "end") [VStats (TestRunnerCore.stats r)] ] /\
    Stats.total (TestRunnerCore.stats r) = 0.
Proof.
  apply (@start_on_empty_tree Queue.oldest_first "tom" (TestRunnerCore.idle "tom") 10
           VUndefined TestRunnerCore.no_options
           (TestRunnerCore.fresh TestRunnerCore.empty_tree TestRunnerCore.no_options)
           100 250 eq_refl eq_refl).
Defined.

(** The runner over the empty tree, after its run, started again. *)
Lemma second_start_is_refused_witness :
  exists r1 : TestRunnerCore.t,
    TestRunnerCore.start Queue.oldest_first 100 250
      (TestRunnerCore.fresh TestRunnerCore.empty_tree TestRunnerCore.no_options)
    = TestRunnerCore.Fulfils r1 /\
    (TestRunnerCore.state r1 = Some "pass" \/ TestRunnerCore.state r1 = Some "fail") /\
    exists (e : Error) (r2 : TestRunnerCore.t),
      TestRunnerCore.start Queue.oldest_first 300 400 r1 = TestRunnerCore.Rejects e r2 /\
      err_name e = "INVALID_MOVE" /\
      message e =
        ("Can only move to 'in-progress' from 'pending' (not '"
           ++ show_state (TestRunnerCore.state r1) ++ "')")%string /\
      TestRunnerCore.state r2 = TestRunnerCore.state r1.
Proof.
  eexists; split; [vm_compute; reflexivity|].
  apply (@second_start_is_refused Queue.oldest_first
           TestRunnerCore.empty_tree TestRunnerCore.no_options
           (TestRunnerCore.fresh TestRunnerCore.empty_tree TestRunnerCore.no_options)
           _ 100 250 300 400);
    [reflexivity | vm_compute; reflexivity].
Defined.

(** * Further properties of the code *)

(** ** The state machine under any declared moves *)
Section FsmBaseFacts.

Import StateMachine FsmBase.

Variables (newState : State) (args : list Value).

(** What a pass over the moves does: some number of commits, each with
    its pair of events; none leaves the machine as it was, one or more
    leave it in the new state. *)
Lemma visit_moves_shape (prevState : State) (moves : list Move) (m : t) (moved : bool) :
  exists k : nat,
    commits (fst (fold_left (visit_move newState args prevState) moves (m, moved)))
      = commits m + k /\
    emitted (fst (fold_left (visit_move newState args prevState) moves (m, moved)))
      = emitted m ++ List.concat (repeat (pair_of newState prevState args) k) /\
    _validMoves (fst (fold_left (visit_move newState args prevState) moves (m, moved)))
      = _validMoves m /\
    (k = 0 ->
     fold_left (visit_move newState args prevState) moves (m, moved) = (m, moved)) /\
    (0 < k ->
     state (fst (fold_left (visit_move newState args prevState) moves (m, moved)))
       = newState /\
     snd (fold_left (visit_move newState args prevState) moves (m, moved)) = true).
Proof.
  revert m moved; induction moves as [|move moves IH]; intros m moved; simpl.
  - exists 0; simpl; rewrite app_nil_r; repeat split; lia.
  - destruct (has (state m) (from move) && has newState (to move)).
    + set (m1 := emit newState args
                   (emit (Some "state")
                      [value_of_state newState; value_of_state prevState]
                      (_state_set newState m))).
      destruct (IH m1 true) as (k & Hc & He & Hv & Hzero & Hpos).
      exists (S k).
      split; [rewrite Hc; unfold m1; simpl; lia|].
      split; [rewrite He; unfold m1; simpl; now rewrite <- !app_assoc|].
      split; [rewrite Hv; reflexivity|]. split; [lia|].
      intros _; destruct k as [|k].
      * rewrite (Hzero eq_refl); split; reflexivity.
      * apply Hpos; lia.
    + apply IH.
Qed.

(** A pass that meets a permitting move has moved. *)
Lemma visit_moves_moved (prevState : State) (moves : list Move) (m : t) (moved : bool) :
  moved = true \/ existsb (permits (state m) newState) moves = true ->
  snd (fold_left (visit_move newState args prevState) moves (m, moved)) = true.
Proof.
  revert m moved; induction moves as [|move moves IH]; intros m moved Hor; simpl.
  - destruct Hor as [H|H]; [exact H | discriminate].
  - unfold permits in Hor at 1; simpl in Hor.
    destruct (has (state m) (from move) && has newState (to move)).
    + apply IH; now left.
    + apply IH; destruct Hor as [H|H]; [now left | now right].
Qed.

(** A call that throws has changed nothing, and the error is the one of
    an invalid move. *)
Lemma setState_throw_unchanged (m m' : t) (e : Error) :
  setState newState args m = Throw e m' -> m' = m /\ err_name e = "INVALID_MOVE".
Proof.
  unfold setState.
  destruct (State_eqb (state m) newState); [discriminate|].
  destruct (existsb (fun move => has newState (to move)) (_validMoves m)) eqn:Hto; simpl.
  - destruct (visit_moves_shape (state m) (_validMoves m) m false)
      as (k & _ & _ & _ & Hzero & Hpos).
    destruct (fold_left _ (_validMoves m) (m, false)) as [m1 moved] eqn:Hfold.
    destruct moved; simpl; [discriminate|].
    assert (Hk : k = 0).
    { destruct k as [|k]; [reflexivity|].
      destruct Hpos as [_ Hmoved]; [lia | simpl in Hmoved; discriminate]. }
    specialize (Hzero Hk); injection Hzero as ->.
    rewrite (froms_legal_sources _ _ Hto).
    intros [= <- <-]; split; reflexivity.
  - intros [= <- <-]; split; reflexivity.
Qed.

(** A call that returns normally was for the current state or was
    permitted by a declared move. *)
Lemma setState_returns_permitted (m m' : t) :
  setState newState args m = Normal m' ->
  state m = newState \/
  exists move, In move (_validMoves m) /\ permits (state m) newState move = true.
Proof.
  intros Hok.
  destruct (State_eqb_spec (state m) newState) as [E|E]; [now left | right].
  destruct (existsb (permits (state m) newState) (_validMoves m)) eqn:Hex.
  - apply existsb_exists in Hex as (move & Hin & Hp); now exists move.
  - rewrite (@setState_no_permit newState args m) in Hok; [discriminate | congruence |].
    intros move Hin.
    destruct (permits (state m) newState move) eqn:Hp; [|reflexivity].
    assert (Hex' : existsb (permits (state m) newState) (_validMoves m) = true)
      by (apply existsb_exists; now exists move).
    congruence.
Qed.

(** A call that a declared move permits returns normally. *)
Lemma setState_permitted_returns (m : t) (move : Move) :
  In move (_validMoves m) -> permits (state m) newState move = true ->
  exists m', setState newState args m = Normal m'.
Proof.
  intros Hin Hp.
  destruct (State_eqb_spec (state m) newState) as [E|E];
    [exists m; now apply setState_same|].
  unfold setState; rewrite State_eqb_neq by assumption.
  assert (Hto : existsb (fun mv => has newState (to mv)) (_validMoves m) = true).
  { apply existsb_exists; exists move; split; [assumption|].
    unfold permits in Hp; now apply andb_true_iff in Hp. }
  rewrite Hto; simpl.
  assert (Hmoved : snd (fold_left (visit_move newState args (state m))
                                  (_validMoves m) (m, false)) = true).
  { apply visit_moves_moved; right; apply existsb_exists; now exists move. }
  destruct (fold_left _ (_validMoves m) (m, false)) as [m1 moved].
  simpl in Hmoved; subst moved; simpl; now exists m1.
Qed.

(** A call that returns normally having changed the state went to a
    declared destination. *)
Lemma setState_normal_destination (m m' : t) :
  setState newState args m = Normal m' ->
  _validMoves m' = _validMoves m /\
  state m' = newState /\
  (state m = newState \/ destination (_validMoves m) newState = true).
Proof.
  unfold setState, destination.
  destruct (State_eqb_spec (state m) newState) as [E|E].
  - intros [= <-]; repeat split; [assumption | now left].
  - destruct (existsb (fun move => has newState (to move)) (_validMoves m)); simpl;
      [|discriminate].
    destruct (visit_moves_shape (state m) (_validMoves m) m false)
      as (k & _ & _ & Hv & Hzero & Hpos).
    destruct (fold_left _ (_validMoves m) (m, false)) as [m1 moved] eqn:Hfold.
    destruct moved; simpl; [|destruct (froms newState (_validMoves m)); discriminate].
    intros [= <-]; simpl in *.
    assert (Hk : 0 < k).
    { destruct k as [|k]; [|lia]. specialize (Hzero eq_refl); discriminate. }
    destruct (Hpos Hk) as [Hs _]; repeat split; [assumption | assumption | now right].
Qed.

(** X1. A call [setState(newState, ...)] returns normally exactly when
    [newState] is the current state or some declared move has the
    current state among its sources and [newState] among its
    destinations. *)
Theorem setState_succeeds_iff (m : t) :
  (exists m', setState newState args m = Normal m') <->
  (state m = newState \/
   exists move, In move (_validMoves m) /\ permits (state m) newState move = true).
Proof.
  split.
  - intros (m' & Hok); eapply setState_returns_permitted; eassumption.
  - intros [E | (move & Hin & Hp)].
    + exists m; now apply setState_same.
    + eapply setState_permitted_returns; eassumption.
Qed.

(** A pass over the moves commits once for each move that fires, each
    time with the pair of events. *)
Lemma visit_moves_firing (prevState : State) (moves : list Move) (m : t) (moved : bool) :
  commits (fst (fold_left (visit_move newState args prevState) moves (m, moved)))
    = commits m + firing newState (state m) moves /\
  emitted (fst (fold_left (visit_move newState args prevState) moves (m, moved)))
    = emitted m ++
      List.concat (repeat (pair_of newState prevState args)
                          (firing newState (state m) moves)).
Proof.
  revert m moved; induction moves as [|move moves IH]; intros m moved; simpl.
  - rewrite app_nil_r; split; [lia | reflexivity].
  - unfold permits.
    destruct (has (state m) (from move) && has newState (to move)).
    + set (m1 := emit newState args
                   (emit (Some "state")
                      [value_of_state newState; value_of_state prevState]
                      (_state_set newState m))).
      destruct (IH m1 true) as (Hc & He).
      change (state m1) with newState in Hc, He.
      rewrite Hc, He; unfold m1; simpl; rewrite <- !app_assoc; split; [lia | reflexivity].
    + apply IH.
Qed.

(** The first move that permits the transition fires, and after it every
    move that has [newState] among its sources and its destinations. *)
Lemma firing_split (s : State) (pre post : list Move) (move : Move) :
  (forall x, In x pre -> permits s newState x = false) ->
  permits s newState move = true ->
  firing newState s (pre ++ move :: post) =
  S (List.length (filter (permits newState newState) post)).
Proof.
  intros Hpre Hmove; induction pre as [|x pre IH]; simpl.
  - rewrite Hmove; f_equal.
    clear; induction post as [|y post IH]; simpl; [reflexivity|].
    destruct (permits newState newState y); simpl; now rewrite IH.
  - rewrite (Hpre x (or_introl eq_refl)); apply IH.
    intros y Hy; apply Hpre; now right.
Qed.

(** X2. A call that returns normally leaves the machine in [newState]
    with its moves as declared.  When the machine was in [newState]
    already it has committed nothing and emitted nothing.  Otherwise it
    has committed once for each move that fired in the pass over the
    moves, and emitted as many times the pair "state" (newState, previous
    state), newState (args), and nothing else: once for the first move
    that permits the transition, and once more for every move after it
    that has [newState] among its sources and its destinations, whether
    or not it permits the transition. *)
Theorem setState_success_shape (m m' : t) :
  setState newState args m = Normal m' ->
  state m' = newState /\
  _validMoves m' = _validMoves m /\
  (state m = newState -> m' = m) /\
  (state m <> newState ->
   commits m' = commits m + firing newState (state m) (_validMoves m) /\
   emitted m' =
     emitted m ++
     List.concat (repeat (pair_of newState (state m) args)
                         (firing newState (state m) (_validMoves m))) /\
   exists (pre post : list Move) (move : Move),
     _validMoves m = pre ++ move :: post /\
     (forall x, In x pre -> permits (state m) newState x = false) /\
     permits (state m) newState move = true /\
     firing newState (state m) (_validMoves m) =
       S (List.length (filter (permits newState newState) post))).
Proof.
  intros Hok.
  destruct (setState_normal_destination _ Hok) as (Hmoves & Hstate & _).
  split; [exact Hstate|]. split; [exact Hmoves|]. split.
  - intros E; rewrite (@setState_same newState args m E) in Hok; congruence.
  - intros E.
    assert (Hex : exists (pre post : list Move) (move : Move),
               _validMoves m = pre ++ move :: post /\
               (forall x, In x pre -> permits (state m) newState x = false) /\
               permits (state m) newState move = true).
    { destruct (setState_returns_permitted _ Hok) as [E' | (mv & Hin & Hp)];
        [contradiction|].
      clear Hok Hmoves; induction (_validMoves m) as [|x l IH]; [destruct Hin|].
      destruct (permits (state m) newState x) eqn:Hx.
      - exists [], l, x; repeat split; [intros y []|exact Hx].
      - destruct Hin as [-> | Hin]; [congruence|].
        destruct (IH Hin) as (pre & post & move & -> & Hpre & Hmove).
        exists (x :: pre), post, move; repeat split; [|exact Hmove].
        intros y [<- | Hy]; [exact Hx | now apply Hpre]. }
    unfold setState in Hok; rewrite State_eqb_neq in Hok by assumption.
    destruct (existsb (fun move => has newState (to move)) (_validMoves m));
      simpl in Hok; [|discriminate].
    destruct (visit_moves_firing (state m) (_validMoves m) m false) as (Hc & He).
    destruct (fold_left _ (_validMoves m) (m, false)) as [m1 moved] eqn:Hfold.
    destruct moved; simpl in Hok;
      [|destruct (froms newState (_validMoves m)); discriminate].
    injection Hok as <-; simpl in Hc, He.
    split; [exact Hc|]. split; [exact He|].
    destruct Hex as (pre & post & move & Hsplit & Hpre & Hmove).
    exists pre, post, move; repeat split; try assumption.
    rewrite Hsplit; now apply firing_split.
Qed.

End FsmBaseFacts.

(** The machine of the bundle whose two moves both lead to 'ready', the
    second from 'ready' as well: the call from [undefined] commits
    twice. *)
Lemma setState_success_shape_witness :
  exists m' : StateMachine.t,
    StateMachine.setState (Some "ready") [VNum 1]
      (StateMachine.new_ None
         [ StateMachine.mkMove [None] [Some "ready"];
           StateMachine.mkMove [None; Some "ready"] [Some "ready"] ]) = Normal m' /\
    StateMachine.state m' = Some "ready" /\
    StateMachine.commits m' = 2 /\
    StateMachine.emitted m' =
      List.concat (repeat (FsmBase.pair_of (Some "ready") None [VNum 1]) 2).
Proof.
  eexists; split; [reflexivity|].
  destruct (@setState_success_shape (Some "ready") [VNum 1]
              (StateMachine.new_ None
                 [ StateMachine.mkMove [None] [Some "ready"];
                   StateMachine.mkMove [None; Some "ready"] [Some "ready"] ])
              _ eq_refl) as (Hstate & _ & _ & Hmoved).
  split; [exact Hstate|].
  destruct Hmoved as (Hc & He & _); [discriminate|].
  split; [exact Hc | exact He].
Defined.

Section FsmBaseRuns.

Import StateMachine FsmBase.

Lemma has_wrap (e : Ends) (s : State) : has s (wrap e) = true <-> declares e s.
Proof.
  rewrite has_In; destruct e as [x|l]; simpl; [|reflexivity].
  split; [intros [E|[]]; exact E | intros E; now left].
Qed.

Lemma permits_normalise (a b : State) (move : RawMove) :
  permits a b (normalise move) = true <->
  declares (raw_from move) a /\ declares (raw_to move) b.
Proof.
  unfold permits, normalise; simpl.
  rewrite andb_true_iff, !has_wrap; reflexivity.
Qed.

Lemma call_step (m : t) (c : State * list Value) :
  _validMoves (call m c) = _validMoves m /\
  (state (call m c) = state m \/
   (state (call m c) = fst c /\ destination (_validMoves m) (fst c) = true)).
Proof.
  unfold call; destruct (setState (fst c) (snd c) m) as [m'|e m'] eqn:Hcall.
  - destruct (setState_normal_destination _ _ _ Hcall) as (Hv & Hs & [E|Hd]).
    + split; [assumption | left; congruence].
    + split; [assumption | right; now split].
  - apply setState_throw_unchanged in Hcall as [-> _]; split; [reflexivity | now left].
Qed.

(** X3. Whatever calls of [setState] are made on a machine, those that
    throw included, its declared moves stay the same, and its state is
    the one it started from or a state that was asked for and that some
    declared move has among its destinations. *)
Theorem calls_stay_within_declared (cs : list (State * list Value)) (m : t) :
  _validMoves (calls cs m) = _validMoves m /\
  (state (calls cs m) = state m \/
   (In (state (calls cs m)) (map fst cs) /\
    destination (_validMoves m) (state (calls cs m)) = true)).
Proof.
  unfold calls; revert m; induction cs as [|c cs IH]; intros m; simpl.
  - split; [reflexivity | now left].
  - destruct (call_step m c) as (Hv1 & Hs1).
    destruct (IH (call m c)) as (Hv & Hs).
    split; [congruence|].
    destruct Hs as [Hs | (Hin & Hd)].
    + destruct Hs1 as [Hs1 | (Hs1 & Hd1)].
      * left; congruence.
      * right; rewrite Hs, Hs1; split; [now left | assumption].
    + right; split; [now right | now rewrite <- Hv1].
Qed.

(** X4. A machine fresh from the constructor of the bundle is in the
    state [undefined].  Its first call [setState(s)] returns normally
    exactly when [s] is [undefined] or one of the moves handed to the
    constructor (one move, an array of them, or nothing) declares
    [undefined] as a source, alone or in an array, and [s] as a
    destination, alone or in an array. *)
Theorem construct_first_call (validMoves : Arrayify.Input RawMove)
        (s : State) (args : list Value) :
  state (construct validMoves) = None /\
  ((exists m', setState s args (construct validMoves) = Normal m') <->
   (s = None \/
    exists move, In move (Arrayify.arrayify validMoves) /\
                 declares (raw_from move) None /\ declares (raw_to move) s)).
Proof.
  split; [reflexivity|]; split.
  - intros (m' & Hok).
    apply setState_returns_permitted in Hok as [E | (mv & Hin & Hp)].
    + left; symmetry; exact E.
    + right; simpl in Hin; apply in_map_iff in Hin as (move & <- & Hin).
      exists move; split; [assumption|]; now apply permits_normalise.
  - intros [-> | (move & Hin & Hfrom & Hto)].
    + exists (construct validMoves); now apply setState_same.
    + apply (@setState_permitted_returns s args (construct validMoves) (normalise move)).
      * simpl; now apply in_map.
      * now apply permits_normalise.
Qed.

End FsmBaseRuns.

(** ** Registering and removing listeners *)
Section RegistrationFacts.

Import Emitter Expected.

Variables (eventName0 : string) (handler0 : nat).

Lemma findIndex_first (A : Type) (p : A -> bool) (pre post : list A) (x : A) :
  (forall y, In y pre -> p y = false) -> p x = true ->
  findIndex p (pre ++ x :: post) = Some (List.length pre).
Proof.
  induction pre as [|y pre IH]; intros Hpre Hx; simpl.
  - now rewrite Hx.
  - rewrite (Hpre y (or_introl eq_refl)), IH; [reflexivity | | assumption].
    intros z Hz; apply Hpre; now right.
Qed.

Lemma remove_at_middle (A : Type) (pre post : list A) (x : A) :
  remove_at (List.length pre) (pre ++ x :: post) = pre ++ post.
Proof. induction pre as [|y pre IH]; simpl; [reflexivity | now rewrite IH]. Qed.

(** X5. [removeEventListener(eventName, handler)] takes out the oldest
    registration of the handler under the name and no other record: the
    listeners before it and after it stay, in order, later registrations
    of the same handler under the same name among them. *)
Theorem removeEventListener_removes_oldest (e : t) (pre post : list Listener)
        (x : Listener) :
  _listeners e = pre ++ x :: post ->
  registered eventName0 handler0 x = true ->
  (forall y, In y pre -> registered eventName0 handler0 y = false) ->
  removeEventListener eventName0 handler0 e = mk (pre ++ post) (next_lid e) (calls e).
Proof.
  intros Hls Hx Hpre; unfold removeEventListener.
  change (fun l => String.eqb (eventName l) eventName0 && Nat.eqb (handler l) handler0)
    with (registered eventName0 handler0).
  rewrite Hls, (findIndex_first _ pre post x Hpre Hx), remove_at_middle; reflexivity.
Qed.

(** X6. Registering a handler under a name where it was not registered
    and removing it again gives back the listeners there were, records
    and order. *)
Theorem on_removeEventListener_round_trip (o : bool) (e : t) :
  (forall y, In y (_listeners e) -> registered eventName0 handler0 y = false) ->
  _listeners (removeEventListener eventName0 handler0 (on eventName0 handler0 o e))
  = _listeners e /\
  calls (removeEventListener eventName0 handler0 (on eventName0 handler0 o e))
  = calls e.
Proof.
  intros Hfresh; unfold removeEventListener, on; simpl.
  change (fun l => String.eqb (eventName l) eventName0 && Nat.eqb (handler l) handler0)
    with (registered eventName0 handler0).
  rewrite (findIndex_first (registered eventName0 handler0) (_listeners e) []
                           (mkListener (next_lid e) eventName0 handler0 o) Hfresh).
  - simpl; rewrite remove_at_middle, app_nil_r; split; reflexivity.
  - unfold registered; simpl; now rewrite String.eqb_refl, Nat.eqb_refl.
Qed.

(** X7. Removing a handler that is not registered under the name changes
    nothing, on an emitter without listeners as on any other. *)
Theorem removeEventListener_absent (e : t) :
  (forall y, In y (_listeners e) -> registered eventName0 handler0 y = false) ->
  removeEventListener eventName0 handler0 e = e.
Proof.
  intros Habsent; unfold removeEventListener.
  change (fun l => String.eqb (eventName l) eventName0 && Nat.eqb (handler l) handler0)
    with (registered eventName0 handler0).
  now rewrite (findIndex_none _ _ Habsent).
Qed.

End RegistrationFacts.

(** A handler registered twice under "load", between two other
    listeners: the first of the two registrations goes. *)
Lemma removeEventListener_removes_oldest_witness :
  Emitter.removeEventListener "load" 7
    (Emitter.on "done" 9 false
       (Emitter.once_ "load" 7 (Emitter.on "load" 7 false (Emitter.on_any 3 Emitter.new_))))
  = Emitter.mk
      ([Emitter.mkListener 0 Emitter.ALL 3 false] ++
       [Emitter.mkListener 2 "load" 7 true; Emitter.mkListener 3 "done" 9 false])
      4 [].
Proof.
  apply (@removeEventListener_removes_oldest "load" 7
           (Emitter.on "done" 9 false
              (Emitter.once_ "load" 7
                 (Emitter.on "load" 7 false (Emitter.on_any 3 Emitter.new_))))
           [Emitter.mkListener 0 Emitter.ALL 3 false]
           [Emitter.mkListener 2 "load" 7 true; Emitter.mkListener 3 "done" 9 false]
           (Emitter.mkListener 1 "load" 7 false)).
  - reflexivity.
  - reflexivity.
  - intros y [<-|[]]; reflexivity.
Defined.

Lemma on_removeEventListener_round_trip_witness :
  Emitter._listeners
    (Emitter.removeEventListener "load" 7
       (Emitter.on "load" 7 false (Emitter.on "done" 9 false Emitter.new_)))
  = Emitter._listeners (Emitter.on "done" 9 false Emitter.new_) /\
  Emitter.calls
    (Emitter.removeEventListener "load" 7
       (Emitter.on "load" 7 false (Emitter.on "done" 9 false Emitter.new_)))
  = Emitter.calls (Emitter.on "done" 9 false Emitter.new_).
Proof.
  apply (@on_removeEventListener_round_trip "load" 7 false
           (Emitter.on "done" 9 false Emitter.new_)).
  intros y [<-|[]]; reflexivity.
Defined.

Lemma removeEventListener_absent_witness :
  Emitter.removeEventListener "load" 7 (Emitter.on "load" 8 false Emitter.new_)
  = Emitter.on "load" 8 false Emitter.new_.
Proof.
  apply (@removeEventListener_absent "load" 7 (Emitter.on "load" 8 false Emitter.new_)).
  intros y [<-|[]]; reflexivity.
Defined.

(** ** Bubbling *)
Section BubblingFacts.

Import Emitter Expected Bubbling.

Variable H : Handlers.
Variables (eventName0 : string) (args : list Value).

Lemma filter_matches_once_lids (ls : list Listener) :
  NoDup (map lid ls) ->
  fold_left (fun cur l => splice_indexOf l cur)
            (filter once (filter (matches eventName0) ls)) ls =
  filter (fun l => negb (matches eventName0 l && once l)) ls.
Proof. apply remove_once_matching. Qed.

(** The loop of [emitTarget] never sees its array change: the handlers
    act on the target.  It calls every matching listener from the
    current index on, whatever the handlers do. *)
Lemma for_of_target_runs (post pre : list Listener) (fuel : nat)
      (toRemove : list Listener) (target : t) (n : nat) (cs : list Call) :
  List.length post <= fuel ->
  for_of_target H fuel eventName0 args (List.length pre) toRemove target
                (mk (pre ++ post) n cs) =
  Some (fold_left (fun e c => exec c e)
                  (flat_map (fun l => H (handler l)) (filter (matches eventName0) post))
                  target,
        mk (pre ++ post) n
           (cs ++ map (call_of eventName0 args) (filter (matches eventName0) post)),
        toRemove ++ filter once (filter (matches eventName0) post)).
Proof.
  revert pre fuel toRemove target cs;
    induction post as [|x post IH]; intros pre fuel toRemove target cs Hfuel.
  - destruct fuel; simpl; rewrite nth_error_end, !app_nil_r; reflexivity.
  - destruct fuel as [|fuel]; [simpl in Hfuel; lia|].
    simpl for_of_target; simpl _listeners; rewrite nth_error_middle.
    assert (Hshift : pre ++ x :: post = (pre ++ [x]) ++ post)
      by (now rewrite <- app_assoc).
    assert (Hlen : S (List.length pre) = List.length (pre ++ [x]))
      by (rewrite length_app; simpl; lia).
    simpl filter.
    destruct (matches eventName0 x) eqn:Hm.
    + unfold invoke_target; simpl.
      rewrite Hshift, Hlen, IH by (simpl in Hfuel; lia).
      rewrite fold_left_app, <- !app_assoc; simpl.
      destruct (once x); simpl; rewrite <- ?app_assoc; reflexivity.
    + rewrite Hshift, Hlen, IH by (simpl in Hfuel; lia); reflexivity.
Qed.

(** X8. An event that bubbles through an emitter and its ancestors,
    whatever calls the handlers make on [this]: [emitTarget] returns;
    on each emitter, from the nearest to the farthest, every matching
    listener has been called once, in registration order, with the
    arguments of the emit, and those registered with [once] are gone;
    the bodies of the handlers have all run on the target, in that
    order. *)
Theorem emitTarget_reaches_every_ancestor
        (fuel : nat) (target p : t) (ancestors : list t) :
  (forall a, In a (p :: ancestors) ->
             List.length (_listeners a) <= fuel /\ NoDup (map lid (_listeners a))) ->
  emitTarget H fuel eventName0 args target p ancestors =
  Some (fold_left (fun e c => exec c e) (bodies H eventName0 (p :: ancestors)) target,
        bubbled eventName0 args p,
        map (bubbled eventName0 args) ancestors).
Proof.
  revert target p; induction ancestors as [|parent rest IH]; intros target p Hall.
  - destruct (Hall p (or_introl eq_refl)) as [Hfuel Hnd].
    destruct p as [ls n cs]; simpl in *.
    pose proof (@for_of_target_runs ls [] fuel [] target n cs Hfuel) as Hrun.
    simpl in Hrun; rewrite Hrun.
    unfold remove_all, bubbled, bodies, matching; simpl.
    rewrite filter_matches_once_lids by assumption.
    now rewrite app_nil_r.
  - destruct (Hall p (or_introl eq_refl)) as [Hfuel Hnd].
    destruct p as [ls n cs]; simpl in Hfuel, Hnd.
    pose proof (@for_of_target_runs ls [] fuel [] target n cs Hfuel) as Hrun.
    simpl in Hrun; simpl emitTarget; rewrite Hrun.
    rewrite IH by (intros a Ha; apply Hall; now right).
    unfold remove_all, bubbled, bodies, matching; simpl.
    rewrite filter_matches_once_lids by assumption.
    rewrite !fold_left_app; reflexivity.
Qed.

End BubblingFacts.

(** A child whose event reaches its parent and its grandparent; the
    handler of the parent's listener registers a listener on the
    child. *)
Lemma emitTarget_reaches_every_ancestor_witness :
  Bubbling.emitTarget
    (fun h => match h with
              | 1 => [Emitter.CallOn "again" 5 false]
              | _ => []
              end)
    2 "pass" [VTest "one"]
    Emitter.new_
    (Emitter.once_ "pass" 1 (Emitter.on "fail" 0 false Emitter.new_))
    [Emitter.on_any 2 Emitter.new_]
  = Some
      (fold_left (fun e c => Emitter.exec c e)
         (Expected.bodies
            (fun h => match h with
                      | 1 => [Emitter.CallOn "again" 5 false]
                      | _ => []
                      end)
            "pass"
            [Emitter.once_ "pass" 1 (Emitter.on "fail" 0 false Emitter.new_);
             Emitter.on_any 2 Emitter.new_])
         Emitter.new_,
       Expected.bubbled "pass" [VTest "one"]
         (Emitter.once_ "pass" 1 (Emitter.on "fail" 0 false Emitter.new_)),
       map (Expected.bubbled "pass" [VTest "one"]) [Emitter.on_any 2 Emitter.new_]).
Proof.
  apply emitTarget_reaches_every_ancestor.
  intros a [<-|[<-|[]]]; simpl; split; try lia; repeat constructor; simpl; intuition lia.
Defined.

(** ** The emitter of the UMD build *)
Section LegacyEmitterFacts.

Import Emitter Expected.

Variable H : Handlers.
Variables (eventName0 : string) (args : list Value).

(** When the handlers called leave the array alone, [forEach] visits
    every listener: it calls those registered under the name or under
    every name, and collects every listener registered with [once]. *)
Lemma forEach_static (post pre : list Listener) (toRemove : list Listener)
      (n : nat) (cs : list Call) :
  (forall l, In l post -> legacy_matches eventName0 l = true -> H (handler l) = []) ->
  LegacyEmitter.forEach H eventName0 args (List.length post) (List.length pre) toRemove
                        (mk (pre ++ post) n cs) =
  (mk (pre ++ post) n
      (cs ++ map (legacy_call eventName0 args) (filter (legacy_matches eventName0) post)),
   toRemove ++ filter once post).
Proof.
  revert pre toRemove cs; induction post as [|x post IH]; intros pre toRemove cs Hstatic.
  - simpl; rewrite !app_nil_r; reflexivity.
  - simpl LegacyEmitter.forEach; simpl _listeners; rewrite nth_error_middle.
    assert (Hshift : pre ++ x :: post = (pre ++ [x]) ++ post)
      by (now rewrite <- app_assoc).
    assert (Hlen : S (List.length pre) = List.length (pre ++ [x]))
      by (rewrite length_app; simpl; lia).
    assert (Hrest : forall l, In l post -> legacy_matches eventName0 l = true ->
                              H (handler l) = [])
      by (intros l Hl; apply Hstatic; now right).
    pose proof (Hstatic x (or_introl eq_refl)) as Hx.
    unfold legacy_matches, legacy_call in *; simpl filter.
    destruct (String.eqb (eventName x) eventName0) eqn:Hname; simpl in *.
    + unfold invoke; rewrite (Hx eq_refl); simpl.
      rewrite Hshift, Hlen, IH by assumption.
      rewrite Hname, <- !app_assoc; simpl.
      destruct (once x); simpl; rewrite <- ?app_assoc; reflexivity.
    + destruct (String.eqb (eventName x) ALL) eqn:Hall; simpl in *.
      * unfold invoke; rewrite (Hx eq_refl); simpl.
        rewrite Hshift, Hlen, IH by assumption.
        rewrite Hname, <- !app_assoc; simpl.
        destruct (once x); simpl; rewrite <- ?app_assoc; reflexivity.
      * rewrite Hshift, Hlen, IH by assumption.
        destruct (once x); simpl; rewrite <- ?app_assoc; reflexivity.
Qed.

Lemma remove_every_once (ls : list Listener) :
  NoDup (map lid ls) ->
  fold_left (fun cur l => splice_indexOf l cur) (filter once ls) ls =
  filter (fun l => negb (once l)) ls.
Proof.
  intros Hnd; rewrite remove_collected.
  - apply filter_ext_in; intros y Hy; f_equal.
    destruct (once y) eqn:E.
    + apply existsb_exists; exists y; split; [|apply Nat.eqb_refl].
      apply filter_In; now split.
    + destruct (existsb _ _) eqn:Ex; [|reflexivity].
      apply existsb_exists in Ex as (x & Hx & Exy).
      apply filter_In in Hx as [Hx Ho].
      apply Nat.eqb_eq in Exy.
      rewrite (@lid_inj ls y x Hnd Hy Hx Exy), Ho in E; discriminate.
  - assumption.
  - now apply NoDup_lid_filter.
  - intros x Hx; now apply filter_In in Hx as [Hx _].
Qed.

(** X9. An emission of the emitter of the UMD build, when the handlers
    it calls leave the listener array alone: the listeners registered
    under the name are called with the arguments and those registered
    under every name with the name before the arguments, each once and in
    registration order; afterwards every listener registered with [once]
    is gone, whether it was called or not, and the others are all
    there. *)
Theorem legacy_emit_shape (e : t) :
  (forall l, In l (_listeners e) -> legacy_matches eventName0 l = true ->
             H (handler l) = []) ->
  NoDup (map lid (_listeners e)) ->
  LegacyEmitter.emit H eventName0 args e =
  mk (filter (fun l => negb (once l)) (_listeners e))
     (next_lid e)
     (calls e ++
      map (legacy_call eventName0 args) (filter (legacy_matches eventName0) (_listeners e))).
Proof.
  intros Hstatic Hnd; destruct e as [ls n cs]; simpl in *.
  unfold LegacyEmitter.emit; simpl.
  pose proof (@forEach_static ls [] [] n cs Hstatic) as Hrun.
  simpl in Hrun; rewrite Hrun.
  unfold remove_all; simpl; now rewrite remove_every_once.
Qed.

End LegacyEmitterFacts.

(** A listener on every event, a [once] listener on "pass" and a [once]
    listener on "fail"; "pass" is emitted. *)
Lemma legacy_emit_shape_witness :
  LegacyEmitter.emit (fun _ => []) "pass" [VTest "one"]
    (Emitter.once_ "fail" 2 (Emitter.once_ "pass" 1 (Emitter.on_any 0 Emitter.new_)))
  = Emitter.mk
      (filter (fun l => negb (Emitter.once l))
         (Emitter._listeners
            (Emitter.once_ "fail" 2
               (Emitter.once_ "pass" 1 (Emitter.on_any 0 Emitter.new_)))))
      (Emitter.next_lid
         (Emitter.once_ "fail" 2 (Emitter.once_ "pass" 1 (Emitter.on_any 0 Emitter.new_))))
      (Emitter.calls
         (Emitter.once_ "fail" 2 (Emitter.once_ "pass" 1 (Emitter.on_any 0 Emitter.new_)))
       ++ map (Expected.legacy_call "pass" [VTest "one"])
            (filter (Expected.legacy_matches "pass")
               (Emitter._listeners
                  (Emitter.once_ "fail" 2
                     (Emitter.once_ "pass" 1 (Emitter.on_any 0 Emitter.new_)))))).
Proof.
  apply (@legacy_emit_shape (fun _ => []) "pass" [VTest "one"]
           (Emitter.once_ "fail" 2
              (Emitter.once_ "pass" 1 (Emitter.on_any 0 Emitter.new_)))).
  - intros l _ _; reflexivity.
  - simpl; repeat constructor; simpl; intuition lia.
Defined.

(** ** The run of a test *)
Section TestUnitRuns.

Import TestUnit.


End TestUnitRuns.

(** ** Views attached to runners *)
Section ViewBaseFacts.

Import Emitter ViewBase.

Lemma removeEventListener_appended (name0 : string) (h : nat)
      (ls post : list Listener) (x : Listener) (n : nat) (cs : list Call) :
  (forall l, In l ls -> String.eqb (eventName l) name0 && Nat.eqb (handler l) h = false) ->
  String.eqb (eventName x) name0 && Nat.eqb (handler x) h = true ->
  removeEventListener name0 h (Emitter.mk (ls ++ x :: post) n cs) =
  Emitter.mk (ls ++ post) n cs.
Proof.
  intros Hls Hx; unfold removeEventListener; simpl.
  rewrite (findIndex_first _ ls post x Hls Hx), remove_at_middle; reflexivity.
Qed.

Lemma holds_false (c : Callbacks) (l : Listener) (p : string * nat) :
  holds c l = false -> In p (registrations c) ->
  String.eqb (eventName l) (fst p) && Nat.eqb (handler l) (snd p) = false.
Proof.
  unfold holds; intros Hh Hp.
  destruct (String.eqb (eventName l) (fst p) && Nat.eqb (handler l) (snd p)) eqn:E;
    [|reflexivity].
  rewrite <- Hh; symmetry; apply existsb_exists; now exists p.
Qed.

Lemma update_same (runner : nat) (e : Emitter.t) (rs : Runners) :
  update runner e rs runner = e.
Proof. unfold update; now rewrite Nat.eqb_refl. Qed.

Lemma update_other (runner k : nat) (e : Emitter.t) (rs : Runners) :
  k <> runner -> update runner e rs k = rs k.
Proof. unfold update; intros Hk; now apply Nat.eqb_neq in Hk as ->. Qed.

(** What [attach] does on a runner the view is not attached to. *)
Lemma attach_registers (runner : nat) (v : t) (rs : Runners) :
  attached_elsewhere v runner = true ->
  attach runner v rs =
  (ViewBase.mk (_callback v) (Some runner),
   update runner
     (Emitter.mk (_listeners (rs runner) ++
                  attached_records (_callback v) (next_lid (rs runner)))
                 (5 + next_lid (rs runner)) (calls (rs runner)))
     rs).
Proof.
  intros Helse; unfold attach; rewrite Helse; unfold on; simpl.
  rewrite <- !app_assoc; reflexivity.
Qed.

(** What [detach] does when the runner holds the five records at the end
    of its listeners and no other registration of the callbacks. *)
Lemma detach_unregisters (runner : nat) (c : Callbacks) (rs : Runners)
      (ls : list Listener) (k n : nat) (cs : list Call) :
  rs runner = Emitter.mk (ls ++ attached_records c k) n cs ->
  (forall l, In l ls -> holds c l = false) ->
  detach (ViewBase.mk c (Some runner)) rs =
  (ViewBase.mk c None, update runner (Emitter.mk ls n cs) rs).
Proof.
  intros Hrunner Hfresh; unfold detach; simpl; rewrite Hrunner.
  unfold attached_records.
  assert (Hp : forall p, In p (registrations c) ->
                         forall l, In l ls ->
                         String.eqb (eventName l) (fst p) && Nat.eqb (handler l) (snd p)
                         = false)
    by (intros p Hin l Hl; apply (@holds_false c l p); [now apply Hfresh | exact Hin]).
  rewrite (@removeEventListener_appended "start" (cb_start c) ls _ _ n cs
             (Hp ("start", cb_start c) (or_introl eq_refl)))
    by (simpl; apply Nat.eqb_refl).
  rewrite (@removeEventListener_appended "end" (cb_end c) ls _ _ n cs
             (Hp ("end", cb_end c) (or_intror (or_introl eq_refl))))
    by (simpl; apply Nat.eqb_refl).
  rewrite (@removeEventListener_appended "test-pass" (cb_testPass c) ls _ _ n cs
             (Hp ("test-pass", cb_testPass c)
                 (or_intror (or_intror (or_introl eq_refl)))))
    by (simpl; apply Nat.eqb_refl).
  rewrite (@removeEventListener_appended "test-fail" (cb_testFail c) ls _ _ n cs
             (Hp ("test-fail", cb_testFail c)
                 (or_intror (or_intror (or_intror (or_introl eq_refl))))))
    by (simpl; apply Nat.eqb_refl).
  rewrite (@removeEventListener_appended "test-skip" (cb_testSkip c) ls _ _ n cs
             (Hp ("test-skip", cb_testSkip c)
                 (or_intror (or_intror (or_intror (or_intror (or_introl eq_refl)))))))
    by (simpl; apply Nat.eqb_refl).
  rewrite app_nil_r; reflexivity.
Qed.

(** X11. A view attached to a runner that holds none of its callbacks:
    the five callbacks are registered after the listeners there were, a
    second [attach] to the same runner registers nothing, and [detach]
    gives back the listeners there were, records and order, leaving the
    other runners as they are. *)
Theorem attach_detach_round_trip (runner : nat) (v : t) (rs : Runners) :
  attached_elsewhere v runner = true ->
  (forall l, In l (_listeners (rs runner)) -> holds (_callback v) l = false) ->
  _listeners (snd (attach runner v rs) runner) =
    _listeners (rs runner) ++ attached_records (_callback v) (next_lid (rs runner)) /\
  attachedTo (fst (attach runner v rs)) = Some runner /\
  attach runner (fst (attach runner v rs)) (snd (attach runner v rs)) =
    attach runner v rs /\
  attachedTo (fst (detach (fst (attach runner v rs)) (snd (attach runner v rs)))) = None /\
  _listeners (snd (detach (fst (attach runner v rs)) (snd (attach runner v rs))) runner) =
    _listeners (rs runner) /\
  forall k, k <> runner ->
            snd (detach (fst (attach runner v rs)) (snd (attach runner v rs))) k = rs k.
Proof.
  intros Helse Hfresh; rewrite (@attach_registers runner v rs Helse); cbn [fst snd].
  rewrite update_same; cbn [_listeners].
  split; [reflexivity|]. split; [reflexivity|].
  split.
  { unfold attach, attached_elsewhere; simpl; now rewrite Nat.eqb_refl. }
  rewrite (@detach_unregisters runner (_callback v) _ (_listeners (rs runner))
             (next_lid (rs runner)) (5 + next_lid (rs runner)) (calls (rs runner)))
    by (try assumption; apply update_same).
  cbn [fst snd attachedTo]; split; [reflexivity|]; split.
  - rewrite update_same; reflexivity.
  - intros k Hk; now rewrite !update_other by assumption.
Qed.

(** X12. A view attached to a first runner and then to a second is not
    taken off the first: [detach] then clears the second runner only, a
    further [detach] does nothing, and the first runner keeps the five
    callbacks of a view that is attached to nothing. *)
Theorem attach_elsewhere_leaves_callbacks (r1 r2 : nat) (v : t) (rs : Runners) :
  r1 <> r2 ->
  attachedTo v = None ->
  (forall l, In l (_listeners (rs r1)) -> holds (_callback v) l = false) ->
  (forall l, In l (_listeners (rs r2)) -> holds (_callback v) l = false) ->
  let w1 := attach r1 v rs in
  let w2 := attach r2 (fst w1) (snd w1) in
  let w3 := detach (fst w2) (snd w2) in
  attachedTo (fst w2) = Some r2 /\
  attachedTo (fst w3) = None /\
  _listeners (snd w3 r2) = _listeners (rs r2) /\
  _listeners (snd w3 r1) =
    _listeners (rs r1) ++ attached_records (_callback v) (next_lid (rs r1)) /\
  detach (fst w3) (snd w3) = w3.
Proof.
  intros Hneq Hnone Hfresh1 Hfresh2; cbv zeta.
  assert (Helse1 : attached_elsewhere v r1 = true)
    by (unfold attached_elsewhere; now rewrite Hnone).
  rewrite (@attach_registers r1 v rs Helse1); cbn [fst snd].
  set (rs1 := update r1 _ rs).
  assert (Helse2 : attached_elsewhere (ViewBase.mk (_callback v) (Some r1)) r2 = true).
  { unfold attached_elsewhere; simpl; apply negb_true_iff, Nat.eqb_neq; exact Hneq. }
  rewrite (@attach_registers r2 _ rs1 Helse2); cbn [fst snd _callback].
  assert (Hrs1 : rs1 r2 = rs r2)
    by (unfold rs1; apply update_other; congruence).
  rewrite Hrs1.
  set (rs2 := update r2 _ rs1).
  rewrite (@detach_unregisters r2 (_callback v) rs2 (_listeners (rs r2))
             (next_lid (rs r2)) (5 + next_lid (rs r2)) (calls (rs r2)))
    by (try assumption; apply update_same).
  cbn [fst snd attachedTo].
  split; [reflexivity|]. split; [reflexivity|]. split; [|split].
  - now rewrite update_same.
  - rewrite update_other by assumption; unfold rs2.
    rewrite update_other by assumption; unfold rs1.
    now rewrite update_same.
  - reflexivity.
Qed.

End ViewBaseFacts.

(** A runner with one listener of its own, and a view. *)
Lemma attach_detach_round_trip_witness :
  Emitter._listeners
    (snd (ViewBase.detach
            (fst (ViewBase.attach 0 (ViewBase.new_ (ViewBase.mkCallbacks 1 2 3 4 5))
                    (fun _ => Emitter.on "start" 9 false Emitter.new_)))
            (snd (ViewBase.attach 0 (ViewBase.new_ (ViewBase.mkCallbacks 1 2 3 4 5))
                    (fun _ => Emitter.on "start" 9 false Emitter.new_)))) 0)
  = [Emitter.mkListener 0 "start" 9 false].
Proof.
  destruct (@attach_detach_round_trip 0 (ViewBase.new_ (ViewBase.mkCallbacks 1 2 3 4 5))
              (fun _ => Emitter.on "start" 9 false Emitter.new_))
    as (_ & _ & _ & _ & Hback & _).
  - reflexivity.
  - intros l [<-|[]]; reflexivity.
  - exact Hback.
Defined.

(** Two runners without listeners, and a view attached to the one and
    then to the other. *)
Lemma attach_elsewhere_leaves_callbacks_witness :
  Emitter._listeners
    (snd (ViewBase.detach
            (fst (ViewBase.attach 1
                    (fst (ViewBase.attach 0 (ViewBase.new_ (ViewBase.mkCallbacks 1 2 3 4 5))
                            (fun _ => Emitter.new_)))
                    (snd (ViewBase.attach 0 (ViewBase.new_ (ViewBase.mkCallbacks 1 2 3 4 5))
                            (fun _ => Emitter.new_)))))
            (snd (ViewBase.attach 1
                    (fst (ViewBase.attach 0 (ViewBase.new_ (ViewBase.mkCallbacks 1 2 3 4 5))
                            (fun _ => Emitter.new_)))
                    (snd (ViewBase.attach 0 (ViewBase.new_ (ViewBase.mkCallbacks 1 2 3 4 5))
                            (fun _ => Emitter.new_)))))) 0)
  = [] ++ ViewBase.attached_records (ViewBase.mkCallbacks 1 2 3 4 5) 0.
Proof.
  destruct (@attach_elsewhere_leaves_callbacks 0 1
              (ViewBase.new_ (ViewBase.mkCallbacks 1 2 3 4 5)) (fun _ => Emitter.new_))
    as (_ & _ & _ & Hkept & _).
  - discriminate.
  - reflexivity.
  - intros l [].
  - intros l [].
  - exact Hkept.
Defined.

(** ** Removing the listeners of some events *)
Section RemoveAllFacts.

Import Emitter RemoveAll.

Lemma remove_while_eq (fuel : nat) (name0 : string) (ls : list Listener) :
  remove_while fuel name0 ls =
  match find (fun l => String.eqb (eventName l) name0) ls with
  | None => Some ls
  | Some l =>
      match fuel with
      | 0 => None
      | S fuel' => remove_while fuel' name0 (splice_indexOf l ls)
      end
  end.
Proof. destruct fuel; reflexivity. Qed.

Lemma find_first (A : Type) (p : A -> bool) (pre post : list A) (x : A) :
  (forall y, In y pre -> p y = false) -> p x = true ->
  find p (pre ++ x :: post) = Some x.
Proof.
  induction pre as [|y pre IH]; intros Hpre Hx; simpl.
  - now rewrite Hx.
  - rewrite (Hpre y (or_introl eq_refl)); apply IH; [|assumption].
    intros z Hz; apply Hpre; now right.
Qed.

Lemma find_nowhere (A : Type) (p : A -> bool) (l : list A) :
  (forall y, In y l -> p y = false) -> find p l = None.
Proof.
  induction l as [|y l IH]; intros Hl; simpl; [reflexivity|].
  rewrite (Hl y (or_introl eq_refl)); apply IH; intros z Hz; apply Hl; now right.
Qed.

Lemma splice_indexOf_middle (pre post : list Listener) (x : Listener) :
  NoDup (map lid (pre ++ x :: post)) ->
  splice_indexOf x (pre ++ x :: post) = pre ++ post.
Proof.
  intros Hnd; unfold splice_indexOf.
  rewrite (findIndex_first (fun y => Nat.eqb (lid y) (lid x)) pre post x).
  - apply remove_at_middle.
  - intros y Hy; apply Nat.eqb_neq; intros E.
    rewrite map_app in Hnd; simpl in Hnd.
    apply NoDup_remove_2 in Hnd; apply Hnd, in_or_app; left.
    rewrite <- E; now apply in_map.
  - apply Nat.eqb_refl.
Qed.

(** The loop takes out the listeners under the name, oldest first, and
    stops when none is left. *)
Lemma remove_while_filter (name0 : string) (post pre : list Listener) (fuel : nat) :
  NoDup (map lid (pre ++ post)) ->
  (forall l, In l pre -> String.eqb (eventName l) name0 = false) ->
  List.length post <= fuel ->
  remove_while fuel name0 (pre ++ post) =
  Some (pre ++ filter (fun l => negb (String.eqb (eventName l) name0)) post).
Proof.
  revert pre fuel; induction post as [|x post IH]; intros pre fuel Hnd Hpre Hfuel.
  - simpl filter; rewrite remove_while_eq, app_nil_r, (find_nowhere _ pre Hpre); reflexivity.
  - simpl filter; destruct (String.eqb (eventName x) name0) eqn:Hx; simpl negb; cbv iota.
    + rewrite remove_while_eq.
      rewrite (find_first (fun l => String.eqb (eventName l) name0) pre post x Hpre Hx).
      destruct fuel as [|fuel]; [simpl in Hfuel; lia|].
      rewrite (splice_indexOf_middle pre post x Hnd).
      apply IH; [|assumption|simpl in Hfuel; lia].
      rewrite map_app in *; simpl in Hnd; now apply NoDup_remove_1 in Hnd.
    + replace (pre ++ x :: post) with ((pre ++ [x]) ++ post)
        by (now rewrite <- app_assoc).
      replace (pre ++ x :: filter (fun l => negb (String.eqb (eventName l) name0)) post)
        with ((pre ++ [x]) ++ filter (fun l => negb (String.eqb (eventName l) name0)) post)
        by (now rewrite <- app_assoc).
      apply IH.
      * now rewrite <- app_assoc.
      * intros l Hl; apply in_app_or in Hl as [Hl|[<-|[]]]; [now apply Hpre | exact Hx].
      * simpl in Hfuel; lia.
Qed.

Lemma remove_names (fuel : nat) (eventNames : list string) (ls : list Listener) :
  NoDup (map lid ls) -> List.length ls <= fuel ->
  fold_left
    (fun acc eventName0 =>
       match acc with
       | Some ls' => remove_while fuel eventName0 ls'
       | None => None
       end)
    eventNames (Some ls)
  = Some (filter (fun l => negb (named eventNames l)) ls).
Proof.
  revert ls; induction eventNames as [|name0 eventNames IH]; intros ls Hnd Hfuel; simpl.
  - f_equal; clear; induction ls as [|x ls IHl]; simpl; [reflexivity | now f_equal].
  - pose proof (@remove_while_filter name0 ls [] fuel Hnd) as Hloop.
    simpl app in Hloop; rewrite Hloop by (try assumption; intros l []).
    rewrite IH.
    + f_equal; clear; induction ls as [|x ls IHl]; simpl; [reflexivity|].
      unfold named at 2; simpl existsb.
      destruct (String.eqb (eventName x) name0); simpl; [exact IHl|].
      fold (named eventNames x); destruct (named eventNames x); simpl;
        [exact IHl | now f_equal].
    + now apply NoDup_lid_filter.
    + etransitivity; [apply filter_length_le | exact Hfuel].
Qed.

(** X13. [removeAll (eventNames)] on a runner whose listener records are
    distinct objects returns, with the listeners registered under one of
    the names gone and the others there, in order; a listener on every
    event stays unless "__ALL__" is among the names. *)
Theorem removeAll_removes_named (fuel : nat) (eventNames : list string) (e : t) :
  NoDup (map lid (_listeners e)) ->
  List.length (_listeners e) <= fuel ->
  removeAll fuel eventNames e =
  Some (mk (filter (fun l => negb (named eventNames l)) (_listeners e))
           (next_lid e) (calls e)).
Proof.
  intros Hnd Hfuel; unfold removeAll.
  rewrite (@remove_names fuel eventNames (_listeners e) Hnd Hfuel).
  destruct e as [[|x ls] n cs]; reflexivity.
Qed.

End RemoveAllFacts.

(** Listeners on "start" twice, on "end" and on every event; those on
    "start" and "test-pass" are removed. *)
Lemma removeAll_removes_named_witness :
  RemoveAll.removeAll 4 ["start"; "test-pass"]
    (Emitter.on "start" 3 true
       (Emitter.on_any 2 (Emitter.on "end" 1 false (Emitter.on "start" 0 false Emitter.new_))))
  = Some (Emitter.mk [Emitter.mkListener 1 "end" 1 false;
                      Emitter.mkListener 2 Emitter.ALL 2 false] 4 []).
Proof.
  apply (@removeAll_removes_named 4 ["start"; "test-pass"]
           (Emitter.on "start" 3 true
              (Emitter.on_any 2
                 (Emitter.on "end" 1 false (Emitter.on "start" 0 false Emitter.new_))))).
  - simpl; repeat constructor; simpl; intuition lia.
  - simpl; lia.
Defined.

(** ** Two emissions in a row *)
Section EmitTwice.

Import Emitter Expected.

Variable H : Handlers.
Variables (eventName0 : string) (args : list Value).

(** An emission during which no handler touches the listeners. *)
Lemma emit_static (e : t) (fuel : nat) :
  (forall l, In l (_listeners e) -> matches eventName0 l = true -> H (handler l) = []) ->
  List.length (_listeners e) <= fuel ->
  NoDup (map lid (_listeners e)) ->
  emit H fuel eventName0 args e = Some (bubbled eventName0 args e).
Proof.
  intros Hstatic Hfuel Hnd; destruct e as [ls n cs]; simpl in *.
  unfold emit.
  pose proof (@for_of_static H eventName0 args ls [] fuel [] n cs Hfuel Hstatic) as Hrun.
  simpl in Hrun; rewrite Hrun.
  unfold remove_all, bubbled, matching; simpl.
  now rewrite remove_once_matching.
Qed.

Lemma matching_after (ls : list Listener) :
  filter (matches eventName0)
         (filter (fun l => negb (matches eventName0 l && once l)) ls) =
  filter (fun l => negb (once l)) (filter (matches eventName0) ls).
Proof.
  induction ls as [|x ls IH]; simpl; [reflexivity|].
  destruct (matches eventName0 x) eqn:Hm, (once x) eqn:Ho; simpl;
    rewrite ?Hm, ?Ho; simpl; now rewrite ?IH.
Qed.

Lemma filter_idem (A : Type) (p : A -> bool) (l : list A) :
  filter p (filter p l) = filter p l.
Proof.
  induction l as [|x l IH]; simpl; [reflexivity|].
  destruct (p x) eqn:Hp; simpl; rewrite ?Hp, IH; reflexivity.
Qed.

(** X14. Two emissions of the same event in a row, no handler touching
    the listeners: both return; a matching listener registered with
    [once] is called in the first and not in the second, the other
    matching listeners are called in both, and the second emission
    removes nothing more. *)
Theorem emit_twice_calls_once_listeners_once (e : t) (fuel : nat) :
  (forall l, In l (_listeners e) -> matches eventName0 l = true -> H (handler l) = []) ->
  List.length (_listeners e) <= fuel ->
  NoDup (map lid (_listeners e)) ->
  exists e1 e2 : t,
    emit H fuel eventName0 args e = Some e1 /\
    emit H fuel eventName0 args e1 = Some e2 /\
    calls e1 = calls e ++ map (call_of eventName0 args) (matching eventName0 e) /\
    calls e2 = calls e1 ++
               map (call_of eventName0 args)
                   (filter (fun l => negb (once l)) (matching eventName0 e)) /\
    _listeners e1 =
      filter (fun l => negb (matches eventName0 l && once l)) (_listeners e) /\
    _listeners e2 = _listeners e1.
Proof.
  intros Hstatic Hfuel Hnd.
  exists (bubbled eventName0 args e), (bubbled eventName0 args (bubbled eventName0 args e)).
  split; [now apply emit_static|].
  split.
  - apply emit_static; unfold bubbled; simpl.
    + intros l Hl; apply filter_In in Hl as [Hl _]; now apply Hstatic.
    + etransitivity; [apply filter_length_le | exact Hfuel].
    + now apply NoDup_lid_filter.
  - split; [reflexivity|]. split; [|split; [reflexivity|]].
    + unfold bubbled, matching; simpl; now rewrite matching_after.
    + unfold bubbled; simpl; apply filter_idem.
Qed.

End EmitTwice.

(** One listener registered with [once] on "test", emitted twice. *)
Lemma emit_twice_calls_once_listeners_once_witness :
  exists e1 e2 : Emitter.t,
    Emitter.emit (fun _ => []) 1 "test" [] (Emitter.once_ "test" 0 Emitter.new_) = Some e1 /\
    Emitter.emit (fun _ => []) 1 "test" [] e1 = Some e2 /\
    Emitter.calls e1 = [Emitter.mkCall 0 0 []] /\
    Emitter.calls e2 = Emitter.calls e1 ++ [] /\
    Emitter._listeners e1 = [] /\
    Emitter._listeners e2 = Emitter._listeners e1.
Proof.
  apply (@emit_twice_calls_once_listeners_once (fun _ => []) "test" []
           (Emitter.once_ "test" 0 Emitter.new_) 1).
  - intros l _ _; reflexivity.
  - simpl; lia.
  - simpl; repeat constructor; simpl; intuition.
Defined.

(** ** The runner of the UMD build *)
Section UmdRunnerFacts.

Import UmdRunner.

Variable H : Emitter.Handlers.
Variable pick : Queue.Policy.

(** The runs in flight all settle, in an order the policy decides. *)
Lemma settle_all_order (fuel : nat) (flights : list (nat * Queue.Job t)) :
  NoDup (map fst flights) ->
  List.length flights <= fuel ->
  exists order : list (nat * Queue.Job t),
    Permutation order flights /\
    forall r, settle_all pick fuel flights r = Queue.run_in_order (map snd order) r.
Proof.
  revert flights; induction fuel as [|fuel IH]; intros flights Hnd Hfuel.
  - destruct flights as [|x l]; [|simpl in Hfuel; lia].
    exists []; split; [constructor|]; intros r.
    simpl; now rewrite choose_nil.
  - destruct (Queue.choose pick flights) as [[i job]|] eqn:Hpick.
    + apply choose_in in Hpick as Hin.
      pose proof (@filter_out_perm t i job flights Hnd Hin) as Hperm.
      destruct (IH (filter (fun j => negb (Nat.eqb (fst j) i)) flights))
        as (order & Horder & Hrun).
      * now apply NoDup_fst_filter.
      * apply Permutation_length in Hperm; simpl in Hperm; lia.
      * exists ((i, job) :: order); split.
        -- etransitivity; [|exact Hperm]; now apply perm_skip.
        -- intros r; simpl settle_all; rewrite Hpick; simpl map.
           rewrite run_in_order_cons; destruct (job r) as [r'|]; [apply Hrun | reflexivity].
    + apply choose_none in Hpick; subst flights.
      exists []; split; [constructor|]; intros r.
      simpl; now rewrite choose_nil.
Qed.

(** The future of a run settles. *)
Lemma run_settles (u : TestUnit.t) :
  exists (tm : N) (o : Outcome), snd (TestUnit.run u) = Some (tm, o).
Proof.
  unfold TestUnit.run, TestUnit.raceTimeout.
  destruct (TestUnit.testFn u) as [v|err|[[t0 o]|]|[v|ms v|] err]; cbn [snd].
  - eexists; eexists; apply race_first; lia.
  - eexists; eexists; apply race_first; lia.
  - destruct (N.le_gt_cases t0 (TestUnit.timer_delay (TestUnit.timeout u))) as [Hle|Hgt].
    + eexists; eexists; now apply race_first.
    + eexists; eexists; now apply race_second.
  - eexists; eexists; reflexivity.
  - eexists; eexists; apply race_first; lia.
  - eexists; eexists; apply race_first; lia.
  - eexists; eexists; apply race_first; lia.
Qed.

Lemma launch_trace (todo : list Entry) (r : t) :
  exists em : Emitter.t,
    launch H todo r =
    (mk em (emitted r ++ map launch_event todo) (sequential r) (state r) (tests r)
        (_only r) (next_tid r) (exitCode r),
     map slot_of todo).
Proof.
  revert r; induction todo as [|e todo IH]; intros r.
  - exists (emitter r); simpl; rewrite app_nil_r; now destruct r.
  - simpl launch; simpl map; unfold launch_one.
    destruct (test_skip e) eqn:Hskip.
    + replace (slot_of e) with (e, @None Promise)
        by (unfold slot_of, ran; now rewrite Hskip).
      replace (launch_event e) with (mkEvent (Some "test-skip") [arg e])
        by (unfold launch_event; now rewrite Hskip).
      destruct (IH (emit H "test-skip" [arg e] r)) as (em & ->).
      exists em; simpl; rewrite <- app_assoc; reflexivity.
    + replace (slot_of e)
        with (mkEntry (tid e) (fst (TestUnit.run (unit_ e))) false (test_only e),
              Some (snd (TestUnit.run (unit_ e))))
        by (unfold slot_of, ran, outcome_of; now rewrite Hskip).
      replace (launch_event e) with (mkEvent (Some "test-start") [arg e])
        by (unfold launch_event; now rewrite Hskip).
      destruct (TestUnit.run (unit_ e)) as [u p].
      destruct (IH (emit H "test-start" [arg e] r)) as (em & ->).
      exists em; simpl; rewrite <- app_assoc; reflexivity.
Qed.

Lemma arg_ran (e : Entry) : arg (ran e) = arg e.
Proof.
  unfold ran, arg; destruct (test_skip e); [reflexivity|]; simpl.
  unfold TestUnit.run; now destruct (TestUnit.testFn (unit_ e)).
Qed.

(** The handlers on the future of a run that is not skipped. *)
Lemma continuation_trace (e : Entry) (r : t) :
  test_skip e = false ->
  exists em : Emitter.t,
    continuation H (slot_of e) r =
    Some (mk em (emitted r ++ settle_events e) (sequential r) (state r) (tests r)
             (_only r) (next_tid r) (if fails e then Some 1 else exitCode r)).
Proof.
  intros Hskip; unfold continuation, slot_of, settle_events, fails; rewrite Hskip.
  cbn [snd fst negb andb].
  destruct (run_settles (unit_ e)) as (tm & o & Hrun).
  unfold outcome_of; rewrite Hrun.
  destruct o as [v|err]; eexists; unfold emitPass, emitFail, emit, with_exitCode;
    cbn [emitter emitted sequential state tests _only next_tid exitCode];
    rewrite arg_ran, <- app_assoc; reflexivity.
Qed.

Lemma continuations_trace (order : list Entry) (r : t) :
  (forall e, In e order -> test_skip e = false) ->
  exists em : Emitter.t,
    Queue.run_in_order (map (fun e => continuation H (slot_of e)) order) r =
    Some (mk em (emitted r ++ flat_map settle_events order) (sequential r) (state r)
             (tests r) (_only r) (next_tid r)
             (if existsb fails order then Some 1 else exitCode r)).
Proof.
  revert r; induction order as [|e order IH]; intros r Hrun.
  - exists (emitter r); simpl; rewrite app_nil_r; now destruct r.
  - simpl map; rewrite run_in_order_cons.
    destruct (@continuation_trace e r (Hrun e (or_introl eq_refl))) as (em1 & ->).
    destruct (IH (mk em1 (emitted r ++ settle_events e) (sequential r) (state r) (tests r)
                     (_only r) (next_tid r) (if fails e then Some 1 else exitCode r)))
      as (em & ->); [intros x Hx; apply Hrun; now right|].
    exists em; simpl; rewrite <- app_assoc.
    destruct (fails e); simpl; [|reflexivity].
    now destruct (existsb fails order).
Qed.

Lemma NoDup_map_fst_filter (A : Type) (p : nat * A -> bool) (l : list (nat * A)) :
  NoDup (map fst l) -> NoDup (map fst (filter p l)).
Proof.
  induction l as [|x l IH]; intros Hnd; simpl; [constructor|].
  simpl in Hnd; apply NoDup_cons_iff in Hnd as [Hx Hnd].
  destruct (p x); simpl; [|now apply IH].
  constructor; [|now apply IH].
  intros Hin; apply Hx; apply in_map_iff in Hin as (y & <- & Hy).
  apply in_map, (proj1 (filter_In p y l)), Hy.
Qed.

Lemma filter_combine_snd (A : Type) (p : A -> bool) (l : list A) (k : nat) :
  map snd (filter (fun s => p (snd s)) (combine (seq k (List.length l)) l)) = filter p l.
Proof.
  revert k; induction l as [|x l IH]; intros k; simpl; [reflexivity|].
  destruct (p x); simpl; now rewrite IH.
Qed.

Lemma running_slots (todo : list Entry) :
  filter running (map slot_of todo) =
  map slot_of (filter (fun e => negb (test_skip e)) todo).
Proof.
  induction todo as [|e todo IH]; simpl; [reflexivity|].
  unfold running at 1, slot_of at 1; cbn [snd].
  destruct (test_skip e); simpl; now rewrite IH.
Qed.

(** The runs in flight after [tests.map] all settle; the handlers on
    their futures run in the order of the settlements. *)
Lemma settle_all_trace (todo : list Entry) (r : t) :
  exists (order : list Entry) (em : Emitter.t),
    Permutation order (filter (fun e => negb (test_skip e)) todo) /\
    settle_all pick (List.length (map slot_of todo)) (inflight H (map slot_of todo)) r =
    Some (mk em (emitted r ++ flat_map settle_events order) (sequential r) (state r)
             (tests r) (_only r) (next_tid r)
             (if existsb fails order then Some 1 else exitCode r)).
Proof.
  set (slots := map slot_of todo).
  set (pairs := filter (fun s : nat * Slot => running (snd s))
                       (combine (seq 0 (List.length slots)) slots)).
  destruct (@settle_all_order (List.length slots) (inflight H slots))
    as (flights & Hperm & Hrun).
  - unfold inflight; rewrite map_map; simpl.
    apply NoDup_map_fst_filter; rewrite combine_seq_fst; apply seq_NoDup.
  - unfold inflight; rewrite length_map.
    etransitivity; [apply filter_length_le|].
    rewrite length_combine, length_seq; lia.
  - unfold inflight in Hperm; fold pairs in Hperm.
    apply Permutation_map_inv in Hperm as (pairs' & -> & Hpairs).
    apply (Permutation_map snd) in Hpairs.
    unfold pairs in Hpairs at 1.
    rewrite (filter_combine_snd running slots 0) in Hpairs.
    unfold slots in Hpairs at 1; rewrite running_slots in Hpairs.
    apply Permutation_sym, Permutation_map_inv in Hpairs as (order & Horder & Hentries).
    exists order.
    destruct (@continuations_trace order r) as (em & Htrace).
    { intros e He; apply (Permutation_in _ (Permutation_sym Hentries)) in He.
      apply filter_In in He as [_ He]; now apply negb_true_iff in He. }
    exists em; split; [now apply Permutation_sym|].
    rewrite Hrun, map_map; simpl.
    rewrite <- (map_map snd (continuation H)), Horder, map_map; exact Htrace.
Qed.

(** The tests [start] finds once those outside [_only] are marked. *)
Lemma mark_only_fields (r : t) :
  mark_only r =
  mk (emitter r) (emitted r) (sequential r) (state r) (marked r) (_only r)
     (next_tid r) (exitCode r).
Proof. unfold marked, mark_only; destruct r as [? ? ? ? ? [|i l] ? ?]; reflexivity. Qed.

Lemma marked_with_state (s : nat) (r : t) : marked (with_state s r) = marked r.
Proof. unfold marked, mark_only; simpl; now destruct (_only r). Qed.

Lemma marked_length (r : t) : List.length (marked r) = List.length (tests r).
Proof.
  unfold marked, mark_only; destruct (_only r); [reflexivity|].
  simpl; apply length_map.
Qed.

Lemma existsb_fails_run (l : list Entry) :
  existsb fails (filter (fun e => negb (test_skip e)) l) = existsb fails l.
Proof.
  induction l as [|e l IH]; simpl; [reflexivity|].
  destruct (test_skip e) eqn:E; simpl.
  - assert (Hf : fails e = false) by (unfold fails; now rewrite E).
    now rewrite Hf.
  - now rewrite IH.
Qed.

Lemma result_of_slot (e : Entry) : result_of (slot_of e) = result e.
Proof.
  unfold result_of, slot_of, result; cbn [snd]; now destruct (test_skip e).
Qed.

Lemma ran_slot (e : Entry) : fst (slot_of e) = ran e.
Proof. reflexivity. Qed.

(** A first [start ()] in the parallel branch. *)
Lemma start_parallel_trace (r : t) :
  state r = 0 -> sequential r = false ->
  exists (order : list Entry) (em : Emitter.t),
    Permutation order (filter (fun e => negb (test_skip e)) (marked r)) /\
    start H pick r =
    Some (mk em
             (emitted r ++
              [mkEvent (Some "start") [VNum (Z.of_nat (List.length (tests r)))]] ++
              map launch_event (marked r) ++
              flat_map settle_events order ++
              [mkEvent (Some "end") []])
             false 2 (map ran (marked r)) (_only r) (next_tid r)
             (if existsb fails (marked r) then Some 1 else exitCode r),
          FulfilsWith (map result (marked r))).
Proof.
  intros Hstate Hpar; unfold start; rewrite Hstate; cbn [Nat.eqb negb].
  rewrite (mark_only_fields (with_state 1 r)), marked_with_state.
  cbn [emit with_state emitter emitted sequential state tests _only next_tid exitCode].
  rewrite Hpar, marked_length.
  match goal with
  | |- context [launch H ?l ?x] => destruct (launch_trace l x) as (em1 & ->)
  end.
  cbn [with_tests emitter emitted sequential state tests _only next_tid exitCode].
  match goal with
  | |- context [settle_all pick _ _ ?x] =>
      destruct (settle_all_trace (marked r) x) as (order & em & Hperm & ->)
  end.
  exists order; eexists; split; [exact Hperm|].
  unfold emit, with_state, with_tests;
    cbn [emitter emitted sequential state tests _only next_tid exitCode].
  rewrite (existsb_perm fails Hperm), existsb_fails_run.
  rewrite !map_map, <- !app_assoc; cbn [app].
  apply f_equal, f_equal2; [reflexivity|].
  f_equal; apply map_ext; intros e; apply result_of_slot.
Qed.

(** What a sequence of registrations pushes. *)
Lemma registrations_entries (cs : list Registration) (r : t) :
  registrations cs r =
  mk (emitter r) (emitted r) (sequential r) (state r)
     (tests r ++ entries (next_tid r) (S (List.length (tests r))) cs)
     (_only r ++
      map tid (filter test_only (entries (next_tid r) (S (List.length (tests r))) cs)))
     (List.length cs + next_tid r) (exitCode r).
Proof.
  unfold registrations; revert r; induction cs as [|c cs IH]; intros r.
  - simpl; rewrite !app_nil_r; now destruct r.
  - simpl fold_left; rewrite IH; clear IH.
    unfold register, test, skip, only, is_skip, is_only; simpl entries.
    unfold is_skip, is_only.
    destruct (kind c); simpl; rewrite ?length_app, <- ?app_assoc; simpl;
      rewrite ?Nat.add_1_r, ?Nat.add_succ_r; reflexivity.
Qed.

Lemma entries_tids (cs : list Registration) (tid0 index0 : nat) :
  map tid (entries tid0 index0 cs) = seq tid0 (List.length cs).
Proof.
  revert tid0 index0; induction cs as [|c cs IH]; intros tid0 index0; simpl;
    [reflexivity | now rewrite IH].
Qed.

Lemma entries_nth (cs : list Registration) (tid0 index0 k : nat) (e : Entry) :
  nth_error (entries tid0 index0 cs) k = Some e ->
  exists c, nth_error cs k = Some c /\
            e = mkEntry (tid0 + k)
                        (set_index (index0 + k)
                           (TestUnit.new_ (reg_name c) (reg_testFn c) (reg_timeout c)))
                        (is_skip c) (is_only c).
Proof.
  revert tid0 index0 k; induction cs as [|c cs IH]; intros tid0 index0 k Hk.
  - destruct k; discriminate.
  - destruct k as [|k]; simpl in Hk.
    + injection Hk as <-; exists c; split; [reflexivity|].
      now rewrite !Nat.add_0_r.
    + destruct (IH _ _ _ Hk) as (c' & Hc & ->); exists c'; split; [exact Hc|].
      now rewrite !Nat.add_succ_r.
Qed.

(** Among tests with distinct identities, the identity of a test is on
    the list of those flagged [only] when the test is flagged. *)
Lemma only_listed (l : list Entry) (e : Entry) :
  NoDup (map tid l) -> In e l ->
  existsb (Nat.eqb (tid e)) (map tid (filter test_only l)) = test_only e.
Proof.
  intros Hnd He; destruct (test_only e) eqn:Ho.
  - apply existsb_exists; exists (tid e); split; [|apply Nat.eqb_refl].
    apply in_map, filter_In; now split.
  - destruct (existsb _ _) eqn:Ex; [|reflexivity].
    apply existsb_exists in Ex as (i & Hi & Ei); apply Nat.eqb_eq in Ei; subst i.
    apply in_map_iff in Hi as (e' & Etid & He').
    apply filter_In in He' as [He' Ho'].
    assert (e' = e); [|congruence].
    clear - Hnd He He' Etid; induction l as [|x l IH]; [destruct He|].
    simpl in Hnd; apply NoDup_cons_iff in Hnd as [Hx Hnd].
    destruct He as [->|He], He' as [->|He'].
    + reflexivity.
    + exfalso; apply Hx; rewrite <- Etid; now apply in_map.
    + exfalso; apply Hx; rewrite Etid; now apply in_map.
    + now apply IH.
Qed.

Lemma marked_registrations (cs : list Registration) (r0 : t) :
  tests r0 = [] -> _only r0 = [] -> existsb is_only cs = true ->
  marked (registrations cs r0) =
  map (fun e => if test_only e then e else mkEntry (tid e) (unit_ e) true (test_only e))
      (entries (next_tid r0) 1 cs).
Proof.
  intros Htests Honly Hsome; rewrite registrations_entries, Htests, Honly.
  unfold marked, mark_only; simpl.
  set (es := entries (next_tid r0) 1 cs).
  assert (Hnd : NoDup (map tid es))
    by (unfold es; rewrite entries_tids; apply seq_NoDup).
  destruct (map tid (filter test_only es)) as [|i l] eqn:Hlist.
  - exfalso; apply existsb_exists in Hsome as (c & Hc & Hk).
    apply In_nth_error in Hc as (k & Hc).
    assert (Hlen : k < List.length es).
    { unfold es; rewrite <- (length_map tid), entries_tids, length_seq.
      apply nth_error_Some; congruence. }
    apply nth_error_Some in Hlen.
    destruct (nth_error es k) as [e|] eqn:He; [|congruence].
    destruct (entries_nth _ _ _ _ He) as (c' & Hc' & ->).
    assert (c' = c) by congruence; subst c'.
    assert (Hin : In (next_tid r0 + k) (map tid (filter test_only es))).
    { apply in_map_iff; eexists; split; [|apply filter_In; split;
        [eapply nth_error_In; exact He | exact Hk]]; reflexivity. }
    rewrite Hlist in Hin; destruct Hin.
  - cbn [tests with_tests _only]; rewrite <- Hlist; apply map_ext_in; intros e He.
    now rewrite (@only_listed es e Hnd He).
Qed.

(** What the sequential branch does with a test: the events, and the
    exit code. *)
Lemma sequential_step (e : Entry) (rest : list Entry) (r : t) (k : t -> option (t * Settled)) :
  exists em : Emitter.t,
    (if test_skip e then k (emit H "test-skip" [arg e] (with_tests rest r))
     else
       match snd (TestUnit.run (unit_ e)) with
       | Some (_, Fulfilled result) => k (emitPass H e result (with_tests rest r))
       | Some (_, Rejected err) => k (emitFail H e err (with_tests rest r))
       | None => None
       end) =
    k (mk em (emitted r ++ sequential_events e) (sequential r) (state r) rest
          (_only r) (next_tid r) (if fails e then Some 1 else exitCode r)).
Proof.
  unfold sequential_events, settle_events, fails, outcome_of.
  destruct (test_skip e).
  - eexists; reflexivity.
  - destruct (run_settles (unit_ e)) as (tm & o & ->).
    destruct o as [v|err]; eexists; unfold emitPass, emitFail, emit, with_exitCode, with_tests;
      cbn [emitter emitted sequential state tests _only next_tid exitCode negb andb];
      rewrite <- app_assoc; reflexivity.
Qed.

(** The sequential branch over a non-empty array: the tests are taken
    one after the other, each when the one before it is over. *)
Lemma sequential_run_trace (todo : list Entry) (r : t) :
  todo <> [] ->
  exists em : Emitter.t,
    run H todo r =
    Some (mk em (emitted r ++ flat_map sequential_events todo) (sequential r) (state r) []
             (_only r) (next_tid r) (if existsb fails todo then Some 1 else exitCode r),
          FulfilsUndefined).
Proof.
  revert r; induction todo as [|e rest IH]; intros r Hne; [congruence|].
  simpl run.
  destruct (@sequential_step e rest r
              (fun r' => match rest with
                         | [] => Some (r', FulfilsUndefined)
                         | _ :: _ => run H rest r'
                         end)) as (em1 & ->).
  destruct rest as [|e' rest'].
  - exists em1; simpl; rewrite !app_nil_r, orb_false_r; reflexivity.
  - destruct (IH (mk em1 (emitted r ++ sequential_events e) (sequential r) (state r)
                     (e' :: rest') (_only r) (next_tid r)
                     (if fails e then Some 1 else exitCode r)))
      as (em & ->); [discriminate|].
    exists em; cbn [emitter emitted sequential state tests _only next_tid exitCode].
    rewrite <- app_assoc; cbn [flat_map existsb].
    destruct (fails e); cbn [orb]; [|reflexivity].
    now destruct (existsb fails rest' || fails e'), (fails e' || existsb fails rest').
Qed.

(** A first [start ()] in the sequential branch. *)
Lemma start_sequential_trace (r : t) :
  state r = 0 -> sequential r = true ->
  exists em : Emitter.t,
    start H pick r =
    match tests r with
    | [] =>
        Some (mk em
                 (emitted r ++ [mkEvent (Some "start") [VNum 0]])
                 true 1 [] (_only r) (next_tid r) (exitCode r),
              RejectsWith (VErr (undefined_read "skip")))
    | _ :: _ =>
        Some (mk em
                 (emitted r ++
                  [mkEvent (Some "start") [VNum (Z.of_nat (List.length (tests r)))]] ++
                  flat_map sequential_events (marked r))
                 true 1 [] (_only r) (next_tid r)
                 (if existsb fails (marked r) then Some 1 else exitCode r),
              FulfilsUndefined)
    end.
Proof.
  intros Hstate Hseq; unfold start; rewrite Hstate; cbn [Nat.eqb negb].
  rewrite (mark_only_fields (with_state 1 r)), marked_with_state.
  cbn [emit with_state emitter emitted sequential state tests _only next_tid exitCode].
  rewrite Hseq, marked_length.
  pose proof (marked_length r) as Hlen.
  destruct (tests r) as [|e0 ts] eqn:Htests.
  - destruct (marked r); [|discriminate]; simpl; eexists; reflexivity.
  - match goal with
    | |- context [run H ?l ?x] => destruct (@sequential_run_trace l x) as (em & ->)
    end.
    + destruct (marked r); [discriminate | discriminate].
    + exists em; unfold emit;
        cbn [emitter emitted sequential state tests _only next_tid exitCode].
      rewrite <- app_assoc; reflexivity.
Qed.

Lemma entries_length (cs : list Registration) (tid0 index0 : nat) :
  List.length (entries tid0 index0 cs) = List.length cs.
Proof. now rewrite <- (length_map tid), entries_tids, length_seq. Qed.

(** X15. A first [start ()] of a runner that is not sequential, whichever
    run settles first at each turn: 'start' is emitted with the number of
    tests, then 'test-skip' or 'test-start' for each test in order, and
    every test that is not skipped is run at once; as the runs settle,
    'test-pass' or 'test-fail' and then 'test-end' are emitted for each;
    when all have settled the state is 2 and 'end' is emitted, last.  The
    future fulfils, whatever runs were rejected, with the results in the
    order of the tests, [undefined] standing for a skipped or failed
    test; the exit code is 1 when a run was rejected.  A second
    [start ()] does nothing. *)
Theorem start_parallel_settles (r : t) :
  state r = 0 -> sequential r = false ->
  exists (r' : t) (order : list Entry),
    start H pick r = Some (r', FulfilsWith (map result (marked r))) /\
    Permutation order (filter (fun e => negb (test_skip e)) (marked r)) /\
    emitted r' =
      emitted r ++
      [mkEvent (Some "start") [VNum (Z.of_nat (List.length (tests r)))]] ++
      map launch_event (marked r) ++
      flat_map settle_events order ++
      [mkEvent (Some "end") []] /\
    state r' = 2 /\
    tests r' = map ran (marked r) /\
    exitCode r' = (if existsb fails (marked r) then Some 1 else exitCode r) /\
    start H pick r' = Some (r', FulfilsUndefined).
Proof.
  intros Hstate Hpar.
  destruct (start_parallel_trace r Hstate Hpar) as (order & em & Hperm & Hstart).
  eexists; exists order; split; [exact Hstart|].
  split; [exact Hperm|]. repeat (split; [reflexivity|]).
  reflexivity.
Qed.

(** X16. When a test at least was registered with [only] on a runner
    without tests, a first [start ()] in the parallel branch emits, after
    'start', 'test-start' for each test registered with [only] and
    'test-skip' for every other test, in the order of registration; a
    test registered with [only] is left as one call of its [run ()] leaves
    it, and every other test is left as it was registered, its function
    not called. *)
Theorem start_with_only_skips_the_rest (cs : list Registration) (r0 : t) :
  tests r0 = [] -> _only r0 = [] -> state r0 = 0 -> sequential r0 = false ->
  existsb is_only cs = true ->
  exists (r' : t) (results : list Value) (later : list Event),
    start H pick (registrations cs r0) = Some (r', FulfilsWith results) /\
    emitted r' =
      emitted r0 ++
      [mkEvent (Some "start") [VNum (Z.of_nat (List.length cs))]] ++
      map only_event cs ++ later /\
    map unit_ (tests r') =
      map (fun e => if test_only e then fst (TestUnit.run (unit_ e)) else unit_ e)
          (tests (registrations cs r0)) /\
    map test_only (tests (registrations cs r0)) = map is_only cs.
Proof.
  intros Htests Honly Hstate Hpar Hsome.
  pose proof (marked_registrations cs r0 Htests Honly Hsome) as Hmarked.
  destruct (@start_parallel_trace (registrations cs r0)) as (order & em & _ & Hstart).
  { rewrite registrations_entries; exact Hstate. }
  { rewrite registrations_entries; exact Hpar. }
  rewrite Hmarked in Hstart.
  eexists; eexists; eexists; split; [exact Hstart|].
  cbn [emitted tests]; rewrite !registrations_entries.
  cbn [emitted tests]; rewrite Htests, length_app, entries_length; cbn [List.length app].
  split; [|split].
  - do 2 f_equal.
    rewrite map_map.
    instantiate (1 := flat_map settle_events order ++ [mkEvent (Some "end") []]).
    f_equal.
    generalize (next_tid r0) 1; clear; induction cs as [|c cs IH]; intros n i;
      simpl; [reflexivity|].
    rewrite IH; f_equal.
    unfold launch_event, only_event, arg, is_only, is_skip; simpl.
    now destruct (kind c).
  - rewrite !map_map.
    generalize (next_tid r0) 1; clear; induction cs as [|c cs IH]; intros n i;
      simpl; [reflexivity|].
    rewrite IH; f_equal.
    unfold ran, is_only, is_skip; simpl; now destruct (kind c).
  - generalize (next_tid r0) 1; clear; induction cs as [|c cs IH]; intros n i;
      simpl; [reflexivity|].
    now rewrite IH.
Qed.

(** X17. Tests registered on a runner without tests, by [test], [skip]
    and [only] in any sequence: the array holds one test for each call,
    in order; the index of a test is its position counted from 1; it has
    the name and the function of the call; it is marked [skip] when
    [skip] registered it, and it is on [_only] when [only] did. *)
Theorem registrations_index_tests (cs : list Registration) (r0 : t) :
  tests r0 = [] -> _only r0 = [] ->
  List.length (tests (registrations cs r0)) = List.length cs /\
  forall (k : nat) (e : Entry),
    nth_error (tests (registrations cs r0)) k = Some e ->
    TestUnit.index (unit_ e) = S k /\
    exists c, nth_error cs k = Some c /\
              TestUnit.name (unit_ e) = reg_name c /\
              TestUnit.testFn (unit_ e) = reg_testFn c /\
              test_skip e = is_skip c /\
              existsb (Nat.eqb (tid e)) (_only (registrations cs r0)) = is_only c.
Proof.
  intros Htests Honly; rewrite registrations_entries, Htests, Honly.
  cbn [tests _only app List.length].
  split; [apply entries_length|].
  intros k e Hk.
  destruct (entries_nth _ _ _ _ Hk) as (c & Hc & He).
  split; [rewrite He; reflexivity|].
  exists c; split; [exact Hc|].
  split; [rewrite He; reflexivity|].
  split; [rewrite He; reflexivity|].
  split; [rewrite He; reflexivity|].
  rewrite (@only_listed (entries (next_tid r0) 1 cs) e).
  - rewrite He; reflexivity.
  - rewrite entries_tids; apply seq_NoDup.
  - eapply nth_error_In; exact Hk.
Qed.

(** X18. A first [start ()] of a sequential runner without tests:
    'start' is emitted with 0, then the read of [skip] on the test that
    [shift] did not find throws, and the future rejects with that
    TypeError; the state stays 1, so that a later [start ()] does
    nothing. *)
Theorem start_sequential_without_tests (r : t) :
  state r = 0 -> sequential r = true -> tests r = [] ->
  exists (r' : t) (e : Error),
    start H pick r = Some (r', RejectsWith (VErr e)) /\
    err_name e = "TypeError" /\
    emitted r' = emitted r ++ [mkEvent (Some "start") [VNum 0]] /\
    state r' = 1 /\
    start H pick r' = Some (r', FulfilsUndefined).
Proof.
  intros Hstate Hseq Htests.
  destruct (start_sequential_trace r Hstate Hseq) as (em & Hstart).
  rewrite Htests in Hstart.
  eexists; eexists; split; [exact Hstart|].
  repeat (split; [reflexivity|]); reflexivity.
Qed.

(** X19. A first [start ()] of a sequential runner with tests: after
    'start', the tests are taken in order, each when the one before it
    is over, with 'test-skip' for a skipped test and 'test-pass' or
    'test-fail' and then 'test-end' for the others.  The future fulfils
    with [undefined], whatever runs were rejected.  Neither 'test-start'
    nor 'end' is emitted, the array of tests is left empty, and the state
    stays 1, so that a later [start ()] does nothing. *)
Theorem start_sequential_consumes_tests (r : t) :
  state r = 0 -> sequential r = true -> tests r <> [] ->
  exists r' : t,
    start H pick r = Some (r', FulfilsUndefined) /\
    emitted r' =
      emitted r ++
      [mkEvent (Some "start") [VNum (Z.of_nat (List.length (tests r)))]] ++
      flat_map sequential_events (marked r) /\
    (forall ev, In ev (flat_map sequential_events (marked r)) ->
                ev_name ev <> Some "end" /\ ev_name ev <> Some "test-start") /\
    state r' = 1 /\
    tests r' = [] /\
    exitCode r' = (if existsb fails (marked r) then Some 1 else exitCode r) /\
    start H pick r' = Some (r', FulfilsUndefined).
Proof.
  intros Hstate Hseq Htests.
  destruct (start_sequential_trace r Hstate Hseq) as (em & Hstart).
  destruct (tests r) as [|e0 ts] eqn:Hts; [congruence|].
  eexists; split; [exact Hstart|].
  split; [reflexivity|]. split; [|repeat (split; [reflexivity|]); reflexivity].
  intros ev Hev; apply in_flat_map in Hev as (e & _ & Hev).
  unfold sequential_events, settle_events in Hev.
  destruct (test_skip e); [destruct Hev as [<-|[]]; split; discriminate|].
  destruct (outcome_of e) as [[tm [v|err]]|]; [| |destruct Hev];
    destruct Hev as [<-|[<-|[]]]; split; discriminate.
Qed.

End UmdRunnerFacts.

(** A runner with three tests, started in the parallel branch with
    console handlers, the oldest run settling first. *)
Lemma start_parallel_settles_witness :
  exists (r' : UmdRunner.t) (order : list UmdRunner.Entry),
    UmdRunner.start (fun _ => []) Queue.oldest_first (UmdRunner.three_tests false) =
      Some (r', UmdRunner.FulfilsWith
                  (map UmdRunner.result (UmdRunner.marked (UmdRunner.three_tests false)))) /\
    Permutation order
      (filter (fun e => negb (UmdRunner.test_skip e))
              (UmdRunner.marked (UmdRunner.three_tests false))) /\
    UmdRunner.emitted r' =
      UmdRunner.emitted (UmdRunner.three_tests false) ++
      [mkEvent (Some "start")
               [VNum (Z.of_nat (List.length (UmdRunner.tests (UmdRunner.three_tests false))))]] ++
      map UmdRunner.launch_event (UmdRunner.marked (UmdRunner.three_tests false)) ++
      flat_map UmdRunner.settle_events order ++
      [mkEvent (Some "end") []] /\
    UmdRunner.state r' = 2 /\
    UmdRunner.tests r' = map UmdRunner.ran (UmdRunner.marked (UmdRunner.three_tests false)) /\
    UmdRunner.exitCode r' =
      (if existsb UmdRunner.fails (UmdRunner.marked (UmdRunner.three_tests false))
       then Some 1 else UmdRunner.exitCode (UmdRunner.three_tests false)) /\
    UmdRunner.start (fun _ => []) Queue.oldest_first r' =
      Some (r', UmdRunner.FulfilsUndefined).
Proof.
  apply (@start_parallel_settles (fun _ => []) Queue.oldest_first
           (UmdRunner.three_tests false)); reflexivity.
Defined.

Lemma start_with_only_skips_the_rest_witness :
  exists (r' : UmdRunner.t) (results : list Value) (later : list Event),
    UmdRunner.start (fun _ => []) Queue.oldest_first
      (UmdRunner.registrations UmdRunner.three_registrations
         (UmdRunner.new_ (ViewBase.mkCallbacks 1 2 3 4 5) false)) =
      Some (r', UmdRunner.FulfilsWith results) /\
    UmdRunner.emitted r' =
      UmdRunner.emitted (UmdRunner.new_ (ViewBase.mkCallbacks 1 2 3 4 5) false) ++
      [mkEvent (Some "start")
               [VNum (Z.of_nat (List.length UmdRunner.three_registrations))]] ++
      map UmdRunner.only_event UmdRunner.three_registrations ++ later /\
    map UmdRunner.unit_ (UmdRunner.tests r') =
      map (fun e => if UmdRunner.test_only e
                    then fst (TestUnit.run (UmdRunner.unit_ e)) else UmdRunner.unit_ e)
          (UmdRunner.tests
             (UmdRunner.registrations UmdRunner.three_registrations
                (UmdRunner.new_ (ViewBase.mkCallbacks 1 2 3 4 5) false))) /\
    map UmdRunner.test_only
        (UmdRunner.tests
           (UmdRunner.registrations UmdRunner.three_registrations
              (UmdRunner.new_ (ViewBase.mkCallbacks 1 2 3 4 5) false))) =
      map UmdRunner.is_only UmdRunner.three_registrations.
Proof.
  apply (@start_with_only_skips_the_rest (fun _ => []) Queue.oldest_first
           UmdRunner.three_registrations
           (UmdRunner.new_ (ViewBase.mkCallbacks 1 2 3 4 5) false)); reflexivity.
Defined.

Lemma registrations_index_tests_witness :
  List.length
    (UmdRunner.tests
       (UmdRunner.registrations UmdRunner.three_registrations
          (UmdRunner.new_ (ViewBase.mkCallbacks 1 2 3 4 5) true))) =
  List.length UmdRunner.three_registrations.
Proof.
  apply (@registrations_index_tests UmdRunner.three_registrations
           (UmdRunner.new_ (ViewBase.mkCallbacks 1 2 3 4 5) true)); reflexivity.
Defined.

(** A sequential runner on which no test was registered. *)
Lemma start_sequential_without_tests_witness :
  exists (r' : UmdRunner.t) (e : Error),
    UmdRunner.start (fun _ => []) Queue.oldest_first
      (UmdRunner.new_ (ViewBase.mkCallbacks 1 2 3 4 5) true) =
      Some (r', UmdRunner.RejectsWith (VErr e)) /\
    err_name e = "TypeError" /\
    UmdRunner.emitted r' =
      UmdRunner.emitted (UmdRunner.new_ (ViewBase.mkCallbacks 1 2 3 4 5) true) ++
      [mkEvent (Some "start") [VNum 0]] /\
    UmdRunner.state r' = 1 /\
    UmdRunner.start (fun _ => []) Queue.oldest_first r' =
      Some (r', UmdRunner.FulfilsUndefined).
Proof.
  apply (@start_sequential_without_tests (fun _ => []) Queue.oldest_first
           (UmdRunner.new_ (ViewBase.mkCallbacks 1 2 3 4 5) true)); reflexivity.
Defined.

(** The runner with three tests, sequential. *)
Lemma start_sequential_consumes_tests_witness :
  exists r' : UmdRunner.t,
    UmdRunner.start (fun _ => []) Queue.oldest_first (UmdRunner.three_tests true) =
      Some (r', UmdRunner.FulfilsUndefined) /\
    UmdRunner.emitted r' =
      UmdRunner.emitted (UmdRunner.three_tests true) ++
      [mkEvent (Some "start")
               [VNum (Z.of_nat (List.length (UmdRunner.tests (UmdRunner.three_tests true))))]] ++
      flat_map UmdRunner.sequential_events (UmdRunner.marked (UmdRunner.three_tests true)) /\
    (forall ev,
        In ev (flat_map UmdRunner.sequential_events
                        (UmdRunner.marked (UmdRunner.three_tests true))) ->
        ev_name ev <> Some "end" /\ ev_name ev <> Some "test-start") /\
    UmdRunner.state r' = 1 /\
    UmdRunner.tests r' = [] /\
    UmdRunner.exitCode r' =
      (if existsb UmdRunner.fails (UmdRunner.marked (UmdRunner.three_tests true))
       then Some 1 else UmdRunner.exitCode (UmdRunner.three_tests true)) /\
    UmdRunner.start (fun _ => []) Queue.oldest_first r' =
      Some (r', UmdRunner.FulfilsUndefined).
Proof.
  apply (@start_sequential_consumes_tests (fun _ => []) Queue.oldest_first
           (UmdRunner.three_tests true)); [reflexivity | reflexivity | discriminate].
Defined.

(** ** The runner of the bundle of dist/tests.js *)
Section TomRunnerFacts.

Import TomRunner.

(** X20. A runner of the bundle constructed over any test object model
    is in 'pending', having emitted the two events of that move and run
    nothing.  Its [start ()] runs every node once, in the order of the
    iteration, and returns a future that fulfils, whatever runs were
    rejected, with the results in that order, [undefined] standing for a
    rejected run; the runner went to 'start', with the number of nodes as
    the argument of the event, and then to 'end'.  A second [start ()]
    throws at once, not through a future, the INVALID_MOVE error that
    names 'pending' as the only legal source; it runs nothing and the
    runner stays in 'end'. *)
Theorem tom_runner_lifecycle (tom0 : TestRunnerCore.Tom) :
  exists r0 r1 : t,
    new_ tom0 = Normal r0 /\
    state r0 = Some "pending" /\
    emitted r0 = [ mkEvent (Some "state") [VStr "pending"; VUndefined];
                   mkEvent (Some "pending") [] ] /\
    ran r0 = [] /\
    start r0 = Fulfils (map caught (TestRunnerCore.iterate tom0)) r1 /\
    state r1 = Some "end" /\
    ran r1 = map TestRunnerCore.name (TestRunnerCore.iterate tom0) /\
    emitted r1 =
      emitted r0 ++
      [ mkEvent (Some "state") [VStr "start"; VStr "pending"];
        mkEvent (Some "start")
                [VNum (Z.of_nat (List.length (TestRunnerCore.iterate tom0)))];
        mkEvent (Some "state") [VStr "end"; VStr "start"];
        mkEvent (Some "end") [] ] /\
    start r1 =
      Throws (mkError "INVALID_MOVE" "Can only move to 'start' from 'pending' (not 'end')")
             r1.
Proof.
  eexists; eexists.
  split; [reflexivity|].
  split; [reflexivity|].
  split; [reflexivity|].
  split; [reflexivity|].
  split; [reflexivity|].
  split; [reflexivity|].
  split; [reflexivity|].
  split; reflexivity.
Qed.

(** X21. A runner of the bundle in 'pending' on which [start ()] is
    called twice before any run has settled: the second call does not
    throw, since the state is already 'start'; it emits nothing and runs
    every node a second time.  The handler of the first future then moves
    the runner to 'end', and that of the second changes nothing. *)
Theorem tom_runner_overlapping_starts (r : t) :
  state r = Some "pending" ->
  StateMachine._validMoves (sm r) =
    StateMachine._validMoves (FsmBase.construct validMoves) ->
  exists r1 r2 r3 : t,
    start_call r = Normal (r1, map caught (TestRunnerCore.iterate (tom r))) /\
    state r1 = Some "start" /\
    start_call r1 = Normal (r2, map caught (TestRunnerCore.iterate (tom r))) /\
    emitted r2 = emitted r1 /\
    ran r2 = ran r ++
             map TestRunnerCore.name (TestRunnerCore.iterate (tom r)) ++
             map TestRunnerCore.name (TestRunnerCore.iterate (tom r)) /\
    start_then r2 = Normal r3 /\
    state r3 = Some "end" /\
    emitted r3 = emitted r2 ++ [ mkEvent (Some "state") [VStr "end"; VStr "start"];
                                 mkEvent (Some "end") [] ] /\
    start_then r3 = Normal r3.
Proof.
  destruct r as [[st moves ev cm] tom0 ran0]; unfold state; simpl.
  intros -> ->.
  eexists; eexists; eexists.
  split; [reflexivity|].
  split; [reflexivity|].
  split; [reflexivity|].
  split; [reflexivity|].
  split; [simpl; now rewrite <- app_assoc|].
  split; [reflexivity|].
  split; [reflexivity|].
  split; [unfold emitted; simpl; rewrite <- !app_assoc; reflexivity|].
  reflexivity.
Qed.

End TomRunnerFacts.

(** A runner over the tree with two leaf tests, as the constructor
    leaves it. *)
Lemma tom_runner_overlapping_starts_witness :
  exists r1 r2 r3 : TomRunner.t,
    TomRunner.start_call
      (TomRunner.mk
         (StateMachine.mk (Some "pending")
            (StateMachine._validMoves (FsmBase.construct TomRunner.validMoves))
            [ mkEvent (Some "state") [VStr "pending"; VUndefined];
              mkEvent (Some "pending") [] ] 1)
         TestRunnerCore.two_leaf_tree [])
    = Normal (r1, map TomRunner.caught (TestRunnerCore.iterate TestRunnerCore.two_leaf_tree)) /\
    TomRunner.state r1 = Some "start" /\
    TomRunner.start_call r1 =
      Normal (r2, map TomRunner.caught (TestRunnerCore.iterate TestRunnerCore.two_leaf_tree)) /\
    TomRunner.emitted r2 = TomRunner.emitted r1 /\
    TomRunner.ran r2 =
      [] ++
      map TestRunnerCore.name (TestRunnerCore.iterate TestRunnerCore.two_leaf_tree) ++
      map TestRunnerCore.name (TestRunnerCore.iterate TestRunnerCore.two_leaf_tree) /\
    TomRunner.start_then r2 = Normal r3 /\
    TomRunner.state r3 = Some "end" /\
    TomRunner.emitted r3 =
      TomRunner.emitted r2 ++ [ mkEvent (Some "state") [VStr "end"; VStr "start"];
                                mkEvent (Some "end") [] ] /\
    TomRunner.start_then r3 = Normal r3.
Proof.
  apply (@tom_runner_overlapping_starts
           (TomRunner.mk
              (StateMachine.mk (Some "pending")
                 (StateMachine._validMoves (FsmBase.construct TomRunner.validMoves))
                 [ mkEvent (Some "state") [VStr "pending"; VUndefined];
                   mkEvent (Some "pending") [] ] 1)
              TestRunnerCore.two_leaf_tree [])); reflexivity.
Defined.

(** ** The steps of a run *)
Section RunStepsFacts.

Import TestRunnerCore RunSteps.

Variable pick : Queue.Policy.

Lemma opening_spec (now0 : Z) (r0 : t) :
  state r0 = Some "pending" ->
  StateMachine._validMoves (sm r0) = validMoves ->
  in_run (opening now0 r0) /\
  failed (opening now0 r0) = false /\
  tom (opening now0 r0) = tom r0 /\
  options (opening now0 r0) = options r0 /\
  console (opening now0 r0) = console r0 /\
  view_calls (opening now0 r0) =
    view_calls r0 ++
    hook_call (options r0) init "init" [] ++
    hook_call (options r0) start_ "start" [VNum (Z.of_nat (testCount (tom r0)))].
Proof.
  destruct r0 as [[st moves ev cm] [[[i s e ts tp tf tk ti]|] dbg] tm en sts vc co];
    unfold state; simpl; intros -> ->.
  - destruct i, s;
      unfold opening, in_run, failed, state, hook_call, view_call, emit; simpl;
      rewrite <- ?app_assoc, ?app_nil_r; repeat split; try reflexivity; now left.
  - unfold opening, in_run, failed, state, hook_call, view_call, emit; simpl;
      rewrite ?app_nil_r; repeat split; try reflexivity; now left.
Qed.

Lemma on_signal_hooks (r : t) (s : Signal * list Value) :
  view_calls (on_signal r s) = view_calls r ++ signal_hook (options r) s /\
  options (on_signal r s) = options r.
Proof.
  destruct r as [m [[[i st e ts tp tf tk ti]|] dbg] tm en sts vc co], s as [sig args].
  - destruct sig; unfold on_signal, signal_hook, hook_call, view_call, emit;
      cbn [fst snd view options String.eqb Ascii.eqb Bool.eqb with_stats with_sm sm
           tom ended stats view_calls console testStart testPass testFail testSkip
           testIgnore];
      match goal with
      | |- context [if ?b then _ else _] => destruct b
      end; cbn [view_calls options]; rewrite ?app_nil_r; split; reflexivity.
  - destruct sig; unfold on_signal, signal_hook, hook_call, view_call, emit;
      cbn [fst snd view options String.eqb Ascii.eqb Bool.eqb with_stats with_sm sm
           tom ended stats view_calls console];
      rewrite ?app_nil_r; split; reflexivity.
Qed.

Lemma fold_on_signal_hooks (sigs : list (Signal * list Value)) (r : t) :
  view_calls (fold_left on_signal sigs r) =
    view_calls r ++ flat_map (signal_hook (options r)) sigs /\
  options (fold_left on_signal sigs r) = options r.
Proof.
  revert r; induction sigs as [|s sigs IH]; intros r; simpl.
  - now rewrite app_nil_r.
  - destruct (IH (on_signal r s)) as (-> & ->).
    destruct (on_signal_hooks r s) as (-> & ->).
    now rewrite <- app_assoc.
Qed.

(** What an instant writes on the console and calls on the view. *)
Lemma act_io (a : Action) (r : t) :
  in_run r ->
  console (act r a) = console r ++ (if debug (options r) then action_lines a else []) /\
  view_calls (act r a) =
    view_calls r ++ flat_map (signal_hook (options r)) (action_signals a) /\
  options (act r a) = options r.
Proof.
  intros Hrun.
  assert (Hsigs : forall sigs,
             console (fold_left on_signal sigs r) =
               console r ++ (if debug (options r) then [] else []) /\
             view_calls (fold_left on_signal sigs r) =
               view_calls r ++ flat_map (signal_hook (options r)) sigs /\
             options (fold_left on_signal sigs r) = options r).
  { intros sigs.
    destruct (fold_on_signal_spec sigs r) as (_ & _ & _ & _ & _ & Hco & _).
    destruct (fold_on_signal_hooks sigs r) as (Hvc & Hop).
    rewrite Hco, Hvc, Hop; destruct (debug (options r)); rewrite app_nil_r;
      repeat split. }
  destruct a as [n|n|n]; cbn [act action_lines action_signals flat_map];
    [apply Hsigs | apply Hsigs |].
  unfold debug_lines; destruct (outcome (run_of n)) as [v|err].
  - destruct (debug (options r)); rewrite !app_nil_r; repeat split.
  - clear Hsigs; destruct Hrun as [Hmoves Hstate].
    destruct r as [[st moves ev cm] [vw dbg] tm en sts vc co];
      unfold state in *; simpl in *; subst moves.
    unfold on_rejection, setState; cbn -[validMoves debug_header].
    destruct Hstate as [-> | ->]; cbn -[debug_header]; destruct dbg; cbn -[debug_header];
      rewrite <- ?app_assoc, ?app_nil_r; repeat split.
Qed.

Lemma fold_act_io (trace : list Action) (r : t) :
  in_run r ->
  console (fold_left act trace r) =
    console r ++ (if debug (options r) then flat_map action_lines trace else []) /\
  view_calls (fold_left act trace r) =
    view_calls r ++
    flat_map (signal_hook (options r)) (flat_map action_signals trace) /\
  options (fold_left act trace r) = options r.
Proof.
  revert r; induction trace as [|a trace IH]; intros r Hrun; simpl.
  - destruct (debug (options r)); rewrite !app_nil_r; repeat split.
  - destruct (act_spec a Hrun) as (Hrun1 & _).
    destruct (IH _ Hrun1) as (-> & -> & ->).
    destruct (act_io a Hrun) as (-> & -> & ->).
    rewrite flat_map_app, <- !app_assoc.
    destruct (debug (options r)); rewrite ?app_nil_r; repeat split.
Qed.

Lemma closing_io (now1 : Z) (r : t) :
  console (closing now1 r) = console r /\
  view_calls (closing now1 r) =
    view_calls r ++
    hook_call (options r) end_ "end" [VStats (Stats.set_end now1 (stats r))].
Proof.
  destruct r as [m [[[i st e ts tp tf tk ti]|] dbg] tm en sts vc co];
    unfold closing, hook_call, failed, state, emit, view_call;
    cbn [with_ended with_sm with_stats sm options tom ended stats view_calls console
         view String.eqb Ascii.eqb Bool.eqb end_];
    destruct (State_eqb (StateMachine.state m) (Some "fail"));
    cbn [with_ended with_sm with_stats sm options tom ended stats view_calls console
         view String.eqb Ascii.eqb Bool.eqb end_];
    try destruct e; cbn [view_calls console]; rewrite ?app_nil_r; split; reflexivity.
Qed.

(** A run from 'pending' over a valid tree, step by step. *)
Lemma start_steps (now0 now1 : Z) (r0 : t) :
  state r0 = Some "pending" ->
  StateMachine._validMoves (sm r0) = validMoves ->
  validate (tom r0) = true ->
  exists rest : list Action,
    Permutation rest (flat_map all_actions (children (tom r0))) /\
    start pick now0 now1 r0 =
    Fulfils (closing now1 (fold_left act (own_actions (tom r0) ++ rest) (opening now0 r0))).
Proof.
  intros Hpending Hmoves Hvalid.
  destruct (opening_spec now0 r0 Hpending Hmoves) as (HrunB & HfailedB & HtomB & _).
  destruct (@runTomNode_acts pick (tom r0) Hvalid) as (ns & Hperm & Htraverse).
  exists ns; split; [exact Hperm|].
  unfold start.
  destruct (view_call_spec init "init" [] r0) as (Hsm1 & Hst1 & Hop1 & Htom1 & Hen1).
  rewrite (@setState_in_progress _ _)
    by (unfold state; cbn [with_stats sm]; rewrite Hsm1; assumption).
  fold (opening now0 r0).
  destruct (visit_spec (tom (opening now0 r0)) HrunB) as (-> & HrunV & _ & _ & (_ & HtomV & _) & _).
  rewrite HtomV, HtomB, Htraverse, visit_acts, <- fold_left_app.
  destruct (fold_act_spec (own_actions (tom r0) ++ ns) HrunB) as (HrunC & _).
  set (rC := fold_left act (own_actions (tom r0) ++ ns) (opening now0 r0)) in *.
  unfold closing.
  change (State_eqb (state (with_ended true rC)) (Some "fail")) with (failed rC).
  change (failed (with_ended true rC)) with (failed rC).
  destruct (failed rC) eqn:HfailedC; [reflexivity|].
  assert (HstateC : state rC = Some "in-progress").
  { destruct HrunC as [_ [Hs|Hs]]; [assumption|].
    unfold failed in HfailedC; rewrite Hs in HfailedC; discriminate. }
  rewrite (@setState_pass (with_ended true rC)) by (try exact HstateC; apply HrunC).
  reflexivity.
Qed.

Lemma opening_events (now0 : Z) (r0 : t) :
  emitted (opening now0 r0) = emitted r0 ++ start_events (testCount (tom r0)) /\
  stats (opening now0 r0) =
    Stats.set_total (testCount (tom r0)) (Stats.set_start now0 (stats r0)).
Proof.
  unfold opening.
  destruct (view_call_spec init "init" [] r0) as (Hsm1 & Hst1 & _ & Htom1 & _).
  match goal with
  | |- context [emit "start" ?a ?x] =>
      destruct (emit_spec "start" a x) as (Hsm & Hst & _)
  end.
  unfold emitted; rewrite Hsm, Hst.
  cbn [with_sm with_stats sm stats tom]; rewrite Hsm1, Hst1, Htom1.
  unfold StateMachine.committed, StateMachine.emit, start_events; simpl.
  rewrite <- !app_assoc; split; reflexivity.
Qed.

Lemma closing_events (now1 : Z) (r : t) :
  in_run r ->
  emitted (closing now1 r) =
    emitted r ++ (if failed r then [] else pass_events) ++
    [mkEvent (Some "end") [VStats (Stats.set_end now1 (stats r))]] /\
  stats (closing now1 r) = Stats.set_end now1 (stats r) /\
  state (closing now1 r) = (if failed r then Some "fail" else Some "pass").
Proof.
  intros [Hmoves Hstate]; unfold closing.
  change (failed (with_ended true r)) with (failed r).
  match goal with
  | |- context [emit "end" ?a ?x] => destruct (emit_spec "end" a x) as (Hsm & Hst & _)
  end.
  unfold emitted, state; rewrite Hsm, Hst.
  destruct (failed r) eqn:Hf;
    cbn [with_sm with_stats with_ended sm stats];
    unfold StateMachine.committed, StateMachine.emit, pass_events; simpl;
    rewrite <- ?app_assoc; repeat split.
  unfold failed in Hf.
  destruct (State_eqb_spec (state r) (Some "fail")) as [E|E]; [exact E | discriminate].
Qed.

(** A run of a freshly constructed runner, with what it writes and
    calls. *)
Lemma start_fresh_io (tom0 : Tom) (options0 : Options) (r0 : t) (now0 now1 : Z) :
  new_ tom0 options0 = inr r0 ->
  exists (rest : list Action) (r : t),
    Permutation rest (flat_map all_actions (children tom0)) /\
    start pick now0 now1 r0 = Fulfils r /\
    emitted r = run_trace (testCount tom0) (own_actions tom0 ++ rest) (stats r) /\
    state r = (if existsb catches (own_actions tom0 ++ rest)
               then Some "fail" else Some "pass") /\
    console r =
      (if debug options0 then flat_map action_lines (own_actions tom0 ++ rest) else []) /\
    view_calls r =
      hook_call options0 init "init" [] ++
      hook_call options0 start_ "start" [VNum (Z.of_nat (testCount tom0))] ++
      flat_map (signal_hook options0)
               (flat_map action_signals (own_actions tom0 ++ rest)) ++
      hook_call options0 end_ "end" [VStats (stats r)].
Proof.
  intros Hnew; apply new_fresh in Hnew as [Hvalid ->].
  destruct (@start_steps now0 now1 (fresh tom0 options0)) as (rest & Hperm & Hstart);
    try reflexivity; [exact Hvalid|].
  exists rest; eexists; split; [exact Hperm|]. split; [exact Hstart|].
  destruct (@opening_spec now0 (fresh tom0 options0) eq_refl eq_refl)
    as (HrunB & HfailedB & HtomB & HopB & HcoB & HvcB).
  destruct (opening_events now0 (fresh tom0 options0)) as (HevB & HstB).
  cbn [fresh tom options console view_calls] in *.
  set (trace := own_actions tom0 ++ rest) in *.
  destruct (fold_act_spec trace HrunB) as (HrunC & HfailedC & HstC & _ & HevC).
  destruct (fold_act_io trace HrunB) as (HcoC & HvcC & HopC).
  set (rC := fold_left act trace (opening now0 (fresh tom0 options0))) in *.
  destruct (closing_events now1 HrunC) as (HevD & HstD & HstateD).
  destruct (closing_io now1 rC) as (HcoD & HvcD).
  rewrite HfailedB, orb_false_l in HfailedC.
  split; [|split; [|split]].
  - rewrite HevD, HevC, HevB, HstD, HfailedC, HfailedB; unfold run_trace.
    rewrite <- !app_assoc; reflexivity.
  - rewrite HstateD, HfailedC; reflexivity.
  - rewrite HcoD, HcoC, HcoB, HopB; reflexivity.
  - rewrite HvcD, HvcC, HvcB, HopC, HopB, HstD, <- !app_assoc; reflexivity.
Qed.

Lemma filter_length_perm (A : Type) (p : A -> bool) (l l' : list A) :
  Permutation l l' -> List.length (filter p l) = List.length (filter p l').
Proof.
  induction 1 as [|x l l' _ IH|x y l|l l' l'' _ IH1 _ IH2]; simpl.
  - reflexivity.
  - destruct (p x); simpl; now rewrite IH.
  - destruct (p x), (p y); reflexivity.
  - congruence.
Qed.

(** As many handlers run in a tree as runs of the tree are rejected. *)
Lemma actions_rejected (n : Tom) :
  List.length (filter catches (all_actions n)) = List.length (filter rejects (iterate n)).
Proof.
  induction n as [name0 testFn0 run0 limit tests IH] using Tom_nested_ind.
  set (n := TomNode name0 testFn0 run0 limit tests).
  change (all_actions n) with (Call n :: run_actions Called n ++ flat_map all_actions tests).
  change (iterate n) with (n :: flat_map iterate tests).
  cbn [filter run_actions catches app].
  assert (Hkids : List.length (filter catches (flat_map all_actions tests)) =
                  List.length (filter rejects (flat_map iterate tests))).
  { clear n; induction IH as [|c tests Hc _ IHt]; simpl; [reflexivity|].
    rewrite !filter_app, !length_app; congruence. }
  rewrite filter_app, length_app, Hkids.
  destruct (rejects n) eqn:E; simpl; rewrite ?E; reflexivity.
Qed.

(** X22. A run of a freshly constructed runner writes on the console in
    debug mode only: then, each time the handler of a rejected run is
    called and in the order of these calls, the four lines around the
    reason, whether or not the rejection was the first, so four lines for
    every rejected run of the tree; without the option nothing is
    written. *)
Theorem start_debug_console
        (tom0 : Tom) (options0 : Options) (r0 : t) (now0 now1 : Z) :
  new_ tom0 options0 = inr r0 ->
  exists (rest : list Action) (r : t),
    Permutation rest (flat_map all_actions (children tom0)) /\
    start pick now0 now1 r0 = Fulfils r /\
    emitted r = run_trace (testCount tom0) (own_actions tom0 ++ rest) (stats r) /\
    console r =
      (if debug options0 then flat_map action_lines (own_actions tom0 ++ rest) else []) /\
    List.length (console r) =
      (if debug options0 then 4 * List.length (filter rejects (iterate tom0)) else 0).
Proof.
  intros Hnew.
  destruct (@start_fresh_io tom0 options0 r0 now0 now1 Hnew)
    as (rest & r & Hperm & Hstart & Hev & _ & Hco & _).
  exists rest, r; repeat (split; [assumption|]).
  rewrite Hco; destruct (debug options0); [|reflexivity].
  assert (Hall : Permutation (own_actions tom0 ++ rest) (all_actions tom0)).
  { unfold own_actions; rewrite (all_actions_eq tom0).
    cbn [app]; apply perm_skip, Permutation_app_head, Hperm. }
  rewrite <- actions_rejected, <- (filter_length_perm catches Hall).
  generalize (own_actions tom0 ++ rest); intros l; induction l as [|a l IH]; [reflexivity|].
  cbn [flat_map filter]; rewrite length_app, IH.
  destruct a as [n|n|n]; cbn [action_lines catches List.length]; try lia.
  unfold debug_lines, rejects; destruct (outcome (run_of n)); simpl; lia.
Qed.

(** X23. A run of a freshly constructed runner calls the hooks the view
    defines and no other: [init], then [start] with the number of tests,
    then for every signal of the tree, in the order in which the signals
    reach the runner and their events are emitted, the hook of the signal
    with its arguments, then [end] with the counters.  Without a view
    nothing is called. *)
Theorem start_calls_view_hooks
        (tom0 : Tom) (options0 : Options) (r0 : t) (now0 now1 : Z) :
  new_ tom0 options0 = inr r0 ->
  exists (rest : list Action) (r : t),
    Permutation rest (flat_map all_actions (children tom0)) /\
    start pick now0 now1 r0 = Fulfils r /\
    emitted r = run_trace (testCount tom0) (own_actions tom0 ++ rest) (stats r) /\
    view_calls r =
      hook_call options0 init "init" [] ++
      hook_call options0 start_ "start" [VNum (Z.of_nat (testCount tom0))] ++
      flat_map (signal_hook options0)
               (flat_map action_signals (own_actions tom0 ++ rest)) ++
      hook_call options0 end_ "end" [VStats (stats r)] /\
    (view options0 = None -> view_calls r = []).
Proof.
  intros Hnew.
  destruct (@start_fresh_io tom0 options0 r0 now0 now1 Hnew)
    as (rest & r & Hperm & Hstart & Hev & _ & _ & Hvc).
  exists rest, r; repeat (split; [assumption|]).
  intros Hnone; rewrite Hvc; unfold hook_call at 1 2 3; rewrite Hnone.
  cbn [app]; rewrite app_nil_r.
  assert (Hsilent : forall l, flat_map (signal_hook options0) l = []); [|apply Hsilent].
  induction l as [|[sig args] l IH]; [reflexivity|].
  cbn [flat_map]; rewrite IH, app_nil_r.
  unfold signal_hook, hook_call; rewrite Hnone; now destruct sig.
Qed.

Lemma named_signals (eventName : string) (sigs : list (Signal * list Value)) :
  (forall s, State_eqb (ev_name (event_of_signal s)) (Some eventName) = false) ->
  named eventName (map event_of_signal sigs) = [].
Proof.
  intros Hother; induction sigs as [|s sigs IH]; [reflexivity|].
  unfold named in *; simpl; now rewrite Hother.
Qed.

(** Among the events of the instants, those that are not republished
    signals are the two events of the move to 'fail', once. *)
Lemma named_trace_events (eventName : string) (failed0 : bool) (trace : list Action) :
  (forall s, State_eqb (ev_name (event_of_signal s)) (Some eventName) = false) ->
  named eventName (trace_events failed0 trace) =
  (if negb failed0 && existsb catches trace then named eventName fail_events else []).
Proof.
  intros Hother; revert failed0; induction trace as [|a trace IH]; intros failed0.
  - simpl; now rewrite andb_false_r.
  - cbn [trace_events existsb]; unfold named in *; rewrite filter_app, IH.
    unfold action_events; rewrite filter_app.
    fold (named eventName (map event_of_signal (action_signals a))).
    rewrite (@named_signals eventName _ Hother); cbn [app].
    destruct failed0, (catches a); cbn [negb andb orb app];
      rewrite ?app_nil_r; reflexivity.
Qed.

(** X24. In a run of a freshly constructed runner the state machine
    moves twice and no more: to 'in-progress', and then to 'fail' when a
    run at least was rejected and to 'pass' otherwise.  The event 'fail'
    is emitted once however many runs are rejected, and never together
    with 'pass'. *)
Theorem start_moves_twice
        (tom0 : Tom) (options0 : Options) (r0 : t) (now0 now1 : Z) :
  new_ tom0 options0 = inr r0 ->
  exists r : t,
    start pick now0 now1 r0 = Fulfils r /\
    named "state" (emitted r) =
      [ mkEvent (Some "state") [VStr "in-progress"; VStr "pending"];
        mkEvent (Some "state")
                [VStr (if existsb rejects (iterate tom0) then "fail" else "pass");
                 VStr "in-progress"] ] /\
    named "fail" (emitted r) =
      (if existsb rejects (iterate tom0) then [mkEvent (Some "fail") []] else []) /\
    named "pass" (emitted r) =
      (if existsb rejects (iterate tom0) then [] else [mkEvent (Some "pass") []]).
Proof.
  intros Hnew.
  destruct (@start_fresh pick tom0 options0 r0 now0 now1 Hnew)
    as (rest & r & Hperm & Hstart & _ & _ & _ & Hev & _).
  exists r; split; [exact Hstart|].
  assert (Hall : existsb catches (own_actions tom0 ++ rest) =
                 existsb rejects (iterate tom0)).
  { rewrite <- actions_catches; apply existsb_perm.
    unfold own_actions; rewrite (all_actions_eq tom0).
    cbn [app]; apply perm_skip, Permutation_app_head, Hperm. }
  rewrite Hev; unfold run_trace; generalize dependent (own_actions tom0 ++ rest).
  intros trace _ Hall; unfold named; rewrite !filter_app.
  fold (named "state" (trace_events false trace)).
  fold (named "fail" (trace_events false trace)).
  fold (named "pass" (trace_events false trace)).
  rewrite !named_trace_events by (intros [[] args]; reflexivity).
  rewrite Hall; cbn [negb andb].
  destruct (existsb rejects (iterate tom0)); repeat split; reflexivity.
Qed.

End RunStepsFacts.

(** The tree with two leaf tests, one of which throws, in debug mode. *)
Lemma start_debug_console_witness :
  exists (rest : list TestRunnerCore.Action) (r : TestRunnerCore.t),
    Permutation rest (flat_map TestRunnerCore.all_actions
                               (TestRunnerCore.children TestRunnerCore.two_leaf_tree)) /\
    TestRunnerCore.start Queue.oldest_first 100 200
      (TestRunnerCore.fresh TestRunnerCore.two_leaf_tree RunSteps.debug_options) =
      TestRunnerCore.Fulfils r /\
    TestRunnerCore.emitted r =
      TestRunnerCore.run_trace
        (TestRunnerCore.testCount TestRunnerCore.two_leaf_tree)
        (TestRunnerCore.own_actions TestRunnerCore.two_leaf_tree ++ rest)
        (TestRunnerCore.stats r) /\
    TestRunnerCore.console r =
      (if TestRunnerCore.debug RunSteps.debug_options
       then flat_map RunSteps.action_lines
                     (TestRunnerCore.own_actions TestRunnerCore.two_leaf_tree ++ rest)
       else []) /\
    List.length (TestRunnerCore.console r) =
      (if TestRunnerCore.debug RunSteps.debug_options
       then 4 * List.length (filter TestRunnerCore.rejects
                                    (TestRunnerCore.iterate TestRunnerCore.two_leaf_tree))
       else 0).
Proof.
  apply (@start_debug_console Queue.oldest_first TestRunnerCore.two_leaf_tree
           RunSteps.debug_options
           (TestRunnerCore.fresh TestRunnerCore.two_leaf_tree RunSteps.debug_options)
           100%Z 200%Z).
  reflexivity.
Defined.

Lemma start_calls_view_hooks_witness :
  exists (rest : list TestRunnerCore.Action) (r : TestRunnerCore.t),
    Permutation rest (flat_map TestRunnerCore.all_actions
                               (TestRunnerCore.children TestRunnerCore.two_leaf_tree)) /\
    TestRunnerCore.start Queue.oldest_first 100 200
      (TestRunnerCore.fresh TestRunnerCore.two_leaf_tree RunSteps.debug_options) =
      TestRunnerCore.Fulfils r /\
    TestRunnerCore.emitted r =
      TestRunnerCore.run_trace
        (TestRunnerCore.testCount TestRunnerCore.two_leaf_tree)
        (TestRunnerCore.own_actions TestRunnerCore.two_leaf_tree ++ rest)
        (TestRunnerCore.stats r) /\
    TestRunnerCore.view_calls r =
      RunSteps.hook_call RunSteps.debug_options TestRunnerCore.init "init" [] ++
      RunSteps.hook_call RunSteps.debug_options TestRunnerCore.start_ "start"
        [VNum (Z.of_nat (TestRunnerCore.testCount TestRunnerCore.two_leaf_tree))] ++
      flat_map (RunSteps.signal_hook RunSteps.debug_options)
               (flat_map TestRunnerCore.action_signals
                         (TestRunnerCore.own_actions TestRunnerCore.two_leaf_tree ++ rest)) ++
      RunSteps.hook_call RunSteps.debug_options TestRunnerCore.end_ "end"
        [VStats (TestRunnerCore.stats r)] /\
    (TestRunnerCore.view RunSteps.debug_options = None -> TestRunnerCore.view_calls r = []).
Proof.
  apply (@start_calls_view_hooks Queue.oldest_first TestRunnerCore.two_leaf_tree
           RunSteps.debug_options
           (TestRunnerCore.fresh TestRunnerCore.two_leaf_tree RunSteps.debug_options)
           100%Z 200%Z).
  reflexivity.
Defined.

Lemma start_moves_twice_witness :
  exists r : TestRunnerCore.t,
    TestRunnerCore.start Queue.oldest_first 100 200
      (TestRunnerCore.fresh TestRunnerCore.two_leaf_tree TestRunnerCore.no_options) =
      TestRunnerCore.Fulfils r /\
    RunSteps.named "state" (TestRunnerCore.emitted r) =
      [ mkEvent (Some "state") [VStr "in-progress"; VStr "pending"];
        mkEvent (Some "state")
                [VStr (if existsb TestRunnerCore.rejects
                                  (TestRunnerCore.iterate TestRunnerCore.two_leaf_tree)
                       then "fail" else "pass");
                 VStr "in-progress"] ] /\
    RunSteps.named "fail" (TestRunnerCore.emitted r) =
      (if existsb TestRunnerCore.rejects
                  (TestRunnerCore.iterate TestRunnerCore.two_leaf_tree)
       then [mkEvent (Some "fail") []] else []) /\
    RunSteps.named "pass" (TestRunnerCore.emitted r) =
      (if existsb TestRunnerCore.rejects
                  (TestRunnerCore.iterate TestRunnerCore.two_leaf_tree)
       then [] else [mkEvent (Some "pass") []]).
Proof.
  apply (@start_moves_twice Queue.oldest_first TestRunnerCore.two_leaf_tree
           TestRunnerCore.no_options
           (TestRunnerCore.fresh TestRunnerCore.two_leaf_tree TestRunnerCore.no_options)
           100%Z 200%Z).
  reflexivity.
Defined.

(** ** Changing the view of a runner *)
Section ViewSetterFacts.

Import Emitter ViewBase ViewSetter.

(** [detach] when the five records sit together among the listeners of
    the runner, after listeners that hold none of the callbacks. *)
Lemma detach_unregisters_among (runner : nat) (c : Callbacks) (rs : Runners)
      (pre post : list Listener) (k n : nat) (cs : list Call) :
  rs runner = Emitter.mk (pre ++ attached_records c k ++ post) n cs ->
  (forall l, In l pre -> holds c l = false) ->
  ViewBase.detach (ViewBase.mk c (Some runner)) rs =
  (ViewBase.mk c None, update runner (Emitter.mk (pre ++ post) n cs) rs).
Proof.
  intros Hrunner Hfresh; unfold ViewBase.detach; simpl; rewrite Hrunner.
  unfold attached_records; cbn [app].
  assert (Hp : forall p, In p (registrations c) ->
                         forall l, In l pre ->
                         String.eqb (eventName l) (fst p) && Nat.eqb (handler l) (snd p)
                         = false)
    by (intros p Hin l Hl; apply (@holds_false c l p); [now apply Hfresh | exact Hin]).
  rewrite (@removeEventListener_appended "start" (cb_start c) pre _ _ n cs
             (Hp ("start", cb_start c) (or_introl eq_refl)))
    by (simpl; apply Nat.eqb_refl).
  rewrite (@removeEventListener_appended "end" (cb_end c) pre _ _ n cs
             (Hp ("end", cb_end c) (or_intror (or_introl eq_refl))))
    by (simpl; apply Nat.eqb_refl).
  rewrite (@removeEventListener_appended "test-pass" (cb_testPass c) pre _ _ n cs
             (Hp ("test-pass", cb_testPass c)
                 (or_intror (or_intror (or_introl eq_refl)))))
    by (simpl; apply Nat.eqb_refl).
  rewrite (@removeEventListener_appended "test-fail" (cb_testFail c) pre _ _ n cs
             (Hp ("test-fail", cb_testFail c)
                 (or_intror (or_intror (or_intror (or_introl eq_refl))))))
    by (simpl; apply Nat.eqb_refl).
  rewrite (@removeEventListener_appended "test-skip" (cb_testSkip c) pre _ _ n cs
             (Hp ("test-skip", cb_testSkip c)
                 (or_intror (or_intror (or_intror (or_intror (or_introl eq_refl)))))))
    by (simpl; apply Nat.eqb_refl).
  reflexivity.
Qed.

(** X25. Changing the view of a runner whose view is attached to it,
    the five records of that view sitting together after listeners that
    hold none of its callbacks: the old view is detached and its records
    are gone, the other listeners staying in order.  When the new value
    is a view attached to nothing or to another runner, its five
    callbacks are registered last and it is attached to the runner; when
    the new value is falsy, the runner is left without view. *)
Theorem set_view_replaces_callbacks
        (runner v1 : nat) (w : World) (c1 : Callbacks)
        (pre post : list Listener) (k : nat) :
  _view w runner = Some v1 ->
  views w v1 = ViewBase.mk c1 (Some runner) ->
  _listeners (emitters w runner) = pre ++ attached_records c1 k ++ post ->
  (forall l, In l pre -> holds c1 l = false) ->
  (_view (set_view None runner w) runner = None /\
   _listeners (emitters (set_view None runner w) runner) = pre ++ post /\
   attachedTo (views (set_view None runner w) v1) = None) /\
  forall v2 : nat,
    v2 <> v1 ->
    attached_elsewhere (views w v2) runner = true ->
    _view (set_view (Some v2) runner w) runner = Some v2 /\
    _listeners (emitters (set_view (Some v2) runner w) runner) =
      pre ++ post ++
      attached_records (_callback (views w v2)) (next_lid (emitters w runner)) /\
    attachedTo (views (set_view (Some v2) runner w) v1) = None /\
    attachedTo (views (set_view (Some v2) runner w) v2) = Some runner.
Proof.
  intros Hcur Hv1 Hls Hfresh.
  assert (Hrunner : emitters w runner =
                    Emitter.mk (pre ++ attached_records c1 k ++ post)
                               (next_lid (emitters w runner)) (calls (emitters w runner)))
    by (rewrite <- Hls; now destruct (emitters w runner)).
  assert (Hdetach :
            detach_current runner w =
            set_views v1 (ViewBase.mk c1 None)
              (mkWorld (update runner
                          (Emitter.mk (pre ++ post) (next_lid (emitters w runner))
                                      (calls (emitters w runner)))
                          (emitters w))
                       (views w) (_view w))).
  { unfold detach_current, ViewSetter.detach; rewrite Hcur, Hv1.
    now rewrite (@detach_unregisters_among runner c1 (emitters w) pre post k _ _ Hrunner
                   Hfresh). }
  split.
  - unfold set_view; rewrite Hdetach; unfold set__view, set_views; simpl.
    rewrite !Nat.eqb_refl, update_same; repeat split.
  - intros v2 Hneq Helse.
    unfold set_view; rewrite Hdetach.
    unfold ViewSetter.attach, set__view, set_views;
      cbn [emitters views _view].
    apply Nat.eqb_neq in Hneq as Hne; rewrite Hne.
    rewrite (@attach_registers runner (views w v2) _ Helse).
    cbn [emitters views _view]; rewrite !Nat.eqb_refl, !update_same; cbn [_listeners next_lid].
    rewrite Nat.eqb_sym, Hne, <- app_assoc; repeat split.
Qed.

(** X26. One view given to two runners in turn, both without view
    before and holding none of its callbacks: the view is attached to
    the second runner and the first keeps its five callbacks.  When the
    first runner then gives up its view, the view is detached from the
    second runner, which loses the callbacks while its view is still
    that one, and the first runner keeps them. *)
Theorem shared_view_is_taken_from_the_other_runner
        (r1 r2 v : nat) (w : World) :
  r1 <> r2 ->
  _view w r1 = None -> _view w r2 = None ->
  attachedTo (views w v) = None ->
  (forall l, In l (_listeners (emitters w r1)) -> holds (_callback (views w v)) l = false) ->
  (forall l, In l (_listeners (emitters w r2)) -> holds (_callback (views w v)) l = false) ->
  let w2 := set_view (Some v) r2 (set_view (Some v) r1 w) in
  let w3 := set_view None r1 w2 in
  attachedTo (views w2 v) = Some r2 /\
  _listeners (emitters w2 r2) =
    _listeners (emitters w r2) ++
    attached_records (_callback (views w v)) (next_lid (emitters w r2)) /\
  _view w3 r1 = None /\
  _view w3 r2 = Some v /\
  attachedTo (views w3 v) = None /\
  _listeners (emitters w3 r2) = _listeners (emitters w r2) /\
  _listeners (emitters w3 r1) =
    _listeners (emitters w r1) ++
    attached_records (_callback (views w v)) (next_lid (emitters w r1)).
Proof.
  intros Hneq Hcur1 Hcur2 Hnone Hfresh1 Hfresh2; cbv zeta.
  assert (Hne12 : Nat.eqb r1 r2 = false) by now apply Nat.eqb_neq.
  assert (Hne21 : Nat.eqb r2 r1 = false) by (rewrite Nat.eqb_sym; exact Hne12).
  assert (Helse1 : attached_elsewhere (views w v) r1 = true)
    by (unfold attached_elsewhere; now rewrite Hnone).
  (* the first runner takes the view *)
  assert (Hw1 : set_view (Some v) r1 w =
                mkWorld
                  (update r1
                     (Emitter.mk (_listeners (emitters w r1) ++
                                  attached_records (_callback (views w v))
                                                   (next_lid (emitters w r1)))
                                 (5 + next_lid (emitters w r1)) (calls (emitters w r1)))
                     (emitters w))
                  (fun k => if Nat.eqb k v
                            then ViewBase.mk (_callback (views w v)) (Some r1)
                            else views w k)
                  (fun k => if Nat.eqb k r1 then Some v else _view w k)).
  { unfold set_view, detach_current; rewrite Hcur1.
    unfold ViewSetter.attach, set__view, set_views; cbn [emitters views _view].
    now rewrite (@attach_registers r1 (views w v) (emitters w) Helse1). }
  rewrite Hw1; clear Hw1.
  (* the second runner takes it *)
  set (c := _callback (views w v)) in *.
  set (e1 := Emitter.mk (_listeners (emitters w r1) ++
                         attached_records c (next_lid (emitters w r1)))
                        (5 + next_lid (emitters w r1)) (calls (emitters w r1))).
  set (w1 := mkWorld _ _ _).
  assert (Hw2 : set_view (Some v) r2 w1 =
                mkWorld
                  (update r2
                     (Emitter.mk (_listeners (emitters w r2) ++
                                  attached_records c (next_lid (emitters w r2)))
                                 (5 + next_lid (emitters w r2)) (calls (emitters w r2)))
                     (update r1 e1 (emitters w)))
                  (fun k => if Nat.eqb k v then ViewBase.mk c (Some r2)
                            else views w1 k)
                  (fun k => if Nat.eqb k r2 then Some v else _view w1 k)).
  { unfold set_view, detach_current, w1; cbn [_view]; rewrite Hne21, Hcur2.
    unfold ViewSetter.attach, set__view, set_views; cbn [emitters views _view].
    rewrite Nat.eqb_refl.
    rewrite (@attach_registers r2 (ViewBase.mk c (Some r1)) _)
      by (unfold attached_elsewhere; simpl; now rewrite Hne12).
    cbn [_callback]; rewrite update_other by congruence; reflexivity. }
  rewrite Hw2; clear Hw2.
  set (e2 := Emitter.mk (_listeners (emitters w r2) ++
                         attached_records c (next_lid (emitters w r2)))
                        (5 + next_lid (emitters w r2)) (calls (emitters w r2))).
  set (w2 := mkWorld _ _ _).
  (* the first runner gives it up *)
  assert (Hw3 : set_view None r1 w2 =
                mkWorld
                  (update r2
                     (Emitter.mk (_listeners (emitters w r2))
                                 (5 + next_lid (emitters w r2)) (calls (emitters w r2)))
                     (emitters w2))
                  (fun k => if Nat.eqb k v then ViewBase.mk c None else views w2 k)
                  (fun k => if Nat.eqb k r1 then None else _view w2 k)).
  { unfold set_view, detach_current.
    assert (Hcur : _view w2 r1 = Some v)
      by (unfold w2, w1; cbn [_view]; now rewrite Hne12, Nat.eqb_refl).
    rewrite Hcur; unfold ViewSetter.detach.
    assert (Hv : views w2 v = ViewBase.mk c (Some r2))
      by (unfold w2; cbn [views]; now rewrite Nat.eqb_refl).
    rewrite Hv.
    rewrite (@detach_unregisters_among r2 c (emitters w2) (_listeners (emitters w r2)) []
               (next_lid (emitters w r2)) (5 + next_lid (emitters w r2))
               (calls (emitters w r2)))
      by (rewrite ?app_nil_r; try assumption; unfold w2; cbn [emitters]; apply update_same).
    rewrite app_nil_r; reflexivity. }
  rewrite Hw3; clear Hw3.
  unfold w2, w1; cbn [emitters views _view].
  rewrite !Nat.eqb_refl, Hne21, !update_same.
  rewrite (@update_other r2 r1) by assumption.
  rewrite (@update_other r2 r1) by assumption.
  rewrite update_same; unfold e1, e2; cbn [attachedTo _listeners].
  repeat split.
Qed.

End ViewSetterFacts.

(** The runner 7, whose view is the view 0, is left without view. *)
Lemma set_view_replaces_callbacks_witness :
  Emitter._listeners
    (ViewSetter.emitters
       (ViewSetter.set_view None 7 (ViewSetter.set_view (Some 0) 7 ViewSetter.blank)) 7)
  = [] ++ [].
Proof.
  destruct (@set_view_replaces_callbacks 7 0
              (ViewSetter.set_view (Some 0) 7 ViewSetter.blank)
              (ViewBase.mkCallbacks 0 1 2 3 4) [] [] 0)
    as ((_ & Hgone & _) & _).
  - reflexivity.
  - reflexivity.
  - reflexivity.
  - intros l [].
  - exact Hgone.
Defined.

(** The view 0 given to the runner 7 and then to the runner 8. *)
Lemma shared_view_is_taken_from_the_other_runner_witness :
  Emitter._listeners
    (ViewSetter.emitters
       (ViewSetter.set_view None 7
          (ViewSetter.set_view (Some 0) 8
             (ViewSetter.set_view (Some 0) 7 ViewSetter.blank))) 8)
  = Emitter._listeners (ViewSetter.emitters ViewSetter.blank 8).
Proof.
  destruct (@shared_view_is_taken_from_the_other_runner 7 8 0 ViewSetter.blank)
    as (_ & _ & _ & _ & _ & Hlost & _).
  - discriminate.
  - reflexivity.
  - reflexivity.
  - reflexivity.
  - intros l [].
  - intros l [].
  - exact Hlost.
Defined.

(** ** The runner of the second bundle *)
Section WebRunnerFacts.

Import UmdRunner WebRunner.

Variable H : Emitter.Handlers.
Variable pick : Queue.Policy.

Lemma next_in (ids : list nat) (i : nat) : next pick ids = Some i -> In i ids.
Proof.
  unfold next; destruct (nth_error ids (pick ids)) as [x|] eqn:E.
  - intros [= <-]; eapply nth_error_In; eassumption.
  - destruct ids as [|x ids]; [discriminate|]; intros [= <-]; now left.
Qed.

Lemma next_none (ids : list nat) : next pick ids = None -> ids = [].
Proof.
  unfold next; destruct (nth_error ids (pick ids)); [discriminate|].
  destruct ids; [reflexivity | discriminate].
Qed.

Lemma find_flight (flights : list Flight) (i : nat) :
  In i (map fst flights) ->
  exists f, find (fun f => Nat.eqb (fst f) i) flights = Some f /\
            In f flights /\ fst f = i.
Proof.
  induction flights as [|g flights IH]; intros Hin; [destruct Hin|]; simpl.
  destruct (Nat.eqb_spec (fst g) i) as [E|E].
  - exists g; repeat split; [now left | exact E].
  - destruct Hin as [Hg|Hin]; [congruence|].
    destruct (IH Hin) as (f & Hf & Hfin & Hi); exists f; repeat split;
      [exact Hf | now right | exact Hi].
Qed.

Lemma find_no_flight (flights : list Flight) (i : nat) :
  ~ In i (map fst flights) -> find (fun f => Nat.eqb (fst f) i) flights = None.
Proof.
  intros Hni; apply find_nowhere; intros f Hf; apply Nat.eqb_neq; intros E.
  apply Hni; rewrite <- E; now apply in_map.
Qed.

Lemma take_flight (f : Flight) (flights : list Flight) :
  NoDup (map fst flights) -> In f flights ->
  Permutation (f :: filter (fun g => negb (Nat.eqb (fst g) (fst f))) flights) flights.
Proof.
  induction flights as [|g flights IH]; intros Hnd Hin; [destruct Hin|].
  simpl in Hnd; apply NoDup_cons_iff in Hnd as [Hg Hnd].
  destruct Hin as [->|Hin]; simpl.
  - rewrite Nat.eqb_refl; simpl; apply perm_skip.
    replace (filter _ flights) with flights; [reflexivity|].
    symmetry; apply forallb_filter_id, forallb_forall; intros x Hx.
    apply negb_true_iff, Nat.eqb_neq; intros E; apply Hg; rewrite <- E; now apply in_map.
  - destruct (Nat.eqb_spec (fst g) (fst f)) as [E|E]; simpl.
    + exfalso; apply Hg; rewrite E; now apply in_map.
    + etransitivity; [apply perm_swap|]; apply perm_skip; now apply IH.
Qed.

(** The handlers on the future of a run. *)
Lemma handlers_trace (i : nat) (e : Entry) (o : Outcome) (r : t) :
  exists em : Emitter.t,
    handlers H e o r =
    (mk em (emitted r ++ flight_events (i, (e, o))) (sequential r) (state r) (tests r)
        (_only r) (next_tid r) (exitCode r),
     if flight_fails (i, (e, o)) then Some (flight_reason (i, (e, o))) else None).
Proof.
  unfold handlers, flight_events, flight_fails, flight_reason; cbn [fst snd].
  destruct o as [v|err]; eexists; unfold emit;
    cbn [emitter emitted sequential state tests _only next_tid exitCode];
    rewrite <- app_assoc; reflexivity.
Qed.

Lemma next_nil : next pick [] = None.
Proof. unfold next; now destruct (pick []). Qed.

(** When nothing is left to happen. *)
Lemma settle_idle (n fuel : nat) (results : list Value) (rejected : option Value)
      (finished : option Settled) (r : t) :
  candidates n [] rejected finished = [] ->
  settle H pick n fuel results [] rejected finished r =
  match finished with
  | Some s => Some (r, s)
  | None => Some (on_fulfilled H r, FulfilsWith results)
  end.
Proof. intros Hids; destruct fuel; simpl; rewrite Hids, next_nil; reflexivity. Qed.

(** Once the future of [start ()] has settled, the runs still in flight
    settle one after the other. *)
Lemma settle_finished (n fuel : nat) (results : list Value) (rejected : option Value)
      (s : Settled) (flights : list Flight) (r : t) :
  NoDup (map fst flights) ->
  List.length flights <= fuel ->
  exists (order : list Flight) (em : Emitter.t),
    Permutation order flights /\
    settle H pick n fuel results flights rejected (Some s) r =
    Some (mk em (emitted r ++ flat_map flight_events order) (sequential r) (state r)
             (tests r) (_only r) (next_tid r) (exitCode r), s).
Proof.
  revert flights rejected r; induction fuel as [|fuel IH]; intros flights rejected r Hnd Hfuel.
  - destruct flights as [|f l]; [|simpl in Hfuel; lia].
    exists [], (emitter r); split; [constructor|].
    rewrite settle_idle by (unfold candidates; now destruct rejected).
    simpl; rewrite app_nil_r; now destruct r.
  - assert (Hids : candidates n flights rejected (Some s) = map fst flights)
      by (unfold candidates; destruct rejected; apply app_nil_r).
    simpl settle; rewrite Hids.
    destruct (next pick (map fst flights)) as [i|] eqn:Hnext.
    + apply next_in in Hnext.
      destruct (find_flight flights i Hnext) as ([j [e o]] & -> & Hin & Hi).
      simpl in Hi; subst j.
      destruct (handlers_trace i e o r) as (em1 & ->).
      pose proof (@take_flight (i, (e, o)) flights Hnd Hin) as Hperm; cbn [fst] in Hperm.
      destruct (IH (filter (fun g => negb (Nat.eqb (fst g) i)) flights)
                   (match rejected with
                    | Some reason0 => Some reason0
                    | None => if flight_fails (i, (e, o))
                              then Some (flight_reason (i, (e, o))) else None
                    end)
                   (mk em1 (emitted r ++ flight_events (i, (e, o))) (sequential r)
                       (state r) (tests r) (_only r) (next_tid r) (exitCode r)))
        as (order & em & Horder & ->).
      * now apply NoDup_map_fst_filter.
      * apply Permutation_length in Hperm; simpl in Hperm; lia.
      * exists ((i, (e, o)) :: order), em; split.
        -- etransitivity; [|exact Hperm]; now apply perm_skip.
        -- cbn [emitter emitted sequential state tests _only next_tid exitCode flat_map].
           now rewrite <- app_assoc.
    + apply next_none, map_eq_nil in Hnext; subst flights.
      exists [], (emitter r); split; [constructor|].
      simpl; rewrite app_nil_r; now destruct r.
Qed.

(** Once [Promise.all] has rejected: the handler of the rejection runs at
    some turn, and the runs in flight settle before it and after it. *)
Lemma settle_rejected (n fuel : nat) (results : list Value) (err : Value)
      (flights : list Flight) (r : t) :
  NoDup (map fst flights) ->
  ~ In n (map fst flights) ->
  S (List.length flights) <= fuel ->
  exists (mid after : list Flight) (em : Emitter.t),
    Permutation (mid ++ after) flights /\
    settle H pick n fuel results flights (Some err) None r =
    Some (mk em
             (emitted r ++ flat_map flight_events mid ++ [mkEvent (Some "end") []] ++
              flat_map flight_events after)
             (sequential r) 2 (tests r) (_only r) (next_tid r) (Some 1),
          RejectsWith err).
Proof.
  revert flights r; induction fuel as [|fuel IH]; intros flights r Hnd Hn Hfuel; [lia|].
  simpl settle.
  destruct (next pick (candidates n flights (Some err) None)) as [i|] eqn:Hnext.
  - apply next_in in Hnext; unfold candidates in Hnext.
    apply in_app_or in Hnext as [Hi|[<-|[]]].
    + destruct (find_flight flights i Hi) as ([j [e o]] & -> & Hin & Hj).
      simpl in Hj; subst j.
      destruct (handlers_trace i e o r) as (em1 & ->).
      pose proof (@take_flight (i, (e, o)) flights Hnd Hin) as Hperm; cbn [fst] in Hperm.
      destruct (IH (filter (fun g => negb (Nat.eqb (fst g) i)) flights)
                   (mk em1 (emitted r ++ flight_events (i, (e, o))) (sequential r)
                       (state r) (tests r) (_only r) (next_tid r) (exitCode r)))
        as (mid & after & em & Horder & ->).
      * now apply NoDup_map_fst_filter.
      * intros Hin'; apply Hn; apply in_map_iff in Hin' as (g & <- & Hg).
        apply filter_In in Hg as [Hg _]; now apply in_map.
      * apply Permutation_length in Hperm; simpl in Hperm; lia.
      * exists ((i, (e, o)) :: mid), after, em; split.
        -- etransitivity; [|exact Hperm]; simpl; now apply perm_skip.
        -- cbn [emitter emitted sequential state tests _only next_tid exitCode flat_map].
           now rewrite <- !app_assoc.
    + rewrite (find_no_flight flights n Hn).
      destruct (@settle_finished n fuel results (Some err) (RejectsWith err) flights
                  (on_rejected H r) Hnd) as (after & em & Hperm & ->); [lia|].
      exists [], after, em; split; [exact Hperm|].
      unfold on_rejected, emit, with_state, with_exitCode;
        cbn [emitter emitted sequential state tests _only next_tid exitCode flat_map app].
      now rewrite <- app_assoc.
  - apply next_none in Hnext; unfold candidates in Hnext.
    apply app_eq_nil in Hnext as [_ Hnext]; discriminate.
Qed.

(** From the return of [tests.map]: the runs settle; the first rejection
    makes [Promise.all] reject, and its handler runs at some later turn;
    when no run rejects, the handler of the fulfilment runs last. *)
Lemma settle_pending (n fuel : nat) (results : list Value)
      (flights : list Flight) (r : t) :
  NoDup (map fst flights) ->
  ~ In n (map fst flights) ->
  S (List.length flights) <= fuel ->
  exists (before after : list Flight) (em : Emitter.t) (s : Settled) (code : option nat),
    Permutation (before ++ after) flights /\
    settle H pick n fuel results flights None None r =
    Some (mk em
             (emitted r ++ flat_map flight_events before ++ [mkEvent (Some "end") []] ++
              flat_map flight_events after)
             (sequential r) 2 (tests r) (_only r) (next_tid r) code,
          s) /\
    (existsb flight_fails flights = false ->
     after = [] /\ s = FulfilsWith results /\ code = exitCode r) /\
    (existsb flight_fails flights = true ->
     exists (passed : list Flight) (f : Flight) (others : list Flight),
       before = passed ++ f :: others /\
       existsb flight_fails passed = false /\
       flight_fails f = true /\
       s = RejectsWith (flight_reason f) /\
       code = Some 1).
Proof.
  revert flights r; induction fuel as [|fuel IH]; intros flights r Hnd Hn Hfuel; [lia|].
  simpl settle.
  assert (Hids : candidates n flights None None = map fst flights)
    by (unfold candidates; apply app_nil_r).
  rewrite Hids.
  destruct (next pick (map fst flights)) as [i|] eqn:Hnext.
  - apply next_in in Hnext.
    destruct (find_flight flights i Hnext) as ([j [e o]] & -> & Hin & Hj).
    simpl in Hj; subst j.
    destruct (handlers_trace i e o r) as (em1 & ->).
    pose proof (@take_flight (i, (e, o)) flights Hnd Hin) as Hperm; cbn [fst] in Hperm.
    set (rest := filter (fun g => negb (Nat.eqb (fst g) i)) flights) in *.
    assert (Hnd' : NoDup (map fst rest)) by now apply NoDup_map_fst_filter.
    assert (Hn' : ~ In n (map fst rest)).
    { intros Hin'; apply Hn; apply in_map_iff in Hin' as (g & <- & Hg).
      apply filter_In in Hg as [Hg _]; now apply in_map. }
    assert (Hlen : List.length flights = S (List.length rest))
      by (rewrite <- (Permutation_length Hperm); reflexivity).
    assert (Hfuel' : S (List.length rest) <= fuel) by lia.
    assert (Hfails : existsb flight_fails flights =
                     flight_fails (i, (e, o)) || existsb flight_fails rest)
      by (rewrite <- (existsb_perm flight_fails Hperm); reflexivity).
    destruct (flight_fails (i, (e, o))) eqn:Hf.
    + destruct (@settle_rejected n fuel results (flight_reason (i, (e, o))) rest
                  (mk em1 (emitted r ++ flight_events (i, (e, o))) (sequential r)
                      (state r) (tests r) (_only r) (next_tid r) (exitCode r))
                  Hnd' Hn' Hfuel') as (mid & after & em & Horder & ->).
      exists ((i, (e, o)) :: mid), after, em,
             (RejectsWith (flight_reason (i, (e, o)))), (Some 1).
      split; [etransitivity; [|exact Hperm]; simpl; now apply perm_skip|].
      split.
      { cbn [emitter emitted sequential state tests _only next_tid exitCode flat_map].
        now rewrite <- !app_assoc. }
      split; [rewrite Hfails; discriminate|].
      intros _; exists [], (i, (e, o)), mid; repeat split; assumption.
    + destruct (IH rest
                   (mk em1 (emitted r ++ flight_events (i, (e, o))) (sequential r)
                       (state r) (tests r) (_only r) (next_tid r) (exitCode r))
                   Hnd' Hn' Hfuel')
        as (before & after & em & s & code & Horder & -> & Hpass & Hfail).
      exists ((i, (e, o)) :: before), after, em, s, code.
      split; [etransitivity; [|exact Hperm]; simpl; now apply perm_skip|].
      split.
      { cbn [emitter emitted sequential state tests _only next_tid exitCode flat_map].
        now rewrite <- !app_assoc. }
      rewrite Hfails; cbn [orb]; split; [exact Hpass|].
      intros Hsome; destruct (Hfail Hsome) as (passed & f & others & -> & Hp & Hff & Hs & Hc).
      exists ((i, (e, o)) :: passed), f, others; repeat split; try assumption.
      simpl; now rewrite Hf.
  - apply next_none, map_eq_nil in Hnext; subst flights.
    exists [], [], (emitter (on_fulfilled H r)), (FulfilsWith results), (exitCode r).
    split; [constructor|]. split; [|split; [now intros _ | discriminate]].
    unfold on_fulfilled, emit, with_state;
      cbn [emitter emitted sequential state tests _only next_tid exitCode flat_map app].
    reflexivity.
Qed.

Lemma flights_from_slots (todo : list Entry) (i : nat) :
  flights_from i (map slot_of todo) =
  Some (map flight_of
            (filter (fun ie => negb (test_skip (snd ie)))
                    (combine (seq i (List.length todo)) todo))).
Proof.
  revert i; induction todo as [|e todo IH]; intros i; [reflexivity|].
  cbn [map flights_from List.length seq combine filter snd].
  rewrite IH; unfold slot_of at 1; destruct (test_skip e) eqn:Hskip; cbn [negb].
  - reflexivity.
  - destruct (run_settles (unit_ e)) as (tm & o & Hrun).
    unfold flight_of at 2, outcome_of; cbn [fst snd map]; rewrite Hrun; reflexivity.
Qed.

Lemma flight_of_entry (ie : nat * Entry) :
  test_skip (snd ie) = false ->
  flight_events (flight_of ie) = settle_events (snd ie) /\
  flight_fails (flight_of ie) = fails (snd ie) /\
  flight_reason (flight_of ie) = reason (snd ie).
Proof.
  intros Hskip; unfold flight_events, flight_fails, flight_reason, flight_of,
                       settle_events, fails, reason; rewrite Hskip.
  cbn [fst snd negb andb]; rewrite arg_ran.
  destruct (run_settles (unit_ (snd ie))) as (tm & o & Hrun).
  unfold outcome_of; rewrite Hrun; destruct o; repeat split.
Qed.

Lemma flights_of_entries (ps : list (nat * Entry)) :
  (forall ie, In ie ps -> test_skip (snd ie) = false) ->
  flat_map flight_events (map flight_of ps) = flat_map settle_events (map snd ps) /\
  existsb flight_fails (map flight_of ps) = existsb fails (map snd ps).
Proof.
  induction ps as [|ie ps IH]; intros Hrun; [split; reflexivity|].
  destruct IH as (IHe & IHf); [intros x Hx; apply Hrun; now right|].
  destruct (flight_of_entry ie (Hrun ie (or_introl eq_refl))) as (He & Hf & _).
  simpl; now rewrite IHe, IHf, He, Hf.
Qed.

(** X27. A first [start ()] of the runner of the second bundle,
    whichever run settles first at each turn: after 'start' and the
    events of [tests.map], the runs settle.  When none rejects, 'end' is
    emitted last and the future fulfils with the results.  When one
    rejects, the future rejects with the reason of the first rejection
    and the exit code is 1; 'end' is emitted once, after the events of
    that rejection and without waiting for the runs still in flight,
    whose events come after it.  In both cases the state is 2 and a
    second [start ()] returns nothing. *)
Theorem web_start_ends_on_first_rejection (r : t) :
  state r = 0 ->
  exists (r' : t) (s : Settled) (before after : list Entry),
    WebRunner.start H pick r = Some (r', Some s) /\
    Permutation (before ++ after) (filter (fun e => negb (test_skip e)) (marked r)) /\
    emitted r' =
      emitted r ++
      [mkEvent (Some "start") [VNum (Z.of_nat (List.length (tests r)))]] ++
      map launch_event (marked r) ++
      flat_map settle_events before ++
      [mkEvent (Some "end") []] ++
      flat_map settle_events after /\
    state r' = 2 /\
    (existsb fails (marked r) = false ->
     after = [] /\ s = FulfilsWith (map result (marked r)) /\ exitCode r' = exitCode r) /\
    (existsb fails (marked r) = true ->
     exists (passed : list Entry) (e : Entry) (others : list Entry),
       before = passed ++ e :: others /\
       existsb fails passed = false /\
       fails e = true /\
       s = RejectsWith (reason e) /\
       exitCode r' = Some 1) /\
    WebRunner.start H pick r' = Some (r', None).
Proof.
  intros Hstate; unfold WebRunner.start; rewrite Hstate; cbn [Nat.eqb negb].
  rewrite (mark_only_fields (with_state 1 r)), marked_with_state.
  cbn [emit with_state emitter emitted sequential state tests _only next_tid exitCode].
  rewrite marked_length.
  match goal with
  | |- context [launch H ?l ?x] => destruct (@launch_trace H l x) as (em1 & ->)
  end.
  rewrite flights_from_slots.
  set (pairs := filter (fun ie : nat * Entry => negb (test_skip (snd ie)))
                       (combine (seq 0 (List.length (marked r))) (marked r))).
  assert (Hskips : forall ie, In ie pairs -> test_skip (snd ie) = false).
  { intros ie Hie; apply filter_In in Hie as [_ Hie]; now apply negb_true_iff in Hie. }
  assert (Hsnd : map snd pairs = filter (fun e => negb (test_skip e)) (marked r))
    by (apply (filter_combine_snd (fun e => negb (test_skip e)))).
  assert (Hfst : map fst (map flight_of pairs) = map fst pairs)
    by (rewrite map_map; reflexivity).
  assert (Hids : incl (map fst pairs) (seq 0 (List.length (marked r)))).
  { intros i Hi; apply in_map_iff in Hi as (ie & <- & Hie).
    apply filter_In in Hie as [Hie _].
    rewrite <- (combine_seq_fst (marked r) 0); now apply in_map. }
  match goal with
  | |- context [settle H pick ?n ?fuel ?res ?fl None None ?x] =>
      destruct (@settle_pending n fuel res fl x)
        as (before & after & em & s & code & Hperm & -> & Hpass & Hfail)
  end.
  { rewrite Hfst; apply NoDup_map_fst_filter; rewrite combine_seq_fst; apply seq_NoDup. }
  { rewrite Hfst, length_map; intros Hin; apply Hids, in_seq in Hin; lia. }
  { rewrite !length_map; apply le_n_S.
    etransitivity; [apply filter_length_le|].
    rewrite length_combine, length_seq; lia. }
  apply Permutation_map_inv in Hperm as (pairs' & Hsplit & Hpairs).
  symmetry in Hsplit; apply map_eq_app in Hsplit as (pb & pa & -> & <- & <-).
  assert (Hskips' : forall ie, In ie (pb ++ pa) -> test_skip (snd ie) = false)
    by (intros ie Hie; apply Hskips; now apply (Permutation_in _ (Permutation_sym Hpairs))).
  destruct (@flights_of_entries pb) as (Hevb & Hfb);
    [intros ie Hie; apply Hskips', in_or_app; now left|].
  destruct (@flights_of_entries pa) as (Heva & _);
    [intros ie Hie; apply Hskips', in_or_app; now right|].
  destruct (@flights_of_entries pairs Hskips) as (_ & Hfall).
  rewrite Hsnd, existsb_fails_run in Hfall.
  eexists; exists s, (map snd pb), (map snd pa).
  split; [reflexivity|].
  split.
  { rewrite <- map_app, <- Hsnd; apply Permutation_map, Permutation_sym, Hpairs. }
  unfold emit in *;
    cbn [emitter emitted sequential state tests _only next_tid exitCode] in *.
  rewrite Hevb, Heva, <- !app_assoc.
  split; [reflexivity|]. split; [reflexivity|].
  rewrite Hfall in Hpass, Hfail.
  split; [|split].
  - intros Hnone; destruct (Hpass Hnone) as (Ha & Hs & Hc).
    apply map_eq_nil in Ha; subst pa; split; [reflexivity|].
    split; [|exact Hc].
    rewrite Hs, map_map; f_equal; apply map_ext; intros e; apply result_of_slot.
  - intros Hsome; destruct (Hfail Hsome) as (passed & f & others & Hb & Hp & Hf & Hs & Hc).
    apply map_eq_app in Hb as (pp & po & -> & <- & Hrest).
    apply map_eq_cons in Hrest as (ie & po' & -> & <- & <-).
    assert (Hie : test_skip (snd ie) = false)
      by (apply Hskips', in_or_app; left; apply in_or_app; right; now left).
    destruct (flight_of_entry ie Hie) as (_ & Hff & Hfr).
    destruct (@flights_of_entries pp) as (_ & Hfp);
      [intros x Hx; apply Hskips', in_or_app; left; apply in_or_app; now left|].
    exists (map snd pp), (snd ie), (map snd po').
    rewrite map_app; cbn [map]; split; [reflexivity|].
    split; [now rewrite <- Hfp|]. split; [now rewrite <- Hff|].
    split; [now rewrite Hs, Hfr | exact Hc].
  - reflexivity.
Qed.

End WebRunnerFacts.

(** The runner with a test that returns 1, a test that throws and a
    skipped test, started as the runner of the second bundle. *)
Lemma web_start_ends_on_first_rejection_witness :
  exists (r' : UmdRunner.t) (s : UmdRunner.Settled) (before after : list UmdRunner.Entry),
    WebRunner.start (fun _ => []) Queue.oldest_first (UmdRunner.three_tests false) =
      Some (r', Some s) /\
    Permutation (before ++ after)
      (filter (fun e => negb (UmdRunner.test_skip e))
              (UmdRunner.marked (UmdRunner.three_tests false))) /\
    UmdRunner.emitted r' =
      UmdRunner.emitted (UmdRunner.three_tests false) ++
      [mkEvent (Some "start")
               [VNum (Z.of_nat (List.length (UmdRunner.tests (UmdRunner.three_tests false))))]] ++
      map UmdRunner.launch_event (UmdRunner.marked (UmdRunner.three_tests false)) ++
      flat_map UmdRunner.settle_events before ++
      [mkEvent (Some "end") []] ++
      flat_map UmdRunner.settle_events after /\
    UmdRunner.state r' = 2 /\
    (existsb UmdRunner.fails (UmdRunner.marked (UmdRunner.three_tests false)) = false ->
     after = [] /\
     s = UmdRunner.FulfilsWith
           (map UmdRunner.result (UmdRunner.marked (UmdRunner.three_tests false))) /\
     UmdRunner.exitCode r' = UmdRunner.exitCode (UmdRunner.three_tests false)) /\
    (existsb UmdRunner.fails (UmdRunner.marked (UmdRunner.three_tests false)) = true ->
     exists (passed : list UmdRunner.Entry) (e : UmdRunner.Entry)
            (others : list UmdRunner.Entry),
       before = passed ++ e :: others /\
       existsb UmdRunner.fails passed = false /\
       UmdRunner.fails e = true /\
       s = UmdRunner.RejectsWith (WebRunner.reason e) /\
       UmdRunner.exitCode r' = Some 1) /\
    WebRunner.start (fun _ => []) Queue.oldest_first r' = Some (r', None).
Proof.
  apply (@web_start_ends_on_first_rejection (fun _ => []) Queue.oldest_first
           (UmdRunner.three_tests false)).
  reflexivity.
Defined.

(** ** A destination without sources *)
Section UnspecifiedSources.

Import StateMachine.

(** X28. A call [setState(newState, ...)] with [newState] other than the
    current state, when the moves that lead to [newState] exist and all
    declare an empty array of sources: no move can be made, the machine
    is left as it was, and the error says that the move is possible
    "from <unspecified>", the joined list of the sources being empty. *)
Theorem setState_unspecified_sources (newState : State) (args : list Value) (m : t) :
  newState <> state m ->
  (exists move, In move (_validMoves m) /\ has newState (to move) = true) ->
  (forall move, In move (_validMoves m) -> has newState (to move) = true ->
                from move = []) ->
  setState newState args m =
  Throw (mkError "INVALID_MOVE"
                 ("Can only move to '" ++ show_state newState ++
                  "' from <unspecified> (not '" ++ show_state (state m) ++ "')")%string)
        m.
Proof.
  intros Hneq Hsome Hempty.
  rewrite (@setState_no_permit newState args m Hneq).
  - unfold refusal.
    replace (existsb (fun move => has newState (to move)) (_validMoves m)) with true
      by (symmetry; apply existsb_exists; exact Hsome).
    unfold invalid_move_error.
    replace (legal_sources newState (_validMoves m)) with (@nil string); [reflexivity|].
    unfold legal_sources; symmetry; revert Hempty; clear.
    induction (_validMoves m) as [|move moves IH]; intros Hempty; [reflexivity|].
    simpl; destruct (has newState (to move)) eqn:Hto.
    + simpl; rewrite (Hempty move (or_introl eq_refl) Hto); simpl.
      apply IH; intros mv Hmv; apply Hempty; now right.
    + apply IH; intros mv Hmv; apply Hempty; now right.
  - intros move Hin; unfold permits.
    destruct (has newState (to move)) eqn:Hto; [|apply andb_false_r].
    rewrite (Hempty move Hin Hto); reflexivity.
Qed.

End UnspecifiedSources.

(** A machine in 'a' whose one move leads to 'b' from nowhere. *)
Lemma setState_unspecified_sources_witness :
  StateMachine.setState (Some "b") []
    (StateMachine.new_ (Some "a") [StateMachine.mkMove [] [Some "b"]]) =
  Throw (mkError "INVALID_MOVE" "Can only move to 'b' from <unspecified> (not 'a')")
        (StateMachine.new_ (Some "a") [StateMachine.mkMove [] [Some "b"]]).
Proof.
  apply (@setState_unspecified_sources (Some "b") []
           (StateMachine.new_ (Some "a") [StateMachine.mkMove [] [Some "b"]])).
  - discriminate.
  - eexists; split; [now left | reflexivity].
  - intros move [<-|[]] _; reflexivity.
Defined.

(** ** A handler that registers a listener for the event being emitted *)
Section SelfRegistration.

Import Emitter.

Variable H : Handlers.
Variables (eventName0 : string) (args : list Value).
Variables (h : nat) (o : bool).

Hypothesis Hregisters : H h = [CallOn eventName0 h o].

(** As long as a listener for the event with the handler [h] lies at the
    current index or after it, the iteration does not reach the end of
    the array: the call of that listener puts another one after it. *)
Lemma for_of_unbounded (fuel i : nat) (toRemove : list Listener) (e : t) :
  (forall l, In l (_listeners e) -> matches eventName0 l = true ->
             handler l = h \/ H (handler l) = []) ->
  (exists (j : nat) (l : Listener),
      i <= j /\ nth_error (_listeners e) j = Some l /\
      matches eventName0 l = true /\ handler l = h) ->
  for_of H fuel eventName0 args i toRemove e = None.
Proof.
  revert i toRemove e; induction fuel as [|fuel IH];
    intros i toRemove e Hall (j & l & Hij & Hj & Hm & Hh).
  - simpl; destruct (nth_error (_listeners e) i) eqn:Hi; [reflexivity|].
    apply nth_error_None in Hi.
    assert (j < List.length (_listeners e)) by (apply nth_error_Some; congruence); lia.
  - simpl; destruct (nth_error (_listeners e) i) as [x|] eqn:Hi.
    2:{ apply nth_error_None in Hi.
        assert (j < List.length (_listeners e)) by (apply nth_error_Some; congruence); lia. }
    assert (Hlt : i < List.length (_listeners e)) by (apply nth_error_Some; congruence).
    destruct (matches eventName0 x) eqn:Hmx.
    + destruct (Nat.eq_dec (handler x) h) as [Hx|Hx].
      * (* the listener registers another one *)
        apply IH.
        -- unfold invoke; rewrite Hx, Hregisters; simpl.
           intros y Hy Hmy; apply in_app_or in Hy as [Hy|[<-|[]]];
             [now apply Hall | now left].
        -- unfold invoke; rewrite Hx, Hregisters; simpl.
           exists (List.length (_listeners e)),
                  (mkListener (next_lid e) eventName0 h o).
           split; [lia|]. split; [apply nth_error_middle|].
           split; [|reflexivity].
           unfold matches; simpl; rewrite String.eqb_refl; apply orb_true_r.
      * destruct (Hall x (nth_error_In _ _ Hi) Hmx) as [Hx'|Hinert]; [congruence|].
        apply IH.
        -- unfold invoke; rewrite Hinert; simpl; exact Hall.
        -- unfold invoke; rewrite Hinert; simpl.
           exists j, l; repeat split; try assumption.
           destruct (Nat.eq_dec i j) as [<-|]; [|lia].
           rewrite Hi in Hj; injection Hj as <-; congruence.
    + apply IH; [exact Hall|].
      exists j, l; repeat split; try assumption.
      destruct (Nat.eq_dec i j) as [<-|]; [|lia].
      rewrite Hi in Hj; injection Hj as <-; congruence.
Qed.

(** X29. An emission that calls a handler which registers itself again
    for the event being emitted never returns: the loop over the
    listeners reads the array as it grows, and every call of the handler
    puts one more listener at its end.  The other listeners for the event
    are taken to leave the array alone. *)
Theorem emit_never_returns_from_self_registration (e : t) :
  (forall l, In l (_listeners e) -> matches eventName0 l = true ->
             handler l = h \/ H (handler l) = []) ->
  (exists l, In l (_listeners e) /\ matches eventName0 l = true /\ handler l = h) ->
  forall fuel : nat, emit H fuel eventName0 args e = None.
Proof.
  intros Hall (l & Hin & Hm & Hh) fuel; unfold emit.
  rewrite for_of_unbounded; [reflexivity | exact Hall |].
  apply In_nth_error in Hin as (j & Hj).
  exists j, l; repeat split; try assumption; lia.
Qed.

End SelfRegistration.

(** A listener on "tick" whose handler registers itself on "tick". *)
Lemma emit_never_returns_from_self_registration_witness :
  Emitter.emit (fun k => if Nat.eqb k 7 then [Emitter.CallOn "tick" 7 false] else [])
               1000 "tick" [] (Emitter.on "tick" 7 false Emitter.new_)
  = None.
Proof.
  apply (@emit_never_returns_from_self_registration
           (fun k => if Nat.eqb k 7 then [Emitter.CallOn "tick" 7 false] else [])
           "tick" [] 7 false eq_refl (Emitter.on "tick" 7 false Emitter.new_)).
  - intros l [<-|[]] _; now left.
  - eexists; split; [now left|]; split; reflexivity.
Defined.

(** ** Listeners registered during an emission of the UMD build *)
Section LegacyRegistration.

Import Emitter Expected Registering.

Variable H : Handlers.
Variables (eventName0 : string) (args : list Value).

Lemma exec_registrations (cs : list Cmd) (ls : list Listener) (n : nat) (calls0 : list Call) :
  forallb registration cs = true ->
  fold_left (fun e c => exec c e) cs (mk ls n calls0) =
  mk (ls ++ records n cs) (List.length cs + n) calls0.
Proof.
  revert ls n; induction cs as [|c cs IH]; intros ls n Hreg; simpl.
  - now rewrite app_nil_r.
  - simpl in Hreg; apply andb_true_iff in Hreg as [Hc Hcs].
    destruct c as [name0 h0 o0|]; [|discriminate]; simpl.
    unfold on; simpl; rewrite IH by assumption.
    rewrite <- app_assoc, Nat.add_succ_r; reflexivity.
Qed.

Lemma records_app (cs1 cs2 : list Cmd) (n : nat) :
  forallb registration cs1 = true ->
  records n (cs1 ++ cs2) = records n cs1 ++ records (List.length cs1 + n) cs2.
Proof.
  revert n; induction cs1 as [|c cs1 IH]; intros n Hreg; [reflexivity|].
  simpl in Hreg; apply andb_true_iff in Hreg as [Hc Hcs].
  destruct c as [name0 h0 o0|]; [|discriminate]; simpl.
  rewrite IH by assumption; now rewrite Nat.add_succ_r.
Qed.

Lemma records_lids (cs : list Cmd) (n : nat) (l : Listener) :
  In l (records n cs) -> n <= lid l.
Proof.
  revert n; induction cs as [|[name0 h0 o0|name0 h0] cs IH]; intros n Hin; simpl in Hin.
  - destruct Hin.
  - destruct Hin as [<-|Hin]; [simpl; lia|]. apply IH in Hin; lia.
  - now apply IH.
Qed.

Lemma records_distinct (cs : list Cmd) (n : nat) : NoDup (map lid (records n cs)).
Proof.
  revert n; induction cs as [|[name0 h0 o0|name0 h0] cs IH]; intros n; simpl.
  - constructor.
  - constructor; [|apply IH].
    intros Hin; apply in_map_iff in Hin as (l & E & Hl).
    apply records_lids in Hl; lia.
  - apply IH.
Qed.

(** [forEach] when the handlers it calls only register listeners: the
    listeners that were there are visited, and the new ones gather at
    the end of the array. *)
Lemma forEach_registering (post pre extra : list Listener) (toRemove : list Listener)
      (n : nat) (cs : list Call) :
  (forall l, In l post -> legacy_matches eventName0 l = true ->
             forallb registration (H (handler l)) = true) ->
  LegacyEmitter.forEach H eventName0 args (List.length post) (List.length pre) toRemove
                        (mk (pre ++ post ++ extra) n cs) =
  (mk (pre ++ post ++ extra ++ records n (commands H eventName0 post))
      (List.length (commands H eventName0 post) + n)
      (cs ++ map (legacy_call eventName0 args) (filter (legacy_matches eventName0) post)),
   toRemove ++ filter once post).
Proof.
  revert pre extra toRemove n cs; induction post as [|x post IH];
    intros pre extra toRemove n cs Hreg.
  - simpl; rewrite !app_nil_r; reflexivity.
  - simpl LegacyEmitter.forEach; simpl _listeners.
    change (pre ++ x :: post ++ extra) with (pre ++ x :: (post ++ extra)).
    rewrite nth_error_middle.
    assert (Hlen : S (List.length pre) = List.length (pre ++ [x]))
      by (rewrite length_app; simpl; lia).
    assert (Hrest : forall l, In l post -> legacy_matches eventName0 l = true ->
                              forallb registration (H (handler l)) = true)
      by (intros l Hl; apply Hreg; now right).
    pose proof (Hreg x (or_introl eq_refl)) as Hx.
    assert (Hstep :
              (if String.eqb (eventName x) eventName0
               then invoke H x args (mk (pre ++ x :: post ++ extra) n cs)
               else if String.eqb (eventName x) ALL
                    then invoke H x (VStr eventName0 :: args)
                                (mk (pre ++ x :: post ++ extra) n cs)
                    else mk (pre ++ x :: post ++ extra) n cs) =
              mk ((pre ++ [x]) ++ post ++
                  (extra ++ records n (if legacy_matches eventName0 x
                                       then H (handler x) else [])))
                 (List.length (if legacy_matches eventName0 x then H (handler x) else [])
                  + n)
                 (cs ++ if legacy_matches eventName0 x
                        then [legacy_call eventName0 args x] else [])).
    { unfold legacy_matches, legacy_call in *.
      destruct (String.eqb (eventName x) eventName0) eqn:Hname; cbn [orb] in *.
      - unfold invoke; cbn [_listeners next_lid calls].
        rewrite exec_registrations by (now apply Hx).
        rewrite <- !app_assoc; cbn [app]; rewrite <- ?app_assoc; reflexivity.
      - destruct (String.eqb (eventName x) ALL) eqn:Hall; cbn [orb] in *.
        + unfold invoke; cbn [_listeners next_lid calls].
          rewrite exec_registrations by (now apply Hx).
          rewrite <- !app_assoc; cbn [app]; rewrite <- ?app_assoc; reflexivity.
        + cbn [records List.length]; rewrite !app_nil_r, <- !app_assoc; reflexivity. }
    rewrite Hstep, Hlen, IH by assumption.
    unfold commands; cbn [filter flat_map].
    destruct (legacy_matches eventName0 x) eqn:Hm; cbn [flat_map map app List.length].
    + rewrite records_app by (now apply Hx).
      rewrite length_app, <- !app_assoc; cbn [app].
      replace (List.length (flat_map (fun l => H (handler l))
                              (filter (legacy_matches eventName0) post)) +
               (List.length (H (handler x)) + n))
        with (List.length (H (handler x)) +
              List.length (flat_map (fun l => H (handler l))
                             (filter (legacy_matches eventName0) post)) + n) by lia.
      destruct (once x); cbn [app]; rewrite <- ?app_assoc; reflexivity.
    + rewrite !app_nil_r, <- !app_assoc; cbn [app records List.length Nat.add].
      destruct (once x); cbn [app]; rewrite <- ?app_assoc; reflexivity.
Qed.

(** X30. An emission of the emitter of the UMD build (no parent) whose
    handlers only register listeners, on an emitter whose records are
    distinct: the listeners that were registered before the emission are
    called, each once and in order, and none of those registered during
    it, although they may be for the event emitted; these are all in the
    array afterwards, after the listeners that stay, and those registered
    with [once] among them are not removed. *)
Theorem legacy_emit_skips_new_listeners (e : t) :
  distinct_records e ->
  (forall l, In l (_listeners e) -> legacy_matches eventName0 l = true ->
             forallb registration (H (handler l)) = true) ->
  LegacyEmitter.emit H eventName0 args e =
  mk (filter (fun l => negb (once l)) (_listeners e) ++
      records (next_lid e) (commands H eventName0 (_listeners e)))
     (List.length (commands H eventName0 (_listeners e)) + next_lid e)
     (calls e ++
      map (legacy_call eventName0 args) (filter (legacy_matches eventName0) (_listeners e))).
Proof.
  intros [Hnd Hlt] Hreg; destruct e as [ls n cs]; simpl in *.
  unfold LegacyEmitter.emit; simpl.
  pose proof (@forEach_registering ls [] [] [] n cs Hreg) as Hrun.
  simpl in Hrun; rewrite app_nil_r in Hrun; rewrite Hrun; clear Hrun.
  set (added := records n (commands H eventName0 ls)).
  unfold remove_all; simpl; f_equal.
  assert (Hnew : forall x, In x added -> n <= lid x)
    by (intros x Hx; now apply records_lids in Hx).
  rewrite remove_collected.
  - rewrite filter_app; f_equal.
    + apply filter_ext_in; intros y Hy; f_equal.
      destruct (once y) eqn:E.
      * apply existsb_exists; exists y; split; [|apply Nat.eqb_refl].
        apply filter_In; now split.
      * destruct (existsb _ _) eqn:Ex; [|reflexivity].
        apply existsb_exists in Ex as (x & Hx & Exy).
        apply filter_In in Hx as [Hx Ho]; apply Nat.eqb_eq in Exy.
        rewrite (@lid_inj ls y x Hnd Hy Hx Exy), Ho in E; discriminate.
    + apply forallb_filter_id, forallb_forall; intros y Hy.
      apply negb_true_iff; destruct (existsb _ _) eqn:Ex; [|reflexivity].
      apply existsb_exists in Ex as (x & Hx & Exy).
      apply filter_In in Hx as [Hx _]; apply Nat.eqb_eq in Exy.
      specialize (Hlt x Hx); specialize (Hnew y Hy); lia.
  - rewrite map_app; apply NoDup_app; [assumption | apply records_distinct |].
    intros i Hi Hi'; apply in_map_iff in Hi as (x & <- & Hx).
    apply in_map_iff in Hi' as (y & E & Hy).
    specialize (Hlt x Hx); specialize (Hnew y Hy); lia.
  - now apply NoDup_lid_filter.
  - intros x Hx; apply filter_In in Hx as [Hx _]; apply in_or_app; now left.
Qed.

End LegacyRegistration.

(** A listener on "tick" whose handler registers itself on "tick": the
    emission returns, the listener called once. *)
Lemma legacy_emit_skips_new_listeners_witness :
  LegacyEmitter.emit
    (fun k => if Nat.eqb k 7 then [Emitter.CallOn "tick" 7 false] else [])
    "tick" [] (Emitter.on "tick" 7 false Emitter.new_)
  = Emitter.mk
      (filter (fun l => negb (Emitter.once l))
              (Emitter._listeners (Emitter.on "tick" 7 false Emitter.new_)) ++
       Registering.records
         (Emitter.next_lid (Emitter.on "tick" 7 false Emitter.new_))
         (Registering.commands
            (fun k => if Nat.eqb k 7 then [Emitter.CallOn "tick" 7 false] else [])
            "tick" (Emitter._listeners (Emitter.on "tick" 7 false Emitter.new_))))
      (List.length
         (Registering.commands
            (fun k => if Nat.eqb k 7 then [Emitter.CallOn "tick" 7 false] else [])
            "tick" (Emitter._listeners (Emitter.on "tick" 7 false Emitter.new_)))
       + Emitter.next_lid (Emitter.on "tick" 7 false Emitter.new_))
      (Emitter.calls (Emitter.on "tick" 7 false Emitter.new_) ++
       map (Expected.legacy_call "tick" [])
           (filter (Expected.legacy_matches "tick")
                   (Emitter._listeners (Emitter.on "tick" 7 false Emitter.new_)))).
Proof.
  apply (@legacy_emit_skips_new_listeners
           (fun k => if Nat.eqb k 7 then [Emitter.CallOn "tick" 7 false] else [])
           "tick" [] (Emitter.on "tick" 7 false Emitter.new_)).
  - apply on_distinct, new_distinct.
  - intros l [<-|[]] _; reflexivity.
Defined.
